(** * AWX task core: callback pipeline, membership policies, heartbeat

    A shallow embedding of the parts of [awx/main/tasks/callback.py] and
    [awx/main/tasks/system.py] that carry the rate limiting of live events,
    the deferred field updates, the instance-group membership policies, the
    advisory locks and the cluster heartbeat, together with the properties
    established about them.

    Conventions.  Python dictionaries with a fixed set of keys are records
    whose optional keys are [option] fields; open dictionaries are [gmap]s;
    Python sets are [gset]s.  Methods that mutate [self] take the object and
    return the new one.  Readings of [time.time()] are passed in as exact
    rationals ([Q]); every concrete timestamp used below is a dyadic number,
    on which the double-precision arithmetic of the source is exact. *)

From Stdlib Require Import ZArith QArith Lqa Lia List String Ascii Sorting.Sorted Permutation.
From stdpp Require Import gmap strings list fin_maps pretty.

#[local] Set Warnings "-clear-no-such-hyp".

Local Open Scope string_scope.
Local Open Scope Z_scope.
Local Open Scope nat_scope.
Local Open Scope list_scope.

(** ** Python values and exceptions shared by the modules *)

Inductive pyval :=
| PNone
| PBool (b : bool)
| PInt (n : Z)
| PStr (s : string)
| PClass (name : string).

#[global] Instance pyval_eq_dec : EqDecision pyval.
Proof. solve_decision. Defined.

(** [str(v)] *)
Definition py_str (v : pyval) : string :=
  match v with
  | PNone => "None"
  | PBool true => "True"
  | PBool false => "False"
  | PInt n => pretty n
  | PStr s => s
  | PClass name => "<class '" +:+ name +:+ "'>"
  end.

(** Truth value of [v] in a condition. *)
Definition py_truthy (v : pyval) : bool :=
  match v with
  | PNone => false
  | PBool b => b
  | PInt n => negb (n =? 0)%Z
  | PStr s => negb (String.eqb s "")
  | PClass _ => true
  end.

(** [a == b] between values of these kinds: a string and a class are never
    equal. *)
Definition py_eq (a b : pyval) : bool := bool_decide (a = b).

(** [needle in hay] on two strings: [needle] occurs as a contiguous run. *)
Fixpoint str_in (needle hay : string) : bool :=
  String.prefix needle hay
  || match hay with
     | EmptyString => false
     | String _ rest => str_in needle rest
     end.

Definition newline : string := String (ascii_of_nat 10) EmptyString.

Inductive pyerr := KeyError | TypeError | AttributeError | RuntimeError | OtherError.

(** A call either returns or raises; both carry the state it leaves. *)
Inductive result (A : Type) :=
| Ok (a : A)
| Raise (e : pyerr) (a : A).
Arguments Ok {A} a.
Arguments Raise {A} e a.

Definition state_of {A} (r : result A) : A :=
  match r with Ok a => a | Raise _ a => a end.

Definition bind {A} (r : result A) (k : A -> result A) : result A :=
  match r with
  | Ok a => k a
  | Raise e a => Raise e a
  end.

(** ** [collections.deque(maxlen=n)] of timestamps, oldest first *)

Record deque := Deque { items : list Q; maxlen : nat }.

Definition deque_new (n : nat) : deque := Deque [] n.

(** [d.append(x)]: a bounded deque that is full drops its oldest item. *)
Definition deque_append (x : Q) (d : deque) : deque :=
  if (maxlen d =? 0)%nat then d
  else
    let l := items d ++ [x] in
    if (maxlen d <? length l)%nat then Deque (drop 1 l) (maxlen d) else Deque l (maxlen d).

Definition Qgtb (x y : Q) : bool := negb (Qle_bool x y).

Module Callback.

(** *** The event dictionary

    The value under [event_data], when the key is there: a dict, or
    anything else. *)
Inductive Payload :=
| Dict (d : gmap string pyval)
| NotDict (v : pyval).

(** The keys of [event_data] that [event_handler] and [finished_callback]
    read or write.  [job_reference] is the value under
    [self.event_data_key], a key that is none of the others.  Three keys
    have the name of an attribute of the callback, and are [event_guid],
    [event_job_created] and [event_host_map] here. *)
Record EventData := {
  event : option string;
  stdout : option string;
  start_line : option Z;
  end_line : option Z;
  event_data : option Payload;
  job_reference : option Z;
  skip_websocket_message : bool;
  parent_uuid : option string;
  workflow_job_id : option Z;
  event_job_created : option pyval;
  host_name : option string;
  host_id : option pyval;
  event_host_map : option (gmap string Z);
  final_counter : option nat;
  event_guid : option string;
}.

Definition set_event_data (p : option Payload) (e : EventData) : EventData :=
  {| event := event e; stdout := stdout e; start_line := start_line e;
     end_line := end_line e; event_data := p; job_reference := job_reference e;
     skip_websocket_message := skip_websocket_message e; parent_uuid := parent_uuid e;
     workflow_job_id := workflow_job_id e; event_job_created := event_job_created e;
     host_name := host_name e; host_id := host_id e; event_host_map := event_host_map e;
     final_counter := final_counter e; event_guid := event_guid e |}.

Definition set_job_reference (j : option Z) (e : EventData) : EventData :=
  {| event := event e; stdout := stdout e; start_line := start_line e;
     end_line := end_line e; event_data := event_data e; job_reference := j;
     skip_websocket_message := skip_websocket_message e; parent_uuid := parent_uuid e;
     workflow_job_id := workflow_job_id e; event_job_created := event_job_created e;
     host_name := host_name e; host_id := host_id e; event_host_map := event_host_map e;
     final_counter := final_counter e; event_guid := event_guid e |}.

Definition set_skip_websocket_message (b : bool) (e : EventData) : EventData :=
  {| event := event e; stdout := stdout e; start_line := start_line e;
     end_line := end_line e; event_data := event_data e;
     job_reference := job_reference e; skip_websocket_message := b;
     parent_uuid := parent_uuid e;
     workflow_job_id := workflow_job_id e; event_job_created := event_job_created e;
     host_name := host_name e; host_id := host_id e; event_host_map := event_host_map e;
     final_counter := final_counter e; event_guid := event_guid e |}.

Definition set_parent_uuid (u : option string) (e : EventData) : EventData :=
  {| event := event e; stdout := stdout e; start_line := start_line e;
     end_line := end_line e; event_data := event_data e;
     job_reference := job_reference e;
     skip_websocket_message := skip_websocket_message e; parent_uuid := u;
     workflow_job_id := workflow_job_id e; event_job_created := event_job_created e;
     host_name := host_name e; host_id := host_id e; event_host_map := event_host_map e;
     final_counter := final_counter e; event_guid := event_guid e |}.

Definition set_workflow_job_id (w : option Z) (e : EventData) : EventData :=
  {| event := event e; stdout := stdout e; start_line := start_line e;
     end_line := end_line e; event_data := event_data e;
     job_reference := job_reference e;
     skip_websocket_message := skip_websocket_message e; parent_uuid := parent_uuid e;
     workflow_job_id := w; event_job_created := event_job_created e;
     host_name := host_name e; host_id := host_id e; event_host_map := event_host_map e;
     final_counter := final_counter e; event_guid := event_guid e |}.

Definition set_event_job_created (c : option pyval) (e : EventData) : EventData :=
  {| event := event e; stdout := stdout e; start_line := start_line e;
     end_line := end_line e; event_data := event_data e;
     job_reference := job_reference e;
     skip_websocket_message := skip_websocket_message e; parent_uuid := parent_uuid e;
     workflow_job_id := workflow_job_id e; event_job_created := c;
     host_name := host_name e; host_id := host_id e; event_host_map := event_host_map e;
     final_counter := final_counter e; event_guid := event_guid e |}.

Definition set_host_name (h : option string) (e : EventData) : EventData :=
  {| event := event e; stdout := stdout e; start_line := start_line e;
     end_line := end_line e; event_data := event_data e;
     job_reference := job_reference e;
     skip_websocket_message := skip_websocket_message e; parent_uuid := parent_uuid e;
     workflow_job_id := workflow_job_id e; event_job_created := event_job_created e;
     host_name := h; host_id := host_id e; event_host_map := event_host_map e;
     final_counter := final_counter e; event_guid := event_guid e |}.

Definition set_host_id (h : option pyval) (e : EventData) : EventData :=
  {| event := event e; stdout := stdout e; start_line := start_line e;
     end_line := end_line e; event_data := event_data e;
     job_reference := job_reference e;
     skip_websocket_message := skip_websocket_message e; parent_uuid := parent_uuid e;
     workflow_job_id := workflow_job_id e; event_job_created := event_job_created e;
     host_name := host_name e; host_id := h; event_host_map := event_host_map e;
     final_counter := final_counter e; event_guid := event_guid e |}.

Definition set_event_host_map (m : option (gmap string Z)) (e : EventData) : EventData :=
  {| event := event e; stdout := stdout e; start_line := start_line e;
     end_line := end_line e; event_data := event_data e;
     job_reference := job_reference e;
     skip_websocket_message := skip_websocket_message e; parent_uuid := parent_uuid e;
     workflow_job_id := workflow_job_id e; event_job_created := event_job_created e;
     host_name := host_name e; host_id := host_id e; event_host_map := m;
     final_counter := final_counter e; event_guid := event_guid e |}.

(** *** The callback object

    [wrapup_event_type] and [event_data_key] are the cached properties
    [instance.event_class.WRAPUP_EVENT] and [JOB_REFERENCE];
    [for_project_update] is
    [isinstance(self, RunnerCallbackForProjectUpdate)]. *)
Record RunnerCallback := {
  instance_id : Z;
  wrapup_event_type : string;
  event_data_key : string;
  for_project_update : bool;
  parent_workflow_job_id : option Z;
  host_map : gmap string Z;
  guid : string;
  job_created : pyval;
  recent_event_timings : deque;
  dispatcher : list EventData;
  event_ct : nat;
  wrapup_event_dispatched : bool;
  extra_update_fields : gmap string pyval;
}.

(** [RunnerCallback.__init__], with [settings.MAX_WEBSOCKET_EVENT_RATE], and
    then the attributes that the task sets on the callback before the run:
    those of the job it is attached to, the key of its event class, whether
    it is the callback of a project update, the workflow it belongs to, the
    map of its hosts and its creation time. *)
Definition init (MAX_WEBSOCKET_EVENT_RATE : nat) (inst : Z) (wrapup g : string)
    (key : string) (project_update : bool) (parent : option Z) (hosts : gmap string Z)
    (created : pyval) : RunnerCallback :=
  {| instance_id := inst; wrapup_event_type := wrapup; event_data_key := key;
     for_project_update := project_update; parent_workflow_job_id := parent;
     host_map := hosts; guid := g; job_created := created;
     recent_event_timings := deque_new MAX_WEBSOCKET_EVENT_RATE;
     dispatcher := []; event_ct := 0; wrapup_event_dispatched := false;
     extra_update_fields := ∅ |}.

Definition set_recent_event_timings (d : deque) (s : RunnerCallback) : RunnerCallback :=
  {| instance_id := instance_id s; wrapup_event_type := wrapup_event_type s;
     event_data_key := event_data_key s; for_project_update := for_project_update s;
     parent_workflow_job_id := parent_workflow_job_id s; host_map := host_map s;
     guid := guid s; job_created := job_created s;
     recent_event_timings := d; dispatcher := dispatcher s;
     event_ct := event_ct s; wrapup_event_dispatched := wrapup_event_dispatched s;
     extra_update_fields := extra_update_fields s |}.

Definition set_wrapup_event_dispatched (b : bool) (s : RunnerCallback) : RunnerCallback :=
  {| instance_id := instance_id s; wrapup_event_type := wrapup_event_type s;
     event_data_key := event_data_key s; for_project_update := for_project_update s;
     parent_workflow_job_id := parent_workflow_job_id s; host_map := host_map s;
     guid := guid s; job_created := job_created s;
     recent_event_timings := recent_event_timings s;
     dispatcher := dispatcher s; event_ct := event_ct s;
     wrapup_event_dispatched := b; extra_update_fields := extra_update_fields s |}.

Definition set_extra_update_fields (f : gmap string pyval) (s : RunnerCallback) : RunnerCallback :=
  {| instance_id := instance_id s; wrapup_event_type := wrapup_event_type s;
     event_data_key := event_data_key s; for_project_update := for_project_update s;
     parent_workflow_job_id := parent_workflow_job_id s; host_map := host_map s;
     guid := guid s; job_created := job_created s;
     recent_event_timings := recent_event_timings s;
     dispatcher := dispatcher s; event_ct := event_ct s;
     wrapup_event_dispatched := wrapup_event_dispatched s; extra_update_fields := f |}.

(** [self.dispatcher.dispatch(event_data)] *)
Definition dispatcher_dispatch (e : EventData) (s : RunnerCallback) : RunnerCallback :=
  {| instance_id := instance_id s; wrapup_event_type := wrapup_event_type s;
     event_data_key := event_data_key s; for_project_update := for_project_update s;
     parent_workflow_job_id := parent_workflow_job_id s; host_map := host_map s;
     guid := guid s; job_created := job_created s;
     recent_event_timings := recent_event_timings s;
     dispatcher := dispatcher s ++ [e]; event_ct := event_ct s;
     wrapup_event_dispatched := wrapup_event_dispatched s;
     extra_update_fields := extra_update_fields s |}.

(** [self.dispatcher.dispatch(event_data); self.event_ct += 1] *)
Definition dispatch (e : EventData) (s : RunnerCallback) : RunnerCallback :=
  {| instance_id := instance_id s; wrapup_event_type := wrapup_event_type s;
     event_data_key := event_data_key s; for_project_update := for_project_update s;
     parent_workflow_job_id := parent_workflow_job_id s; host_map := host_map s;
     guid := guid s; job_created := job_created s;
     recent_event_timings := recent_event_timings s;
     dispatcher := dispatcher s ++ [e]; event_ct := S (event_ct s);
     wrapup_event_dispatched := wrapup_event_dispatched s;
     extra_update_fields := extra_update_fields s |}.

(** *** [delay_update] *)

Definition merged_fields : list string := ["job_explanation"; "result_traceback"].

(** One iteration of the loop over [kwargs.items()]. *)
Definition delay_update_item (skip_if_already_set : bool) (fields : gmap string pyval)
    (key : string) (value : pyval) : result (gmap string pyval) :=
  match fields !! key with
  | Some old =>
      if skip_if_already_set then Ok fields
      else if bool_decide (key ∈ merged_fields) then
        match old with
        | PStr o =>
            if str_in (py_str value) o then Ok fields
            else Ok (<[key := PStr (py_str old +:+ newline +:+ py_str value)]> fields)
        | _ => Raise TypeError fields
        end
      else Ok (<[key := value]> fields)
  | None => Ok (<[key := value]> fields)
  end.

Fixpoint delay_update_fields (skip_if_already_set : bool) (kwargs : list (string * pyval))
    (fields : gmap string pyval) : result (gmap string pyval) :=
  match kwargs with
  | [] => Ok fields
  | (key, value) :: rest =>
      bind (delay_update_item skip_if_already_set fields key value)
           (delay_update_fields skip_if_already_set rest)
  end.

Definition delay_update (skip_if_already_set : bool) (kwargs : list (string * pyval))
    (self : RunnerCallback) : result RunnerCallback :=
  match delay_update_fields skip_if_already_set kwargs (extra_update_fields self) with
  | Ok f => Ok (set_extra_update_fields f self)
  | Raise e f => Raise e (set_extra_update_fields f self)
  end.

(** *** [status_handler], the branch for [status == 'error']

    The [starting] branch saves the job arguments through [update_model]
    and stages nothing; any other status does nothing. *)
Fixpoint stage_error_fields (names : list string) (status_data : gmap string pyval)
    (self : RunnerCallback) : result RunnerCallback :=
  match names with
  | [] => Ok self
  | field_name :: rest =>
      let field_value := default PNone (status_data !! field_name) in
      if py_truthy field_value then
        bind (delay_update false [(field_name, field_value)] self)
             (stage_error_fields rest status_data)
      else stage_error_fields rest status_data self
  end.

Definition status_handler (status_data : gmap string pyval) (self : RunnerCallback)
    : result RunnerCallback :=
  match status_data !! "status" with
  | None => Raise KeyError self
  | Some st =>
      if bool_decide (st = PStr "starting") then Ok self
      else if bool_decide (st = PStr "error") then
        stage_error_fields ["result_traceback"; "job_explanation"] status_data self
      else Ok self
  end.

(** *** [event_handler]

    [MINIMAL_EVENTS] is imported from [awx.main.constants]; it is a
    parameter here.  [cpu_time] is the reading of [time.time()] made by the
    call. *)

(** [str.strip()]: the whitespace at both ends is removed.  A character of
    the model is a code point below 256; those that [str.isspace] accepts
    are 9 to 13, 28 to 32, 133 and 160. *)
Definition is_space (c : ascii) : bool :=
  let n := nat_of_ascii c in
  ((9 <=? n) && (n <=? 13) || (28 <=? n) && (n <=? 32) || (n =? 133) || (n =? 160))%nat.

Fixpoint lstrip (s : string) : string :=
  match s with
  | EmptyString => EmptyString
  | String c rest => if is_space c then lstrip rest else s
  end.

Definition strip (s : string) : string :=
  String.rev (lstrip (String.rev (lstrip s))).

(** The task names of line 183. *)
Definition scm_tasks : list string :=
  ["git"; "svn"; "ansible.builtin.git"; "ansible.builtin.svn"].

Section EventHandler.
Variable MINIMAL_EVENTS : gset string.
(** [json.loads(UriCleaner.remove_sensitive(json.dumps(event_data)))], of
    [awx.main.redact] and [json]: the redacted copy of the event, [None]
    when the redacted text is not JSON any more ([json.JSONDecodeError]), or
    an exception that line 187 does not catch. *)
Variable redact : EventData → pyerr + option EventData.

Inductive outcome :=
| Return_None (self : RunnerCallback)
| Return_False (self : RunnerCallback)
| Raises (e : pyerr) (self : RunnerCallback).

Definition after (o : outcome) : RunnerCallback :=
  match o with Return_None s | Return_False s | Raises _ s => s end.

Definition any (l : list bool) : bool := existsb id l.

Definition in_minimal_events (e : option string) : bool :=
  match e with
  | Some name => bool_decide (name ∈ MINIMAL_EVENTS)
  | None => false
  end.

(** Line 160, [event_data.get('event_data', {}).get('host', '').strip()]:
    a nested payload that is not a dict has no [get], and a host that is
    not a string has no [strip]. *)
Definition host_of (ev : EventData) : pyerr + string :=
  match event_data ev with
  | None => inr (strip "")
  | Some (NotDict _) => inl AttributeError
  | Some (Dict p) =>
      match p !! "host" with
      | None => inr (strip "")
      | Some (PStr host) => inr (strip host)
      | Some _ => inl AttributeError
      end
  end.

(** Lines 153-158: the keys that link the event to its job and its
    workflow. *)
Definition link_job (self : RunnerCallback) (ev : EventData) : EventData :=
  let ev :=
    if match job_reference ev with Some j => negb (j =? 0)%Z | None => false end
       && negb (bool_decide (event_data_key self = "job_id"))
    then set_parent_uuid None ev else ev in
  let ev :=
    match parent_workflow_job_id self with
    | Some w => if (w =? 0)%Z then ev else set_workflow_job_id (Some w) ev
    | None => ev
    end in
  set_event_job_created (Some (job_created self)) ev.

(** Lines 161-169: the name and the key of the host, and the map of the
    hosts on the event that closes the playbook. *)
Definition link_host (self : RunnerCallback) (host : string) (ev : EventData) : EventData :=
  let ev :=
    if negb (String.eqb host "") then
      let ev := set_host_name (Some host) ev in
      match host_map self !! host with
      | Some id => set_host_id (Some (PInt id)) ev
      | None => ev
      end
    else set_host_id (Some (PStr "")) (set_host_name (Some "") ev) in
  if bool_decide (event ev = Some "playbook_on_stats")
  then set_event_host_map (Some (host_map self)) ev else ev.

(** Lines 153-169. *)
Definition enrich (self : RunnerCallback) (ev : EventData) : pyerr + EventData :=
  let ev := link_job self ev in
  match host_of ev with
  | inl e => inl e
  | inr host => inr (link_host self host ev)
  end.

(** Line 181 and the test of line 183: the task of the event is one of the
    source-control modules. *)
Definition task_action (ev : EventData) : pyerr + pyval :=
  match event_data ev with
  | None => inr PNone
  | Some (Dict p) => inr (default PNone (p !! "task_action"))
  | Some (NotDict _) => inl AttributeError
  end.

Definition is_scm_task (task : pyval) : bool :=
  match task with
  | PStr name => bool_decide (name ∈ scm_tasks)
  | _ => false
  end.

(** Lines 171-188: the events of the source-control tasks of a project
    update are replaced by their redacted copy. *)
Definition redact_scm (self : RunnerCallback) (ev : EventData) : pyerr + EventData :=
  if for_project_update self then
    match task_action ev with
    | inl e => inl e
    | inr task =>
        if is_scm_task task then
          match redact ev with
          | inl e => inl e
          | inr None => inr ev
          | inr (Some redacted) => inr redacted
          end
        else inr ev
    end
  else inr ev.

(** Lines 190-191: the guid goes into the nested payload when there is one;
    a payload that is not a dict takes no item. *)
Definition write_guid (self : RunnerCallback) (ev : EventData) : pyerr + EventData :=
  match event_data ev with
  | None => inr ev
  | Some (Dict p) => inr (set_event_data (Some (Dict (<["guid" := PStr (guid self)]> p))) ev)
  | Some (NotDict _) => inl TypeError
  end.

(** Lines 153-191, what comes before the rate limiter. *)
Definition prepare (self : RunnerCallback) (ev : EventData) : pyerr + EventData :=
  match enrich self ev with
  | inl e => inl e
  | inr ev =>
      match redact_scm self ev with
      | inl e => inl e
      | inr ev => write_guid self ev
      end
  end.

(** The three rate tests of lines 204-213.  The source computes them in
    double precision.  Two readings of [time.time()] are doubles of the same
    binade (every time from 2004 to 2038 lies between [2^30] and [2^31]
    seconds), so their difference is a double, and so is its product by the
    capacity as long as it stays below [2^31]; correctly rounded arithmetic
    returns them as they are, and on such readings the exact tests below are
    the tests of the source. *)
Definition rate_tests (cpu_time first_window_time last_window_time : Q) (d : deque) : list bool :=
  [ Qgtb (cpu_time - first_window_time) 1;
    Qgtb (inject_Z (Z.of_nat (maxlen d)) * (cpu_time - last_window_time)) 1;
    negb (length (items d) =? maxlen d)%nat ].

(** Lines 199-213: the value of [should_emit], or the [KeyError] of a
    missing [start_line] or [end_line]. *)
Definition should_emit (cpu_time first_window_time last_window_time : Q) (d : deque)
    (ev : EventData) : pyerr + bool :=
  if in_minimal_events (event ev) then inr true
  else if bool_decide (stdout ev = Some "") then
    match start_line ev, end_line ev with
    | Some s, Some e =>
        if bool_decide (s = e) then inr false
        else inr (any (rate_tests cpu_time first_window_time last_window_time d))
    | _, _ => inl KeyError
    end
  else inr (any (rate_tests cpu_time first_window_time last_window_time d)).

(** Lines 193-222. *)
Definition throttle (cpu_time : Q) (ev : EventData) (d : deque) : pyerr + (EventData * deque) :=
  match items d with
  | first_window_time :: _ =>
      let last_window_time := List.last (items d) first_window_time in
      match should_emit cpu_time first_window_time last_window_time d ev with
      | inl e => inl e
      | inr true => inr (ev, deque_append cpu_time d)
      | inr false =>
          let ev := match event_data ev with
                    | None => set_event_data (Some (Dict ∅)) ev
                    | Some _ => ev
                    end in
          inr (set_skip_websocket_message true ev, d)
      end
  | [] =>
      if negb (maxlen d =? 0)%nat then inr (ev, deque_append cpu_time d)
      else inr (ev, d)
  end.

(** Line 234, [event_data.get('event_data', {}).get('artifact_data', {})];
    the empty dict of the defaults is as false as [None]. *)
Definition artifact_data (ev : EventData) : pyerr + pyval :=
  match event_data ev with
  | None => inr PNone
  | Some (Dict p) => inr (default PNone (p !! "artifact_data"))
  | Some (NotDict _) => inl AttributeError
  end.

Definition event_handler (cpu_time : Q) (ev : EventData) (self : RunnerCallback) : outcome :=
  if bool_decide (event ev = Some "keepalive") then Return_None self
  else
    match prepare self ev with
    | inl e => Raises e self
    | inr ev =>
        match throttle cpu_time ev (recent_event_timings self) with
        | inl e => Raises e self
        | inr (ev, timings) =>
            let self := set_recent_event_timings timings self in
            let self :=
              if bool_decide (default "" (event ev) = wrapup_event_type self)
              then set_wrapup_event_dispatched true self else self in
            let ev := match job_reference ev with
                      | None => set_job_reference (Some (instance_id self)) ev
                      | Some _ => ev
                      end in
            let self := dispatch ev self in
            match artifact_data ev with
            | inl e => Raises e self
            | inr artifacts =>
                if py_truthy artifacts then
                  match delay_update false [("artifacts", artifacts)] self with
                  | Ok self => Return_False self
                  | Raise e self => Raises e self
                  end
                else Return_False self
            end
        end
    end.

(** What the call handed to the dispatcher, if it did. *)
Definition dispatched_by (o : outcome) : option EventData :=
  match o with
  | Return_False self' => last (dispatcher self')
  | _ => None
  end.

(** A job's stream: the handler is called once per event, each call with its
    own clock reading.  [timeline] lists what reached the dispatcher, with
    the clock reading of the call that sent it. *)
Fixpoint run (inputs : list (Q * EventData)) (self : RunnerCallback) : RunnerCallback :=
  match inputs with
  | [] => self
  | (cpu_time, ev) :: rest => run rest (after (event_handler cpu_time ev self))
  end.

Fixpoint timeline (inputs : list (Q * EventData)) (self : RunnerCallback)
    : list (Q * EventData) :=
  match inputs with
  | [] => []
  | (cpu_time, ev) :: rest =>
      let o := event_handler cpu_time ev self in
      match dispatched_by o with
      | Some sent => (cpu_time, sent) :: timeline rest (after o)
      | None => timeline rest (after o)
      end
  end.

(** An entry of the timeline went to the live channel when it does not carry
    the skip flag; it is throttled traffic when its type is not one of the
    always-emitted ones. *)
Definition live (entry : Q * EventData) : bool :=
  negb (skip_websocket_message entry.2).

Definition in_window (w : Q) (entry : Q * EventData) : bool :=
  Qle_bool w entry.1 && Qle_bool entry.1 (w + 1).

Definition live_in_window (w : Q) (tl : list (Q * EventData)) : nat :=
  length (List.filter (λ entry, live entry && negb (in_minimal_events (event entry.2))
                                       && in_window w entry) tl).

End EventHandler.

End Callback.

(** ** Instance groups: [apply_cluster_membership_policies] *)

(** [sorted(l, key=key)]: ascending and stable. *)
Fixpoint insert_by {A} (key : A → Z) (x : A) (l : list A) : list A :=
  match l with
  | [] => [x]
  | y :: l' => if (key x <=? key y)%Z then x :: l else y :: insert_by key x l'
  end.

Definition sorted {A} (key : A → Z) (l : list A) : list A :=
  foldr (insert_by key) [] l.

(** The order [sorted] produces: keys ascending and, among equal keys, the
    order [R] the input had. *)
Definition key_then {A} (key : A → Z) (R : A → A → Prop) (a b : A) : Prop :=
  (key a < key b)%Z ∨ (key a = key b ∧ R a b).

(** [enumerate(l)]: a list of mutable objects is a store indexed by position. *)
Definition enumerate {A} (l : list A) : list (nat * A) := imap pair l.

Module Membership.

Inductive NodeType := control | execution | hybrid | hop.

#[global] Instance NodeType_eq_dec : EqDecision NodeType.
Proof. solve_decision. Defined.

(** Rows of [Instance], with the columns the task reads. *)
Module Instance.
Record t := mk {
  id : Z;
  hostname : string;
  node_type : NodeType;
  managed_by_policy : bool;
}.
End Instance.

(** Rows of [InstanceGroup]; [instances] is the many-to-many relation, a set
    of instance keys. *)
Module InstanceGroup.
Record t := mk {
  id : Z;
  name : string;
  policy_instance_list : list string;
  policy_instance_minimum : Z;
  policy_instance_percentage : Z;
  is_container_group : bool;
  instances : gset Z;
}.
Definition set_instances (s : gset Z) (ig : t) : t :=
  mk (id ig) (name ig) (policy_instance_list ig) (policy_instance_minimum ig)
     (policy_instance_percentage ig) (is_container_group ig) s.
End InstanceGroup.

(** [Group = namedtuple('Group', ['obj', 'instances', 'prior_instances'])] *)
Module Group.
Record t := mk {
  obj : InstanceGroup.t;
  instances : list Z;
  prior_instances : list Z;
}.
End Group.

(** [Node = namedtuple('Instance', ['obj', 'groups'])] *)
Module Node.
Record t := mk {
  obj : Instance.t;
  groups : list Z;
}.
End Node.

Record Database := {
  Instance_objects : list Instance.t;
  InstanceGroup_objects : list InstanceGroup.t;
}.

Section Policies.
(** [settings.DEFAULT_CONTROL_PLANE_QUEUE_NAME] *)
Variable DEFAULT_CONTROL_PLANE_QUEUE_NAME : string.

(** [Instance.objects.exclude(node_type='hop').order_by('id')] *)
Definition all_instances (db : Database) : list Instance.t :=
  sorted Instance.id
    (List.filter (λ i, negb (bool_decide (Instance.node_type i = hop))) (Instance_objects db)).

Definition all_groups (db : Database) : list InstanceGroup.t := InstanceGroup_objects db.

(** [{inst.hostname: inst for inst in all_instances}] *)
Definition instance_hostnames_map (insts : list Instance.t) : gmap string Instance.t :=
  foldl (λ m inst, <[Instance.hostname inst := inst]> m) ∅ insts.

(** The loop over [ig.policy_instance_list]. *)
Fixpoint policy_list (m : gmap string Instance.t) (hostnames : list string)
    (instances : list Z) : list Z :=
  match hostnames with
  | [] => instances
  | hostname :: rest =>
      match m !! hostname with
      | None => policy_list m rest instances
      | Some inst => policy_list m rest (instances ++ [Instance.id inst])
      end
  end.

Definition group_actual (m : gmap string Instance.t) (ig : InstanceGroup.t) : Group.t :=
  Group.mk ig (policy_list m (InstanceGroup.policy_instance_list ig) [])
           (elements (InstanceGroup.instances ig)).

(** The two lists of mutable tuples, [actual_groups] and [actual_instances]. *)
Definition store : Type := list Group.t * list Node.t.

Definition group_instances (gi : nat) (gs : list Group.t) : list Z :=
  match gs !! gi with
  | Some g => Group.instances g
  | None => []
  end.

(** [g.instances.append(x)] for the group at position [gi] *)
Definition append_instance (gi : nat) (x : Z) (gs : list Group.t) : list Group.t :=
  alter (λ g, Group.mk (Group.obj g) (Group.instances g ++ [x]) (Group.prior_instances g)) gi gs.

(** [i.groups.append(x)] for the node at position [ni] *)
Definition append_group (ni : nat) (x : Z) (ns : list Node.t) : list Node.t :=
  alter (λ i, Node.mk (Node.obj i) (Node.groups i ++ [x])) ni ns.

Definition exclude_type (ig : InstanceGroup.t) : NodeType :=
  if bool_decide (InstanceGroup.name ig = DEFAULT_CONTROL_PLANE_QUEUE_NAME)
  then execution else control.

Definition by_len_instances (x : nat * Group.t) : Z := Z.of_nat (length (Group.instances x.2)).
Definition by_len_groups (x : nat * Node.t) : Z := Z.of_nat (length (Node.groups x.2)).

(** Lines 234-245, for the group [g] at position [gi]; [order] is the
    sorted snapshot of the nodes. *)
Fixpoint policy_minimum_loop (gi : nat) (g : InstanceGroup.t) (order : list (nat * Node.t))
    (st : store) : store :=
  match order with
  | [] => st
  | (ni, i) :: rest =>
      if bool_decide (Instance.node_type (Node.obj i) = exclude_type g) then
        policy_minimum_loop gi g rest st
      else if (InstanceGroup.policy_instance_minimum g
               <=? Z.of_nat (length (group_instances gi st.1)))%Z then st
      else if bool_decide (Instance.id (Node.obj i) ∈ group_instances gi st.1) then
        policy_minimum_loop gi g rest st
      else
        policy_minimum_loop gi g rest
          (append_instance gi (Instance.id (Node.obj i)) st.1,
           append_group ni (InstanceGroup.id g) st.2)
  end.

Definition policy_minimum_group (st : store) (x : nat * Group.t) : store :=
  policy_minimum_loop x.1 (Group.obj x.2) (sorted by_len_groups (enumerate st.2)) st.

(** Lines 231-247. *)
Definition policy_minimum (st : store) : store :=
  foldl policy_minimum_group st (sorted by_len_instances (enumerate st.1)).

Definition candidate_pool_ct (g : InstanceGroup.t) (ns : list Node.t) : nat :=
  length (List.filter (λ i, negb (bool_decide (Instance.node_type (Node.obj i) = exclude_type g))) ns).

(** Lines 256-267.  The test of line 263 compares [100 * len / pool] with
    the percentage; as a comparison of exact fractions it is
    [percentage * pool <= 100 * len]. *)
Fixpoint policy_percentage_loop (gi : nat) (g : InstanceGroup.t) (pool : nat)
    (order : list (nat * Node.t)) (st : store) : store :=
  match order with
  | [] => st
  | (ni, i) :: rest =>
      if bool_decide (Instance.node_type (Node.obj i) = exclude_type g) then
        policy_percentage_loop gi g pool rest st
      else if bool_decide (Instance.id (Node.obj i) ∈ group_instances gi st.1) then
        policy_percentage_loop gi g pool rest st
      else if (InstanceGroup.policy_instance_percentage g * Z.of_nat pool
               <=? 100 * Z.of_nat (length (group_instances gi st.1)))%Z then st
      else
        policy_percentage_loop gi g pool rest
          (append_instance gi (Instance.id (Node.obj i)) st.1,
           append_group ni (InstanceGroup.id g) st.2)
  end.

Definition policy_percentage_group (st : store) (x : nat * Group.t) : store :=
  let pool := candidate_pool_ct (Group.obj x.2) st.2 in
  if (pool =? 0)%nat then st
  else policy_percentage_loop x.1 (Group.obj x.2) pool
         (sorted by_len_groups (enumerate st.2)) st.

(** Lines 250-269. *)
Definition policy_percentage (st : store) : store :=
  foldl policy_percentage_group st (sorted by_len_instances (enumerate st.1)).

(** Lines 201-269: the tuples after the three passes. *)
Definition initial_store (db : Database) : store :=
  (group_actual (instance_hostnames_map (all_instances db)) <$> all_groups db,
   (λ i, Node.mk i []) <$> List.filter Instance.managed_by_policy (all_instances db)).

Definition computed (db : Database) : store :=
  policy_percentage (policy_minimum (initial_store db)).

(** Lines 272-276. *)
Definition differs (g : Group.t) : bool :=
  negb (bool_decide ((list_to_set (Group.instances g) : gset Z)
                     = list_to_set (Group.prior_instances g))).

Definition needs_change (gs : list Group.t) : bool := existsb differs gs.

Definition instances_to_add (g : Group.t) : gset Z :=
  list_to_set (Group.instances g) ∖ list_to_set (Group.prior_instances g).

Definition instances_to_remove (g : Group.t) : gset Z :=
  list_to_set (Group.prior_instances g) ∖ list_to_set (Group.instances g).

(** Lines 284-295, one group: the row after [add] and [remove]. *)
Definition apply_group (g : Group.t) : InstanceGroup.t :=
  let ig := Group.obj g in
  if InstanceGroup.is_container_group ig then ig
  else
    let members := InstanceGroup.instances ig in
    let members := if bool_decide (instances_to_add g = ∅) then members
                   else members ∪ instances_to_add g in
    let members := if bool_decide (instances_to_remove g = ∅) then members
                   else members ∖ instances_to_remove g in
    InstanceGroup.set_instances members ig.

(** The calls of [g.obj.instances.add] and [g.obj.instances.remove] made,
    each with the key of its group. *)
Inductive change :=
| Add (group : Z) (keys : gset Z)
| Remove (group : Z) (keys : gset Z).

Definition group_changes (g : Group.t) : list change :=
  let ig := Group.obj g in
  if InstanceGroup.is_container_group ig then []
  else
    (if bool_decide (instances_to_add g = ∅) then []
     else [Add (InstanceGroup.id ig) (instances_to_add g)])
    ++ (if bool_decide (instances_to_remove g = ∅) then []
        else [Remove (InstanceGroup.id ig) (instances_to_remove g)]).

Record run := {
  detected_change : bool;
  changes : list change;
  database : Database;
}.

(** The body of [apply_cluster_membership_policies], inside the lock. *)
Definition cluster_membership_policies (db : Database) : run :=
  let actual_groups := (computed db).1 in
  if negb (needs_change actual_groups) then
    {| detected_change := false; changes := []; database := db |}
  else
    {| detected_change := true;
       changes := concat (group_changes <$> actual_groups);
       database := {| Instance_objects := Instance_objects db;
                      InstanceGroup_objects := apply_group <$> actual_groups |} |}.

End Policies.

End Membership.

(** ** Advisory locks: the two lock-guarded tasks *)

Module Locks.

(** [advisory_lock(name, wait=...)] of django-ansible-base, seen from one
    caller: [held t] tells whether another session holds the lock at the
    [t]-th instant after the call.  With [wait=False] the call answers at
    once, with [True] when the lock was free.  With [wait=True] it waits for
    the first instant at which the lock is free; a caller followed for
    [patience] instants that is still waiting has no answer.  The answer is
    the time waited and the value bound by [as acquired]. *)
Fixpoint wait_until_free (held : nat → bool) (t patience : nat) : option nat :=
  match patience with
  | 0 => None
  | S patience' => if held t then wait_until_free held (S t) patience' else Some t
  end.

Definition advisory_lock (wait : bool) (held : nat → bool) (patience : nat)
    : option (nat * bool) :=
  if wait then (λ t, (t, true)) <$> wait_until_free held 0 patience
  else Some (0, negb (held 0)).

Inductive cycle (A : Type) :=
| Ran (waited : nat) (result : A)
| Skipped
| Waiting.
Arguments Ran {A} waited result.
Arguments Skipped {A}.
Arguments Waiting {A}.

(** [apply_cluster_membership_policies]: lines 191-198 take
    [cluster_policy_lock] with [wait=True] and do not look at what the
    context manager yields. *)
Definition apply_cluster_membership_policies (DEFAULT_CONTROL_PLANE_QUEUE_NAME : string)
    (held : nat → bool) (patience : nat) (db : Membership.Database)
    : cycle Membership.run :=
  match advisory_lock true held patience with
  | Some (lock_time, _) =>
      Ran lock_time
        (Membership.cluster_membership_policies DEFAULT_CONTROL_PLANE_QUEUE_NAME db)
  | None => Waiting
  end.

(** [awx_periodic_scheduler]: lines 762-765 take
    [awx_periodic_scheduler_lock] with [wait=False] and return when
    [acquired is False]; [body] stands for the rest of the task. *)
Definition awx_periodic_scheduler {S : Type} (body : S → S)
    (held : nat → bool) (patience : nat) (state : S) : cycle S :=
  match advisory_lock false held patience with
  | Some (_, false) => Skipped
  | Some (lock_time, true) => Ran lock_time (body state)
  | None => Waiting
  end.

End Locks.

(** ** The heartbeat: [cluster_node_heartbeat] *)

Module Heartbeat.

Inductive NodeType := control | execution | hybrid | hop.
Inductive NodeState := provisioning | installed | ready | unavailable | deprovisioning.

#[global] Instance NodeType_eq_dec : EqDecision NodeType.
Proof. solve_decision. Defined.
#[global] Instance NodeState_eq_dec : EqDecision NodeState.
Proof. solve_decision. Defined.

(** Rows of [Instance] with the columns the heartbeat reads; times are
    seconds. *)
Record Instance := {
  hostname : string;
  node_type : NodeType;
  node_state : NodeState;
  capacity : Z;
  enabled : bool;
  last_seen : option Z;
  last_health_check : option Z;
  version : string;
}.

Definition set_last_seen (t : option Z) (i : Instance) : Instance :=
  {| hostname := hostname i; node_type := node_type i; node_state := node_state i;
     capacity := capacity i; enabled := enabled i; last_seen := t;
     last_health_check := last_health_check i; version := version i |}.

(** [e.__cause__] of a [DatabaseError]: nothing, an object without the
    attribute [sqlstate], or an object whose [sqlstate] is the given value (a
    string, or [None]). *)
Inductive cause :=
| NoCause
| WithoutSqlstate
| WithSqlstate (sqlstate : pyval).

(** What [delete] or [mark_offline] does on a row. *)
Inductive fault :=
| NoFault
| DatabaseError (c : cause)
| OtherException.

Inductive message :=
| HeartbeatTask
| UnrecognizedNode (h : string)
| HopRejoined (h : string)
| ExecutionRejoin (h : string)
| RestartingHealthCheck (h : string)
| Rejoining (h : string)
| NoLastSeen
| HeartbeatSkew
| Recreated (h : string)
| NewerVersion (h : string)
| FailedToReap (h : string)
| Deprovisioned (h : string)
| MarkedLost (h : string)
| SqlErrorState (sqlstate class : pyval)
| AnotherInstanceMarked (h : string)
| ErrorMarking (h : string)
| NoSqlState (h : string).

Inductive effect :=
| LogDebug (m : message)
| LogInfo (m : message)
| LogWarning (m : message)
| LogError (m : message)
| LogException (m : message)
| InspectLinks
| SaveLastSeen (h : string)
| SaveHealthData (h : string)
| HealthCheckAsync (h : string)
| LocalHealthCheck (h : string)
| Register
| StopLocalServices
| Reap (h : string)
| ReapWaiting (h : string)
| Delete (h : string)
| MarkOffline (h : string)
| Failed (e : effect)
| LocalReap (excluded : list string)
| LocalReapWaiting (excluded : list string).

Inductive outcome := Returned | Raised (e : pyerr).

(** [psycopg.errors.NoData] is an exception class. *)
Definition psycopg_errors_NoData : pyval := PClass "psycopg.errors.NoData".

Section Task.
(** Settings. *)
Variable CLUSTER_HOST_ID : string.
Variable AWX_AUTO_DEPROVISION_INSTANCES : bool.
Variable CLUSTER_NODE_HEARTBEAT_PERIOD : Z.
Variable EXECUTION_NODE_REMEDIATION_CHECKS : Z.
Variable DEBUG : bool.
Variable awx_application_version : string.
(** Methods of [Instance] and helpers defined outside the two files. *)
Variable is_lost : Z → Instance → bool.
Variable local_health_check : Instance → Instance.
Variable save_health_data : Instance → Instance.
Variable register : bool * Instance.
(** [Version(a.split('-', 1)[0]) > Version(b.split('-', 1)[0])], with
    [distutils]' [LooseVersion]; [None] when the comparison raises
    [TypeError] (a numeric component of one version against a textual
    component of the other). *)
Variable version_newer : string → string → option bool.
Variable is_runner_version : string → bool.
(** The table of [psycopg.errors.lookup]. *)
Variable sqlcodes : gmap string pyval.
(** What the calls on the outside do in this cycle. *)
Variable reap_raises : Instance → bool.
Variable reap_waiting_raises : Instance → bool.
Variable write_fault : Instance → fault.

(** [psycopg.errors.lookup(sqlstate)]: [_sqlcodes[sqlstate.upper()]];
    SQLSTATE codes are upper case. *)
Definition psycopg_errors_lookup (sqlstate : pyval) : pyerr + pyval :=
  match sqlstate with
  | PStr code =>
      match sqlcodes !! code with
      | Some class => inr class
      | None => inl KeyError
      end
  | _ => inl AttributeError
  end.

(** [node_lookup[hostname]]: the last instance of the list with that name. *)
Definition node_lookup (instance_list : list Instance) (h : string) : option nat :=
  fst <$> last (List.filter (λ x : nat * Instance, bool_decide (hostname x.2 = h))
                            (enumerate instance_list)).

(** Lines 559-597, one advertisement [(NodeID, Time)]. *)
Definition inspect_advertisement (nowtime : Z) (st : list effect * list Instance)
    (ad : string * Z) : list effect * list Instance :=
  let '(fx, instance_list) := st in
  match node_lookup instance_list ad.1 with
  | None => (fx ++ [LogWarning (UnrecognizedNode ad.1)], instance_list)
  | Some ix =>
      match instance_list !! ix with
      | None => st
      | Some instance =>
          if bool_decide (node_type instance = control ∨ node_type instance = hybrid) then st
          else if match last_seen instance with
                  | Some seen => (ad.2 <=? seen)%Z
                  | None => false
                  end
          then st
          else
            let instance := set_last_seen (Some ad.2) instance in
            let fx := fx ++ [SaveLastSeen ad.1] in
            if bool_decide (node_type instance = hop) then
              if bool_decide (node_state instance = unavailable
                              ∨ node_state instance = installed) then
                (fx ++ [LogWarning (HopRejoined ad.1); SaveHealthData ad.1],
                 <[ix := save_health_data instance]> instance_list)
              else (fx, <[ix := instance]> instance_list)
            else if bool_decide (node_state instance = unavailable
                                 ∨ node_state instance = installed) then
              (fx ++ [LogWarning (ExecutionRejoin ad.1); HealthCheckAsync ad.1],
               <[ix := instance]> instance_list)
            else if bool_decide (capacity instance = 0%Z) && enabled instance then
              if match last_health_check instance with
                 | Some checked => (EXECUTION_NODE_REMEDIATION_CHECKS <=? nowtime - checked)%Z
                 | None => true
                 end
              then (fx ++ [LogDebug (RestartingHealthCheck ad.1); HealthCheckAsync ad.1],
                    <[ix := instance]> instance_list)
              else (fx, <[ix := instance]> instance_list)
            else (fx, <[ix := instance]> instance_list)
      end
  end.

(** [inspect_execution_and_hop_nodes]; [workers] is
    [mesh_status['Advertisements']]. *)
Definition inspect_execution_and_hop_nodes (nowtime : Z) (workers : list (string * Z))
    (instance_list : list Instance) : list effect * list Instance :=
  foldl (inspect_advertisement nowtime) ([InspectLinks], instance_list) workers.

(** Lines 659-664. *)
Definition reap_lost (other_inst : Instance) : list effect :=
  let h := hostname other_inst in
  if reap_raises other_inst then [Failed (Reap h); LogException (FailedToReap h)]
  else if reap_waiting_raises other_inst then
    [Reap h; Failed (ReapWaiting h); LogException (FailedToReap h)]
  else [Reap h; ReapWaiting h].

(** Lines 674-686: the handler of [DatabaseError]. *)
Definition database_error_handler (other_inst : Instance) (c : cause)
    : list effect * outcome :=
  let h := hostname other_inst in
  match c with
  | WithSqlstate sqlstate =>
      match psycopg_errors_lookup sqlstate with
      | inl e => ([], Raised e)
      | inr sqlstate_str =>
          ([LogDebug (SqlErrorState sqlstate sqlstate_str)]
           ++ (if py_eq sqlstate psycopg_errors_NoData
               then [LogDebug (AnotherInstanceMarked h)]
               else [LogException (ErrorMarking h)]),
           Returned)
      end
  | NoCause | WithoutSqlstate => ([LogException (NoSqlState h)], Returned)
  end.

(** Lines 665-686. *)
Definition retire_lost (other_inst : Instance) : list effect * outcome :=
  let h := hostname other_inst in
  let attempt (write : effect) (report : effect) : list effect * outcome :=
    match write_fault other_inst with
    | NoFault => ([write; report], Returned)
    | DatabaseError c =>
        let '(fx, o) := database_error_handler other_inst c in
        (Failed write :: fx, o)
    | OtherException => ([Failed write], Raised OtherError)
    end in
  if AWX_AUTO_DEPROVISION_INSTANCES && bool_decide (node_type other_inst = control) then
    attempt (Delete h) (LogInfo (Deprovisioned h))
  else if bool_decide (node_state other_inst = ready) then
    attempt (MarkOffline h) (LogError (MarkedLost h))
  else ([], Returned).

(** Lines 658-686: the loop over [lost_instances]. *)
Fixpoint process_lost (lost_instances : list Instance) : list effect * outcome :=
  match lost_instances with
  | [] => ([], Returned)
  | other_inst :: rest =>
      let '(fx, o) := retire_lost other_inst in
      match o with
      | Returned =>
          let '(fx', o') := process_lost rest in
          (reap_lost other_inst ++ fx ++ fx', o')
      | Raised e => (reap_lost other_inst ++ fx, Raised e)
      end
  end.

(** Lines 642-656: the first instance that reports a newer version, or the
    [TypeError] of a comparison made before one is found.  The versions are
    compared before [settings.DEBUG] is read. *)
Fixpoint find_newer_version (instance_list : list Instance) : pyerr + option Instance :=
  match instance_list with
  | [] => inr None
  | other_inst :: rest =>
      if bool_decide (node_type other_inst = execution ∨ node_type other_inst = hop)
      then find_newer_version rest
      else if bool_decide (version other_inst = "") || is_runner_version (version other_inst)
      then find_newer_version rest
      else
        match version_newer (version other_inst) awx_application_version with
        | None => inl TypeError
        | Some newer =>
            if newer && negb DEBUG then inr (Some other_inst)
            else find_newer_version rest
        end
  end.

(** Lines 688-695; [None] is [worker_tasks is None]. *)
Definition local_reaper (worker_tasks : option (list (list string))) : list effect * outcome :=
  match worker_tasks with
  | None => ([], Returned)
  | Some task_lists =>
      let active_task_ids := concat task_lists in
      match task_lists with
      | [] => ([LocalReap active_task_ids], Raised OtherError)
      | _ =>
          if (max_list (length <$> task_lists) <=? 1)%nat
          then ([LocalReap active_task_ids; LocalReapWaiting active_task_ids], Returned)
          else ([LocalReap active_task_ids], Returned)
      end
  end.

(** Lines 641-695, what follows the update of the local instance. *)
Definition after_self (instance_list lost_instances : list Instance)
    (worker_tasks : option (list (list string))) : list effect * outcome :=
  match find_newer_version instance_list with
  | inl e => ([], Raised e)
  | inr (Some other_inst) =>
      ([LogError (NewerVersion (hostname other_inst)); StopLocalServices],
       Raised RuntimeError)
  | inr None =>
      let '(fx, o) := process_lost lost_instances in
      match o with
      | Returned => let '(fx', o') := local_reaper worker_tasks in (fx ++ fx', o')
      | Raised e => (fx, Raised e)
      end
  end.

(** Lines 615-620: the instances other than the local one that are lost,
    and the list they are removed from. *)
Definition lost_among (nowtime : Z) (this : option nat) (instance_list : list Instance)
    : list Instance :=
  snd <$> List.filter
    (λ x : nat * Instance, negb (bool_decide (Some x.1 = this)) && is_lost nowtime x.2)
    (enumerate instance_list).

Definition kept_among (nowtime : Z) (this : option nat) (instance_list : list Instance)
    : list Instance :=
  snd <$> List.filter
    (λ x : nat * Instance, bool_decide (Some x.1 = this) || negb (is_lost nowtime x.2))
    (enumerate instance_list).

(** [cluster_node_heartbeat]; [all] is the content of the table and
    [workers] the advertisements of the mesh. *)
Definition cluster_node_heartbeat (nowtime : Z) (all : list Instance)
    (workers : list (string * Z)) (worker_tasks : option (list (list string)))
    : list effect * outcome :=
  let instance_list :=
    List.filter (λ i, bool_decide (node_state i = ready ∨ node_state i = unavailable
                                   ∨ node_state i = installed)) all in
  let this := fst <$> list_find (λ inst, hostname inst = CLUSTER_HOST_ID) instance_list in
  let '(inspected, instance_list) :=
    inspect_execution_and_hop_nodes nowtime workers instance_list in
  let lost_instances := lost_among nowtime this instance_list in
  let start := LogDebug HeartbeatTask :: inspected in
  match this with
  | Some ix =>
      (* the inspection updates instances in place: [this_inst] is still at [ix] *)
      match instance_list !! ix with
      | None => (start, Raised OtherError)
      | Some this_inst =>
          let startup_event := is_lost nowtime this_inst in
          let last_last_seen := last_seen this_inst in
          let this_inst := local_health_check this_inst in
          let start := start ++ [LocalHealthCheck (hostname this_inst)] in
          if startup_event && negb (bool_decide (capacity this_inst = 0%Z)) then
            (start ++ [LogWarning (Rejoining (hostname this_inst))], Returned)
          else
            let warned :=
              match last_last_seen with
              | None => [LogWarning NoLastSeen]
              | Some seen =>
                  if (CLUSTER_NODE_HEARTBEAT_PERIOD + 2 <? nowtime - seen)%Z
                  then [LogWarning HeartbeatSkew] else []
              end in
            let instance_list :=
              kept_among nowtime this (<[ix := this_inst]> instance_list) in
            let '(fx, o) := after_self instance_list lost_instances worker_tasks in
            (start ++ warned ++ fx, o)
      end
  | None =>
      if AWX_AUTO_DEPROVISION_INSTANCES then
        let '(changed, this_inst) := register in
        let recreated :=
          if changed then [LogWarning (Recreated (hostname this_inst))] else [] in
        let instance_list := kept_among nowtime this instance_list in
        let '(fx, o) := after_self instance_list lost_instances worker_tasks in
        (start ++ [Register] ++ recreated
           ++ [LocalHealthCheck (hostname (local_health_check this_inst))] ++ fx, o)
      else (start, Raised RuntimeError)
  end.

End Task.

End Heartbeat.

(** ** The callback: finalizing, query files, the job environment *)

Module CallbackMore.
Import Callback.

Definition unexpected_keyword : string := "got an unexpected keyword argument".

Section Finalize.
(** [ANSIBLE_RUNNER_NEEDS_UPDATE_MESSAGE] of [awx.main.constants]. *)
Variable ANSIBLE_RUNNER_NEEDS_UPDATE_MESSAGE : string.

(** [get_delayed_update_fields]; the dictionary it returns is
    [extra_update_fields] of the object it leaves. *)
Definition get_delayed_update_fields (self : RunnerCallback) : result RunnerCallback :=
  let self :=
    set_extra_update_fields
      (<["emitted_events" := PInt (Z.of_nat (event_ct self))]> (extra_update_fields self))
      self in
  match default (PStr "") (extra_update_fields self !! "result_traceback") with
  | PStr traceback =>
      if str_in unexpected_keyword traceback then
        delay_update false [("result_traceback", PStr ANSIBLE_RUNNER_NEEDS_UPDATE_MESSAGE)] self
      else Ok self
  | _ => Raise TypeError self
  end.

End Finalize.

(** [finished_callback]: it hands the EOF event to the dispatcher, without
    counting it, and marks the wrap-up when the wrap-up event is [EOF]. *)
Definition finished_callback (self : RunnerCallback) : RunnerCallback :=
  let event_data :=
    {| event := Some "EOF"; stdout := None; start_line := None; end_line := None;
       event_data := None; job_reference := Some (instance_id self);
       skip_websocket_message := false; parent_uuid := None; workflow_job_id := None;
       event_job_created := None; host_name := None; host_id := None;
       event_host_map := None; final_counter := Some (event_ct self);
       event_guid := Some (guid self) |} in
  let self := dispatcher_dispatch event_data self in
  if bool_decide (wrapup_event_type self = "EOF")
  then set_wrapup_event_dispatched true self else self.

(** [collect_queries]; its argument is the value under
    [installed_collections], [None] when the key is missing (the
    [KeyError] that is logged). *)
Definition has_query (value : gmap string pyval) : bool :=
  bool_decide (is_Some (value !! "host_query")) && bool_decide (is_Some (value !! "version")).

Definition collect_queries (installed_collections : option (gmap string (gmap string pyval)))
    : gmap string (gmap string pyval) :=
  match installed_collections with
  | None => ∅
  | Some collections =>
      map_fold (λ key value result, if has_query value then <[key := value]> result else result)
               ∅ collections
  end.

(** [status_handler], lines 258-264: the copy of [runner_config.env] with
    the values of [safe_env] written over the keys it has. *)
Definition job_env (safe_env env : gmap string string) : gmap string string :=
  map_fold (λ k v job_env, if bool_decide (is_Some (job_env !! k)) then <[k := v]> job_env
                           else job_env)
           env safe_env.

End CallbackMore.

(* ================================================================== *)
(** * [update_smart_memberships_for_inventory]  (system.py, lines 862-880) *)

Module SmartInventory.

(** Rows of [SmartInventoryMembership]: [(inventory_id, host_id)]. *)
Definition Table : Type := gset (Z * Z).

(** [SmartInventoryMembership.objects.filter(inventory=...)
      .values_list('host_id', flat=True)], as a set. *)
Definition host_ids (inventory_id : Z) (table : Table) : gset Z :=
  set_map snd (filter (λ r : Z * Z, r.1 = inventory_id) table).

(** [....filter(inventory=..., host_id__in=removals).delete()] *)
Definition delete_rows (inventory_id : Z) (removals : gset Z) (table : Table) : Table :=
  filter (λ r : Z * Z, ¬ (r.1 = inventory_id ∧ r.2 ∈ removals)) table.

(** [bulk_create(add_for_inventory, ignore_conflicts=True)] *)
Definition bulk_create (inventory_id : Z) (additions : gset Z) (table : Table) : Table :=
  table ∪ set_map (λ host_id : Z, (inventory_id, host_id)) additions.

(** The function; [hosts] is [smart_inventory.hosts.values_list('id')].  It
    returns whether it changed the table, and the table. *)
Definition update_smart_memberships_for_inventory (inventory_id : Z) (hosts : gset Z)
    (table : Table) : bool * Table :=
  let current := host_ids inventory_id table in
  let new := hosts in
  let additions := new ∖ current in
  let removals := current ∖ new in
  if negb (bool_decide (additions = ∅)) || negb (bool_decide (removals = ∅)) then
    let table := if negb (bool_decide (removals = ∅))
                 then delete_rows inventory_id removals table else table in
    let table := if negb (bool_decide (additions = ∅))
                 then bulk_create inventory_id additions table else table in
    (true, table)
  else (false, table).

(** ** [update_host_smart_inventory_memberships]  (lines 883-896) *)

Record Inventory := {
  inventory_id : Z;
  kind : string;
  host_filter : option string;
  pending_deletion : bool;
  hosts : gset Z;
}.

Inductive effect :=
| LogFailed (inventory : Z)
| UpdateComputedFields (inventory : Z).

(** [Inventory.objects.filter(kind='smart', host_filter__isnull=False,
      pending_deletion=False)] *)
Definition is_smart (i : Inventory) : bool :=
  bool_decide (kind i = "smart") && bool_decide (is_Some (host_filter i))
  && negb (pending_deletion i).

Section Task.
(** The transaction that writes the memberships of this inventory raises
    [IntegrityError], and is rolled back. *)
Variable integrity_error : Inventory → bool.

(** One turn of the first loop: the table, what is logged, and whether the
    inventory joins [changed_inventories]. *)
Definition update_one (smart_inventory : Inventory) (table : Table)
    : Table * list effect * bool :=
  let '(changed, table') :=
    update_smart_memberships_for_inventory (inventory_id smart_inventory)
      (hosts smart_inventory) table in
  if changed && integrity_error smart_inventory
  then (table, [LogFailed (inventory_id smart_inventory)], false)
  else (table', [], changed).

Fixpoint update_all (smart_inventories : list Inventory) (table : Table)
    : Table * list effect * list Inventory :=
  match smart_inventories with
  | [] => (table, [], [])
  | smart_inventory :: rest =>
      let '(table, fx, changed) := update_one smart_inventory table in
      let '(table, fx', changed_inventories) := update_all rest table in
      (table, fx ++ fx',
       if changed then smart_inventory :: changed_inventories else changed_inventories)
  end.

(** The task: the table it leaves, and what it logs and updates, the
    computed fields last. *)
Definition update_host_smart_inventory_memberships (inventories : list Inventory)
    (table : Table) : Table * list effect :=
  let smart_inventories := List.filter is_smart inventories in
  let '(table, fx, changed_inventories) := update_all smart_inventories table in
  (table, fx ++ (UpdateComputedFields ∘ inventory_id <$> changed_inventories)).

End Task.

End SmartInventory.

(* ================================================================== *)
(** * [clear_setting_cache]  (system.py, lines 299-309) *)

Module SettingCache.

Section Task.
(** [settings_registry.get_dependent_settings], with the order in which its
    result is iterated. *)
Variable get_dependent_settings : string → list string.

(** Lines 304-306: [setting_keys[i]] is read from the list that the loop
    extends; [None] is [IndexError]. *)
Fixpoint extend_keys (indices : list nat) (setting_keys : list string)
    : option (list string) :=
  match indices with
  | [] => Some setting_keys
  | i :: rest =>
      match setting_keys !! i with
      | None => None
      | Some key => extend_keys rest (setting_keys ++ get_dependent_settings key)
      end
  end.

(** The task: the list it leaves in [setting_keys], which is the caller's
    list, and the keys it passes to [cache.delete_many]. *)
Definition clear_setting_cache (setting_keys : list string)
    : option (list string * gset string) :=
  let orig_len := length setting_keys in
  match extend_keys (seq 0 orig_len) setting_keys with
  | None => None
  | Some setting_keys => Some (setting_keys, list_to_set setting_keys)
  end.

End Task.

End SettingCache.

(* ================================================================== *)
(** * [delete_inventory]  (system.py, lines 899-921) *)

Module DeleteInventory.

(** What [Inventory.objects.get(id=inventory_id).delete()] does in one
    call of the task: it deletes the row, or raises [Inventory.DoesNotExist],
    [DatabaseError], or an exception that the task does not catch. *)
Inductive attempt := Deleted | DoesNotExist | DatabaseError | OtherException.

Inductive effect :=
| DeleteRow
| EmitDeleted
| LogDeleted
| LogMissing
| LogWillRetry
| Sleep (seconds : Z)
| Uncaught.

Section Task.
(** The outcome of the deletion at each call, the first call being call 0. *)
Variable outcome_of : nat → attempt.

(** The call number [call], with [retries] retries left. *)
Fixpoint delete_inventory_from (call retries : nat) : list effect :=
  match outcome_of call with
  | Deleted => [DeleteRow; EmitDeleted; LogDeleted]
  | DoesNotExist => [LogMissing]
  | OtherException => [Uncaught]
  | DatabaseError =>
      LogWillRetry ::
      match retries with
      | O => []
      | S retries => Sleep 10 :: delete_inventory_from (S call) retries
      end
  end.

(** [delete_inventory(inventory_id, user_id, retries)]; [retries > 0] fails
    for zero and for negative numbers alike. *)
Definition delete_inventory (retries : Z) : list effect :=
  delete_inventory_from 0 (Z.to_nat retries).

End Task.

End DeleteInventory.

(* ================================================================== *)
(** * [migrate_jsonfield]  (system.py, lines 141-184) *)

Module JsonMigration.

(** A row of the table: its key, and the values that are not NULL of the
    text columns [<column>_old] and of the jsonb columns [<column>], each
    keyed by [<column>]. *)
Record Row := {
  pk : Z;
  old_columns : gmap string string;
  new_columns : gmap string string;
}.

Definition set_new (new : gmap string string) (r : Row) : Row :=
  {| pk := pk r; old_columns := old_columns r; new_columns := new |}.

Definition set_old (old : gmap string string) (r : Row) : Row :=
  {| pk := pk r; old_columns := old; new_columns := new_columns r |}.

(** How a run of the task ends: it returns, an SQL statement raises, or the
    loop over the batches is still running when the fuel is spent. *)
Inductive outcome :=
| Finished (rows : list Row)
| SqlError (rows : list Row)
| Running.

Definition batchsize : Z := 10000.

Section Task.
(** The cast [text::jsonb]; [None] when the text is not valid JSON. *)
Variable cast : string → option string.
Variable columns : list string.

(** [<c>_old is not null] *)
Definition is_not_null (r : Row) (c : string) : bool :=
  bool_decide (is_Some (old_columns r !! c)).

(** [<c1>_old is not null or <c2>_old is not null ...] *)
Definition has_old_data (r : Row) : bool :=
  existsb (is_not_null r) columns.

(** [set <c1> = <c1>_old::jsonb, <c2> = <c2>_old::jsonb ...] on one row;
    the cast of NULL is NULL. *)
Fixpoint cast_columns (cols : list string) (r : Row) (new : gmap string string)
    : option (gmap string string) :=
  match cols with
  | [] => Some new
  | c :: rest =>
      match old_columns r !! c with
      | None => cast_columns rest r (delete c new)
      | Some text =>
          match cast text with
          | None => None
          | Some value => cast_columns rest r (<[c := value]> new)
          end
      end
  end.

Definition in_batch (i : Z) (r : Row) : bool :=
  (i <=? pk r)%Z && (pk r <? i + batchsize)%Z.

(** The condition of the [update] statement,
    [where pk >= i and pk < i + batchsize and <c1>_old is not null
     or <c2>_old is not null or ...]: the text has no parentheses and [and]
    binds tighter than [or], so the bounds of the batch go with the first
    column only. *)
Definition where_clause (i : Z) (r : Row) : bool :=
  match columns with
  | [] => false
  | first :: others => in_batch i r && is_not_null r first || existsb (is_not_null r) others
  end.

(** The [update] statement of one batch; a failing cast fails the
    statement, which then changes no row. *)
Fixpoint update_batch (i : Z) (rows : list Row) : option (list Row) :=
  match rows with
  | [] => Some []
  | r :: rest =>
      let updated :=
        if where_clause i r
        then (λ new, set_new new r) <$> cast_columns columns r (new_columns r)
        else Some r in
      match updated, update_batch i rest with
      | Some r', Some rest' => Some (r' :: rest')
      | _, _ => None
      end
  end.

(** Lines 161-178: [for i in itertools.count(0, batchsize)], from [i]. *)
Fixpoint copy_batches (fuel : nat) (i : Z) (rows : list Row) : outcome :=
  match fuel with
  | O => Running
  | S fuel =>
      if existsb (λ r, (i <=? pk r)%Z) rows then
        match update_batch i rows with
        | None => SqlError rows
        | Some rows => copy_batches fuel (i + batchsize) rows
        end
      else Finished rows
  end.

(** [ALTER TABLE ... DROP COLUMN <c1>_old, DROP COLUMN <c2>_old ...] *)
Definition drop_old_columns (r : Row) : Row :=
  set_old (foldr delete (old_columns r) columns) r.

(** The task, once Django's own migrations are done; [acquired] is what
    [advisory_lock(..., wait=False)] yields.  With no column, or with one
    column twice, the statements it writes are not SQL. *)
Definition migrate_jsonfield (fuel : nat) (acquired : bool) (rows : list Row) : outcome :=
  if negb acquired then Finished rows
  else if bool_decide (columns ≠ [] ∧ NoDup columns) then
    match copy_batches fuel 0 rows with
    | Finished rows => Finished (drop_old_columns <$> rows)
    | o => o
    end
  else SqlError rows.

End Task.

End JsonMigration.

(* ================================================================== *)
(** * [awx_periodic_scheduler], inside the lock  (system.py, lines 766-815) *)

Module Scheduler.

Record Template := {
  template_id : Z;
  cache_timeout_blocked : bool;
}.

Record Schedule := {
  schedule_id : Z;
  unified_job_template : Template;
}.

(** Jobs are named by their keys. *)
Inductive effect :=
| SaveLastRun
| UpdateComputedFields (schedule : Z)
| FailedUpdate (schedule : Z)
| WarnBlocked (template : Z)
| CreateJob (schedule job : Z)
| FailedCreate (schedule : Z)
| SaveFailed (job : Z) (job_explanation : string)
| EmitFailed (job : Z)
| SignalStart (job : Z)
| FailedStart (job : Z)
| LogException
| EmitSchedulesChanged (schedule : Z).

Inductive outcome := Returned | Raised.

(** The text of lines 806-809, with the blanks that the continuation of the
    line leaves in it. *)
Definition could_not_start : string :=
  "Scheduled job could not start because it                     was not in the right state or required manual credentials".

Section Task.
(** [schedule.update_computed_fields()] raises. *)
Variable update_raises : Schedule → bool.
(** [schedule.get_job_kwargs()] and [create_unified_job]: the key of the new
    job, [None] when one of them raises. *)
Variable create_unified_job : Schedule → option Z.
(** [new_unified_job.signal_start()], [None] when it raises. *)
Variable signal_start : Z → option bool.
(** [str(e)] of the [PermissionDenied] of [check_license], [None] when the
    license is valid. *)
Variable invalid_license : option string.

(** Lines 775-777. *)
Fixpoint refresh (old_schedules : list Schedule) : list effect * outcome :=
  match old_schedules with
  | [] => ([], Returned)
  | schedule :: rest =>
      if update_raises schedule then ([FailedUpdate (schedule_id schedule)], Raised)
      else
        let '(fx, o) := refresh rest in
        (UpdateComputedFields (schedule_id schedule) :: fx, o)
  end.

(** Lines 788-813, after [update_computed_fields]. *)
Definition spawn (schedule : Schedule) : list effect :=
  let template := unified_job_template schedule in
  if cache_timeout_blocked template then [WarnBlocked (template_id template)]
  else
    match create_unified_job schedule with
    | None => [FailedCreate (schedule_id schedule); LogException]
    | Some new_unified_job =>
        CreateJob (schedule_id schedule) new_unified_job ::
        match invalid_license with
        | Some e =>
            [SaveFailed new_unified_job e; EmitFailed new_unified_job; LogException]
        | None =>
            match signal_start new_unified_job with
            | None => [FailedStart new_unified_job; LogException]
            | Some can_start =>
                SignalStart new_unified_job ::
                (if can_start then []
                 else [SaveFailed new_unified_job could_not_start;
                       EmitFailed new_unified_job])
                ++ [EmitSchedulesChanged (schedule_id schedule)]
            end
        end
    end.

(** Lines 786-813. *)
Fixpoint start_due (schedules : list Schedule) : list effect * outcome :=
  match schedules with
  | [] => ([], Returned)
  | schedule :: rest =>
      if update_raises schedule then ([FailedUpdate (schedule_id schedule)], Raised)
      else
        let '(fx, o) := start_due rest in
        (UpdateComputedFields (schedule_id schedule) :: spawn schedule ++ fx, o)
  end.

(** The task inside the lock; [old_schedules] are the enabled schedules
    before [last_run], [schedules] those between [last_run] and now. *)
Definition periodic_scheduler (old_schedules schedules : list Schedule)
    : list effect * outcome :=
  let '(fx, o) := refresh old_schedules in
  match o with
  | Raised => (SaveLastRun :: fx, Raised)
  | Returned =>
      let '(fx', o') := start_due schedules in
      (SaveLastRun :: fx ++ fx', o')
  end.

End Task.

End Scheduler.

(* ================================================================== *)
(** * [send_notifications]  (system.py, lines 340-368) *)

Module Notifications.

Record Notification := {
  id : Z;
  status : string;
  notifications_sent : Z;
  error : string;
}.

Inductive effect :=
| AddToJob (ids : list Z)
| Send (notification : Z)
| LogLifecycle
| LogSendFailed
| Save (row : Notification) (update_fields : list string)
| FailedSave (notification : Z).

Inductive outcome := Returned | RaisedTypeError | RaisedDoesNotExist.

Section Task.
(** [notification_template.send(subject, body)]: the number sent, or
    [smart_str(e)] of what it raises. *)
Variable send : Notification → Z + string.
(** [job_actual.log_lifecycle] raises this, when it raises. *)
Variable log_lifecycle_raises : Notification → option string.
Variable save_raises : Notification → bool.

Definition set_status (st : string) (n : Notification) : Notification :=
  {| id := id n; status := st; notifications_sent := notifications_sent n;
     error := error n |}.
Definition set_notifications_sent (sent : Z) (n : Notification) : Notification :=
  {| id := id n; status := status n; notifications_sent := sent; error := error n |}.
Definition set_error (e : string) (n : Notification) : Notification :=
  {| id := id n; status := status n; notifications_sent := notifications_sent n;
     error := e |}.

(** The [try] of lines 352-363: the effects, the object, and the fields to
    save. *)
Definition attempt (for_job : bool) (notification : Notification)
    : list effect * Notification * list string :=
  let update_fields := ["status"; "notifications_sent"] in
  let failed (e : string) (n : Notification) :=
    ([LogSendFailed], set_error e (set_status "failed" n), update_fields ++ ["error"]) in
  match send notification with
  | inl sent =>
      let n := set_notifications_sent sent (set_status "successful" notification) in
      if for_job then
        match log_lifecycle_raises notification with
        | None => ([Send (id notification); LogLifecycle], n, update_fields)
        | Some e =>
            let '(fx, n, fields) := failed e n in (Send (id notification) :: fx, n, fields)
        end
      else ([Send (id notification)], n, update_fields)
  | inr e => failed e notification
  end.

(** One turn of the loop, with the [finally] of lines 364-368. *)
Definition notify (for_job : bool) (notification : Notification) : list effect :=
  let '(fx, n, update_fields) := attempt for_job notification in
  fx ++ [if save_raises n then FailedSave (id n) else Save n update_fields].

(** The task; [notification_list] is [None] when the argument is not a
    list, [job_found] tells whether [UnifiedJob.objects.get] finds the job,
    and [table] holds the rows of [Notification]. *)
Definition send_notifications (notification_list : option (list Z)) (job_id : option Z)
    (job_found : bool) (table : list Notification) : list effect * outcome :=
  match notification_list with
  | None => ([], RaisedTypeError)
  | Some ids =>
      if bool_decide (is_Some job_id) && negb job_found then ([], RaisedDoesNotExist)
      else
        let for_job := bool_decide (is_Some job_id) in
        let notifications := List.filter (λ n, bool_decide (id n ∈ ids)) table in
        ((if for_job then [AddToJob (id <$> notifications)] else [])
         ++ concat (notify for_job <$> notifications), Returned)
  end.

End Task.

End Notifications.

(* ================================================================== *)
(** * [inspect_established_receptor_connections]  (system.py, lines 525-545) *)

Module ReceptorLinks.

Inductive LinkState := adding | established | removing.

#[global] Instance LinkState_eq_dec : EqDecision LinkState.
Proof. solve_decision. Defined.

(** Rows of [InstanceLink], with the hostnames of the two ends. *)
Record InstanceLink := {
  source : string;
  target : string;
  link_state : LinkState;
}.

Definition set_link_state (st : LinkState) (l : InstanceLink) : InstanceLink :=
  {| source := source l; target := target l; link_state := st |}.

(** Lines 537-542 for one link of [all_links]. *)
Definition inspect_link (active_receptor_conns : gmap string (gmap string Z))
    (link : InstanceLink) : InstanceLink :=
  if negb (bool_decide (link_state link = removing)) then
    if bool_decide (is_Some (default ∅ (active_receptor_conns !! source link)
                             !! target link)) then
      if negb (bool_decide (link_state link = established))
      then set_link_state established link else link
    else link
  else link.

(** The function on the table of links; [known_connection_costs] is
    [mesh_status['KnownConnectionCosts']], [None] when the key is missing,
    which raises [KeyError] once a link is being added. *)
Definition inspect_established_receptor_connections
    (known_connection_costs : option (gmap string (gmap string Z)))
    (links : list InstanceLink) : result (list InstanceLink) :=
  let all_links := List.filter (λ l, bool_decide (link_state l = adding)) links in
  match all_links with
  | [] => Ok links
  | _ =>
      match known_connection_costs with
      | None => Raise KeyError links
      | Some active_receptor_conns =>
          Ok ((λ l, if bool_decide (link_state l = adding)
                    then inspect_link active_receptor_conns l else l) <$> links)
      end
  end.

End ReceptorLinks.

(* ================================================================== *)
(** * [awx_receptor_workunit_reaper]  (system.py, lines 697-733) *)

Module WorkunitReaper.

Record UnifiedJob := {
  job_id : Z;
  work_unit_id : option string;
  job_status : string;
}.

Inductive effect :=
| LogChecking
| WorkList
| WorkCancel (unit_id : string)
| WorkRelease (unit_id : string)
| AdministrativeWorkunitReaper (work_list : list string).

Section Task.
Variable RECEPTOR_RELEASE_WORK : bool.
Variable RECEPTOR_KEEP_WORK_ON_ERROR : bool.
(** [awx.main.constants] *)
Variable ACTIVE_STATES : list string.
Variable ERROR_STATES : list string.

(** The queryset of lines 724-727. *)
Definition jobs_with_unreleased_receptor_units (unit_ids : list string)
    (jobs : list UnifiedJob) : list UnifiedJob :=
  let selected :=
    List.filter (λ j, match work_unit_id j with
                      | Some u => bool_decide (u ∈ unit_ids)
                      | None => false
                      end
                      && negb (bool_decide (job_status j ∈ ACTIVE_STATES))) jobs in
  if RECEPTOR_KEEP_WORK_ON_ERROR
  then List.filter (λ j, negb (bool_decide (job_status j ∈ ERROR_STATES))) selected
  else selected.

Definition release (job : UnifiedJob) : list effect :=
  match work_unit_id job with
  | Some u => [WorkCancel u; WorkRelease u]
  | None => []
  end.

(** The task; [receptor_work_list] holds the unit ids that [work list]
    answers. *)
Definition awx_receptor_workunit_reaper (receptor_work_list : list string)
    (jobs : list UnifiedJob) : list effect :=
  if negb RECEPTOR_RELEASE_WORK then []
  else
    [LogChecking; WorkList]
    ++ concat (release <$> jobs_with_unreleased_receptor_units receptor_work_list jobs)
    ++ [AdministrativeWorkunitReaper receptor_work_list].

End Task.

End WorkunitReaper.

(* ================================================================== *)
(** * Specification-level definitions and sample data *)

Module CallbackSpec.
Import Callback.

(** Staging one field of [status_data] on the transition to [error]. *)
Definition stage_field (status_data : gmap string pyval) (name : string)
    (self : RunnerCallback) : result RunnerCallback :=
  let v := default PNone (status_data !! name) in
  if py_truthy v then delay_update false [(name, v)] self else Ok self.

(** A callback of job 7, which is not a project update and belongs to no
    workflow, with a window of capacity 2 and one known host. *)
Definition job0 : RunnerCallback :=
  init 2 7%Z "playbook_on_stats" "guid-0" "job_id" false None {[ "web1" := 31%Z ]}
       (PStr "2024-05-01 10:00:00").

Definition job0_failed : RunnerCallback :=
  set_extra_update_fields {[ "job_explanation" := PStr "lost contact" ]} job0.

(** Line 160 does not raise: the nested payload, when there is one, is a
    dict, and its host, when there is one, is a string. *)
Definition host_readable (ev : EventData) : Prop :=
  match event_data ev with
  | None => True
  | Some (Dict p) =>
      match p !! "host" with
      | None | Some (PStr _) => True
      | Some _ => False
      end
  | Some (NotDict _) => False
  end.

(** The nested payload is a dict, when there is one. *)
Definition dict_payload (ev : EventData) : Prop :=
  match event_data ev with
  | Some (NotDict _) => False
  | _ => True
  end.

(** The event is not replaced by a redacted copy: the callback is not the
    one of a project update, or the task of the event is not one of the
    source-control modules. *)
Definition unredacted (self : RunnerCallback) (ev : EventData) : Prop :=
  for_project_update self = false
  ∨ match task_action ev with
    | inr task => is_scm_task task = false
    | inl _ => True
    end.

(** A rational that a double holds, the range of its exponent apart:
    [m / 2^e] with [|m| < 2^53]. *)
Definition representable (q : Q) : Prop :=
  ∃ (m : Z) (e : nat),
    (Z.abs m < 2 ^ 53)%Z ∧ (q == inject_Z m / inject_Z (2 ^ Z.of_nat e))%Q.

(** A double between [2^30] and [2^31], as [time.time()] returns from 2004
    to 2038: a multiple of [2^-22]. *)
Definition epoch_reading (q : Q) : Prop :=
  ∃ k : Z, (2 ^ 52 <= k < 2 ^ 53)%Z ∧ (q == inject_Z k / inject_Z (2 ^ 22))%Q.

(** What the rate limiter and the dispatch read of an event. *)
Definition carried (ev : EventData)
    : option string * option string * option Z * option Z * bool * option Payload
      * option Z :=
  (event ev, stdout ev, start_line ev, end_line ev, skip_websocket_message ev,
   event_data ev, job_reference ev).

(** The attributes of the callback that no event changes. *)
Definition attributes (self : RunnerCallback)
    : Z * string * string * bool * option Z * gmap string Z * string * pyval :=
  (instance_id self, wrapup_event_type self, event_data_key self, for_project_update self,
   parent_workflow_job_id self, host_map self, guid self, job_created self).

Definition silent : EventData :=
  {| event := Some "runner_on_ok"; stdout := Some ""; start_line := Some 4%Z;
     end_line := Some 4%Z; event_data := None; job_reference := None;
     skip_websocket_message := false; parent_uuid := None; workflow_job_id := None;
     event_job_created := None; host_name := None; host_id := None;
     event_host_map := None; final_counter := None; event_guid := None |}.

Definition talking : EventData :=
  {| event := Some "runner_on_ok"; stdout := Some "ok: [localhost]";
     start_line := Some 4%Z; end_line := Some 5%Z; event_data := None;
     job_reference := None; skip_websocket_message := false; parent_uuid := None;
     workflow_job_id := None; event_job_created := None; host_name := None;
     host_id := None; event_host_map := None; final_counter := None;
     event_guid := None |}.

(** An event of a task on the host [web1], and the same event with [None]
    for a host. *)
Definition on_web1 : EventData :=
  set_event_data (Some (Dict {[ "host" := PStr " web1 " ]})) talking.

Definition host_none : EventData :=
  set_event_data (Some (Dict {[ "host" := PNone ]})) talking.

(** Modelled from the spec: the redaction of [awx.main.redact], which is not
    in the two files, replaces credential-looking text; the sample one
    blanks the output of the event. *)
Definition blank_stdout (ev : EventData) : pyerr + option EventData :=
  inr (Some {| event := event ev; stdout := Some "$encrypted$"; start_line := start_line ev;
               end_line := end_line ev; event_data := event_data ev;
               job_reference := job_reference ev;
               skip_websocket_message := skip_websocket_message ev;
               parent_uuid := parent_uuid ev; workflow_job_id := workflow_job_id ev;
               event_job_created := event_job_created ev; host_name := host_name ev;
               host_id := host_id ev; event_host_map := event_host_map ev;
               final_counter := final_counter ev; event_guid := event_guid ev |}).

(** Modelled from the spec: [MINIMAL_EVENTS] of [awx.main.constants], which
    is not in the two files; the always-emitted types are markers such as
    the end-of-playbook summary, [playbook_on_stats]. *)
Definition stats_only : gset string := {[ "playbook_on_stats" ]}.

(** The state of [job0] after a first event at time 0. *)
Definition job1 : RunnerCallback :=
  after (event_handler stats_only blank_stdout 0 talking job0).

(** Three events with output, none of an always-emitted type, at 0 s,
    0.25 s and 0.875 s. *)
Definition burst : list (Q * EventData) :=
  [(0%Q, talking); ((1 # 4)%Q, talking); ((7 # 8)%Q, talking)].

(** *** The record of emissions

    Every clock reading appended to the window, newest first, each with a
    mark telling whether the event went to the live channel as throttled
    traffic (unflagged and not of an always-emitted type). *)
Abbreviation emissions := (list (Q * bool)).

Definition recent (since : Q) (h : emissions) : nat :=
  length (List.filter (λ e, Qle_bool since e.1) h).

(** An emission at [t] after the emissions [h] respects the rate when fewer
    than [N] emissions lie in the second before it, or when the newest one is
    more than [1/N] seconds old. *)
Definition paced (N : nat) (t : Q) (h : emissions) : Prop :=
  recent (t - 1) h < N
  ∨ match h with
    | e :: _ => (1 < inject_Z (Z.of_nat N) * (t - e.1))%Q
    | [] => False
    end.

Fixpoint well_paced (N : nat) (h : emissions) : Prop :=
  match h with
  | [] => True
  | (t, marked) :: rest =>
      well_paced N rest ∧ Forall (λ e, (e.1 <= t)%Q) rest ∧ (marked = true → paced N t rest)
  end.

Definition marked_in_window (w : Q) (h : emissions) : nat :=
  length (List.filter (λ e, e.2 && Qle_bool w e.1 && Qle_bool e.1 (w + 1)) h).

(** The window of the callback holds the newest [N] emissions. *)
Definition tracks (N : nat) (self : RunnerCallback) (h : emissions) : Prop :=
  maxlen (recent_event_timings self) = N
  ∧ items (recent_event_timings self) = rev (take N (map fst h)).

(** The share of one call in the count of a window. *)
Definition share (MINIMAL_EVENTS : gset string) (w cpu_time : Q) (o : outcome) : nat :=
  match dispatched_by o with
  | Some sent =>
      if live (cpu_time, sent) && negb (in_minimal_events MINIMAL_EVENTS (event sent))
         && in_window w (cpu_time, sent)
      then 1 else 0
  | None => 0
  end.

End CallbackSpec.

Module MembershipSpec.
Import Membership.

(** A group row without its members, and a tuple without what the passes do
    not read. *)
Definition clear (ig : InstanceGroup.t) : InstanceGroup.t :=
  InstanceGroup.set_instances ∅ ig.

Definition forget (g : Group.t) : Group.t :=
  Group.mk (clear (Group.obj g)) (Group.instances g) [].

(** Ordering of the nodes: fewer assignments first, and among nodes with the
    same number of assignments the smaller key first. *)
Definition least_loaded_first (a b : nat * Node.t) : Prop :=
  (length (Node.groups a.2) < length (Node.groups b.2))%nat
  ∨ (length (Node.groups a.2) = length (Node.groups b.2)
     ∧ (Instance.id (Node.obj a.2) <= Instance.id (Node.obj b.2))%Z).

Definition smaller_first (a b : nat * Group.t) : Prop :=
  (length (Group.instances a.2) <= length (Group.instances b.2))%nat.

Section Spec.
Variable DEFAULT_CONTROL_PLANE_QUEUE_NAME : string.

(** The nodes a group may still take: not of the excluded type and not
    already a member. *)
Definition eligible (g : InstanceGroup.t) (members : list Z) (x : nat * Node.t) : bool :=
  negb (bool_decide (Instance.node_type (Node.obj x.2)
                     = exclude_type DEFAULT_CONTROL_PLANE_QUEUE_NAME g))
  && negb (bool_decide (Instance.id (Node.obj x.2) ∈ members)).

(** The minimum pass in the words of the specification: the group takes
    eligible nodes in the given order until it has [policy_instance_minimum]
    members. *)
Definition minimum_additions (g : InstanceGroup.t) (members : list Z)
    (order : list (nat * Node.t)) : list (nat * Node.t) :=
  take (Z.to_nat (InstanceGroup.policy_instance_minimum g - Z.of_nat (length members)))
       (List.filter (eligible g members) order).

Definition add_to_group (gi : nat) (g : InstanceGroup.t) (st : store) (x : nat * Node.t) : store :=
  (append_instance gi (Instance.id (Node.obj x.2)) st.1,
   append_group x.1 (InstanceGroup.id g) st.2).

(** What the passes never change: the rows and the prior members of the
    groups, and the rows of the nodes. *)
Definition rows (st : store) : list (InstanceGroup.t * list Z) * list Instance.t :=
  ((λ g, (Group.obj g, Group.prior_instances g)) <$> st.1, Node.obj <$> st.2).

(** A pair of the sorted snapshot still names its node. *)
Definition names (st : store) (x : nat * Node.t) : Prop :=
  (rows st).2 !! x.1 = Some (Node.obj x.2).

(** A pair of the sorted snapshot of the groups still names its group. *)
Definition names_group (st : store) (x : nat * Group.t) : Prop :=
  (rows st).1 !! x.1 = Some (Group.obj x.2, Group.prior_instances x.2).

(** The keys a group holds are keys of instances that are not hop nodes. *)
Definition only_instances (db : Database) (st : store) : Prop :=
  rows st = rows (initial_store db)
  ∧ Forall (λ g, Forall (λ x, ∃ i, i ∈ all_instances db ∧ Instance.id i = x)
                        (Group.instances g)) st.1.

(** The store with the groups seen through [forget]. *)
Definition forget_store (st : store) : store := (forget <$> st.1, st.2).

(** The tuple a second run builds for the group of [g], a tuple of a first
    run: the row the first run left, the members computed again, and the
    members the row now has. *)
Definition again (g : Group.t) : Group.t :=
  Group.mk (apply_group g) (Group.instances g)
           (elements (InstanceGroup.instances (apply_group g))).

End Spec.

(** Sample cluster: two execution nodes, a hybrid node and a hop node; the
    control plane group asks for one instance and [default] for two. *)
Definition n1 : Instance.t := Instance.mk 1 "n1" execution true.
Definition n2 : Instance.t := Instance.mk 2 "n2" hybrid true.
Definition n3 : Instance.t := Instance.mk 3 "n3" execution true.
Definition h4 : Instance.t := Instance.mk 4 "h4" hop true.

Definition controlplane : InstanceGroup.t :=
  InstanceGroup.mk 10 "controlplane" [] 1 0 false ∅.
Definition default_group : InstanceGroup.t :=
  InstanceGroup.mk 11 "default" [] 2 0 false ∅.
(** A container group that holds the hop node and asks for every instance. *)
Definition pods : InstanceGroup.t :=
  InstanceGroup.mk 12 "pods" [] 0 100 true {[ 4%Z ]}.

Definition cluster : Database :=
  {| Instance_objects := [n3; h4; n1; n2];
     InstanceGroup_objects := [controlplane; default_group] |}.

Definition cluster_with_pods : Database :=
  {| Instance_objects := [n3; h4; n1; n2];
     InstanceGroup_objects := [controlplane; default_group; pods] |}.

(** The tuples at the start of the minimum pass of [default], in a cluster
    where [n2] already serves one group. *)
Definition loaded : store :=
  ([Group.mk default_group [] []],
   [Node.mk n1 []; Node.mk n2 [10%Z]; Node.mk n3 []]).

End MembershipSpec.

Module HeartbeatSpec.
Import Heartbeat.

(** Effects that act on jobs or on the rows of instances, or stop the local
    services. *)
Fixpoint acts (e : effect) : bool :=
  match e with
  | Reap _ | ReapWaiting _ | Delete _ | MarkOffline _
  | LocalReap _ | LocalReapWaiting _ | StopLocalServices | Register => true
  | Failed e' => acts e'
  | _ => false
  end.

(** Modelled from the spec: [Instance.is_lost], which is not in the two
    files; a node is lost when its [last_seen] is older than a liveness
    threshold, here [grace] seconds. *)
Definition is_lost_after (grace : Z) (ref_time : Z) (i : Instance) : bool :=
  match last_seen i with
  | Some seen => (seen <? ref_time - grace)%Z
  | None => true
  end.

(** Modelled from the spec: [Instance.local_health_check], which is not in
    the two files; the heartbeat sets [last_seen], and capacity 0 means
    unschedulable; a disabled instance is left with capacity 0. *)
Definition health_check_at (nowtime : Z) (i : Instance) : Instance :=
  {| hostname := hostname i; node_type := node_type i; node_state := node_state i;
     capacity := if enabled i then capacity i else 0%Z; enabled := enabled i;
     last_seen := Some nowtime; last_health_check := last_health_check i;
     version := version i |}.

(** A control node that was away for ten minutes, and an execution node
    last seen ten minutes ago. *)
Definition awx_1 (on : bool) : Instance :=
  {| hostname := "awx-1"; node_type := control; node_state := ready;
     capacity := 100; enabled := on; last_seen := Some 400%Z;
     last_health_check := Some 400%Z; version := "24.6.1" |}.

Definition exec_1 : Instance :=
  {| hostname := "exec-1"; node_type := execution; node_state := ready;
     capacity := 50; enabled := true; last_seen := Some 400%Z;
     last_health_check := Some 400%Z; version := "ansible-runner-2.4.0" |}.

(** The local node, seen a few seconds ago. *)
Definition awx_1_alive : Instance :=
  {| hostname := "awx-1"; node_type := control; node_state := ready;
     capacity := 100; enabled := true; last_seen := Some 990%Z;
     last_health_check := Some 990%Z; version := "24.6.1" |}.

(** A cycle at second 1000 with a liveness threshold of 120 seconds, no
    advertisement on the mesh, and the given behaviour of the writes. *)
Definition cycle_at_1000 (write_fault : Instance → fault) (all : list Instance)
    : list effect * outcome :=
  cluster_node_heartbeat "awx-1" false 60 600 false "24.6.1"
    (is_lost_after 120) (health_check_at 1000) (λ i, i) (false, awx_1 true)
    (λ _ _, Some false) (λ v, String.prefix "ansible-runner" v)
    {[ "02000" := psycopg_errors_NoData;
       "40001" := PClass "psycopg.errors.SerializationFailure" ]}
    (λ _, false) (λ _, false) write_fault
    1000 all [] None.

Definition no_rows_affected : fault := DatabaseError (WithSqlstate (PStr "02000")).

End HeartbeatSpec.

Module CallbackMoreSpec.
Import Callback CallbackSpec.

(** What the runner put in an event. *)
Definition payload (e : EventData) : option string * option string * option Z * option Z :=
  (event e, stdout e, start_line e, end_line e).

Definition is_keepalive (x : Q * EventData) : bool :=
  bool_decide (event x.2 = Some "keepalive").

(** An event with empty [stdout] carries both line marks. *)
Definition has_lines (x : Q * EventData) : Prop :=
  stdout x.2 = Some "" → is_Some (start_line x.2) ∧ is_Some (end_line x.2).

Definition keepalive : EventData :=
  {| event := Some "keepalive"; stdout := None; start_line := None; end_line := None;
     event_data := None; job_reference := None; skip_websocket_message := false;
     parent_uuid := None; workflow_job_id := None; event_job_created := None;
     host_name := None; host_id := None; event_host_map := None; final_counter := None;
     event_guid := None |}.

End CallbackMoreSpec.

Module HeartbeatMoreSpec.
Import Heartbeat.

(** A time after the recorded [last_seen], when there is one. *)
Definition seen_before (seen : option Z) (t : Z) : Prop :=
  match seen with
  | Some s => (s < t)%Z
  | None => True
  end.

Definition is_log (e : effect) : bool :=
  match e with
  | LogDebug _ | LogInfo _ | LogWarning _ | LogError _ | LogException _ => true
  | _ => false
  end.

(** The call behind an effect, made or failed. *)
Fixpoint attempt_of (e : effect) : effect :=
  match e with
  | Failed e' => attempt_of e'
  | _ => e
  end.

(** The instance whose jobs or row an effect is aimed at. *)
Definition target (e : effect) : option string :=
  match attempt_of e with
  | Reap h | ReapWaiting h | Delete h | MarkOffline h => Some h
  | _ => None
  end.

(** Effects that reap jobs, delete a row or mark it offline. *)
Definition retires (e : effect) : bool :=
  match attempt_of e with
  | Reap _ | ReapWaiting _ | Delete _ | MarkOffline _ | LocalReap _ | LocalReapWaiting _ => true
  | _ => false
  end.

(** The columns that tell which node a row stands for. *)
Definition identity (i : Instance) : string * NodeType := (hostname i, node_type i).

(** A write fault that the handlers of the loop over the lost instances
    catch: a [DatabaseError] with no usable cause, or with an SQLSTATE that
    [psycopg.errors.lookup] knows. *)
Definition caught (sqlcodes : gmap string pyval) (f : fault) : Prop :=
  match f with
  | NoFault => True
  | DatabaseError (WithSqlstate (PStr code)) => is_Some (sqlcodes !! code)
  | DatabaseError (WithSqlstate _) => False
  | DatabaseError _ => True
  | OtherException => False
  end.

(** What the loop over the lost instances may do to one of them: reap its
    jobs, delete its row when instances are deprovisioned automatically and
    it is a control node, and otherwise mark it offline when it is ready. *)
Definition allowed_on (auto_deprovision : bool) (inst : Instance) (a : effect) : Prop :=
  a = Reap (hostname inst) ∨ a = ReapWaiting (hostname inst)
  ∨ (a = Delete (hostname inst) ∧ auto_deprovision = true ∧ node_type inst = control)
  ∨ (a = MarkOffline (hostname inst) ∧ node_state inst = ready
     ∧ ¬ (auto_deprovision = true ∧ node_type inst = control)).

(** An effect of the local reaper, which reaps the jobs of the local
    instance except the tasks that the workers hold. *)
Definition of_local_reaper (worker_tasks : option (list (list string))) (e : effect) : Prop :=
  ∃ task_lists, worker_tasks = Some task_lists
                ∧ (e = LocalReap (concat task_lists) ∨ e = LocalReapWaiting (concat task_lists)).

(** The rows the heartbeat works on. *)
Definition in_service (all : list Instance) : list Instance :=
  List.filter (λ i, bool_decide (node_state i = ready ∨ node_state i = unavailable
                                 ∨ node_state i = installed)) all.

(** An execution node last seen at second 400 and one advertisement of it
    at second 990. *)
Definition exec_1_seen_at_990 : list (string * Z) := [("exec-1", 990%Z)].

(** The execution node marked unavailable, and a control node that runs a
    newer release. *)
Definition exec_1_down : Instance :=
  {| hostname := "exec-1"; node_type := execution; node_state := unavailable;
     capacity := 0; enabled := true; last_seen := Some 400%Z;
     last_health_check := Some 400%Z; version := "ansible-runner-2.4.0" |}.

Definition awx_2_upgraded : Instance :=
  {| hostname := "awx-2"; node_type := control; node_state := ready;
     capacity := 100; enabled := true; last_seen := Some 995%Z;
     last_health_check := Some 995%Z; version := "25.0.0" |}.

Definition known_codes : gmap string pyval :=
  {[ "40001" := PClass "psycopg.errors.SerializationFailure" ]}.

(** A cycle at second 1000 on [awx-1], release 24.6.1, with a liveness
    threshold of 120 seconds and no advertisement; only 25.0.0 counts as
    newer. *)
Definition cycle_of (all : list Instance) : list effect * outcome :=
  cluster_node_heartbeat "awx-1" false 60 600 false "24.6.1"
    (HeartbeatSpec.is_lost_after 120) (HeartbeatSpec.health_check_at 1000) (λ i, i)
    (false, HeartbeatSpec.awx_1 true)
    (λ v _, Some (bool_decide (v = "25.0.0"))) (λ v, String.prefix "ansible-runner" v)
    known_codes (λ _, false) (λ _, false) (λ _, NoFault)
    1000 all [] None.

End HeartbeatMoreSpec.

Module MembershipMoreSpec.
Import Membership MembershipSpec.

Section Spec.
Variable DEFAULT_CONTROL_PLANE_QUEUE_NAME : string.

(** The instances the two passes may give to the group of a row: managed by
    policy, not hop nodes, and not of the type the group excludes. *)
Definition candidates (db : Database) (ig : InstanceGroup.t) : list Instance.t :=
  List.filter
    (λ i, negb (bool_decide (Instance.node_type i
                             = exclude_type DEFAULT_CONTROL_PLANE_QUEUE_NAME ig)))
    (List.filter Instance.managed_by_policy (all_instances db)).

(** Every node of the store that the group at [gi] may take is a member. *)
Definition saturated (gi : nat) (g : InstanceGroup.t) (st : store) : Prop :=
  ∀ i, i ∈ (rows st).2 →
       Instance.node_type i ≠ exclude_type DEFAULT_CONTROL_PLANE_QUEUE_NAME g →
       Instance.id i ∈ group_instances gi st.1.

(** The group at [gi] has its minimum, or has every node it may take. *)
Definition minimum_met (gi : nat) (g : InstanceGroup.t) (st : store) : Prop :=
  (InstanceGroup.policy_instance_minimum g
   <= Z.of_nat (length (group_instances gi st.1)))%Z
  ∨ saturated gi g st.

(** The group at [gi] has its percentage of the nodes it may take, or has
    all of them. *)
Definition percentage_met (gi : nat) (g : InstanceGroup.t) (st : store) : Prop :=
  (InstanceGroup.policy_instance_percentage g
   * Z.of_nat (length (List.filter
                         (λ i, negb (bool_decide
                                       (Instance.node_type i
                                        = exclude_type DEFAULT_CONTROL_PLANE_QUEUE_NAME g)))
                         (rows st).2))
   <= 100 * Z.of_nat (length (group_instances gi st.1)))%Z
  ∨ saturated gi g st.

End Spec.

(** The keys the policy list of a row names. *)
Definition pinned (db : Database) (ig : InstanceGroup.t) : list Z :=
  policy_list (instance_hostnames_map (all_instances db))
              (InstanceGroup.policy_instance_list ig) [].

(** The second store has the rows of the first, and every group the members
    it had, followed by new ones. *)
Definition grown (st st' : store) : Prop :=
  rows st' = rows st
  ∧ ∀ gj, ∃ more, group_instances gj st'.1 = group_instances gj st.1 ++ more.

(** The row after the task, for a group that is not a container group. *)
Definition written (g : Group.t) : InstanceGroup.t :=
  if InstanceGroup.is_container_group (Group.obj g) then Group.obj g
  else InstanceGroup.set_instances (list_to_set (Group.instances g)) (Group.obj g).

(** A cluster where [default] pins the unmanaged node [n5]. *)
Definition n5 : Instance.t := Instance.mk 5 "n5" execution false.

Definition pinning : InstanceGroup.t :=
  InstanceGroup.mk 11 "default" ["n5"; "h4"; "gone"] 2 50 false {[ 3%Z ]}.

Definition cluster_pinning : Database :=
  {| Instance_objects := [n3; h4; n1; n2; n5];
     InstanceGroup_objects := [controlplane; pinning; pods] |}.

(** The row of [default] after the task on that cluster. *)
Definition pinning_after : InstanceGroup.t :=
  InstanceGroup.set_instances {[ 1%Z; 5%Z ]} pinning.

End MembershipMoreSpec.

Module DeleteInventorySpec.
Import DeleteInventory.

Definition is_sleep (e : effect) : bool :=
  match e with Sleep _ => true | _ => false end.

Definition is_delete (e : effect) : bool :=
  match e with DeleteRow => true | _ => false end.

Definition slept (fx : list effect) : Z :=
  foldr (λ e total, match e with Sleep s => (s + total)%Z | _ => total end) 0%Z fx.

End DeleteInventorySpec.

Module JsonMigrationSpec.
Import JsonMigration.

Section Spec.
Variable cast : string → option string.
Variable columns : list string.

(** Every text of the row that the task would cast is valid JSON. *)
Definition castable (r : Row) : Prop :=
  ∀ c text, c ∈ columns → old_columns r !! c = Some text → is_Some (cast text).

(** The rows that the batches below [i] select, for [0 <= i]: the rows with
    a key from 0 up to [i] whose first old column is not NULL, and, once a
    batch has run, the rows one of whose other old columns is not NULL,
    whatever their key. *)
Definition selected_below (i : Z) (r : Row) : bool :=
  match columns with
  | [] => false
  | first :: others =>
      (0 <=? pk r)%Z && (pk r <? i)%Z && is_not_null r first
      || (0 <? i)%Z && existsb (is_not_null r) others
  end.

(** The rows that a whole run on the table [rows] selects: a batch runs
    when some key is not negative. *)
Definition selected (rows : list Row) (r : Row) : bool :=
  match columns with
  | [] => false
  | first :: others =>
      (0 <=? pk r)%Z && is_not_null r first
      || existsb (λ x, (0 <=? pk x)%Z) rows && existsb (is_not_null r) others
  end.

(** The second row is the first one with the batches below [i] applied. *)
Definition copied (i : Z) (r r' : Row) : Prop :=
  pk r' = pk r
  ∧ old_columns r' = old_columns r
  ∧ (∀ c, c ∉ columns → new_columns r' !! c = new_columns r !! c)
  ∧ (∀ c, c ∈ columns →
          new_columns r' !! c
          = if selected_below i r then old_columns r !! c ≫= cast
            else new_columns r !! c).

(** The second row is the first one after the migration of the table
    [rows]: the old columns are gone; a selected row got the casts of its
    old values, NULL for NULL; any other column is as it was. *)
Definition migrated (rows : list Row) (r r' : Row) : Prop :=
  pk r' = pk r
  ∧ (∀ c, c ∈ columns → old_columns r' !! c = None)
  ∧ (∀ c, c ∉ columns →
          old_columns r' !! c = old_columns r !! c
          ∧ new_columns r' !! c = new_columns r !! c)
  ∧ (∀ c, c ∈ columns →
          new_columns r' !! c
          = if selected rows r then old_columns r !! c ≫= cast
            else new_columns r !! c).

End Spec.

(** Rows of a table with the columns [extra_vars] and [artifacts]: keys 7
    and 25000, a row with no old data, and two rows with negative keys. *)
Definition job_7 : Row :=
  {| pk := 7; old_columns := {[ "extra_vars" := "{}" ]}; new_columns := ∅ |}.
Definition job_25000 : Row :=
  {| pk := 25000; old_columns := {[ "extra_vars" := "{}"; "artifacts" := "[]" ]};
     new_columns := {[ "artifacts" := "null" ]} |}.
Definition job_empty : Row :=
  {| pk := 12000; old_columns := ∅; new_columns := {[ "artifacts" := "1" ]} |}.
Definition job_minus_5 : Row :=
  {| pk := -5; old_columns := {[ "artifacts" := "[]" ]}; new_columns := ∅ |}.
Definition job_minus_6 : Row :=
  {| pk := -6; old_columns := {[ "extra_vars" := "{}" ]}; new_columns := ∅ |}.

End JsonMigrationSpec.

Module TasksSpec.

(** A schedule that is due, with a template that is not blocked. *)
Definition nightly : Scheduler.Schedule :=
  {| Scheduler.schedule_id := 3;
     Scheduler.unified_job_template :=
       {| Scheduler.template_id := 8; Scheduler.cache_timeout_blocked := false |} |}.

(** Two notifications that wait to be sent. *)
Definition pending_1 : Notifications.Notification :=
  {| Notifications.id := 1; Notifications.status := "pending";
     Notifications.notifications_sent := 0; Notifications.error := "" |}.
Definition pending_2 : Notifications.Notification :=
  {| Notifications.id := 2; Notifications.status := "pending";
     Notifications.notifications_sent := 0; Notifications.error := "" |}.

(** The release of a unit comes right after its cancellation. *)
Fixpoint cancel_before_release (fx : list WorkunitReaper.effect) : Prop :=
  match fx with
  | WorkunitReaper.WorkCancel u :: WorkunitReaper.WorkRelease u' :: rest =>
      u = u' ∧ cancel_before_release rest
  | WorkunitReaper.WorkCancel _ :: _ => False
  | WorkunitReaper.WorkRelease _ :: _ => False
  | _ :: rest => cancel_before_release rest
  | [] => True
  end.

End TasksSpec.

(* ================================================================== *)
(** * Properties *)

Lemma Qgtb_spec x y : Qgtb x y = true <-> (y < x)%Q.
Proof.
  unfold Qgtb. rewrite negb_true_iff.
  split; intros H.
  - apply Qnot_le_lt. intros Hle. apply Qle_bool_iff in Hle. congruence.
  - destruct (Qle_bool x y) eqn:E; [|done].
    apply Qle_bool_iff in E. exfalso. apply (Qlt_not_le _ _ H E).
Qed.

(** ** Sorting *)

Section Sorted.
Context {A : Type} (key : A → Z).

Lemma insert_by_perm x l : insert_by key x l ≡ₚ x :: l.
Proof.
  induction l as [|y l IH]; simpl; [done|].
  destruct (key x <=? key y)%Z; [done|].
  rewrite IH. apply Permutation_swap.
Qed.

Lemma sorted_perm l : sorted key l ≡ₚ l.
Proof.
  induction l as [|x l IH]; simpl; [done|].
  by rewrite insert_by_perm, IH.
Qed.

Lemma elem_of_sorted x l : x ∈ sorted key l ↔ x ∈ l.
Proof. by rewrite sorted_perm. Qed.

Lemma key_then_le R a b : key_then key R a b → (key a <= key b)%Z.
Proof. intros [?|[? _]]; lia. Qed.

Lemma insert_by_sorted R x l :
  Forall (R x) l → StronglySorted (key_then key R) l →
  StronglySorted (key_then key R) (insert_by key x l).
Proof.
  intros Hx Hs. induction Hs as [|y l Hs IH Hy]; simpl.
  { repeat constructor. }
  apply Forall_cons in Hx as [Hxy Hx].
  destruct (key x <=? key y)%Z eqn:E.
  - apply Z.leb_le in E. constructor; [by constructor|].
    constructor.
    + unfold key_then. destruct (decide (key x = key y)); [right|left]; [done|lia].
    + rewrite Forall_forall in *. intros z Hz.
      pose proof (key_then_le _ _ _ (Hy z Hz)).
      unfold key_then. destruct (decide (key x = key z)); [right|left]; [|lia].
      split; [done|]. by apply Hx.
  - apply Z.leb_gt in E. constructor; [by apply IH|].
    rewrite insert_by_perm. constructor; [|done]. left. lia.
Qed.

Lemma sorted_sorted R l :
  StronglySorted R l → StronglySorted (key_then key R) (sorted key l).
Proof.
  induction 1 as [|x l Hs IH Hx]; simpl; [constructor|].
  apply insert_by_sorted; [|done]. by rewrite sorted_perm.
Qed.

End Sorted.

Lemma sorted_fmap {A B} (f : A → B) (key : A → Z) (key' : B → Z) l :
  (∀ x, key' (f x) = key x) →
  sorted key' (f <$> l) = f <$> sorted key l.
Proof.
  intros Hk. unfold sorted. induction l as [|x l IH]; [done|].
  rewrite fmap_cons. cbn [foldr]. rewrite IH.
  generalize (foldr (insert_by key) [] l). intros s.
  induction s as [|y s IHs]; [done|].
  rewrite fmap_cons. cbn [insert_by].
  rewrite !Hk. destruct (key x <=? key y)%Z; [done|]. by rewrite IHs.
Qed.

Lemma enumerate_fmap {A B} (f : A → B) (l : list A) :
  enumerate (f <$> l) = prod_map id f <$> enumerate l.
Proof. unfold enumerate. by rewrite imap_fmap, fmap_imap. Qed.

Lemma elem_of_enumerate {A} (l : list A) i x : (i, x) ∈ enumerate l ↔ l !! i = Some x.
Proof.
  unfold enumerate. rewrite elem_of_lookup_imap. split.
  - by intros (j & y & [= -> ->] & H).
  - intros H. by exists i, x.
Qed.

Lemma enumerate_sorted {A} (R : A → A → Prop) (l : list A) :
  StronglySorted R l → StronglySorted (λ a b, R a.2 b.2) (enumerate l).
Proof.
  unfold enumerate. intros Hs.
  assert (Hgen : ∀ (g : nat → nat), StronglySorted (λ a b : nat * A, R a.2 b.2)
                                      (imap (λ i x, (g i, x)) l)).
  { induction Hs as [|x l Hs IH Hx]; intros g; simpl; [constructor|].
    constructor.
    - apply (IH (g ∘ S)).
    - apply Forall_forall. intros [j y] Hin.
      apply elem_of_lookup_imap in Hin as (k & z & [= -> ->] & Hk). simpl.
      rewrite Forall_forall in Hx. apply Hx. by eapply list_elem_of_lookup_2. }
  apply (Hgen id).
Qed.

Lemma StronglySorted_weaken {A} (R R' : A → A → Prop) (l : list A) :
  (∀ a b, R a b → R' a b) → StronglySorted R l → StronglySorted R' l.
Proof.
  intros HR. induction 1 as [|x l Hs IH Hx]; constructor; [done|].
  eapply Forall_impl; [exact Hx|]. intros b. apply HR.
Qed.

Lemma StronglySorted_trivial {A} (l : list A) : StronglySorted (λ _ _, True) l.
Proof. induction l; constructor; [done|]. by apply Forall_forall. Qed.

Lemma StronglySorted_list_filter {A} (R : A → A → Prop) (p : A → bool) (l : list A) :
  StronglySorted R l → StronglySorted R (List.filter p l).
Proof.
  induction 1 as [|x l Hs IH Hx]; simpl; [constructor|].
  destruct (p x); [|done]. constructor; [done|].
  apply Forall_forall. intros y Hy. rewrite Forall_forall in Hx. apply Hx.
  apply list_elem_of_In, filter_In in Hy as [Hy _]. by apply list_elem_of_In.
Qed.

Lemma StronglySorted_fmap_inv {A B} (f : A → B) (R : B → B → Prop) (l : list A) :
  StronglySorted R (f <$> l) → StronglySorted (λ a b, R (f a) (f b)) l.
Proof.
  induction l as [|x l IH]; intros Hs; [constructor|].
  rewrite fmap_cons in Hs. apply StronglySorted_inv in Hs as [Hs Hx].
  constructor; [by apply IH|]. rewrite Forall_fmap in Hx. exact Hx.
Qed.

Lemma StronglySorted_fmap_intro {A B} (f : A → B) (R : B → B → Prop) (l : list A) :
  StronglySorted (λ a b, R (f a) (f b)) l → StronglySorted R (f <$> l).
Proof.
  induction 1 as [|x l Hs IH Hx]; [constructor|].
  rewrite fmap_cons. constructor; [done|]. rewrite Forall_fmap. exact Hx.
Qed.

Lemma enumerate_snd {A} (l : list A) : snd <$> enumerate l = l.
Proof.
  unfold enumerate. rewrite fmap_imap.
  apply list_eq. intros i. rewrite list_lookup_imap. by destruct (l !! i).
Qed.

Module CallbackFacts.
Import Callback CallbackSpec.

Lemma set_extra_update_fields_id self :
  set_extra_update_fields (extra_update_fields self) self = self.
Proof. by destruct self. Qed.

Lemma delay_update_one skip key value self :
  delay_update skip [(key, value)] self =
  match delay_update_item skip (extra_update_fields self) key value with
  | Ok f => Ok (set_extra_update_fields f self)
  | Raise e f => Raise e (set_extra_update_fields f self)
  end.
Proof.
  unfold delay_update. simpl.
  by destruct (delay_update_item skip (extra_update_fields self) key value).
Qed.

(** C9.  [delay_update] called without [skip_if_already_set] on one of the
    fields [job_explanation] and [result_traceback] that already holds a
    text leaves the text as it is when the new message occurs in it, and
    otherwise stores the old text, a newline and the new message; a field
    that is not one of the two, or that is not set yet, takes the new value;
    called with [skip_if_already_set], a field that is set keeps its value;
    and the status transition to [error] stages [result_traceback] and then
    [job_explanation] through this [delay_update], each when
    [status_data] holds a non-empty value for it. *)
Theorem delay_update_merge_append (self : RunnerCallback) (key : string) (value : pyval) :
  let fields := extra_update_fields self in
  (∀ old, key ∈ merged_fields → fields !! key = Some (PStr old) →
     str_in (py_str value) old = true →
     delay_update false [(key, value)] self = Ok self)
  ∧ (∀ old, key ∈ merged_fields → fields !! key = Some (PStr old) →
     str_in (py_str value) old = false →
     delay_update false [(key, value)] self =
     Ok (set_extra_update_fields
           (<[key := PStr (old +:+ newline +:+ py_str value)]> fields) self))
  ∧ (key ∉ merged_fields ∨ fields !! key = None →
     delay_update false [(key, value)] self =
     Ok (set_extra_update_fields (<[key := value]> fields) self))
  ∧ (is_Some (fields !! key) → delay_update true [(key, value)] self = Ok self)
  ∧ (∀ status_data, status_data !! "status" = Some (PStr "error") →
     status_handler status_data self =
     bind (stage_field status_data "result_traceback" self)
          (stage_field status_data "job_explanation")).
Proof.
  intros fields. repeat split.
  - intros old Hin Hold Hsub. rewrite delay_update_one. unfold delay_update_item.
    subst fields. rewrite Hold. rewrite bool_decide_eq_true_2 by done.
    rewrite Hsub. by rewrite set_extra_update_fields_id.
  - intros old Hin Hold Hsub. rewrite delay_update_one. unfold delay_update_item.
    fold fields. rewrite Hold. rewrite bool_decide_eq_true_2 by done.
    by rewrite Hsub.
  - intros H. rewrite delay_update_one. unfold delay_update_item. fold fields.
    destruct (fields !! key) as [old|] eqn:E; [|done].
    destruct H as [H|H]; [|done].
    by rewrite bool_decide_eq_false_2.
  - intros [old Hold]. rewrite delay_update_one. unfold delay_update_item.
    subst fields. rewrite Hold. by rewrite set_extra_update_fields_id.
  - intros status_data Hst. unfold status_handler. rewrite Hst. simpl.
    unfold stage_field.
    destruct (py_truthy (default PNone (status_data !! "result_traceback"))).
    + destruct (delay_update false _ self) as [s|e s]; simpl; [|done].
      destruct (py_truthy (default PNone (status_data !! "job_explanation"))); [|done].
      by destruct (delay_update false _ s).
    + simpl.
      destruct (py_truthy (default PNone (status_data !! "job_explanation"))); [|done].
      by destruct (delay_update false _ self).
Qed.

Lemma delay_update_merge_append_witness :
  delay_update false [("job_explanation", PStr "timed out")] job0_failed =
  Ok (set_extra_update_fields
        {[ "job_explanation" := PStr ("lost contact" +:+ newline +:+ "timed out") ]} job0).
Proof.
  pose proof (proj1 (proj2 (delay_update_merge_append job0_failed "job_explanation"
                              (PStr "timed out"))) "lost contact") as H.
  rewrite H.
  - reflexivity.
  - apply (bool_decide_eq_true_1 ("job_explanation" ∈ merged_fields)). reflexivity.
  - reflexivity.
  - reflexivity.
Defined.

(** On readings of the clock, the difference that a rate test takes is a
    double, and so is its product by the capacity while it stays within
    [2^31]: the double-precision arithmetic of the source computes the very
    values that [rate_tests] compares with 1. *)
Lemma clock_arithmetic_exact (a b : Q) (N : nat) :
  epoch_reading a → epoch_reading b →
  representable (a - b)
  ∧ ((- inject_Z (2 ^ 31) < inject_Z (Z.of_nat N) * (a - b) < inject_Z (2 ^ 31))%Q →
     representable (inject_Z (Z.of_nat N) * (a - b))).
Proof.
  intros (ka & Hka & Ha) (kb & Hkb & Hb).
  assert (Hd : (a - b == inject_Z (ka - kb) / inject_Z (2 ^ 22))%Q).
  { rewrite Ha, Hb. unfold Zminus. rewrite inject_Z_plus, inject_Z_opp. field. done. }
  split.
  - exists (ka - kb)%Z, 22%nat. split; [lia|]. exact Hd.
  - intros [Hlo Hhi]. exists (Z.of_nat N * (ka - kb))%Z, 22%nat.
    assert (He : (inject_Z (Z.of_nat N) * (a - b)
                  == inject_Z (Z.of_nat N * (ka - kb)) / inject_Z (2 ^ 22))%Q).
    { rewrite Hd, inject_Z_mult. field. done. }
    split; [|exact He].
    rewrite He in Hlo, Hhi. set (z := (Z.of_nat N * (ka - kb))%Z) in *.
    assert (Hz : (- inject_Z (2 ^ 53) < inject_Z z < inject_Z (2 ^ 53))%Q).
    { change (inject_Z (2 ^ 53)) with (9007199254740992 # 1)%Q.
      change (inject_Z (2 ^ 31)) with (2147483648 # 1)%Q in *.
      change (inject_Z (2 ^ 22)) with (4194304 # 1)%Q in *.
      unfold Qdiv in *. change (/ (4194304 # 1))%Q with (1 # 4194304)%Q in *.
      split; lra. }
    destruct Hz as [Hz1 Hz2].
    rewrite <- inject_Z_opp in Hz1. rewrite <- Zlt_Qlt in Hz1, Hz2. lia.
Qed.

Section Handler.
Variable MINIMAL_EVENTS : gset string.
Variable redact : EventData → pyerr + option EventData.

Lemma delay_update_artifacts v self :
  ∃ f, delay_update false [("artifacts", v)] self = Ok (set_extra_update_fields f self).
Proof.
  rewrite delay_update_one. unfold delay_update_item.
  destruct (extra_update_fields self !! "artifacts"); eauto.
Qed.

Lemma link_job_carried self ev : carried (link_job self ev) = carried ev.
Proof.
  unfold link_job. cbv zeta. destruct (_ && _);
    destruct (parent_workflow_job_id self) as [w|]; try destruct (w =? 0)%Z; done.
Qed.

Lemma link_host_carried self host ev : carried (link_host self host ev) = carried ev.
Proof.
  unfold link_host. cbv zeta. destruct (negb _); [destruct (host_map self !! host)|];
    case_bool_decide; done.
Qed.

Lemma host_of_carried ev ev' : event_data ev' = event_data ev → host_of ev' = host_of ev.
Proof. unfold host_of. by intros ->. Qed.

Lemma host_of_readable ev :
  (host_readable ev → ∃ host, host_of ev = inr host)
  ∧ (¬ host_readable ev → host_of ev = inl AttributeError).
Proof.
  unfold host_readable, host_of. destruct (event_data ev) as [[p|v]|]; [| |].
  - destruct (p !! "host") as [[]|]; split; eauto; try done; intros H; by destruct H.
  - split; [done|eauto].
  - split; [eauto|intros H; by destruct H].
Qed.

Lemma enrich_carried self ev ev1 : enrich self ev = inr ev1 → carried ev1 = carried ev.
Proof.
  unfold enrich. cbv zeta. destruct (host_of _) as [e|host]; [done|]. intros [= <-].
  by rewrite link_host_carried, link_job_carried.
Qed.

Lemma enrich_readable self ev :
  (host_readable ev → ∃ ev1, enrich self ev = inr ev1)
  ∧ (¬ host_readable ev → enrich self ev = inl AttributeError).
Proof.
  unfold enrich. cbv zeta.
  assert (Hd : event_data (link_job self ev) = event_data ev).
  { pose proof (link_job_carried self ev) as H. unfold carried in H. congruence. }
  rewrite (host_of_carried ev _ Hd).
  destruct (host_of_readable ev) as [H1 H2]. split.
  - intros Hr. destruct (H1 Hr) as [host ->]. eauto.
  - intros Hr. by rewrite (H2 Hr).
Qed.

Lemma write_guid_carried self ev ev1 :
  write_guid self ev = inr ev1 →
  dict_payload ev1
  ∧ event ev1 = event ev ∧ stdout ev1 = stdout ev ∧ start_line ev1 = start_line ev
  ∧ end_line ev1 = end_line ev ∧ skip_websocket_message ev1 = skip_websocket_message ev
  ∧ job_reference ev1 = job_reference ev.
Proof.
  unfold write_guid, dict_payload. destruct (event_data ev) as [[p|v]|] eqn:E; [| |].
  - by intros [= <-].
  - done.
  - intros [= <-]. by rewrite E.
Qed.

Lemma write_guid_returns self ev : dict_payload ev → ∃ ev1, write_guid self ev = inr ev1.
Proof. unfold write_guid, dict_payload. destruct (event_data ev) as [[p|v]|]; eauto; done. Qed.

Lemma redact_scm_unredacted self ev :
  unredacted self ev → dict_payload ev → redact_scm redact self ev = inr ev.
Proof.
  unfold unredacted, redact_scm, dict_payload, task_action.
  destruct (for_project_update self); [|done].
  destruct (event_data ev) as [[p|v]|]; [| |].
  - intros [?|H] _; [done|]. cbn in H. by rewrite H.
  - done.
  - by intros [?|?].
Qed.

(** What reaches the rate limiter has a dict for a nested payload, if it
    has one. *)
Lemma prepare_dict self ev ev1 : prepare redact self ev = inr ev1 → dict_payload ev1.
Proof.
  unfold prepare. destruct (enrich self ev) as [e|ev']; [done|].
  destruct (redact_scm redact self ev') as [e|ev'']; [done|].
  intros H. by apply write_guid_carried in H as [? _].
Qed.

Lemma prepare_raises self ev : ¬ host_readable ev → prepare redact self ev = inl AttributeError.
Proof. intros H. unfold prepare. by rewrite (proj2 (enrich_readable self ev) H). Qed.

Lemma enrich_dict self ev ev1 : enrich self ev = inr ev1 → dict_payload ev1.
Proof.
  intros He. pose proof (enrich_carried self ev ev1 He) as Hc. unfold carried in Hc.
  injection Hc as _ _ _ _ _ Hd _. unfold dict_payload. rewrite Hd.
  destruct (event_data ev) as [[p|v]|] eqn:E; [done| |done].
  exfalso. destruct (enrich_readable self ev) as [_ Hno].
  rewrite Hno in He; [done|]. intros H. unfold host_readable in H. by rewrite E in H.
Qed.

(** What lines 153-191 leave of an event that is not redacted. *)
Lemma prepare_carried self ev ev1 :
  prepare redact self ev = inr ev1 → unredacted self ev →
  event ev1 = event ev ∧ stdout ev1 = stdout ev ∧ start_line ev1 = start_line ev
  ∧ end_line ev1 = end_line ev
  ∧ skip_websocket_message ev1 = skip_websocket_message ev
  ∧ job_reference ev1 = job_reference ev.
Proof.
  unfold prepare. destruct (enrich self ev) as [e|ev'] eqn:He; [done|].
  pose proof (enrich_carried self ev ev' He) as Hc. unfold carried in Hc.
  injection Hc as H1 H2 H3 H4 H5 H6 H7. intros Hp Hu.
  rewrite redact_scm_unredacted in Hp;
    [|by unfold unredacted, task_action in *; rewrite H6|by apply (enrich_dict self ev)].
  apply write_guid_carried in Hp as (_ & ? & ? & ? & ? & ? & ?).
  split_and!; congruence.
Qed.

(** An event that line 160 can read and that is not redacted reaches the
    rate limiter as it came. *)
Lemma prepare_accepts self ev :
  host_readable ev → unredacted self ev →
  ∃ ev1, prepare redact self ev = inr ev1
         ∧ event ev1 = event ev ∧ stdout ev1 = stdout ev ∧ start_line ev1 = start_line ev
         ∧ end_line ev1 = end_line ev
         ∧ skip_websocket_message ev1 = skip_websocket_message ev
         ∧ job_reference ev1 = job_reference ev.
Proof.
  intros Hr Hu.
  assert (Hret : ∃ ev1, prepare redact self ev = inr ev1).
  { unfold prepare. destruct (proj1 (enrich_readable self ev) Hr) as [ev' He]. rewrite He.
    pose proof (enrich_carried self ev ev' He) as Hc. unfold carried in Hc.
    injection Hc as _ _ _ _ _ H6 _.
    rewrite redact_scm_unredacted;
      [|by unfold unredacted, task_action in *; rewrite H6|by apply (enrich_dict self ev)].
    apply write_guid_returns. by apply (enrich_dict self ev). }
  destruct Hret as [ev1 Hp]. exists ev1. split; [done|]. by apply (prepare_carried self ev).
Qed.

Lemma throttle_dict cpu_time ev d ev' d' :
  throttle MINIMAL_EVENTS cpu_time ev d = inr (ev', d') → dict_payload ev → dict_payload ev'.
Proof.
  unfold throttle, dict_payload. destruct (items d) as [|first_window_time others].
  - destruct (negb _); by intros [= <- <-].
  - intros H Hd. destruct (should_emit _ _ _ _ _ _) as [e|[|]]; [done| |];
      injection H as <- <-; [exact Hd|].
    revert Hd. cbn. by destruct (event_data ev) as [[]|] eqn:E; cbn; rewrite ?E.
Qed.

Lemma artifact_data_dict ev : dict_payload ev → ∃ artifacts, artifact_data ev = inr artifacts.
Proof. unfold dict_payload, artifact_data. destruct (event_data ev) as [[]|]; eauto; done. Qed.

(** What a call that is not a keepalive does around the rate limiter. *)
Lemma event_handler_cases cpu_time ev self :
  event ev ≠ Some "keepalive" →
  match prepare redact self ev with
  | inl e => event_handler MINIMAL_EVENTS redact cpu_time ev self = Raises e self
  | inr ev1 =>
      match throttle MINIMAL_EVENTS cpu_time ev1 (recent_event_timings self) with
      | inl e => event_handler MINIMAL_EVENTS redact cpu_time ev self = Raises e self
      | inr (ev', d') =>
          ∃ self' sent,
            event_handler MINIMAL_EVENTS redact cpu_time ev self = Return_False self'
            ∧ dispatcher self' = dispatcher self ++ [sent]
            ∧ event_ct self' = S (event_ct self)
            ∧ recent_event_timings self' = d'
            ∧ skip_websocket_message sent = skip_websocket_message ev'
            ∧ event sent = event ev'
      end
  end.
Proof.
  intros Hk. unfold event_handler. rewrite bool_decide_eq_false_2 by done.
  destruct (prepare redact self ev) as [e|ev1] eqn:Hp; [done|].
  destruct (throttle _ _ _ _) as [e|[ev' d']] eqn:Ht; [done|].
  set (self1 := if bool_decide _ then _ else _).
  set (sent := match job_reference ev' with None => _ | Some _ => ev' end).
  assert (Hd : recent_event_timings self1 = d'
               ∧ dispatcher self1 = dispatcher self ∧ event_ct self1 = event_ct self).
  { subst self1. by case_bool_decide. }
  destruct Hd as (Hd1 & Hd2 & Hd3).
  assert (Hs : skip_websocket_message sent = skip_websocket_message ev'
               ∧ event sent = event ev' ∧ event_data sent = event_data ev').
  { subst sent. by destruct (job_reference ev'). }
  destruct Hs as (Hs1 & Hs2 & Hs3).
  destruct (artifact_data_dict sent) as [artifacts ->].
  { unfold dict_payload. rewrite Hs3.
    apply (throttle_dict _ _ _ _ _ Ht). by eapply prepare_dict. }
  destruct (py_truthy artifacts).
  - destruct (delay_update_artifacts artifacts (dispatch sent self1)) as [f ->].
    eexists _, sent. split; [done|]. simpl. by rewrite Hd1, Hd2, Hd3.
  - eexists _, sent. split; [done|]. simpl. by rewrite Hd1, Hd2, Hd3.
Qed.

Lemma any_rate_tests cpu_time first_window_time last_window_time d :
  any (rate_tests cpu_time first_window_time last_window_time d) = true ↔
  (1 < cpu_time - first_window_time)%Q
  ∨ (1 < inject_Z (Z.of_nat (maxlen d)) * (cpu_time - last_window_time))%Q
  ∨ length (items d) ≠ maxlen d.
Proof.
  unfold any, rate_tests. simpl. unfold id.
  rewrite !orb_true_iff, !Qgtb_spec, negb_true_iff, Nat.eqb_neq.
  intuition discriminate.
Qed.

(** A call on an event that reaches the rate limiter while the window is
    empty. *)
Lemma first_event cpu_time ev ev1 self :
  items (recent_event_timings self) = [] →
  event ev ≠ Some "keepalive" →
  prepare redact self ev = inr ev1 →
  ∃ self' sent,
    event_handler MINIMAL_EVENTS redact cpu_time ev self = Return_False self'
    ∧ dispatcher self' = dispatcher self ++ [sent]
    ∧ event_ct self' = S (event_ct self)
    ∧ skip_websocket_message sent = skip_websocket_message ev1
    ∧ event sent = event ev1
    ∧ items (recent_event_timings self') =
        (if (maxlen (recent_event_timings self) =? 0)%nat then [] else [cpu_time]).
Proof.
  intros Hempty Hk Hp.
  pose proof (event_handler_cases cpu_time ev self Hk) as H. rewrite Hp in H.
  unfold throttle in H. rewrite Hempty in H.
  destruct (maxlen (recent_event_timings self) =? 0)%nat eqn:Hm; simpl in H.
  - destruct H as (self' & sent & -> & ? & ? & Hd & ? & ?).
    exists self', sent. rewrite Hd, Hempty. repeat split; congruence.
  - destruct H as (self' & sent & -> & ? & ? & Hd & ? & ?).
    exists self', sent. rewrite Hd. unfold deque_append. rewrite Hm, Hempty. simpl.
    apply Nat.eqb_neq in Hm.
    destruct (maxlen (recent_event_timings self) <? 1)%nat eqn:Hlt.
    + apply Nat.ltb_lt in Hlt. lia.
    + simpl. repeat split; congruence.
Qed.

Lemma prepare_raised cpu_time ev self e :
  event ev ≠ Some "keepalive" →
  prepare redact self ev = inl e →
  event_handler MINIMAL_EVENTS redact cpu_time ev self = Raises e self.
Proof.
  intros Hk Hp. pose proof (event_handler_cases cpu_time ev self Hk) as H.
  by rewrite Hp in H.
Qed.

(** C10, as the code has it.  While the window of recent timings is empty, a
    call on an event that is not a keepalive goes one of two ways.  When
    lines 153-191 return, as they do on every event whose nested payload, if
    it has one, is a dict with a string for a host, if it has one, the
    event that they leave is handed to the dispatcher with its skip flag
    untouched, whatever its type, output and line marks, and it is counted;
    the clock reading of the call becomes the only item of the window when
    the capacity of the window is not zero, and the window stays empty when
    the capacity is zero.  That event has the type and the flag of the one
    that came, unless it is the redacted copy of the event of a
    source-control task of a project update.  When lines 153-191 raise, as
    they do with [AttributeError] on any other nested payload or host, the
    call raises and leaves the callback as it was: nothing is dispatched,
    counted or recorded. *)
Theorem first_event_always_live (cpu_time : Q) (ev : EventData) (self : RunnerCallback) :
  items (recent_event_timings self) = [] →
  event ev ≠ Some "keepalive" →
  (host_readable ev → unredacted self ev →
     ∃ ev1, prepare redact self ev = inr ev1
            ∧ event ev1 = event ev
            ∧ skip_websocket_message ev1 = skip_websocket_message ev)
  ∧ (∀ ev1, prepare redact self ev = inr ev1 →
       ∃ self' sent,
         event_handler MINIMAL_EVENTS redact cpu_time ev self = Return_False self'
         ∧ dispatcher self' = dispatcher self ++ [sent]
         ∧ event_ct self' = S (event_ct self)
         ∧ skip_websocket_message sent = skip_websocket_message ev1
         ∧ event sent = event ev1
         ∧ items (recent_event_timings self') =
             (if (maxlen (recent_event_timings self) =? 0)%nat then [] else [cpu_time]))
  ∧ (¬ host_readable ev → prepare redact self ev = inl AttributeError)
  ∧ (∀ e, prepare redact self ev = inl e →
       event_handler MINIMAL_EVENTS redact cpu_time ev self = Raises e self).
Proof.
  intros Hempty Hk. split_and!.
  - intros Hr Hu. destruct (prepare_accepts self ev Hr Hu) as (ev1 & ? & ? & _ & _ & _ & ? & _).
    by exists ev1.
  - intros ev1 Hp. by apply first_event.
  - apply prepare_raises.
  - intros e Hp. by apply prepare_raised.
Qed.



End Handler.

Lemma first_event_always_live_witness :
  ∃ self' sent,
    event_handler stats_only blank_stdout (1 # 2) silent job0 = Return_False self'
    ∧ dispatcher self' = dispatcher job0 ++ [sent]
    ∧ event_ct self' = 1
    ∧ skip_websocket_message sent = false
    ∧ event sent = Some "runner_on_ok"
    ∧ items (recent_event_timings self') = [1 # 2]%Q.
Proof.
  destruct (first_event_always_live stats_only blank_stdout (1 # 2) silent job0)
    as (H1 & H2 & _).
  - reflexivity.
  - discriminate.
  - destruct H1 as (ev1 & Hp & He & Hs); [exact I|left; reflexivity|].
    destruct (H2 ev1 Hp) as (self' & sent & Ho & Hd & Hc & Hf & Ht & Hw).
    exists self', sent. rewrite Hf, Hs, Ht, He. by split_and!.
Defined.

(** C10 as stated fails for a window of capacity zero: the first event is
    live, but its clock reading is not kept. *)
Lemma first_event_not_recorded_when_capacity_zero :
  let self := init 0 7%Z "playbook_on_stats" "guid-0" "job_id" false None ∅ PNone in
  let self' := after (event_handler stats_only blank_stdout (1 # 2) talking self) in
  (skip_websocket_message <$> last (dispatcher self')) = Some false
  ∧ items (recent_event_timings self') = []
  ∧ ¬ In (1 # 2)%Q (items (recent_event_timings self')).
Proof. vm_compute. repeat split. intros []. Qed.

(** An event whose host is [None] is not dispatched at all: line 160 raises
    [AttributeError] and the callback is left as it was. *)
Lemma host_none_raises :
  event_handler stats_only blank_stdout 0 host_none job0 = Raises AttributeError job0.
Proof. reflexivity. Qed.

(** An event on a known host goes out with the name and the key of the
    host. *)
Lemma on_web1_enriched :
  ∃ sent, dispatched_by (event_handler stats_only blank_stdout 0 on_web1 job0) = Some sent
          ∧ host_name sent = Some "web1" ∧ host_id sent = Some (PInt 31)
          ∧ event_job_created sent = Some (PStr "2024-05-01 10:00:00")
          ∧ job_reference sent = Some 7%Z.
Proof. eexists. split; [reflexivity|]. by split_and!. Qed.



(** *** The rate bound *)

Section RateBound.
Variable N : nat.
Hypothesis N_pos : 1 ≤ N.

Let n : Q := inject_Z (Z.of_nat N).

Lemma cap_nonneg : (0 <= n)%Q.
Proof. unfold n, Qle. simpl. lia. Qed.

Lemma cap_gt (m : nat) : (inject_Z (Z.of_nat m) < n)%Q → m < N.
Proof. unfold n. rewrite <- Zlt_Qlt. lia. Qed.

Lemma inject_S (m : nat) : (inject_Z (Z.of_nat (S m)) == inject_Z (Z.of_nat m) + 1)%Q.
Proof. rewrite Nat2Z.inj_succ. unfold Z.succ. rewrite inject_Z_plus. reflexivity. Qed.

Lemma marked_cons w t c (h : emissions) :
  marked_in_window w ((t, c) :: h) =
  (if c && Qle_bool w t && Qle_bool t (w + 1) then 1 else 0) + marked_in_window w h.
Proof.
  unfold marked_in_window. simpl.
  by destruct (c && Qle_bool w t && Qle_bool t (w + 1)).
Qed.

Lemma marked_le_recent w since (h : emissions) :
  (since <= w)%Q → marked_in_window w h ≤ recent since h.
Proof.
  intros Hle. induction h as [|[t c] h IH]; [done|].
  rewrite marked_cons. unfold recent in *. simpl.
  destruct (c && Qle_bool w t && Qle_bool t (w + 1)) eqn:E.
  - apply andb_true_iff in E as [E _]. apply andb_true_iff in E as [_ E].
    apply Qle_bool_iff in E.
    assert (Hs : Qle_bool since t = true) by (apply Qle_bool_iff; lra).
    rewrite Hs. simpl. lia.
  - destruct (Qle_bool since t); simpl; lia.
Qed.

Lemma well_paced_sorted (h : emissions) e rest :
  well_paced N h → h = e :: rest → Forall (λ x, (x.1 <= e.1)%Q) h.
Proof.
  intros Hw ->. destruct e as [t c]. destruct Hw as (_ & Hs & _).
  constructor; [simpl; lra | done].
Qed.

Lemma chain_bound (h : emissions) :
  well_paced N h →
  ∀ w (m : nat),
    Forall (λ e, (inject_Z (Z.of_nat m) < n * (w + 1 - e.1))%Q) h →
    marked_in_window w h = 0 ∨ marked_in_window w h + m ≤ 2 * N - 1.
Proof.
  induction h as [|[t c] rest IH]; intros Hw w m Hall; [by left|].
  destruct Hw as (Hw & Hsorted & Hpaced).
  inversion Hall as [|? ? Hhead Hrest]; subst. simpl in Hhead.
  rewrite marked_cons.
  destruct (c && Qle_bool w t && Qle_bool t (w + 1)) eqn:E.
  2:{ simpl. by apply IH. }
  apply andb_true_iff in E as [E Eh]. apply andb_true_iff in E as [Ec El].
  apply Qle_bool_iff in Eh, El. destruct c; [|done].
  pose proof cap_nonneg as Hn.
  assert (Hm : m < N).
  { apply cap_gt. nra. }
  right. destruct (Hpaced eq_refl) as [Hrecent|Hgap].
  - pose proof (marked_le_recent w (t - 1) rest ltac:(lra)). lia.
  - destruct rest as [|[t' c'] rest']; [done|]. simpl in Hgap. fold n in Hgap.
    destruct (IH Hw w (S m)) as [H0|H1]; [|lia|lia].
    pose proof (well_paced_sorted _ _ _ Hw eq_refl) as Hs.
    eapply Forall_impl; [exact Hs|]. intros [t'' c''] Hle. simpl in *.
    rewrite inject_S.
    assert (0 <= n * (t' - t''))%Q by nra. nra.
Qed.

Lemma window_bound (h : emissions) w :
  well_paced N h → marked_in_window w h ≤ 2 * N - 1.
Proof.
  induction h as [|[t c] rest IH]; intros Hw; [simpl; unfold marked_in_window; simpl; lia|].
  destruct Hw as (Hw & Hsorted & Hpaced).
  rewrite marked_cons.
  destruct (c && Qle_bool w t && Qle_bool t (w + 1)) eqn:E.
  2:{ simpl. by apply IH. }
  apply andb_true_iff in E as [E Eh]. apply andb_true_iff in E as [Ec El].
  apply Qle_bool_iff in Eh, El. destruct c; [|done].
  pose proof cap_nonneg as Hn.
  destruct (Hpaced eq_refl) as [Hrecent|Hgap].
  - pose proof (marked_le_recent w (t - 1) rest ltac:(lra)). lia.
  - destruct rest as [|[t' c'] rest']; [done|]. simpl in Hgap. fold n in Hgap.
    destruct (chain_bound _ Hw w 1) as [H0|H1]; [|lia|lia].
    pose proof (well_paced_sorted _ _ _ Hw eq_refl) as Hs.
    eapply Forall_impl; [exact Hs|]. intros [t'' c''] Hle. simpl in *.
    assert (0 <= n * (t' - t''))%Q by nra.
    assert (0 <= n * (w + 1 - t))%Q by nra.
    change (inject_Z (Z.of_nat 1)) with 1%Q. nra.
Qed.

Lemma deque_append_tracks (d : deque) (m : list Q) cpu_time :
  maxlen d = N → items d = rev (take N m) →
  maxlen (deque_append cpu_time d) = N
  ∧ items (deque_append cpu_time d) = rev (take N (cpu_time :: m)).
Proof.
  intros Hmax Hitems. unfold deque_append. rewrite Hmax.
  destruct N as [|N'] eqn:HN; [lia|]. simpl (S N' =? 0)%nat. cbv iota.
  rewrite Hitems. simpl (take (S N') (cpu_time :: m)). simpl (rev (_ :: _)).
  destruct (m !! N') as [x|] eqn:Hx.
  - rewrite (take_S_r _ _ _ Hx), rev_app_distr. simpl.
    assert (Hlen : length (take N' m) = N').
    { apply lookup_lt_Some in Hx. rewrite length_take. lia. }
    rewrite length_app, length_rev, Hlen. simpl.
    destruct (_ <? _)%nat eqn:El; [|apply Nat.ltb_ge in El; lia].
    by rewrite drop_0.
  - apply lookup_ge_None in Hx.
    rewrite !take_ge by lia.
    rewrite length_app, length_rev. simpl.
    destruct (_ <? _)%nat eqn:El; [apply Nat.ltb_lt in El; lia|].
    done.
Qed.

Lemma recent_le_length since (h : emissions) : recent since h ≤ length h.
Proof. unfold recent. apply List.filter_length_le. Qed.

Lemma recent_app since (h1 h2 : emissions) :
  recent since (h1 ++ h2) = recent since h1 + recent since h2.
Proof. unfold recent. by rewrite List.filter_app, length_app. Qed.

Lemma recent_none since (h : emissions) :
  Forall (λ e, (e.1 < since)%Q) h → recent since h = 0.
Proof.
  unfold recent. induction 1 as [|e h He _ IH]; [done|]. simpl.
  destruct (Qle_bool since e.1) eqn:E; [|done].
  apply Qle_bool_iff in E. lra.
Qed.

Lemma well_paced_drop k (h : emissions) : well_paced N h → well_paced N (drop k h).
Proof.
  revert h. induction k as [|k IH]; intros h Hw; [by rewrite drop_0|].
  destruct h as [|[t c] h]; [done|]. simpl. apply IH. by destruct Hw.
Qed.

(** A rate test that succeeds means the emission is paced. *)
Lemma rate_tests_paced (d : deque) (h : emissions) cpu_time first_window_time others :
  maxlen d = N → items d = rev (take N (map fst h)) → well_paced N h →
  items d = first_window_time :: others →
  any (rate_tests cpu_time first_window_time
         (List.last (items d) first_window_time) d) = true →
  paced N cpu_time h.
Proof.
  intros Hmax Hitems Hw Hfirst Hany.
  apply any_rate_tests in Hany. rewrite Hmax in Hany. fold n in Hany.
  destruct (decide (length h < N)) as [Hshort|Hlong].
  { left. pose proof (recent_le_length (cpu_time - 1) h). lia. }
  destruct Hany as [Ha|[Hb|Hc]].
  - left. destruct (Nat.lt_exists_pred 0 N) as (N' & HN & _); [lia|].
    destruct (h !! N') as [e|] eqn:He.
    2:{ apply lookup_ge_None in He. lia. }
    assert (Hx : map fst h !! N' = Some e.1).
    { change (map fst h) with (fst <$> h). by rewrite list_lookup_fmap, He. }
    rewrite Hfirst, HN in Hitems.
    rewrite (take_S_r _ _ _ Hx), rev_app_distr in Hitems. simpl in Hitems.
    injection Hitems as Hf _.
    rewrite <- (take_drop N' h), recent_app.
    rewrite (drop_S _ _ _ He).
    pose proof (well_paced_drop N' h Hw) as Hd. rewrite (drop_S _ _ _ He) in Hd.
    pose proof (well_paced_sorted _ _ _ Hd eq_refl) as Hs.
    rewrite (recent_none (cpu_time - 1) (e :: drop (S N') h)).
    + pose proof (recent_le_length (cpu_time - 1) (take N' h)) as Hl.
      rewrite length_take in Hl. lia.
    + eapply Forall_impl; [exact Hs|]. intros x Hxle. simpl in Hxle.
      subst first_window_time. lra.
  - right. destruct h as [|[t c] h']; [simpl in Hlong; lia|].
    destruct (Nat.lt_exists_pred 0 N) as (N' & HN & _); [lia|].
    rewrite Hitems, HN in Hb. simpl in Hb. rewrite last_last in Hb. exact Hb.
  - exfalso. apply Hc. rewrite Hitems, length_rev, length_take, length_map. lia.
Qed.

End RateBound.

Section RateTheorem.
Variable MINIMAL_EVENTS : gset string.
Variable redact : EventData → pyerr + option EventData.
Variable N : nat.
Hypothesis N_pos : 1 ≤ N.

Lemma tracks_nil self : tracks N self [] ↔
  maxlen (recent_event_timings self) = N ∧ items (recent_event_timings self) = [].
Proof. unfold tracks. simpl. by rewrite take_nil. Qed.

Lemma tracks_empty self (h : emissions) :
  tracks N self h → items (recent_event_timings self) = [] → h = [].
Proof.
  intros [_ Hitems] Hempty. rewrite Hempty in Hitems.
  destruct h as [|e h]; [done|]. exfalso.
  destruct (Nat.lt_exists_pred 0 N) as (N' & HN & _); [lia|].
  rewrite HN in Hitems. simpl in Hitems.
  by destruct (rev (take N' (map fst h))).
Qed.

Lemma step_tracks cpu_time ev self (h : emissions) :
  tracks N self h → well_paced N h → Forall (λ e, (e.1 <= cpu_time)%Q) h →
  let o := event_handler MINIMAL_EVENTS redact cpu_time ev self in
  ∃ h' : emissions,
    tracks N (after o) h' ∧ well_paced N h' ∧ Forall (λ e, (e.1 <= cpu_time)%Q) h'
    ∧ ∀ w, marked_in_window w h' = share MINIMAL_EVENTS w cpu_time o + marked_in_window w h.
Proof.
  intros Htr Hw Hpast o.
  destruct (decide (event ev = Some "keepalive")) as [Hk|Hk].
  { exists h. subst o. unfold event_handler. rewrite bool_decide_eq_true_2 by done.
    by split_and!. }
  pose proof (event_handler_cases MINIMAL_EVENTS redact cpu_time ev self Hk) as H.
  destruct (prepare redact self ev) as [err|ev1] eqn:Hprep.
  { exists h. subst o. rewrite H. by split_and!. }
  destruct (throttle _ _ _ _) as [err|[ev' d']] eqn:Ht.
  { exists h. subst o. rewrite H. by split_and!. }
  destruct H as (self' & sent & Ho & Hdisp & _ & Hd & Hs & Hev).
  assert (Hsent : dispatched_by o = Some sent).
  { subst o. rewrite Ho. simpl. rewrite Hdisp. apply last_snoc. }
  assert (Hafter : recent_event_timings (after o) = d').
  { subst o. by rewrite Ho. }
  (* an emission: the clock reading enters the window *)
  assert (Hemit : d' = deque_append cpu_time (recent_event_timings self) →
            skip_websocket_message sent = skip_websocket_message ev1 →
            (skip_websocket_message ev1 = false →
             in_minimal_events MINIMAL_EVENTS (event sent) = false →
             paced N cpu_time h) →
            ∃ h' : emissions,
              tracks N (after o) h' ∧ well_paced N h'
              ∧ Forall (λ e, (e.1 <= cpu_time)%Q) h'
              ∧ ∀ w, marked_in_window w h' = share MINIMAL_EVENTS w cpu_time o + marked_in_window w h).
  { intros -> Hflag Hp.
    set (c := negb (skip_websocket_message sent)
              && negb (in_minimal_events MINIMAL_EVENTS (event sent))).
    exists ((cpu_time, c) :: h). split_and!.
    - unfold tracks. rewrite Hafter. destruct Htr as [Hm Hi].
      by apply deque_append_tracks.
    - simpl. split_and!; [done|done|]. intros Hc. subst c.
      apply andb_true_iff in Hc as [Hc1 Hc2].
      apply negb_true_iff in Hc1, Hc2. apply Hp; congruence.
    - constructor; [simpl; lra|done].
    - intros w. rewrite marked_cons. unfold share. rewrite Hsent.
      unfold live, in_window. simpl. fold c.
      by rewrite andb_assoc. }
  (* a flagged event: nothing changes *)
  assert (Hquiet : d' = recent_event_timings self →
            skip_websocket_message sent = true →
            ∃ h' : emissions,
              tracks N (after o) h' ∧ well_paced N h'
              ∧ Forall (λ e, (e.1 <= cpu_time)%Q) h'
              ∧ ∀ w, marked_in_window w h' = share MINIMAL_EVENTS w cpu_time o + marked_in_window w h).
  { intros -> Hflag. exists h. split_and!; try done.
    - unfold tracks. by rewrite Hafter.
    - intros w. unfold share. rewrite Hsent. unfold live. simpl. by rewrite Hflag. }
  unfold throttle in Ht.
  destruct (items (recent_event_timings self)) as [|first_window_time others] eqn:Hitems.
  - destruct Htr as [Hm Hi]. rewrite Hm in Ht.
    destruct (N =? 0)%nat eqn:HN0; [apply Nat.eqb_eq in HN0; lia|].
    simpl in Ht. injection Ht as <- <-.
    apply Hemit; [done|congruence|].
    intros _ _. left. rewrite (tracks_empty self h); [|done|done].
    unfold recent. simpl. lia.
  - rewrite <- Hitems in Ht.
    destruct (should_emit _ _ _ _ _ _) as [err|[|]] eqn:Hse; [done| |].
    + injection Ht as <- <-. apply Hemit; [done|congruence|].
      intros Hflag Hmin. rewrite Hev in Hmin.
      unfold should_emit in Hse. rewrite Hmin in Hse.
      destruct Htr as [Hm Hi].
      assert (Hany : any (rate_tests cpu_time first_window_time
                            (List.last (items (recent_event_timings self))
                               first_window_time)
                            (recent_event_timings self)) = true).
      { case_bool_decide.
        - destruct (start_line ev1); [|done].
          destruct (end_line ev1); [|done].
          case_bool_decide; congruence.
        - congruence. }
      by eapply rate_tests_paced.
    + injection Ht as <- <-. apply Hquiet; [done|].
      rewrite Hs. by destruct (event_data ev1).
Qed.

Lemma live_in_window_cons w entry tl :
  live_in_window MINIMAL_EVENTS w (entry :: tl) =
  (if live entry && negb (in_minimal_events MINIMAL_EVENTS (event entry.2))
      && in_window w entry then 1 else 0)
  + live_in_window MINIMAL_EVENTS w tl.
Proof.
  unfold live_in_window. simpl.
  by destruct (live entry && negb (in_minimal_events MINIMAL_EVENTS (event entry.2))
               && in_window w entry).
Qed.

Lemma timeline_marked (inputs : list (Q * EventData)) :
  ∀ self (h : emissions),
    tracks N self h → well_paced N h →
    StronglySorted Qle (map fst inputs) →
    Forall (λ t, Forall (λ e, (e.1 <= t)%Q) h) (map fst inputs) →
    ∃ h' : emissions,
      well_paced N h'
      ∧ ∀ w, live_in_window MINIMAL_EVENTS w (timeline MINIMAL_EVENTS redact inputs self)
             + marked_in_window w h = marked_in_window w h'.
Proof.
  induction inputs as [|[cpu_time ev] rest IH]; intros self h Htr Hw Hsorted Hpast.
  { exists h. split; [done|]. intros w. done. }
  simpl in Hsorted, Hpast.
  apply StronglySorted_inv in Hsorted as [Hsorted Hlater].
  inversion Hpast as [|? ? Hnow Hlater_past]; subst.
  destruct (step_tracks cpu_time ev self h Htr Hw Hnow) as (h1 & Htr1 & Hw1 & Hpast1 & Hcount).
  destruct (IH _ h1 Htr1 Hw1 Hsorted) as (h' & Hw' & Hcount').
  { rewrite Forall_forall in Hlater. apply Forall_forall. intros t Ht.
    specialize (Hlater t Ht).
    eapply Forall_impl; [exact Hpast1|]. intros e Hle. simpl in Hle. lra. }
  exists h'. split; [done|]. intros w. rewrite <- Hcount', Hcount.
  simpl. unfold share.
  destruct (dispatched_by (event_handler MINIMAL_EVENTS redact cpu_time ev self)) as [sent|].
  - rewrite live_in_window_cons. simpl. lia.
  - lia.
Qed.

(** C1, as the code has it.  For a callback created with a window of
    capacity [N >= 1] and fed any sequence of events with non-decreasing
    clock readings, the events dispatched without the skip flag whose type
    is not always emitted number at most [2N - 1] in any closed window of
    one second. *)
Theorem live_rate_bound (inputs : list (Q * EventData)) (w : Q)
    (inst : Z) (wrapup g : string) (key : string) (project_update : bool)
    (parent : option Z) (hosts : gmap string Z) (created : pyval) :
  StronglySorted Qle (map fst inputs) →
  live_in_window MINIMAL_EVENTS w
    (timeline MINIMAL_EVENTS redact inputs
       (init N inst wrapup g key project_update parent hosts created)) ≤ 2 * N - 1.
Proof.
  intros Hsorted.
  destruct (timeline_marked inputs
              (init N inst wrapup g key project_update parent hosts created) [])
    as (h' & Hw & Hcount);
    [by apply tracks_nil|done|done| |].
  { apply Forall_forall. intros t _. constructor. }
  specialize (Hcount w). pose proof (window_bound N N_pos h' w Hw).
  unfold marked_in_window in Hcount at 1. simpl in Hcount. lia.
Qed.

End RateTheorem.

Lemma live_rate_bound_witness :
  live_in_window stats_only 0 (timeline stats_only blank_stdout burst job0) ≤ 3.
Proof.
  apply (live_rate_bound stats_only blank_stdout 2 ltac:(lia) burst 0 7%Z
           "playbook_on_stats" "guid-0" "job_id" false None {[ "web1" := 31%Z ]}
           (PStr "2024-05-01 10:00:00")).
  repeat constructor; discriminate.
Defined.

(** C1 as stated fails: with a window of capacity two, three events that are
    not of an always-emitted type go to the live channel within 0.875 s. *)
Lemma live_rate_exceeds_capacity :
  ¬ (live_in_window stats_only 0 (timeline stats_only blank_stdout burst job0) ≤ 2).
Proof. vm_compute. lia. Qed.

End CallbackFacts.

Module MembershipFacts.
Import Membership MembershipSpec.

Section Policies.
Variable cp : string.

Lemma NoDup_fmap_eq {A B} (f : A → B) (l : list A) x y :
  NoDup (f <$> l) → x ∈ l → y ∈ l → f x = f y → x = y.
Proof.
  induction l as [|z l IH]; intros Hnd Hx Hy Hf; [by apply not_elem_of_nil in Hx|].
  rewrite fmap_cons in Hnd. apply NoDup_cons in Hnd as [Hz Hnd].
  apply elem_of_cons in Hx as [->|Hx]; apply elem_of_cons in Hy as [->|Hy]; try done.
  - exfalso. apply Hz. rewrite Hf. by apply list_elem_of_fmap_2.
  - exfalso. apply Hz. rewrite <- Hf. by apply list_elem_of_fmap_2.
  - by apply IH.
Qed.

Lemma elem_of_all_instances db i :
  i ∈ all_instances db ↔ i ∈ Instance_objects db ∧ Instance.node_type i ≠ hop.
Proof.
  unfold all_instances. rewrite elem_of_sorted, list_elem_of_In, filter_In.
  rewrite <- list_elem_of_In, negb_true_iff, bool_decide_eq_false. done.
Qed.

Lemma instance_hostnames_map_elem insts h i :
  instance_hostnames_map insts !! h = Some i → i ∈ insts.
Proof.
  unfold instance_hostnames_map.
  assert (Hgen : ∀ m0 : gmap string Instance.t,
            foldl (λ m inst, <[Instance.hostname inst := inst]> m) m0 insts !! h = Some i →
            i ∈ insts ∨ m0 !! h = Some i).
  { induction insts as [|x insts IH]; intros m0 H; [by right|]. simpl in H.
    destruct (IH _ H) as [Hin|Hm].
    - left. by right.
    - rewrite lookup_insert in Hm. case_decide; [|by right].
      injection Hm as ->. left. by left. }
  intros H. destruct (Hgen _ H) as [?|Hm]; [done|]. by rewrite lookup_empty in Hm.
Qed.

Lemma policy_list_elem m hostnames acc x :
  x ∈ policy_list m hostnames acc →
  x ∈ acc ∨ ∃ h i, m !! h = Some i ∧ Instance.id i = x.
Proof.
  revert acc. induction hostnames as [|h hs IH]; intros acc H; simpl in H; [by left|].
  destruct (m !! h) as [i|] eqn:E; [|by apply IH].
  destruct (IH _ H) as [Hin|?]; [|by right].
  apply elem_of_app in Hin as [?|Hin]; [by left|].
  apply list_elem_of_singleton in Hin. right. by exists h, i.
Qed.

(** *** What the passes leave alone *)

Lemma rows_add_to_group gi g st x : rows (add_to_group gi g st x) = rows st.
Proof.
  unfold rows, add_to_group, append_instance, append_group. simpl. f_equal.
  - rewrite (list_fmap_alter _ _ id); [by rewrite list_alter_id|].
    by apply Forall_forall.
  - rewrite (list_fmap_alter _ _ id); [by rewrite list_alter_id|].
    by apply Forall_forall.
Qed.

Lemma names_snapshot st key :
  Forall (names st) (sorted key (enumerate st.2)).
Proof.
  apply Forall_forall. intros [ni i] Hin.
  apply elem_of_sorted, elem_of_enumerate in Hin.
  unfold names, rows. simpl. by rewrite list_lookup_fmap, Hin.
Qed.

Section Induction.
Variable Φ : store → Prop.
Hypothesis Φ_add : ∀ st gi gp x,
  (rows st).1 !! gi = Some gp → names st x → Φ st → Φ (add_to_group gi gp.1 st x).

Lemma policy_minimum_loop_ind gi gp order st :
  (rows st).1 !! gi = Some gp → Forall (names st) order → Φ st →
  Φ (policy_minimum_loop cp gi gp.1 order st)
  ∧ rows (policy_minimum_loop cp gi gp.1 order st) = rows st.
Proof.
  revert st. induction order as [|[ni i] order IH]; intros st Hg Hn HΦ; [done|].
  apply Forall_cons in Hn as [Hx Hn]. simpl.
  case_bool_decide; [by apply IH|].
  destruct (_ <=? _)%Z; [done|].
  case_bool_decide; [by apply IH|].
  pose proof (rows_add_to_group gi gp.1 st (ni, i)) as Hr.
  unfold add_to_group in Hr. simpl in Hr.
  destruct (IH (append_instance gi (Instance.id (Node.obj i)) st.1,
                append_group ni (InstanceGroup.id gp.1) st.2)) as [H1 H2].
  - by rewrite Hr.
  - eapply Forall_impl; [exact Hn|]. intros y Hy. unfold names. by rewrite Hr.
  - by apply (Φ_add st gi gp (ni, i)).
  - split; [done|]. by rewrite H2.
Qed.

Lemma policy_percentage_loop_ind gi gp pool order st :
  (rows st).1 !! gi = Some gp → Forall (names st) order → Φ st →
  Φ (policy_percentage_loop cp gi gp.1 pool order st)
  ∧ rows (policy_percentage_loop cp gi gp.1 pool order st) = rows st.
Proof.
  revert st. induction order as [|[ni i] order IH]; intros st Hg Hn HΦ; [done|].
  apply Forall_cons in Hn as [Hx Hn]. simpl.
  case_bool_decide; [by apply IH|].
  case_bool_decide; [by apply IH|].
  destruct (_ <=? _)%Z; [done|].
  pose proof (rows_add_to_group gi gp.1 st (ni, i)) as Hr.
  unfold add_to_group in Hr. simpl in Hr.
  destruct (IH (append_instance gi (Instance.id (Node.obj i)) st.1,
                append_group ni (InstanceGroup.id gp.1) st.2)) as [H1 H2].
  - by rewrite Hr.
  - eapply Forall_impl; [exact Hn|]. intros y Hy. unfold names. by rewrite Hr.
  - by apply (Φ_add st gi gp (ni, i)).
  - split; [done|]. by rewrite H2.
Qed.

Lemma names_group_snapshot st key :
  Forall (names_group st) (sorted key (enumerate st.1)).
Proof.
  apply Forall_forall. intros [gi g] Hin.
  apply elem_of_sorted, elem_of_enumerate in Hin.
  unfold names_group, rows. simpl. by rewrite list_lookup_fmap, Hin.
Qed.

Lemma policy_minimum_group_ind st x :
  names_group st x → Φ st →
  Φ (policy_minimum_group cp st x) ∧ rows (policy_minimum_group cp st x) = rows st.
Proof.
  intros Hx HΦ. unfold policy_minimum_group.
  apply (policy_minimum_loop_ind x.1 (Group.obj x.2, Group.prior_instances x.2));
    [done|apply names_snapshot|done].
Qed.

Lemma policy_percentage_group_ind st x :
  names_group st x → Φ st →
  Φ (policy_percentage_group cp st x) ∧ rows (policy_percentage_group cp st x) = rows st.
Proof.
  intros Hx HΦ. unfold policy_percentage_group.
  destruct (_ =? _)%nat; [done|].
  apply (policy_percentage_loop_ind x.1 (Group.obj x.2, Group.prior_instances x.2));
    [done|apply names_snapshot|done].
Qed.

Lemma foldl_groups_ind (step : store → nat * Group.t → store) order st :
  (∀ st x, names_group st x → Φ st → Φ (step st x) ∧ rows (step st x) = rows st) →
  Forall (names_group st) order → Φ st →
  Φ (foldl step st order) ∧ rows (foldl step st order) = rows st.
Proof.
  intros Hstep. revert st. induction order as [|x order IH]; intros st Hn HΦ; [done|].
  apply Forall_cons in Hn as [Hx Hn]. simpl.
  destruct (Hstep st x Hx HΦ) as [H1 H2].
  destruct (IH (step st x)) as [H3 H4]; [|done|].
  - eapply Forall_impl; [exact Hn|]. intros y Hy. unfold names_group. by rewrite H2.
  - split; [done|]. by rewrite H4.
Qed.

Lemma policy_minimum_ind st :
  Φ st → Φ (policy_minimum cp st) ∧ rows (policy_minimum cp st) = rows st.
Proof.
  intros HΦ. unfold policy_minimum.
  apply foldl_groups_ind; [apply policy_minimum_group_ind|apply names_group_snapshot|done].
Qed.

Lemma policy_percentage_ind st :
  Φ st → Φ (policy_percentage cp st) ∧ rows (policy_percentage cp st) = rows st.
Proof.
  intros HΦ. unfold policy_percentage.
  apply foldl_groups_ind; [apply policy_percentage_group_ind|apply names_group_snapshot|done].
Qed.

Lemma computed_ind db :
  Φ (initial_store db) →
  Φ (computed cp db) ∧ rows (computed cp db) = rows (initial_store db).
Proof.
  intros HΦ. unfold computed.
  destruct (policy_minimum_ind _ HΦ) as [H1 H2].
  destruct (policy_percentage_ind _ H1) as [H3 H4].
  split; [done|]. by rewrite H4.
Qed.

End Induction.

(** *** Hop nodes *)

Lemma only_instances_add db st gi gp x :
  (rows st).1 !! gi = Some gp → names st x → only_instances db st →
  only_instances db (add_to_group gi gp.1 st x).
Proof.
  intros _ Hx [Hrows Hall]. split; [by rewrite rows_add_to_group|].
  unfold add_to_group, append_instance. simpl.
  apply Forall_alter; [done|]. intros g _ Hg. simpl.
  apply Forall_app. split; [done|]. constructor; [|constructor].
  unfold names in Hx. rewrite Hrows in Hx. unfold rows, initial_store in Hx. simpl in Hx.
  rewrite <- list_fmap_compose in Hx.
  apply list_elem_of_lookup_2, list_elem_of_fmap in Hx as (i & Hi & Hin). simpl in Hi.
  exists i. split; [|by rewrite Hi].
  apply list_elem_of_In, filter_In in Hin as [Hin _]. by apply list_elem_of_In.
Qed.

Lemma only_instances_initial db : only_instances db (initial_store db).
Proof.
  split; [done|]. unfold initial_store. simpl.
  apply Forall_fmap, Forall_forall. intros ig _. simpl.
  apply Forall_forall. intros x Hx.
  apply policy_list_elem in Hx as [Hx|(h & i & Hm & Hi)].
  - by apply not_elem_of_nil in Hx.
  - exists i. split; [|done]. by eapply instance_hostnames_map_elem.
Qed.

Lemma only_instances_computed db : only_instances db (computed cp db).
Proof.
  apply (computed_ind (only_instances db)).
  - intros. by apply only_instances_add.
  - apply only_instances_initial.
Qed.

Lemma computed_rows db : rows (computed cp db) = rows (initial_store db).
Proof. apply (only_instances_computed db). Qed.

(** The tuples of the groups stand in the order of the rows they were built
    from, each with the prior members of its row. *)
Lemma computed_groups db :
  (λ g, (Group.obj g, Group.prior_instances g)) <$> (computed cp db).1
  = (λ ig, (ig, elements (InstanceGroup.instances ig))) <$> InstanceGroup_objects db.
Proof.
  pose proof (computed_rows db) as H. unfold rows in H.
  injection H as H _. rewrite H. unfold initial_store. simpl.
  by rewrite <- list_fmap_compose.
Qed.

Lemma computed_group_elem db g :
  g ∈ (computed cp db).1 →
  Group.obj g ∈ InstanceGroup_objects db
  ∧ Group.prior_instances g = elements (InstanceGroup.instances (Group.obj g)).
Proof.
  intros Hg.
  apply (list_elem_of_fmap_2 (λ g, (Group.obj g, Group.prior_instances g))) in Hg.
  rewrite computed_groups in Hg.
  apply list_elem_of_fmap in Hg as (ig & [= -> ->] & Hin). done.
Qed.

(** The row a group is left with when it is not a container group. *)
Lemma apply_group_members g :
  InstanceGroup.is_container_group (Group.obj g) = false →
  Group.prior_instances g = elements (InstanceGroup.instances (Group.obj g)) →
  InstanceGroup.instances (apply_group g) = list_to_set (Group.instances g).
Proof.
  intros Hc Hp. unfold apply_group, instances_to_add, instances_to_remove.
  rewrite Hc, Hp, list_to_set_elements_L.
  generalize (InstanceGroup.instances (Group.obj g)).
  generalize (list_to_set (Group.instances g) : gset Z). intros C M.
  unfold InstanceGroup.set_instances. cbn [InstanceGroup.instances].
  clear Hc Hp. apply set_eq. intros x.
  repeat case_bool_decide; destruct (decide (x ∈ M)); destruct (decide (x ∈ C));
    set_solver.
Qed.

(** C4, as the code has it.  Where instance keys are unique, the key of a
    hop node is in the computed membership of no group, and after the task
    it is among the members of no group that is not a container group. *)
Theorem hop_nodes_excluded (db : Database) (inst : Instance.t) :
  NoDup (Instance.id <$> Instance_objects db) →
  inst ∈ Instance_objects db →
  Instance.node_type inst = hop →
  (∀ g, g ∈ (computed cp db).1 → Instance.id inst ∉ Group.instances g)
  ∧ (∀ ig, ig ∈ InstanceGroup_objects (database (cluster_membership_policies cp db)) →
       InstanceGroup.is_container_group ig = false →
       Instance.id inst ∉ InstanceGroup.instances ig).
Proof.
  intros Hnd Hin Hhop.
  assert (Hcomp : ∀ g, g ∈ (computed cp db).1 → Instance.id inst ∉ Group.instances g).
  { intros g Hg Hmem.
    destruct (only_instances_computed db) as [_ Hall].
    rewrite Forall_forall in Hall. specialize (Hall g Hg).
    rewrite Forall_forall in Hall. destruct (Hall _ Hmem) as (i & Hi & Hid).
    apply elem_of_all_instances in Hi as [Hi Hty].
    assert (i = inst) by (by eapply (NoDup_fmap_eq Instance.id)).
    by subst. }
  split; [done|].
  intros ig Hig Hc Hmem. unfold cluster_membership_policies in Hig.
  destruct (needs_change (computed cp db).1) eqn:Hch; simpl in Hig.
  - apply list_elem_of_fmap in Hig as (g & -> & Hg).
    destruct (computed_group_elem db g Hg) as [_ Hp].
    assert (Hc' : InstanceGroup.is_container_group (Group.obj g) = false).
    { unfold apply_group in Hc.
      destruct (InstanceGroup.is_container_group (Group.obj g)) eqn:E; [congruence|done]. }
    rewrite (apply_group_members g Hc' Hp), elem_of_list_to_set in Hmem.
    by apply (Hcomp g).
  - pose proof (list_elem_of_fmap_2 (λ ig, (ig, elements (InstanceGroup.instances ig))) _ _ Hig)
      as Hrow.
    rewrite <- computed_groups in Hrow.
    apply list_elem_of_fmap in Hrow as (g & [= Ho Hp] & Hg).
    unfold needs_change in Hch.
    assert (Hd : differs g = false).
    { destruct (differs g) eqn:E; [|done].
      assert (existsb differs (computed cp db).1 = true); [|congruence].
      apply existsb_exists. exists g. split; [by apply list_elem_of_In|done]. }
    unfold differs in Hd. apply negb_false_iff, bool_decide_eq_true in Hd.
    rewrite <- Hp, list_to_set_elements_L in Hd.
    apply (Hcomp g Hg). rewrite <- Hd in Hmem. by apply elem_of_list_to_set in Hmem.
Qed.

(** *** The passes do not read the members of the rows *)

Lemma group_instances_forget gi gs :
  group_instances gi (forget <$> gs) = group_instances gi gs.
Proof. unfold group_instances. rewrite list_lookup_fmap. by destruct (gs !! gi). Qed.

Lemma append_instance_forget gi x gs :
  append_instance gi x (forget <$> gs) = forget <$> append_instance gi x gs.
Proof.
  unfold append_instance. symmetry. apply list_fmap_alter. by apply Forall_forall.
Qed.

Lemma policy_minimum_loop_clear gi g order st :
  policy_minimum_loop cp gi (clear g) order st = policy_minimum_loop cp gi g order st.
Proof.
  revert st. induction order as [|[ni i] order IH]; intros st; [done|].
  cbn [policy_minimum_loop]. rewrite !IH. reflexivity.
Qed.

Lemma policy_percentage_loop_clear gi g pool order st :
  policy_percentage_loop cp gi (clear g) pool order st
  = policy_percentage_loop cp gi g pool order st.
Proof.
  revert st. induction order as [|[ni i] order IH]; intros st; [done|].
  cbn [policy_percentage_loop]. rewrite !IH. reflexivity.
Qed.

Lemma policy_minimum_loop_forget gi g order gs ns :
  policy_minimum_loop cp gi g order (forget <$> gs, ns)
  = forget_store (policy_minimum_loop cp gi g order (gs, ns)).
Proof.
  revert gs ns. induction order as [|[ni i] order IH]; intros gs ns; [done|].
  cbn [policy_minimum_loop fst snd]. rewrite group_instances_forget.
  case_bool_decide; [apply IH|].
  destruct (_ <=? _)%Z; [done|].
  case_bool_decide; [apply IH|].
  rewrite append_instance_forget. apply IH.
Qed.

Lemma policy_percentage_loop_forget gi g pool order gs ns :
  policy_percentage_loop cp gi g pool order (forget <$> gs, ns)
  = forget_store (policy_percentage_loop cp gi g pool order (gs, ns)).
Proof.
  revert gs ns. induction order as [|[ni i] order IH]; intros gs ns; [done|].
  cbn [policy_percentage_loop fst snd]. rewrite group_instances_forget.
  case_bool_decide; [apply IH|].
  case_bool_decide; [apply IH|].
  destruct (_ <=? _)%Z; [done|].
  rewrite append_instance_forget. apply IH.
Qed.

Lemma foldl_forget (step : store → nat * Group.t → store) order st :
  (∀ st x, step (forget_store st) (prod_map id forget x) = forget_store (step st x)) →
  foldl step (forget_store st) (prod_map id forget <$> order)
  = forget_store (foldl step st order).
Proof.
  intros Hstep. revert st. induction order as [|x order IH]; intros st; [done|].
  rewrite fmap_cons. cbn [foldl]. by rewrite Hstep, IH.
Qed.

Lemma snapshot_forget st :
  sorted by_len_instances (enumerate (forget_store st).1)
  = prod_map id forget <$> sorted by_len_instances (enumerate st.1).
Proof.
  unfold forget_store. cbn [fst]. rewrite enumerate_fmap.
  by apply sorted_fmap.
Qed.

Lemma policy_minimum_forget st :
  policy_minimum cp (forget_store st) = forget_store (policy_minimum cp st).
Proof.
  unfold policy_minimum. rewrite snapshot_forget. apply foldl_forget.
  intros [gs ns] [gi g]. unfold policy_minimum_group, forget_store at 1 2.
  cbn [prod_map fst snd forget Group.obj id].
  rewrite policy_minimum_loop_clear. apply policy_minimum_loop_forget.
Qed.

Lemma policy_percentage_forget st :
  policy_percentage cp (forget_store st) = forget_store (policy_percentage cp st).
Proof.
  unfold policy_percentage. rewrite snapshot_forget. apply foldl_forget.
  intros [gs ns] [gi g]. unfold policy_percentage_group, forget_store at 1 2 3 4.
  cbn [prod_map fst snd forget Group.obj id].
  change (candidate_pool_ct cp (clear (Group.obj g)) ns)
    with (candidate_pool_ct cp (Group.obj g) ns).
  destruct (_ =? _)%nat; [done|].
  rewrite policy_percentage_loop_clear. apply policy_percentage_loop_forget.
Qed.

Lemma computed_forget db :
  forget_store (computed cp db)
  = policy_percentage cp (policy_minimum cp (forget_store (initial_store db))).
Proof. unfold computed. by rewrite policy_minimum_forget, policy_percentage_forget. Qed.

Lemma forget_instances (gs : list Group.t) :
  Group.instances <$> (forget <$> gs) = Group.instances <$> gs.
Proof. by rewrite <- list_fmap_compose. Qed.

(** Two databases with the same instances and the same group rows up to
    their members get the same computed members. *)
Lemma computed_members_ext db db' :
  Instance_objects db' = Instance_objects db →
  clear <$> InstanceGroup_objects db' = clear <$> InstanceGroup_objects db →
  Group.instances <$> (computed cp db').1 = Group.instances <$> (computed cp db).1.
Proof.
  intros Hi Hg.
  assert (Hst : forget_store (initial_store db') = forget_store (initial_store db)).
  { unfold forget_store, initial_store, all_instances, all_groups. cbn [fst snd].
    rewrite Hi. f_equal. rewrite <- !list_fmap_compose.
    set (m := instance_hostnames_map _).
    change (forget ∘ group_actual m)
      with ((λ c, Group.mk c (policy_list m (InstanceGroup.policy_instance_list c) []) [])
            ∘ clear).
    by rewrite !list_fmap_compose, Hg. }
  rewrite <- (forget_instances (computed cp db').1), <- (forget_instances (computed cp db).1).
  change (forget <$> (computed cp db').1) with (forget_store (computed cp db')).1.
  change (forget <$> (computed cp db).1) with (forget_store (computed cp db)).1.
  by rewrite !computed_forget, Hst.
Qed.

(** *** A second run *)

Lemma set_instances_id ig :
  InstanceGroup.set_instances (InstanceGroup.instances ig) ig = ig.
Proof. by destruct ig. Qed.

Lemma clear_apply_group g : clear (apply_group g) = clear (Group.obj g).
Proof. unfold apply_group. by destruct (InstanceGroup.is_container_group (Group.obj g)). Qed.

Lemma container_apply_group g :
  InstanceGroup.is_container_group (apply_group g)
  = InstanceGroup.is_container_group (Group.obj g).
Proof.
  unfold apply_group.
  by destruct (InstanceGroup.is_container_group (Group.obj g)) eqn:E.
Qed.

Section Again.
Variable g : Group.t.
Hypothesis prior_members :
  Group.prior_instances g = elements (InstanceGroup.instances (Group.obj g)).

Lemma again_container :
  InstanceGroup.is_container_group (Group.obj g) = true → again g = g.
Proof.
  intros Hc. unfold again, apply_group. rewrite Hc, <- prior_members. by destruct g.
Qed.

Lemma again_settled :
  InstanceGroup.is_container_group (Group.obj g) = false →
  (list_to_set (Group.instances (again g)) : gset Z)
  = list_to_set (Group.prior_instances (again g)).
Proof.
  intros Hc. unfold again. cbn [Group.instances Group.prior_instances].
  by rewrite list_to_set_elements_L, apply_group_members.
Qed.

Lemma differs_again :
  differs (again g) = InstanceGroup.is_container_group (Group.obj g) && differs g.
Proof.
  destruct (InstanceGroup.is_container_group (Group.obj g)) eqn:Hc.
  - by rewrite again_container.
  - unfold differs. by rewrite again_settled, bool_decide_eq_true_2.
Qed.

Lemma changes_again : group_changes (again g) = [].
Proof.
  unfold group_changes. cbn [Group.obj again]. rewrite container_apply_group.
  destruct (InstanceGroup.is_container_group (Group.obj g)) eqn:Hc; [done|].
  unfold instances_to_add, instances_to_remove. rewrite again_settled by done.
  rewrite !bool_decide_eq_true_2 by set_solver. done.
Qed.

Lemma apply_again : apply_group (again g) = apply_group g.
Proof.
  destruct (InstanceGroup.is_container_group (Group.obj g)) eqn:Hc.
  { by rewrite again_container. }
  unfold apply_group at 1. cbn [Group.obj again]. rewrite container_apply_group, Hc.
  unfold instances_to_add, instances_to_remove. rewrite again_settled by done.
  rewrite !bool_decide_eq_true_2 by set_solver.
  apply set_instances_id.
Qed.

End Again.

Lemma tuples_eq (f : Group.t → Group.t) (a b : list Group.t) :
  (λ g, (Group.obj g, Group.prior_instances g)) <$> a
  = (λ g, (Group.obj (f g), Group.prior_instances (f g))) <$> b →
  Group.instances <$> a = (λ g, Group.instances (f g)) <$> b →
  a = f <$> b.
Proof.
  revert b. induction a as [|x a IH]; intros [|y b] H1 H2; try done.
  rewrite !fmap_cons in H1. rewrite !fmap_cons in H2.
  injection H1 as Ho Hp H1. injection H2 as Hi H2.
  rewrite fmap_cons. f_equal; [|by apply IH].
  destruct x, (f y). simpl in *. by subst.
Qed.

Lemma concat_nil {A B} (f : A → list B) (l : list A) :
  (∀ x, x ∈ l → f x = []) → concat (f <$> l) = [].
Proof.
  induction l as [|x l IH]; intros H; [done|].
  rewrite fmap_cons. simpl. rewrite (H x) by left. apply IH. intros y Hy. apply H. by right.
Qed.

(** C3, as the code has it.  Run the task, then run it again on the
    database the first run left.  The second run computes the same members
    for every group, calls neither [add] nor [remove], and leaves the
    database as it found it; and when no group is a container group it
    detects no change. *)
Theorem membership_idempotent (db : Database) :
  let first := cluster_membership_policies cp db in
  let second := cluster_membership_policies cp (database first) in
  Group.instances <$> (computed cp (database first)).1
  = Group.instances <$> (computed cp db).1
  ∧ changes second = []
  ∧ database second = database first
  ∧ ((∀ ig, ig ∈ InstanceGroup_objects db →
        InstanceGroup.is_container_group ig = false) →
     detected_change second = false).
Proof.
  intros first second.
  set (gs1 := (computed cp db).1).
  set (db1 := {| Instance_objects := Instance_objects db;
                 InstanceGroup_objects := apply_group <$> gs1 |}).
  assert (Hdb : database first = if needs_change gs1 then db1 else db).
  { subst first. unfold cluster_membership_policies. fold gs1.
    by destruct (needs_change gs1). }
  subst second. rewrite Hdb. clear Hdb first.
  destruct (needs_change gs1) eqn:Hch.
  2:{ unfold cluster_membership_policies. fold gs1. rewrite Hch. by cbn. }
  assert (Hprior : ∀ g, g ∈ gs1 →
            Group.prior_instances g = elements (InstanceGroup.instances (Group.obj g))).
  { intros g Hg. by apply computed_group_elem in Hg as [_ ?]. }
  assert (Hobj : Group.obj <$> gs1 = InstanceGroup_objects db).
  { pose proof (computed_groups db) as H.
    apply (f_equal (fmap fst)) in H. by rewrite <- !list_fmap_compose, list_fmap_id in H. }
  assert (Hmem : Group.instances <$> (computed cp db1).1 = Group.instances <$> gs1).
  { apply computed_members_ext; [done|]. subst db1. cbn.
    rewrite <- Hobj, <- !list_fmap_compose. apply list_fmap_ext.
    intros ? g ?. apply clear_apply_group. }
  assert (Hgs2 : (computed cp db1).1 = again <$> gs1).
  { apply tuples_eq; [|done].
    rewrite (computed_groups db1). subst db1. cbn.
    by rewrite <- list_fmap_compose. }
  split; [done|].
  unfold cluster_membership_policies. rewrite Hgs2.
  assert (Hnil : concat (group_changes <$> (again <$> gs1)) = []).
  { rewrite <- list_fmap_compose. apply concat_nil. intros g Hg.
    apply changes_again. by apply Hprior. }
  assert (Hsame : apply_group <$> (again <$> gs1) = apply_group <$> gs1).
  { rewrite <- list_fmap_compose. apply list_fmap_ext. intros ? g Hg.
    apply apply_again, Hprior. by eapply list_elem_of_lookup_2. }
  destruct (needs_change (again <$> gs1)) eqn:Hch2; cbn.
  - rewrite Hnil, Hsame. split_and!; [done|done|].
    intros Hnone. exfalso.
    unfold needs_change in Hch2. apply existsb_exists in Hch2 as (g2 & Hin & Hd).
    apply list_elem_of_In, list_elem_of_fmap in Hin as (g & -> & Hg).
    rewrite differs_again in Hd by (by apply Hprior).
    rewrite (Hnone (Group.obj g)) in Hd; [done|].
    rewrite <- Hobj. by apply list_elem_of_fmap_2.
  - by split_and!.
Qed.

(** *** The minimum pass *)

Lemma group_instances_append gi x gs :
  gi < length gs →
  group_instances gi (append_instance gi x gs) = group_instances gi gs ++ [x].
Proof.
  intros Hlt. unfold group_instances, append_instance.
  destruct (lookup_lt_is_Some_2 gs gi Hlt) as [g Hg].
  by rewrite list_lookup_alter_eq, Hg.
Qed.

Lemma minimum_loop_additions gi g order gs ns :
  NoDup ((λ x : nat * Node.t, Instance.id (Node.obj x.2)) <$> order) →
  gi < length gs →
  policy_minimum_loop cp gi g order (gs, ns)
  = foldl (add_to_group gi g) (gs, ns)
          (minimum_additions cp g (group_instances gi gs) order).
Proof.
  revert gs ns. induction order as [|[ni i] order IH]; intros gs ns Hnd Hlt.
  { unfold minimum_additions. simpl. by rewrite take_nil. }
  rewrite fmap_cons in Hnd. apply NoDup_cons in Hnd as [Hfresh Hnd].
  cbn [snd] in Hfresh. cbn [policy_minimum_loop fst snd]. unfold minimum_additions.
  cbn [List.filter]. unfold eligible at 1. cbn [snd].
  case_bool_decide as Hty; cbn [negb andb]; [by apply IH|].
  destruct (_ <=? _)%Z eqn:Hmin.
  { apply Z.leb_le in Hmin.
    replace (Z.to_nat _) with 0%nat by lia. by rewrite !take_0. }
  apply Z.leb_gt in Hmin.
  case_bool_decide as Hmem; cbn [negb]; [by apply IH|].
  rewrite IH; [|done|by unfold append_instance; rewrite length_alter].
  rewrite group_instances_append by done.
  set (members := group_instances gi gs) in *.
  replace (Z.to_nat (InstanceGroup.policy_instance_minimum g - Z.of_nat (length members)))
    with (S (Z.to_nat (InstanceGroup.policy_instance_minimum g
                       - Z.of_nat (length (members ++ [Instance.id (Node.obj i)])))))
    by (rewrite length_app; simpl; lia).
  cbn [take foldl]. unfold minimum_additions, add_to_group at 3. cbn [fst snd].
  do 2 f_equal. apply filter_ext_in. intros y Hy. unfold eligible. f_equal. f_equal.
  apply bool_decide_ext. rewrite elem_of_app, list_elem_of_singleton.
  split; [|by left]. intros [?|Heq]; [done|]. exfalso. apply Hfresh.
  rewrite <- Heq.
  by apply (list_elem_of_fmap_2 (λ x : nat * Node.t, Instance.id (Node.obj x.2))),
           list_elem_of_In.
Qed.

Lemma all_instances_sorted db :
  StronglySorted (λ a b, (Instance.id a <= Instance.id b)%Z) (all_instances db).
Proof.
  unfold all_instances.
  eapply StronglySorted_weaken; [|apply sorted_sorted, StronglySorted_trivial].
  intros a b. apply key_then_le.
Qed.

Lemma all_instances_NoDup db :
  NoDup (Instance.id <$> Instance_objects db) → NoDup (Instance.id <$> all_instances db).
Proof.
  intros Hnd. unfold all_instances. rewrite sorted_perm.
  induction (Instance_objects db) as [|x l IH]; [constructor|].
  rewrite fmap_cons in Hnd. apply NoDup_cons in Hnd as [Hx Hnd]. simpl.
  destruct (negb _); [|by apply IH].
  rewrite fmap_cons. apply NoDup_cons. split; [|by apply IH].
  intros Hin. apply Hx. apply list_elem_of_fmap in Hin as (y & -> & Hy).
  apply list_elem_of_fmap_2. apply list_elem_of_In, filter_In in Hy as [Hy _].
  by apply list_elem_of_In.
Qed.

Lemma initial_nodes db :
  Node.obj <$> (initial_store db).2
  = List.filter Instance.managed_by_policy (all_instances db).
Proof.
  unfold initial_store. cbn [snd]. rewrite <- list_fmap_compose. apply list_fmap_id.
Qed.

Lemma initial_nodes_sorted db :
  StronglySorted (λ a b, (Instance.id a <= Instance.id b)%Z) (Node.obj <$> (initial_store db).2).
Proof.
  rewrite initial_nodes. apply StronglySorted_list_filter, all_instances_sorted.
Qed.

Lemma initial_nodes_NoDup db :
  NoDup (Instance.id <$> Instance_objects db) →
  NoDup (Instance.id <$> (Node.obj <$> (initial_store db).2)).
Proof.
  intros Hnd. rewrite initial_nodes. apply all_instances_NoDup in Hnd.
  induction (all_instances db) as [|x l IH]; [constructor|].
  rewrite fmap_cons in Hnd. apply NoDup_cons in Hnd as [Hx Hnd]. simpl.
  destruct (Instance.managed_by_policy x); [|by apply IH].
  rewrite fmap_cons. apply NoDup_cons. split; [|by apply IH].
  intros Hin. apply Hx. apply list_elem_of_fmap in Hin as (y & -> & Hy).
  apply list_elem_of_fmap_2. apply list_elem_of_In, filter_In in Hy as [Hy _].
  by apply list_elem_of_In.
Qed.

(** C5.  At any point of the minimum pass on a database with unique
    instance keys: the groups are taken in ascending order of the number of
    members they hold when the pass starts; the nodes offered to a group are
    the instances managed by policy that are not hop nodes, in ascending
    order of their number of assignments, nodes with the same number in
    ascending order of their key; the group takes, in that order, the nodes
    that are not of the excluded type and not yet members, until it holds
    [policy_instance_minimum] members; and a group with minimum 2 and no
    members, offered three eligible nodes with 0, 1 and 0 assignments, takes
    the two nodes with none, as it does in the sample cluster once the
    control plane group has taken the hybrid node. *)
Theorem minimum_pass_least_loaded (db : Database) (st : store) (gi : nat) (g : Group.t) :
  NoDup (Instance.id <$> Instance_objects db) →
  rows st = rows (initial_store db) →
  st.1 !! gi = Some g →
  let group_order := sorted by_len_instances (enumerate st.1) in
  let node_order := sorted by_len_groups (enumerate st.2) in
  policy_minimum cp st = foldl (policy_minimum_group cp) st group_order
  ∧ group_order ≡ₚ enumerate st.1
  ∧ StronglySorted smaller_first group_order
  ∧ Node.obj <$> st.2 = List.filter Instance.managed_by_policy (all_instances db)
  ∧ node_order ≡ₚ enumerate st.2
  ∧ StronglySorted least_loaded_first node_order
  ∧ policy_minimum_group cp st (gi, g)
    = foldl (add_to_group gi (Group.obj g)) st
            (minimum_additions cp (Group.obj g) (Group.instances g) node_order)
  ∧ policy_minimum_group "controlplane" loaded (0, Group.mk default_group [] [])
    = ([Group.mk default_group [1; 3]%Z []],
       [Node.mk n1 [11%Z]; Node.mk n2 [10%Z]; Node.mk n3 [11%Z]])
  ∧ Group.instances <$> (policy_minimum "controlplane" (initial_store cluster)).1
    = [[2]; [1; 3]]%Z.
Proof.
  intros Hnd Hrows Hg group_order node_order.
  assert (Hobjs : Node.obj <$> st.2 = Node.obj <$> (initial_store db).2).
  { unfold rows in Hrows. by injection Hrows. }
  split_and!.
  - done.
  - apply sorted_perm.
  - eapply StronglySorted_weaken;
      [|apply (sorted_sorted _ (λ _ _, True)), StronglySorted_trivial].
    intros a b Hab. apply key_then_le in Hab. unfold smaller_first, by_len_instances in *. lia.
  - rewrite Hobjs. apply initial_nodes.
  - apply sorted_perm.
  - eapply StronglySorted_weaken;
      [|apply (sorted_sorted _ (λ a b : nat * Node.t,
                  (Instance.id (Node.obj a.2) <= Instance.id (Node.obj b.2))%Z))].
    + intros a b [Hlt|[Heq Hid]]; unfold least_loaded_first, by_len_groups in *;
        [left; lia|right; split; [lia|done]].
    + apply (enumerate_sorted (λ a b : Node.t,
               (Instance.id (Node.obj a) <= Instance.id (Node.obj b))%Z)).
      apply (StronglySorted_fmap_inv Node.obj
               (λ a b, (Instance.id a <= Instance.id b)%Z)).
      rewrite Hobjs. apply initial_nodes_sorted.
  - unfold policy_minimum_group. cbn [fst snd Group.obj].
    destruct st as [gs ns]. cbn [fst snd] in *.
    rewrite minimum_loop_additions.
    + unfold group_instances. by rewrite Hg.
    + subst node_order. rewrite sorted_perm.
      replace ((λ x : nat * Node.t, Instance.id (Node.obj x.2)) <$> enumerate ns)
        with (Instance.id <$> (Node.obj <$> (snd <$> enumerate ns)))
        by (by rewrite <- !list_fmap_compose).
      rewrite enumerate_snd, Hobjs. by apply initial_nodes_NoDup.
    + by eapply lookup_lt_Some.
  - vm_compute. reflexivity.
  - vm_compute. reflexivity.
Qed.

End Policies.

Lemma cluster_keys_unique : NoDup (Instance.id <$> Instance_objects cluster).
Proof. apply (bool_decide_unpack _). vm_compute. exact I. Qed.

Lemma membership_idempotent_witness :
  let first := cluster_membership_policies "controlplane" cluster in
  let second := cluster_membership_policies "controlplane" (database first) in
  changes second = [] ∧ database second = database first ∧ detected_change second = false.
Proof.
  destruct (membership_idempotent "controlplane" cluster) as (_ & H1 & H2 & H3).
  split; [exact H1|]. split; [exact H2|]. apply H3.
  intros ig Hig. unfold cluster in Hig. cbn [InstanceGroup_objects] in Hig.
  apply elem_of_cons in Hig as [->|Hig]; [reflexivity|].
  apply elem_of_cons in Hig as [->|Hig]; [reflexivity|].
  inversion Hig.
Defined.

(** C3 as stated fails with a container group whose computed members differ
    from the members it has: the task never touches its row, so every run
    detects a change. *)
Lemma second_run_detects_change :
  let first := cluster_membership_policies "controlplane" cluster_with_pods in
  let second := cluster_membership_policies "controlplane" (database first) in
  detected_change second = true.
Proof. vm_compute. reflexivity. Qed.

Lemma hop_nodes_excluded_witness :
  (∀ g, g ∈ (computed "controlplane" cluster).1 → Instance.id h4 ∉ Group.instances g)
  ∧ (∀ ig, ig ∈ InstanceGroup_objects
               (database (cluster_membership_policies "controlplane" cluster)) →
       InstanceGroup.is_container_group ig = false →
       Instance.id h4 ∉ InstanceGroup.instances ig).
Proof.
  apply (hop_nodes_excluded "controlplane" cluster h4).
  - exact cluster_keys_unique.
  - unfold cluster. cbn [Instance_objects]. apply elem_of_cons. right.
    apply elem_of_cons. by left.
  - reflexivity.
Defined.

(** C4 as stated fails for a container group: the hop node among its members
    before the task is among them after it. *)
Lemma hop_node_kept_in_container_group :
  Instance.node_type h4 = hop
  ∧ h4 ∈ Instance_objects cluster_with_pods
  ∧ InstanceGroup_objects
      (database (cluster_membership_policies "controlplane" cluster_with_pods)) !! 2
    = Some pods
  ∧ Instance.id h4 ∈ InstanceGroup.instances pods.
Proof.
  split_and!.
  - reflexivity.
  - unfold cluster_with_pods. cbn [Instance_objects]. apply elem_of_cons. right.
    apply elem_of_cons. by left.
  - vm_compute. reflexivity.
  - unfold pods. cbn. set_solver.
Qed.

Lemma minimum_pass_least_loaded_witness :
  policy_minimum_group "controlplane" (initial_store cluster)
    (1, Group.mk default_group [] [])
  = foldl (add_to_group 1 default_group) (initial_store cluster)
      (minimum_additions "controlplane" default_group []
         (sorted by_len_groups (enumerate (initial_store cluster).2))).
Proof.
  destruct (minimum_pass_least_loaded "controlplane" cluster (initial_store cluster) 1
              (Group.mk default_group [] []))
    as (_ & _ & _ & _ & _ & _ & H & _ & _).
  - exact cluster_keys_unique.
  - reflexivity.
  - vm_compute. reflexivity.
  - exact H.
Defined.

End MembershipFacts.

Module LockFacts.
Import Locks.

Lemma wait_until_free_found held patience t k :
  k < patience → (∀ j, j < k → held (t + j) = true) → held (t + k) = false →
  wait_until_free held t patience = Some (t + k).
Proof.
  revert t patience. induction k as [|k IH]; intros t patience Hlt Hheld Hfree.
  - destruct patience as [|patience]; [lia|]. simpl.
    rewrite Nat.add_0_r in Hfree. by rewrite Hfree, Nat.add_0_r.
  - destruct patience as [|patience]; [lia|]. simpl.
    rewrite <- (Nat.add_0_r t) at 1. rewrite (Hheld 0) by lia.
    replace (t + S k) with (S t + k) by lia. apply IH; [lia| |].
    + intros j Hj. replace (S t + j) with (t + S j) by lia. apply Hheld. lia.
    + by replace (S t + k) with (t + S k) by lia.
Qed.

Lemma wait_until_free_never held patience t :
  (∀ j, j < patience → held (t + j) = true) → wait_until_free held t patience = None.
Proof.
  revert t. induction patience as [|patience IH]; intros t Hheld; [done|]. simpl.
  rewrite <- (Nat.add_0_r t) at 1. rewrite (Hheld 0) by lia.
  apply IH. intros j Hj. replace (S t + j) with (t + S j) by lia. apply Hheld. lia.
Qed.

(** C6, as the code has it.  The periodic scheduler takes its lock without
    waiting: when another session holds the lock it skips the cycle, and
    otherwise it runs at once.  The membership task takes its lock with
    [wait=True]: it never skips a cycle; when the lock is held for the first
    [k] instants and then free, it waits [k] instants and runs; and while the
    lock stays held it keeps waiting. *)
Theorem lock_modes {S : Type} (body : S → S) (state : S) (cp : string)
    (db : Membership.Database) (held : nat → bool) (patience : nat) :
  (held 0 = true → awx_periodic_scheduler body held patience state = Skipped)
  ∧ (held 0 = false → awx_periodic_scheduler body held patience state = Ran 0 (body state))
  ∧ apply_cluster_membership_policies cp held patience db ≠ Skipped
  ∧ (∀ k, k < patience → (∀ t, t < k → held t = true) → held k = false →
       apply_cluster_membership_policies cp held patience db
       = Ran k (Membership.cluster_membership_policies cp db))
  ∧ ((∀ t, t < patience → held t = true) →
       apply_cluster_membership_policies cp held patience db = Waiting).
Proof.
  split_and!.
  - intros H. unfold awx_periodic_scheduler, advisory_lock. by rewrite H.
  - intros H. unfold awx_periodic_scheduler, advisory_lock. by rewrite H.
  - unfold apply_cluster_membership_policies.
    by destruct (advisory_lock true held patience) as [[? ?]|].
  - intros k Hk Hheld Hfree. unfold apply_cluster_membership_policies, advisory_lock.
    by rewrite (wait_until_free_found held patience 0 k).
  - intros Hheld. unfold apply_cluster_membership_policies, advisory_lock.
    by rewrite (wait_until_free_never held patience 0).
Qed.

Lemma lock_modes_witness :
  awx_periodic_scheduler S (λ t, t <? 3) 10 0 = Skipped
  ∧ apply_cluster_membership_policies "controlplane" (λ t, t <? 3) 10 MembershipSpec.cluster
    = Ran 3 (Membership.cluster_membership_policies "controlplane" MembershipSpec.cluster).
Proof.
  destruct (lock_modes S 0 "controlplane" MembershipSpec.cluster (λ t, t <? 3) 10)
    as (H1 & _ & _ & H2 & _).
  split.
  - apply H1. reflexivity.
  - apply (H2 3).
    + lia.
    + intros t Ht. apply Nat.ltb_lt. exact Ht.
    + reflexivity.
Defined.

(** C6 as stated fails for the membership task: with the lock held by
    another session when the task starts, the task is not skipped; it waits
    until the lock is free and then runs. *)
Lemma membership_task_waits_for_lock :
  let held := λ t, t <? 3 in
  held 0 = true
  ∧ apply_cluster_membership_policies "controlplane" held 10 MembershipSpec.cluster
    ≠ Skipped
  ∧ ∃ r, apply_cluster_membership_policies "controlplane" held 10 MembershipSpec.cluster
         = Ran 3 r.
Proof.
  split; [reflexivity|]. split; [discriminate|]. eexists. reflexivity.
Qed.

End LockFacts.

Module HeartbeatFacts.
Import Heartbeat HeartbeatSpec.

Section Task.
Variable CLUSTER_HOST_ID : string.
Variable AWX_AUTO_DEPROVISION_INSTANCES : bool.
Variable CLUSTER_NODE_HEARTBEAT_PERIOD : Z.
Variable EXECUTION_NODE_REMEDIATION_CHECKS : Z.
Variable DEBUG : bool.
Variable awx_application_version : string.
Variable is_lost : Z → Instance → bool.
Variable local_health_check : Instance → Instance.
Variable save_health_data : Instance → Instance.
Variable register : bool * Instance.
Variable version_newer : string → string → option bool.
Variable is_runner_version : string → bool.
Variable sqlcodes : gmap string pyval.
Variable reap_raises : Instance → bool.
Variable reap_waiting_raises : Instance → bool.
Variable write_fault : Instance → fault.

Abbreviation inspect := (inspect_execution_and_hop_nodes EXECUTION_NODE_REMEDIATION_CHECKS
                       save_health_data).
Abbreviation heartbeat :=
  (cluster_node_heartbeat CLUSTER_HOST_ID AWX_AUTO_DEPROVISION_INSTANCES
     CLUSTER_NODE_HEARTBEAT_PERIOD EXECUTION_NODE_REMEDIATION_CHECKS DEBUG
     awx_application_version is_lost local_health_check save_health_data register
     version_newer is_runner_version sqlcodes reap_raises reap_waiting_raises write_fault).

Lemma inspect_advertisement_quiet nowtime st ad :
  Forall (λ e, acts e = false) st.1 →
  Forall (λ e, acts e = false)
    (inspect_advertisement EXECUTION_NODE_REMEDIATION_CHECKS save_health_data nowtime st ad).1.
Proof.
  destruct st as [fx l]. intros Hfx. unfold inspect_advertisement. cbn [fst] in *.
  assert (Happ : ∀ more, Forall (λ e, acts e = false) more →
                         Forall (λ e, acts e = false) (fx ++ more)).
  { intros more Hm. by apply Forall_app. }
  repeat (first [ done | case_match | progress cbn [fst]
                | apply Happ; repeat constructor
                | apply Forall_app; split; [apply Happ; repeat constructor
                                           |repeat constructor] ]).
Qed.

Lemma inspect_quiet nowtime workers instance_list :
  Forall (λ e, acts e = false) (inspect nowtime workers instance_list).1.
Proof.
  unfold inspect_execution_and_hop_nodes.
  assert (Hgen : ∀ st, Forall (λ e, acts e = false) st.1 →
            Forall (λ e, acts e = false)
              (foldl (inspect_advertisement EXECUTION_NODE_REMEDIATION_CHECKS
                        save_health_data nowtime) st workers).1).
  { induction workers as [|ad workers IH]; intros st Hst; [done|]. simpl.
    apply IH. by apply inspect_advertisement_quiet. }
  apply Hgen. by repeat constructor.
Qed.

(** C7, as the code has it.  When the local instance is lost at the start of
    the cycle and its capacity after the local health check is not zero, the
    task logs the rejoin and returns: after the inspection of the mesh it
    does the local health check and writes the warning, and nothing in the
    cycle reaps jobs, deletes or marks offline an instance, registers one or
    stops the local services. *)
Theorem rejoin_returns_early (nowtime : Z) (all : list Instance)
    (workers : list (string * Z)) (worker_tasks : option (list (list string)))
    (ix : nat) (found this_inst : Instance) :
  let instance_list :=
    List.filter (λ i, bool_decide (node_state i = ready ∨ node_state i = unavailable
                                   ∨ node_state i = installed)) all in
  list_find (λ inst, hostname inst = CLUSTER_HOST_ID) instance_list = Some (ix, found) →
  (inspect nowtime workers instance_list).2 !! ix = Some this_inst →
  is_lost nowtime this_inst = true →
  capacity (local_health_check this_inst) ≠ 0%Z →
  let h := hostname (local_health_check this_inst) in
  heartbeat nowtime all workers worker_tasks
  = (LogDebug HeartbeatTask :: (inspect nowtime workers instance_list).1
       ++ [LocalHealthCheck h; LogWarning (Rejoining h)], Returned)
  ∧ Forall (λ e, acts e = false) (heartbeat nowtime all workers worker_tasks).1.
Proof.
  intros instance_list Hfind Hthis Hlost Hcap h.
  assert (Heq : heartbeat nowtime all workers worker_tasks
                = (LogDebug HeartbeatTask :: (inspect nowtime workers instance_list).1
                     ++ [LocalHealthCheck h; LogWarning (Rejoining h)], Returned)).
  { unfold cluster_node_heartbeat. fold instance_list. rewrite Hfind. cbn [fmap option_fmap option_map fst].
    destruct (inspect nowtime workers instance_list) as [inspected l] eqn:Hi.
    cbn [snd fst] in *. rewrite Hthis, Hlost.
    rewrite bool_decide_eq_false_2 by done. cbn [andb negb].
    by rewrite <- app_assoc. }
  split; [done|]. rewrite Heq. cbn [fst].
  constructor; [done|]. apply Forall_app. split; [apply inspect_quiet|].
  by repeat constructor.
Qed.

(** The branch of line 682 is never taken: whatever the cause of the
    [DatabaseError], the handler does not write the message of a row that
    another instance has already marked. *)
Lemma benign_branch_unreachable (other_inst : Instance) (c : cause) :
  LogDebug (AnotherInstanceMarked (hostname other_inst))
  ∉ (database_error_handler sqlcodes other_inst c).1.
Proof.
  unfold database_error_handler. destruct c as [| |sqlstate]; cbn.
  - intros H. apply list_elem_of_singleton in H. discriminate.
  - intros H. apply list_elem_of_singleton in H. discriminate.
  - unfold psycopg_errors_lookup. destruct sqlstate; cbn; try apply not_elem_of_nil.
    destruct (sqlcodes !! s); cbn; [|apply not_elem_of_nil].
    intros H. apply elem_of_cons in H as [H|H]; [discriminate|].
    apply list_elem_of_singleton in H. discriminate.
Qed.

End Task.

Lemma rejoin_returns_early_witness :
  cycle_at_1000 (λ _, NoFault) [awx_1 true; exec_1]
  = ([LogDebug HeartbeatTask; InspectLinks; LocalHealthCheck "awx-1";
      LogWarning (Rejoining "awx-1")], Returned).
Proof.
  unfold cycle_at_1000.
  refine (proj1 (rejoin_returns_early _ _ _ _ _ _ _ _ _ _ _ _ _ _ _ _
                   1000 [awx_1 true; exec_1] [] None 0 (awx_1 true) (awx_1 true)
                   _ _ _ _)).
  - reflexivity.
  - reflexivity.
  - reflexivity.
  - discriminate.
Defined.

(** C7 as stated fails when the health check leaves the local instance at
    capacity 0: a disabled local instance that is lost at the start of the
    cycle does not return early, and the lost execution node is reaped and
    marked offline in the same cycle. *)
Lemma lost_self_without_capacity_reaps :
  is_lost_after 120 1000 (awx_1 false) = true
  ∧ cycle_at_1000 (λ _, NoFault) [awx_1 false; exec_1]
    = ([LogDebug HeartbeatTask; InspectLinks; LocalHealthCheck "awx-1";
        LogWarning HeartbeatSkew; Reap "exec-1"; ReapWaiting "exec-1";
        MarkOffline "exec-1"; LogError (MarkedLost "exec-1")], Returned).
Proof. split; vm_compute; reflexivity. Qed.

(** C8, the code at the failing input.  The local instance is alive and an
    execution node is lost; marking the node offline raises a
    [DatabaseError] whose cause carries SQLSTATE 02000, no data.  The task
    does not raise and goes on, but it reports the error with
    [logger.exception] as an error marking the node as lost, not with the
    debug message of a node that another instance has already marked: the
    test of line 681 compares the SQLSTATE, a string, with the class
    [psycopg.errors.NoData]. *)
Theorem no_data_reported_as_error :
  cycle_at_1000 (λ _, no_rows_affected) [awx_1_alive; exec_1]
  = ([LogDebug HeartbeatTask; InspectLinks; LocalHealthCheck "awx-1";
      Reap "exec-1"; ReapWaiting "exec-1"; Failed (MarkOffline "exec-1");
      LogDebug (SqlErrorState (PStr "02000") psycopg_errors_NoData);
      LogException (ErrorMarking "exec-1")], Returned).
Proof. vm_compute. reflexivity. Qed.

End HeartbeatFacts.

(** * Further properties *)

(** ** Strings *)

Lemma prefix_append (s t : string) : String.prefix s (s +:+ t) = true.
Proof.
  induction s as [|a s IH]; [by destruct t|]. simpl.
  destruct (Ascii.ascii_dec a a); [done|congruence].
Qed.

Lemma prefix_append_l (n a b : string) :
  String.prefix n a = true → String.prefix n (a +:+ b) = true.
Proof.
  revert a. induction n as [|c n IH]; intros a H; [by destruct (a +:+ b)|].
  destruct a as [|c' a]; [done|]. simpl in *.
  destruct (Ascii.ascii_dec c c'); [by apply IH|done].
Qed.

Lemma str_in_prefix (n h : string) : String.prefix n h = true → str_in n h = true.
Proof. intros H. destruct h; cbn [str_in]; by rewrite H. Qed.

Lemma str_in_append_l (n a b : string) : str_in n a = true → str_in n (a +:+ b) = true.
Proof.
  induction a as [|c a IH]; intros H.
  - cbn [str_in] in H. rewrite orb_false_r in H. apply str_in_prefix.
    by apply (prefix_append_l n "" b).
  - cbn [str_in] in H. apply orb_true_iff in H as [H|H].
    + apply str_in_prefix. by apply (prefix_append_l n (String c a) b).
    + change (String c a +:+ b) with (String c (a +:+ b)). cbn [str_in].
      rewrite (IH H). apply orb_true_r.
Qed.

Lemma str_in_append_r (n a b : string) : str_in n b = true → str_in n (a +:+ b) = true.
Proof.
  intros H. induction a as [|c a IH]; [done|].
  change (String c a +:+ b) with (String c (a +:+ b)). cbn [str_in].
  rewrite IH. apply orb_true_r.
Qed.

Lemma str_in_refl (n : string) : str_in n n = true.
Proof.
  apply str_in_prefix. induction n as [|c n IH]; [done|]. simpl.
  destruct (Ascii.ascii_dec c c); [done|congruence].
Qed.

(** ** The stream of events *)

Module CallbackInvariants.
Import Callback CallbackSpec CallbackMore CallbackMoreSpec.

Section Stream.
Variable MINIMAL_EVENTS : gset string.
Variable redact : EventData → pyerr + option EventData.

Lemma throttle_result cpu_time ev d ev' d' :
  throttle MINIMAL_EVENTS cpu_time ev d = inr (ev', d') →
  (d' = d ∨ d' = deque_append cpu_time d) ∧ payload ev' = payload ev.
Proof.
  unfold throttle. destruct (items d) as [|first_window_time others].
  - destruct (negb _); intros [= <- <-]; auto.
  - destruct (should_emit _ _ _ _ _ _) as [e|[|]]; [done| |]; intros [= <- <-]; [auto|].
    split; [auto|]. by destruct (event_data ev).
Qed.

Lemma throttle_total cpu_time ev d :
  has_lines (cpu_time, ev) → ∃ r, throttle MINIMAL_EVENTS cpu_time ev d = inr r.
Proof.
  intros Hlines. unfold throttle. destruct (items d) as [|first_window_time others].
  { destruct (negb _); eauto. }
  unfold should_emit. destruct (in_minimal_events _ _); [eauto|].
  case_bool_decide as Hstd.
  - unfold has_lines in Hlines. cbn [snd] in Hlines.
    destruct (Hlines Hstd) as [[s Hs] [e He]]. rewrite Hs, He.
    case_bool_decide; [eauto|]. destruct (any _); eauto.
  - destruct (any _); eauto.
Qed.

(** One call: a keepalive, an exception raised before anything is
    dispatched, or a dispatch. *)
Lemma handler_step cpu_time ev self :
  let o := event_handler MINIMAL_EVENTS redact cpu_time ev self in
  (event ev = Some "keepalive" ∧ o = Return_None self)
  ∨ (event ev ≠ Some "keepalive"
     ∧ ∃ e, (prepare redact self ev = inl e
             ∨ ∃ ev1, prepare redact self ev = inr ev1
                      ∧ throttle MINIMAL_EVENTS cpu_time ev1 (recent_event_timings self)
                        = inl e)
            ∧ o = Raises e self)
  ∨ (event ev ≠ Some "keepalive"
     ∧ ∃ ev1 ev' d' sent,
         prepare redact self ev = inr ev1
         ∧ throttle MINIMAL_EVENTS cpu_time ev1 (recent_event_timings self) = inr (ev', d')
         ∧ payload sent = payload ev'
         ∧ is_Some (job_reference sent)
         ∧ dispatched_by o = Some sent
         ∧ dispatcher (after o) = dispatcher self ++ [sent]
         ∧ event_ct (after o) = S (event_ct self)
         ∧ recent_event_timings (after o) = d'
         ∧ wrapup_event_type (after o) = wrapup_event_type self
         ∧ wrapup_event_dispatched (after o)
           = wrapup_event_dispatched self
             || bool_decide (default "" (event sent) = wrapup_event_type self)).
Proof.
  intros o. subst o. unfold event_handler.
  case_bool_decide as Hk; [by left|]. right.
  destruct (prepare redact self ev) as [e|ev1] eqn:Hprep.
  { left. split; [done|]. exists e. split; [by left|done]. }
  destruct (throttle _ _ _ _) as [e|[ev' d']] eqn:Ht.
  { left. split; [done|]. exists e. split; [right; by exists ev1|done]. }
  right. split; [done|].
  set (self1 := if bool_decide _ then _ else _).
  set (sent := match job_reference ev' with None => _ | Some _ => ev' end).
  assert (H1 : recent_event_timings self1 = d' ∧ dispatcher self1 = dispatcher self
               ∧ event_ct self1 = event_ct self
               ∧ wrapup_event_type self1 = wrapup_event_type self
               ∧ wrapup_event_dispatched self1
                 = wrapup_event_dispatched self
                   || bool_decide (default "" (event ev') = wrapup_event_type self)).
  { subst self1. cbn [wrapup_event_type set_recent_event_timings].
    case_bool_decide; cbn; split_and!; try done.
    - by rewrite orb_true_r.
    - by rewrite orb_false_r. }
  destruct H1 as (Hw & Hd & Hc & Hty & Hfl).
  assert (H2 : payload sent = payload ev' ∧ is_Some (job_reference sent)
               ∧ event sent = event ev' ∧ event_data sent = event_data ev').
  { subst sent. destruct (job_reference ev') eqn:E; cbn; rewrite ?E; eauto. }
  destruct H2 as (Hp & Hj & He & Hpay).
  exists ev1, ev', d', sent. rewrite He.
  assert (Hdone : ∀ f, dispatched_by (Return_False
                           (set_extra_update_fields f (dispatch sent self1))) = Some sent).
  { intros f. cbn. apply last_snoc. }
  destruct (CallbackFacts.artifact_data_dict sent) as [artifacts ->].
  { unfold dict_payload. rewrite Hpay.
    apply (CallbackFacts.throttle_dict _ _ _ _ _ _ Ht).
    by eapply CallbackFacts.prepare_dict. }
  destruct (py_truthy artifacts).
  - rewrite CallbackFacts.delay_update_one. unfold delay_update_item.
    destruct (extra_update_fields (dispatch sent self1) !! "artifacts").
    + cbn [bool_decide]. rewrite bool_decide_eq_false_2.
      * rewrite Hdone. cbn. by rewrite Hd, Hc, Hw, Hty, Hfl.
      * unfold merged_fields. intros Hin.
        apply elem_of_cons in Hin as [?|Hin]; [done|].
        apply elem_of_cons in Hin as [?|Hin]; [done|]. inversion Hin.
    + rewrite Hdone. cbn. by rewrite Hd, Hc, Hw, Hty, Hfl.
  - split_and!; try done.
    + cbn. apply last_snoc.
    + cbn. by rewrite Hd.
    + cbn. by rewrite Hc.
Qed.

(** No call changes the attributes that the task set on the callback. *)
Lemma handler_attributes cpu_time ev self :
  attributes (after (event_handler MINIMAL_EVENTS redact cpu_time ev self)) = attributes self.
Proof.
  unfold event_handler. case_bool_decide; [done|].
  destruct (prepare redact self ev) as [e|ev1]; [done|].
  destruct (throttle _ _ _ _) as [e|[ev' d']]; [done|].
  set (self1 := if bool_decide _ then _ else _).
  set (sent := match job_reference ev' with None => _ | Some _ => ev' end).
  assert (H1 : attributes self1 = attributes self) by (subst self1; by case_bool_decide).
  destruct (artifact_data sent) as [e|artifacts]; [done|].
  destruct (py_truthy artifacts); [|done].
  by destruct (CallbackFacts.delay_update_artifacts artifacts (dispatch sent self1))
    as [f ->].
Qed.

Lemma run_attributes inputs self :
  attributes (run MINIMAL_EVENTS redact inputs self) = attributes self.
Proof.
  revert self. induction inputs as [|[cpu_time ev] rest IH]; intros self; [done|].
  cbn [run]. by rewrite IH, handler_attributes.
Qed.

Lemma unredacted_attributes self self' ev :
  attributes self' = attributes self → unredacted self ev → unredacted self' ev.
Proof. unfold unredacted, attributes. intros [= _ _ _ -> _ _ _ _]. done. Qed.

(** X1.  Over any stream of calls, what [event_handler] appends to the
    dispatcher is the timeline, and [event_ct] grows by its length; for a
    callback that starts fresh, [event_ct] is the number of events
    dispatched. *)
Theorem event_counter_counts_dispatches (inputs : list (Q * EventData))
    (self : RunnerCallback) (N : nat) (inst : Z) (wrapup g : string)
    (key : string) (project_update : bool) (parent : option Z) (hosts : gmap string Z)
    (created : pyval) :
  dispatcher (run MINIMAL_EVENTS redact inputs self)
  = dispatcher self ++ (snd <$> timeline MINIMAL_EVENTS redact inputs self)
  ∧ event_ct (run MINIMAL_EVENTS redact inputs self)
    = event_ct self + length (timeline MINIMAL_EVENTS redact inputs self)
  ∧ event_ct (run MINIMAL_EVENTS redact inputs
                (init N inst wrapup g key project_update parent hosts created))
    = length (dispatcher (run MINIMAL_EVENTS redact inputs
                            (init N inst wrapup g key project_update parent hosts created))).
Proof.
  assert (Hgen : ∀ inputs self,
            dispatcher (run MINIMAL_EVENTS redact inputs self)
            = dispatcher self ++ (snd <$> timeline MINIMAL_EVENTS redact inputs self)
            ∧ event_ct (run MINIMAL_EVENTS redact inputs self)
              = event_ct self + length (timeline MINIMAL_EVENTS redact inputs self)).
  { clear. induction inputs as [|[cpu_time ev] rest IH]; intros self.
    { cbn. by rewrite app_nil_r, Nat.add_0_r. }
    cbn [run timeline].
    destruct (handler_step cpu_time ev self)
      as [[_ Ho]|[(_ & e & _ & Ho)
                 |(_ & ev1 & ev' & d' & sent & _ & _ & _ & _ & Hs & Hd & Hc & _)]].
    - rewrite Ho. cbn. apply IH.
    - rewrite Ho. cbn. apply IH.
    - rewrite Hs.
      destruct (IH (after (event_handler MINIMAL_EVENTS redact cpu_time ev self)))
        as [IH1 IH2].
      rewrite IH1, IH2, Hd, Hc. cbn. rewrite <- app_assoc. split; [done|lia]. }
  destruct (Hgen inputs self) as [H1 H2]. split_and!; [done|done|].
  destruct (Hgen inputs (init N inst wrapup g key project_update parent hosts created))
    as [H3 H4].
  rewrite H3, H4. cbn. by rewrite length_fmap.
Qed.

(** A call on an event that lines 153-191 accept and the rate limiter can
    read dispatches it. *)
Lemma accepted_step cpu_time ev self :
  has_lines (cpu_time, ev) → host_readable ev → unredacted self ev →
  event ev ≠ Some "keepalive" →
  ∃ sent, dispatched_by (event_handler MINIMAL_EVENTS redact cpu_time ev self) = Some sent
          ∧ payload sent = payload ev.
Proof.
  intros Hx Hr Hu Hk.
  destruct (CallbackFacts.prepare_accepts redact self ev Hr Hu)
    as (ev0 & Hp0 & He0 & Ho0 & Hs0 & Hl0 & _).
  destruct (handler_step cpu_time ev self)
    as [[Hk' Ho]|[(_ & e & Hraise & Ho)
                |(_ & ev1 & ev' & d' & sent & Hprep & Ht & Hp & _ & Hs & _)]].
  - done.
  - exfalso. destruct Hraise as [Hraise|(ev1 & Hprep & Hraise)]; [congruence|].
    assert (ev1 = ev0) as -> by congruence.
    destruct (throttle_total cpu_time ev0 (recent_event_timings self)) as [r Hr']; [|congruence].
    unfold has_lines in *. cbn [snd] in *. by rewrite Ho0, Hs0, Hl0.
  - assert (ev1 = ev0) as -> by congruence. exists sent. split; [done|].
    apply throttle_result in Ht as [_ Ht]. rewrite Hp, Ht. unfold payload. congruence.
Qed.

(** X2.  No event that lines 153-191 accept is lost.  When the nested
    payload of every event, if it has one, is a dict with a string for a
    host, if it has one, no event is the source-control task of a project
    update (which goes out as its redacted copy), and every event with empty
    [stdout] carries its line marks, then the events dispatched are, in
    order, the events of the stream that are not keepalives, each with the
    type, output and line marks it came with. *)
Theorem no_event_is_dropped (inputs : list (Q * EventData)) (self : RunnerCallback) :
  Forall has_lines inputs →
  Forall (λ x, host_readable x.2) inputs →
  Forall (λ x, unredacted self x.2) inputs →
  payload <$> (snd <$> timeline MINIMAL_EVENTS redact inputs self)
  = payload <$> (snd <$> List.filter (λ x, negb (is_keepalive x)) inputs).
Proof.
  intros Hall. revert self.
  induction Hall as [|[cpu_time ev] rest Hx Hrest IH]; intros self Hread Hplain.
  { done. }
  apply Forall_cons in Hread as [Hr Hread]. apply Forall_cons in Hplain as [Hu Hplain].
  cbn [snd] in Hr, Hu.
  assert (Hnext : Forall (λ x, unredacted
                                 (after (event_handler MINIMAL_EVENTS redact cpu_time ev self))
                                 x.2) rest).
  { eapply Forall_impl; [exact Hplain|]. intros x. apply unredacted_attributes.
    apply handler_attributes. }
  cbn [timeline List.filter].
  replace (is_keepalive (cpu_time, ev)) with (bool_decide (event ev = Some "keepalive"))
    by done.
  destruct (decide (event ev = Some "keepalive")) as [Hk|Hk].
  - rewrite bool_decide_eq_true_2 by done. unfold event_handler at 1 3.
    rewrite bool_decide_eq_true_2 by done. cbn [negb dispatched_by after].
    apply IH; [done|]. eapply Forall_impl; [exact Hnext|]. intros x.
    apply unredacted_attributes. by rewrite handler_attributes.
  - destruct (accepted_step cpu_time ev self Hx Hr Hu Hk) as (sent & Hs & Hp).
    rewrite Hs, bool_decide_eq_false_2 by done. cbn [negb].
    rewrite !fmap_cons. cbn [snd]. f_equal; [done|by apply IH].
Qed.

(** X5.  Keepalive events are transparent: the stream without them leaves
    the same object and the same timeline. *)
Theorem keepalives_are_transparent (inputs : list (Q * EventData)) (self : RunnerCallback) :
  run MINIMAL_EVENTS redact (List.filter (λ x, negb (is_keepalive x)) inputs) self
  = run MINIMAL_EVENTS redact inputs self
  ∧ timeline MINIMAL_EVENTS redact (List.filter (λ x, negb (is_keepalive x)) inputs) self
    = timeline MINIMAL_EVENTS redact inputs self.
Proof.
  revert self. induction inputs as [|[cpu_time ev] rest IH]; intros self; [done|].
  cbn [List.filter]. destruct (is_keepalive (cpu_time, ev)) eqn:Hk; cbn [negb].
  - apply bool_decide_eq_true in Hk. cbn [snd] in Hk.
    cbn [run timeline]. unfold event_handler. rewrite bool_decide_eq_true_2 by done.
    cbn [after dispatched_by]. apply IH.
  - cbn [run timeline]. destruct (IH (after (event_handler MINIMAL_EVENTS redact cpu_time ev self)))
      as [-> ->]. done.
Qed.

Lemma deque_append_bounded x d :
  length (items d) ≤ maxlen d →
  maxlen (deque_append x d) = maxlen d
  ∧ length (items (deque_append x d)) ≤ maxlen d
  ∧ ∀ t, t ∈ items (deque_append x d) → t ∈ items d ∨ t = x.
Proof.
  intros Hlen. unfold deque_append.
  destruct (maxlen d =? 0)%nat eqn:E0; [auto|].
  destruct (maxlen d <? length (items d ++ [x]))%nat eqn:E; cbn.
  - rewrite length_drop, length_app. cbn. split_and!; [done|lia|].
    intros t Ht. apply list_elem_of_lookup in Ht as [i Hi].
    rewrite lookup_drop in Hi. apply list_elem_of_lookup_2 in Hi.
    apply elem_of_app in Hi as [?|Hi]; [by left|right].
    by apply list_elem_of_singleton in Hi.
  - apply Nat.ltb_ge in E. split_and!; [done|done|].
    intros t Ht. apply elem_of_app in Ht as [?|Ht]; [by left|right].
    by apply list_elem_of_singleton in Ht.
Qed.

(** X3.  The window of recent timings never overflows: after any stream, a
    callback created with capacity [N] holds at most [N] timings, each the
    clock reading of one of the calls. *)
Theorem window_never_overflows (inputs : list (Q * EventData))
    (N : nat) (inst : Z) (wrapup g : string)
    (key : string) (project_update : bool) (parent : option Z) (hosts : gmap string Z)
    (created : pyval) :
  let d := recent_event_timings
             (run MINIMAL_EVENTS redact inputs
                (init N inst wrapup g key project_update parent hosts created)) in
  maxlen d = N ∧ length (items d) ≤ N ∧ ∀ t, t ∈ items d → t ∈ inputs.*1.
Proof.
  assert (Hgen : ∀ inputs self,
            length (items (recent_event_timings self)) ≤ maxlen (recent_event_timings self) →
            let d := recent_event_timings (run MINIMAL_EVENTS redact inputs self) in
            maxlen d = maxlen (recent_event_timings self)
            ∧ length (items d) ≤ maxlen d
            ∧ ∀ t, t ∈ items d → t ∈ items (recent_event_timings self) ∨ t ∈ inputs.*1).
  { clear. induction inputs as [|[cpu_time ev] rest IH]; intros self Hlen; cbn [run].
    { split_and!; [done|done|]. by left. }
    set (o := event_handler MINIMAL_EVENTS redact cpu_time ev self).
    assert (Hstep : maxlen (recent_event_timings (after o)) = maxlen (recent_event_timings self)
              ∧ length (items (recent_event_timings (after o)))
                ≤ maxlen (recent_event_timings self)
              ∧ ∀ t, t ∈ items (recent_event_timings (after o)) →
                     t ∈ items (recent_event_timings self) ∨ t = cpu_time).
    { subst o. destruct (handler_step cpu_time ev self)
        as [[_ Ho]|[(_ & e & _ & Ho)
                   |(_ & ev1 & ev' & d' & sent & _ & Ht & _ & _ & _ & _ & _ & Hw & _)]].
      - rewrite Ho. cbn. auto.
      - rewrite Ho. cbn. auto.
      - rewrite Hw. apply throttle_result in Ht as [[->| ->] _]; [auto|].
        by apply deque_append_bounded. }
    destruct Hstep as (Hm & Hl & Hin).
    destruct (IH (after o)) as (IH1 & IH2 & IH3); [lia|].
    cbn zeta in *. rewrite IH1, Hm in *. split_and!; [done|done|].
    intros t Ht. destruct (IH3 t Ht) as [Ht'|Ht'].
    - destruct (Hin t Ht') as [?| ->]; [by left|right]. cbn. by left.
    - right. cbn. by right. }
  intros d.
  destruct (Hgen inputs (init N inst wrapup g key project_update parent hosts created))
    as (H1 & H2 & H3); [cbn; lia|].
  subst d. cbn in H1. rewrite H1 in H2. split_and!; [done|done|].
  intros t Ht. destruct (H3 t Ht) as [Hn|?]; [|done]. cbn in Hn. inversion Hn.
Qed.

(** X4.  The wrap-up mark follows the dispatches: after any stream it is set
    exactly when it was set before or an event of the wrap-up type was
    dispatched; and the wrap-up type itself never changes. *)
Theorem wrapup_mark_follows_dispatch (inputs : list (Q * EventData)) (self : RunnerCallback) :
  wrapup_event_dispatched (run MINIMAL_EVENTS redact inputs self)
  = wrapup_event_dispatched self
    || existsb (λ x : Q * EventData,
                  bool_decide (default "" (event x.2) = wrapup_event_type self))
               (timeline MINIMAL_EVENTS redact inputs self)
  ∧ wrapup_event_type (run MINIMAL_EVENTS redact inputs self) = wrapup_event_type self.
Proof.
  assert (Hgen : ∀ inputs self,
            wrapup_event_type (run MINIMAL_EVENTS redact inputs self) = wrapup_event_type self
            ∧ wrapup_event_dispatched (run MINIMAL_EVENTS redact inputs self)
              = wrapup_event_dispatched self
                || existsb (λ x : Q * EventData,
                              bool_decide (default "" (event x.2) = wrapup_event_type self))
                           (timeline MINIMAL_EVENTS redact inputs self)).
  { clear. induction inputs as [|[cpu_time ev] rest IH]; intros self; cbn [run timeline].
    { cbn. by rewrite orb_false_r. }
    destruct (handler_step cpu_time ev self)
      as [[_ Ho]|[(_ & e & _ & Ho)
                 |(_ & ev1 & ev' & d' & sent & _ & _ & _ & _ & Hs & _ & _ & _ & Hty & Hfl)]].
    - rewrite Ho. cbn. apply IH.
    - rewrite Ho. cbn. apply IH.
    - rewrite Hs.
      destruct (IH (after (event_handler MINIMAL_EVENTS redact cpu_time ev self)))
        as [IH1 IH2].
      rewrite IH1, IH2, Hty, Hfl. cbn. split; [done|]. by rewrite orb_assoc. }
  destruct (Hgen inputs self) as [H1 H2]. by split.
Qed.

End Stream.

Lemma no_event_is_dropped_witness :
  payload <$> (snd <$> timeline stats_only blank_stdout
                         ((0%Q, keepalive) :: (0%Q, on_web1) :: burst) job0)
  = [payload on_web1; payload talking; payload talking; payload talking].
Proof.
  rewrite (no_event_is_dropped stats_only blank_stdout
             ((0%Q, keepalive) :: (0%Q, on_web1) :: burst) job0).
  - reflexivity.
  - unfold burst. repeat (constructor; [intros H; discriminate H|]). constructor.
  - unfold burst. repeat (constructor; [exact I|]). constructor.
  - unfold burst. repeat (constructor; [left; reflexivity|]). constructor.
Defined.

End CallbackInvariants.

(** ** Staged fields *)

Lemma append_empty_r (s : string) : s +:+ "" = s.
Proof.
  induction s as [|c s IH]; [done|].
  change (String c s +:+ "") with (String c (s +:+ "")). by rewrite IH.
Qed.

Lemma append_assoc (a b c : string) : (a +:+ b) +:+ c = a +:+ (b +:+ c).
Proof.
  induction a as [|x a IH]; [done|].
  change ((String x a +:+ b) +:+ c) with (String x ((a +:+ b) +:+ c)). by rewrite IH.
Qed.

Module StagedFields.
Import Callback CallbackSpec CallbackMore CallbackMoreSpec.

Lemma delay_update_state skip kwargs self :
  extra_update_fields (state_of (delay_update skip kwargs self))
  = state_of (delay_update_fields skip kwargs (extra_update_fields self))
  ∧ ((∃ s, delay_update skip kwargs self = Ok s)
     ↔ ∃ f, delay_update_fields skip kwargs (extra_update_fields self) = Ok f).
Proof.
  unfold delay_update. destruct (delay_update_fields _ _ _) as [f|e f]; cbn.
  - split; [done|]. split; eauto.
  - split; [done|]. split; intros [? ?]; discriminate.
Qed.

Lemma item_merged skip fields key o k v :
  key ∈ merged_fields → fields !! key = Some (PStr o) →
  ∃ t, state_of (delay_update_item skip fields k v) !! key = Some (PStr (o +:+ t))
       ∧ (skip = false → k = key → str_in (py_str v) (o +:+ t) = true).
Proof.
  intros Hm Hold. unfold delay_update_item. destruct (decide (k = key)) as [->|Hne].
  - rewrite Hold. destruct skip.
    { exists "". rewrite append_empty_r. by split. }
    rewrite bool_decide_eq_true_2 by done.
    destruct (str_in (py_str v) o) eqn:E; cbn.
    + exists "". rewrite append_empty_r. by split.
    + exists (newline +:+ py_str v). rewrite lookup_insert_eq. split; [done|].
      intros _ _. apply str_in_append_r, str_in_append_r, str_in_refl.
  - assert (Hkeep : ∀ x, <[k := x]> fields !! key = Some (PStr o)).
    { intros x. by rewrite lookup_insert_ne. }
    exists "". rewrite append_empty_r. split; [|done].
    destruct (fields !! k) as [old|]; [|by cbn].
    destruct skip; [done|]. case_bool_decide; [|by cbn].
    destruct old; try done. by destruct (str_in _ _); cbn.
Qed.

Lemma item_frame skip fields k v key :
  let f := state_of (delay_update_item skip fields k v) in
  (is_Some (fields !! key) → is_Some (f !! key))
  ∧ (key ≠ k → f !! key = fields !! key)
  ∧ (skip = true → delay_update_item skip fields k v = Ok f
                   ∧ ∀ x, fields !! key = Some x → f !! key = Some x).
Proof.
  cbn zeta. unfold delay_update_item.
  assert (Hins : ∀ x, (is_Some (fields !! key) → is_Some (<[k := x]> fields !! key))
                      ∧ (key ≠ k → <[k := x]> fields !! key = fields !! key)).
  { intros x. split.
    - destruct (decide (key = k)) as [->|?];
        [by rewrite lookup_insert_eq|by rewrite lookup_insert_ne].
    - intros ?. by rewrite lookup_insert_ne. }
  destruct (fields !! k) as [old|] eqn:Hk.
  - destruct skip; [by split_and!|].
    case_bool_decide.
    + destruct old; cbn; try (by split_and!).
      destruct (str_in _ _); cbn; [by split_and!|].
      destruct (Hins (PStr (s +:+ newline +:+ py_str v))). by split_and!.
    + cbn. destruct (Hins v). by split_and!.
  - cbn. destruct (Hins v). split_and!; [done|done|].
    intros _. split; [done|]. intros x Hx. rewrite lookup_insert_ne; [done|congruence].
Qed.

(** X6.  [delay_update] never loses a message of [job_explanation] or
    [result_traceback]: whatever the keyword arguments, the text staged
    before stays at the front of the text staged after, also when the call
    raises; and when a call without [skip_if_already_set] returns, every
    message passed for the field is found in its text. *)
Theorem delay_update_keeps_messages (skip : bool) (kwargs : list (string * pyval))
    (self : RunnerCallback) (key o : string) :
  key ∈ merged_fields →
  extra_update_fields self !! key = Some (PStr o) →
  ∃ t, extra_update_fields (state_of (delay_update skip kwargs self)) !! key
       = Some (PStr (o +:+ t))
       ∧ (skip = false → (∃ s, delay_update skip kwargs self = Ok s) →
          ∀ v, (key, v) ∈ kwargs → str_in (py_str v) (o +:+ t) = true).
Proof.
  intros Hm Hold. destruct (delay_update_state skip kwargs self) as [Hst Hok]. rewrite Hst.
  cut (∃ t, state_of (delay_update_fields skip kwargs (extra_update_fields self)) !! key
            = Some (PStr (o +:+ t))
            ∧ (skip = false →
               (∃ f, delay_update_fields skip kwargs (extra_update_fields self) = Ok f) →
               ∀ v, (key, v) ∈ kwargs → str_in (py_str v) (o +:+ t) = true)).
  { intros (t & H1 & H2). exists t. split; [done|].
    intros Hs Hr. apply H2; [done|by apply Hok]. }
  clear Hst Hok. revert Hold. generalize (extra_update_fields self). intros fields. revert fields o.
  induction kwargs as [|[k v] rest IH]; intros fields o Hold.
  { exists "". rewrite append_empty_r. split; [done|]. intros _ _ v Hv. inversion Hv. }
  cbn [delay_update_fields].
  destruct (item_merged skip fields key o k v Hm Hold) as (t1 & H1 & Hv1).
  destruct (delay_update_item skip fields k v) as [f1|e f1]; cbn [bind state_of] in *.
  - destruct (IH f1 (o +:+ t1) H1) as (t2 & H2 & Hv2).
    exists (t1 +:+ t2). rewrite <- append_assoc. split; [done|].
    intros Hs Hok x Hx. apply elem_of_cons in Hx as [[= <- <-]|Hx].
    + apply str_in_append_l. by apply Hv1.
    + by apply Hv2.
  - exists t1. split; [done|]. intros _ [f Hf]. discriminate Hf.
Qed.

Lemma delay_update_keeps_messages_witness :
  ∃ t, extra_update_fields
         (state_of (delay_update false [("job_explanation", PStr "timed out")] job0_failed))
       !! "job_explanation" = Some (PStr ("lost contact" +:+ t)).
Proof.
  destruct (delay_update_keeps_messages false [("job_explanation", PStr "timed out")]
              job0_failed "job_explanation" "lost contact") as (t & Ht & _).
  - unfold merged_fields. apply elem_of_cons. by left.
  - reflexivity.
  - by exists t.
Defined.

(** X7.  [delay_update] never unstages a field and touches only the fields
    it is passed: a key staged before is staged after, a key that is not
    among the keyword arguments keeps its value, and with
    [skip_if_already_set] the call returns and every field staged before
    keeps its value. *)
Theorem delay_update_frame (skip : bool) (kwargs : list (string * pyval))
    (self : RunnerCallback) (key : string) :
  let after := extra_update_fields (state_of (delay_update skip kwargs self)) in
  (is_Some (extra_update_fields self !! key) → is_Some (after !! key))
  ∧ (key ∉ kwargs.*1 → after !! key = extra_update_fields self !! key)
  ∧ (skip = true →
     (∃ s, delay_update skip kwargs self = Ok s)
     ∧ ∀ x, extra_update_fields self !! key = Some x → after !! key = Some x).
Proof.
  cbn zeta. destruct (delay_update_state skip kwargs self) as [Hst Hok]. rewrite Hst.
  cut (let r := delay_update_fields skip kwargs (extra_update_fields self) in
       (is_Some (extra_update_fields self !! key) → is_Some (state_of r !! key))
       ∧ (key ∉ kwargs.*1 → state_of r !! key = extra_update_fields self !! key)
       ∧ (skip = true →
          (∃ f, r = Ok f)
          ∧ ∀ x, extra_update_fields self !! key = Some x → state_of r !! key = Some x)).
  { cbn zeta. intros (H1 & H2 & H3). split_and!; [done|done|].
    intros Hs. destruct (H3 Hs). split; [by apply Hok|done]. }
  clear Hst Hok. cbn zeta.
  generalize (extra_update_fields self). intros fields. revert fields.
  induction kwargs as [|[k v] rest IH]; intros fields.
  { cbn. split_and!; [done|done|]. intros _. split; [eauto|done]. }
  cbn [delay_update_fields].
  destruct (item_frame skip fields k v key) as (H1 & H2 & H3). cbn zeta in *.
  destruct (delay_update_item skip fields k v) as [f1|e f1] eqn:E; cbn [bind state_of] in *.
  - destruct (IH f1) as (I1 & I2 & I3). split_and!.
    + intros H. by apply I1, H1.
    + intros Hn. rewrite fmap_cons in Hn. apply not_elem_of_cons in Hn as [Hk Hn].
      by rewrite I2, H2.
    + intros Hs. destruct (I3 Hs) as [Hok Hv]. split; [done|].
      intros x Hx. apply Hv. by apply (proj2 (H3 Hs)).
  - split_and!; [done| |].
    + intros Hn. rewrite fmap_cons in Hn. apply not_elem_of_cons in Hn as [Hk Hn]. by apply H2.
    + intros Hs. destruct (H3 Hs) as [Hbad _]. discriminate Hbad.
Qed.

Section Finalize.
Variable ANSIBLE_RUNNER_NEEDS_UPDATE_MESSAGE : string.
Abbreviation finalize := (get_delayed_update_fields ANSIBLE_RUNNER_NEEDS_UPDATE_MESSAGE).

Lemma set_fields_same self :
  set_extra_update_fields (extra_update_fields self) self = self.
Proof. by destruct self. Qed.

Lemma set_fields_twice f g self :
  set_extra_update_fields f (set_extra_update_fields g self) = set_extra_update_fields f self.
Proof. by destruct self. Qed.

(** What a returning call leaves: the counter written, and the hint added
    to a traceback that asks for it. *)
Lemma finalize_returns self s :
  finalize self = Ok s →
  ∃ f, s = set_extra_update_fields f self
       ∧ f !! "emitted_events" = Some (PInt (Z.of_nat (event_ct self)))
       ∧ (∀ key, key ≠ "emitted_events" → key ≠ "result_traceback" →
                 f !! key = extra_update_fields self !! key)
       ∧ match extra_update_fields self !! "result_traceback" with
         | Some (PStr tb) =>
             if str_in unexpected_keyword tb then
               ∃ t, f !! "result_traceback" = Some (PStr (tb +:+ t))
                    ∧ str_in ANSIBLE_RUNNER_NEEDS_UPDATE_MESSAGE (tb +:+ t) = true
             else f !! "result_traceback" = Some (PStr tb)
         | Some _ => False
         | None => f !! "result_traceback" = None
         end.
Proof.
  unfold get_delayed_update_fields.
  set (f0 := <["emitted_events" := PInt (Z.of_nat (event_ct self))]> (extra_update_fields self)).
  assert (Hx : ∀ f, extra_update_fields (set_extra_update_fields f self) = f)
    by (intros f; by destruct self).
  rewrite Hx.
  assert (H0 : f0 !! "emitted_events" = Some (PInt (Z.of_nat (event_ct self))))
    by apply lookup_insert_eq.
  assert (Hf0 : ∀ key, key ≠ "emitted_events" → f0 !! key = extra_update_fields self !! key).
  { intros key Hk. by apply lookup_insert_ne. }
  rewrite (Hf0 "result_traceback") by done.
  destruct (extra_update_fields self !! "result_traceback") as [[| | |tb|]|] eqn:Htb;
    simpl; try done.
  - destruct (str_in unexpected_keyword tb) eqn:Hkw.
    + rewrite CallbackFacts.delay_update_one, Hx. unfold delay_update_item.
      rewrite Hf0, Htb by done.
      rewrite bool_decide_eq_true_2
        by (unfold merged_fields; apply elem_of_cons; right; apply elem_of_cons; by left).
      cbn [py_str]. destruct (str_in ANSIBLE_RUNNER_NEEDS_UPDATE_MESSAGE tb) eqn:Hin.
      * intros [= <-]. exists f0. rewrite set_fields_twice. split_and!; [done|done|auto|].
        exists "". by rewrite append_empty_r, Hf0, Htb.
      * intros [= <-]. rewrite set_fields_twice. eexists. split_and!; [done| | |].
        -- by rewrite lookup_insert_ne.
        -- intros key H1 H2. rewrite lookup_insert_ne by done. auto.
        -- exists (newline +:+ ANSIBLE_RUNNER_NEEDS_UPDATE_MESSAGE).
           rewrite lookup_insert_eq. split; [done|].
           apply str_in_append_r, str_in_append_r, str_in_refl.
    + intros [= <-]. exists f0. split_and!; [done|done|auto|]. by rewrite Hf0.
  - intros [= <-]. exists f0. split_and!; [done|done|auto|]. by rewrite Hf0.
Qed.

(** X8.  [get_delayed_update_fields] can be called again: a call that
    returns leaves fields on which a second call returns the same fields,
    so that the hint about an outdated runner is added to the traceback at
    most once; [emitted_events] is the event counter, and no field other
    than [emitted_events] and [result_traceback] changes. *)
Theorem get_delayed_update_fields_idempotent (self s : RunnerCallback) :
  finalize self = Ok s →
  finalize s = Ok s
  ∧ extra_update_fields s !! "emitted_events" = Some (PInt (Z.of_nat (event_ct self)))
  ∧ ∀ key, key ≠ "emitted_events" → key ≠ "result_traceback" →
           extra_update_fields s !! key = extra_update_fields self !! key.
Proof.
  intros Hfirst. destruct (finalize_returns self s Hfirst) as (f & -> & He & Hother & Htb).
  assert (Hx : ∀ f, extra_update_fields (set_extra_update_fields f self) = f)
    by (intros ?; by destruct self).
  assert (Hct : ∀ f, event_ct (set_extra_update_fields f self) = event_ct self)
    by (intros ?; by destruct self).
  rewrite Hx. split_and!; [|done|done].
  unfold get_delayed_update_fields. rewrite Hx, Hct, set_fields_twice, (insert_id f) by done.
  rewrite Hx.
  destruct (extra_update_fields self !! "result_traceback") as [[| | |tb|]|]; try done.
  - destruct (str_in unexpected_keyword tb) eqn:Hkw.
    + destruct Htb as (t & Ht & Hin). rewrite Ht. simpl.
      rewrite str_in_append_l by done.
      rewrite CallbackFacts.delay_update_one, Hx. unfold delay_update_item. rewrite Ht.
      rewrite bool_decide_eq_true_2
        by (unfold merged_fields; apply elem_of_cons; right; apply elem_of_cons; by left).
      cbn [py_str]. rewrite Hin. by rewrite set_fields_twice.
    + rewrite Htb. simpl. by rewrite Hkw.
  - rewrite Htb. by simpl.
Qed.

End Finalize.

(** X9.  [collect_queries] returns exactly the installed collections that
    have both [host_query] and [version], each with its data unchanged, and
    nothing when [installed_collections] is missing; collecting from its
    own result changes nothing. *)
Theorem collect_queries_selects (collections : gmap string (gmap string pyval))
    (key : string) :
  collect_queries (Some collections) !! key
  = (value ← collections !! key; if has_query value then Some value else None)
  ∧ collect_queries None !! key = None
  ∧ collect_queries (Some (collect_queries (Some collections)))
    = collect_queries (Some collections).
Proof.
  assert (Hsel : ∀ (c : gmap string (gmap string pyval)) k,
            collect_queries (Some c) !! k
            = (value ← c !! k; if has_query value then Some value else None)).
  { clear. intros c k. unfold collect_queries.
    apply (map_fold_weak_ind
             (λ r m, r !! k = (value ← m !! k; if has_query value then Some value else None))).
    - by rewrite !lookup_empty.
    - intros i x m r Hi IH. destruct (decide (i = k)) as [->|Hne].
      + rewrite lookup_insert_eq. cbn. rewrite Hi in IH. cbn in IH.
        destruct (has_query x); [by rewrite lookup_insert_eq|done].
      + rewrite lookup_insert_ne by done. rewrite <- IH.
        destruct (has_query x); [by rewrite lookup_insert_ne|done]. }
  split_and!; [apply Hsel|apply lookup_empty|].
  apply map_eq. intros k. rewrite !Hsel.
  destruct (collections !! k) as [value|]; cbn; [|done].
  destruct (has_query value) eqn:E; cbn; [by rewrite E|done].
Qed.

(** X10.  The environment saved when a job starts has exactly the variables
    of the runner's environment: a variable of [safe_env] replaces the value
    of a variable that is there and never adds one. *)
Theorem job_env_overlays (safe_env env : gmap string string) (k : string) :
  job_env safe_env env !! k = (v ← env !! k; Some (default v (safe_env !! k)))
  ∧ dom (job_env safe_env env) = dom env.
Proof.
  assert (Hlook : ∀ k, job_env safe_env env !! k
                       = (v ← env !! k; Some (default v (safe_env !! k)))).
  { clear k. intros k. unfold job_env.
    apply (map_fold_weak_ind
             (λ r m, ∀ k, r !! k = (v ← env !! k; Some (default v (m !! k))))).
    - intros j. rewrite lookup_empty. by destruct (env !! j).
    - intros i x m r Hi IH j. case_bool_decide as Hin.
      + destruct (decide (i = j)) as [->|Hne].
        * rewrite !lookup_insert_eq. rewrite IH in Hin. destruct (env !! j); [done|].
          by destruct Hin.
        * rewrite !lookup_insert_ne by done. apply IH.
      + destruct (decide (i = j)) as [->|Hne].
        * rewrite IH in Hin. rewrite IH. destruct (env !! j); [|done].
          exfalso. apply Hin. cbn. eauto.
        * rewrite lookup_insert_ne by done. apply IH. }
  split; [apply Hlook|].
  apply set_eq. intros j. rewrite !elem_of_dom, Hlook.
  destruct (env !! j); cbn; split; intros [? ?]; eauto; discriminate.
Qed.

End StagedFields.

Lemma get_delayed_update_fields_idempotent_witness :
  let self := Callback.set_extra_update_fields
                {[ "result_traceback" :=
                     PStr "TypeError: run() got an unexpected keyword argument" ]}
                CallbackSpec.job1 in
  let s := state_of (CallbackMore.get_delayed_update_fields "update the runner" self) in
  CallbackMore.get_delayed_update_fields "update the runner" self = Ok s
  ∧ CallbackMore.get_delayed_update_fields "update the runner" s = Ok s.
Proof.
  intros self s. split; [vm_compute; reflexivity|].
  apply (StagedFields.get_delayed_update_fields_idempotent "update the runner" self s).
  vm_compute. reflexivity.
Defined.

(** ** The heartbeat *)

Module HeartbeatInvariants.
Import Heartbeat HeartbeatSpec HeartbeatMoreSpec.

Lemma elem_of_filter_enumerate {A} (f : nat * A → bool) (l : list A) i x :
  (i, x) ∈ List.filter f (enumerate l) ↔ l !! i = Some x ∧ f (i, x) = true.
Proof. by rewrite list_elem_of_In, filter_In, <- list_elem_of_In, elem_of_enumerate. Qed.

Lemma node_lookup_Some l h ix :
  node_lookup l h = Some ix → ∃ x, l !! ix = Some x ∧ hostname x = h.
Proof.
  unfold node_lookup. intros H. apply fmap_Some in H as ([j x] & Hlast & ->).
  apply last_Some_elem_of in Hlast. apply elem_of_filter_enumerate in Hlast as [Hl Hh].
  apply bool_decide_eq_true in Hh. eauto.
Qed.

Lemma acts_attempt e : acts e = acts (attempt_of e).
Proof. induction e; try done. Qed.

Lemma retires_acts e : retires e = true → acts e = true.
Proof. unfold retires. rewrite acts_attempt. by destruct (attempt_of e). Qed.

Lemma NoDup_fmap_filter {A B} (f : A → B) (p : A → bool) (l : list A) :
  NoDup (f <$> l) → NoDup (f <$> List.filter p l).
Proof.
  induction l as [|x l IH]; [done|]. cbn. rewrite NoDup_cons. intros [Hx Hl].
  destruct (p x); [|by apply IH]. cbn. apply NoDup_cons. split; [|by apply IH].
  intros Hin. apply Hx. apply list_elem_of_fmap in Hin as (y & -> & Hy).
  apply list_elem_of_fmap. exists y. split; [done|].
  apply list_elem_of_In, filter_In in Hy as [Hy _]. by apply list_elem_of_In.
Qed.

Section Task.
Variable CLUSTER_HOST_ID : string.
Variable AWX_AUTO_DEPROVISION_INSTANCES : bool.
Variable CLUSTER_NODE_HEARTBEAT_PERIOD : Z.
Variable EXECUTION_NODE_REMEDIATION_CHECKS : Z.
Variable DEBUG : bool.
Variable awx_application_version : string.
Variable is_lost : Z → Instance → bool.
Variable local_health_check : Instance → Instance.
Variable save_health_data : Instance → Instance.
Variable register : bool * Instance.
Variable version_newer : string → string → option bool.
Variable is_runner_version : string → bool.
Variable sqlcodes : gmap string pyval.
Variable reap_raises : Instance → bool.
Variable reap_waiting_raises : Instance → bool.
Variable write_fault : Instance → fault.

Abbreviation advertisement :=
  (inspect_advertisement EXECUTION_NODE_REMEDIATION_CHECKS save_health_data).
Abbreviation inspect :=
  (inspect_execution_and_hop_nodes EXECUTION_NODE_REMEDIATION_CHECKS save_health_data).
Abbreviation retire := (retire_lost AWX_AUTO_DEPROVISION_INSTANCES sqlcodes write_fault).
Abbreviation lost_loop :=
  (process_lost AWX_AUTO_DEPROVISION_INSTANCES sqlcodes reap_raises reap_waiting_raises
     write_fault).
Abbreviation rest_of_cycle :=
  (after_self AWX_AUTO_DEPROVISION_INSTANCES DEBUG awx_application_version version_newer
     is_runner_version sqlcodes reap_raises reap_waiting_raises write_fault).
Abbreviation heartbeat :=
  (cluster_node_heartbeat CLUSTER_HOST_ID AWX_AUTO_DEPROVISION_INSTANCES
     CLUSTER_NODE_HEARTBEAT_PERIOD EXECUTION_NODE_REMEDIATION_CHECKS DEBUG
     awx_application_version is_lost local_health_check save_health_data register
     version_newer is_runner_version sqlcodes reap_raises reap_waiting_raises write_fault).

Ltac each_effect := repeat (constructor; [cbn; auto|]); constructor.

(** One advertisement: nothing changes, or the row of the advertised node
    gets the advertised time, which is later than the one it had. *)
Lemma advertisement_cases nowtime fx l ad :
  ∃ more, (advertisement nowtime (fx, l) ad).1 = fx ++ more
  ∧ ((advertisement nowtime (fx, l) ad).2 = l ∧ Forall (λ e, is_log e = true) more
     ∨ ∃ ix instance,
         l !! ix = Some instance ∧ hostname instance = ad.1
         ∧ seen_before (last_seen instance) ad.2
         ∧ ((node_type instance = hop
             ∧ ((advertisement nowtime (fx, l) ad).2
                = <[ix := set_last_seen (Some ad.2) instance]> l
                ∨ (advertisement nowtime (fx, l) ad).2
                  = <[ix := save_health_data (set_last_seen (Some ad.2) instance)]> l)
             ∧ Forall (λ e, is_log e = true ∨ e = SaveLastSeen ad.1 ∨ e = SaveHealthData ad.1)
                      more)
            ∨ (node_type instance = execution
               ∧ (advertisement nowtime (fx, l) ad).2
                 = <[ix := set_last_seen (Some ad.2) instance]> l
               ∧ Forall (λ e, is_log e = true ∨ e = SaveLastSeen ad.1
                              ∨ e = HealthCheckAsync ad.1) more))).
Proof.
  unfold inspect_advertisement.
  destruct (node_lookup l ad.1) as [ix|] eqn:Hix.
  2:{ exists [LogWarning (UnrecognizedNode ad.1)]. split; [done|]. left.
      split; [done|]. by repeat constructor. }
  destruct (node_lookup_Some _ _ _ Hix) as (instance & Hl & Hh). rewrite Hl.
  case_bool_decide as Hcp.
  { exists []. rewrite app_nil_r. split; [done|]. by left. }
  destruct (match last_seen instance with Some seen => (ad.2 <=? seen)%Z | None => false end)
    eqn:Hseen.
  { exists []. rewrite app_nil_r. split; [done|]. by left. }
  assert (Hbefore : seen_before (last_seen instance) ad.2).
  { unfold seen_before. destruct (last_seen instance); [|done]. by apply Z.leb_gt in Hseen. }
  cbn [node_type node_state capacity enabled last_health_check set_last_seen].
  case_bool_decide as Hhop.
  - case_bool_decide as Hstate.
    + exists [SaveLastSeen ad.1; LogWarning (HopRejoined ad.1); SaveHealthData ad.1].
      split; [by rewrite <- app_assoc|]. right. exists ix, instance.
      split_and!; [done..|]. left. split_and!; [done|by right|].
      each_effect.
    + exists [SaveLastSeen ad.1]. split; [done|]. right. exists ix, instance.
      split_and!; [done..|]. left. split_and!; [done|by left|].
      each_effect.
  - assert (Hexec : node_type instance = execution).
    { destruct (node_type instance); try done; exfalso; apply Hcp; auto. }
    case_bool_decide as Hstate.
    + exists [SaveLastSeen ad.1; LogWarning (ExecutionRejoin ad.1); HealthCheckAsync ad.1].
      split; [by rewrite <- app_assoc|]. right. exists ix, instance.
      split_and!; [done..|]. right. split_and!; [done|done|]. each_effect.
    + destruct (bool_decide (capacity instance = 0%Z) && enabled instance).
      * destruct (match last_health_check instance with
                  | Some checked => (EXECUTION_NODE_REMEDIATION_CHECKS <=? nowtime - checked)%Z
                  | None => true end).
        -- exists [SaveLastSeen ad.1; LogDebug (RestartingHealthCheck ad.1);
                   HealthCheckAsync ad.1].
           split; [by rewrite <- app_assoc|]. right. exists ix, instance.
           split_and!; [done..|]. right. split_and!; [done|done|]. each_effect.
        -- exists [SaveLastSeen ad.1]. split; [done|]. right. exists ix, instance.
           split_and!; [done..|]. right. split_and!; [done|done|]. each_effect.
      * exists [SaveLastSeen ad.1]. split; [done|]. right. exists ix, instance.
        split_and!; [done..|]. right. split_and!; [done|done|]. each_effect.
Qed.

Lemma set_last_seen_same (i : Instance) : set_last_seen (last_seen i) i = i.
Proof. by destruct i. Qed.

(** X11.  The inspection of the mesh changes nothing on the row of a control
    or hybrid node, and on the row of an execution node only [last_seen]:
    it stays, or becomes a time advertised for that node that is later than
    the time recorded before. *)
Theorem inspection_only_moves_last_seen (nowtime : Z) (workers : list (string * Z))
    (instance_list : list Instance) (i : nat) (inst : Instance) :
  instance_list !! i = Some inst →
  node_type inst ≠ hop →
  ∃ inst', (inspect nowtime workers instance_list).2 !! i = Some inst'
    ∧ inst' = set_last_seen (last_seen inst') inst
    ∧ (last_seen inst' = last_seen inst
       ∨ ∃ t, last_seen inst' = Some t ∧ (hostname inst, t) ∈ workers
              ∧ seen_before (last_seen inst) t)
    ∧ (node_type inst = control ∨ node_type inst = hybrid → inst' = inst).
Proof.
  intros Hl Hhop. unfold inspect_execution_and_hop_nodes.
  set (P := λ (A : list (string * Z)) (st : list effect * list Instance),
         ∃ inst', st.2 !! i = Some inst'
           ∧ inst' = set_last_seen (last_seen inst') inst
           ∧ (last_seen inst' = last_seen inst
              ∨ ∃ t, last_seen inst' = Some t ∧ (hostname inst, t) ∈ A
                     ∧ seen_before (last_seen inst) t)
           ∧ (node_type inst = control ∨ node_type inst = hybrid → inst' = inst)).
  assert (Hstep : ∀ A st ad, P A st → P (A ++ [ad]) (advertisement nowtime st ad)).
  { intros A [fx l1] ad (inst' & Hi & Hform & Hseen & Hcp). cbn [snd] in Hi. unfold P.
    assert (Hgrow : last_seen inst' = last_seen inst
                    ∨ ∃ t, last_seen inst' = Some t ∧ (hostname inst, t) ∈ A ++ [ad]
                           ∧ seen_before (last_seen inst) t).
    { destruct Hseen as [?|(t & ? & ? & ?)]; [by left|right]. exists t.
      split_and!; [done| |done]. apply elem_of_app. by left. }
    destruct (advertisement_cases nowtime fx l1 ad)
      as (more & _ & [[Heq _]|(ix & instance & Hix & Hh & Hb & Hcase)]).
    { rewrite Heq. by exists inst'. }
    destruct (decide (ix = i)) as [->|Hne].
    - rewrite Hi in Hix. injection Hix as <-.
      assert (Hty : node_type inst' = node_type inst) by (by rewrite Hform).
      assert (Hhn : hostname inst' = hostname inst) by (by rewrite Hform).
      destruct Hcase as [[Hh' _]|(Hexec & Heq & _)]; [congruence|].
      rewrite Heq, list_lookup_insert_eq by (by eapply lookup_lt_Some).
      exists (set_last_seen (Some ad.2) inst'). split_and!; [done| | |].
      + by rewrite Hform.
      + right. exists ad.2. split_and!; [done| |].
        * apply elem_of_app. right. apply list_elem_of_singleton.
          rewrite <- Hhn, Hh. by destruct ad.
        * destruct Hseen as [Hs|(t & Hs & _ & Ht)]; [by rewrite <- Hs|].
          rewrite Hs in Hb. unfold seen_before in *. destruct (last_seen inst); [|done].
          cbn in Hb. lia.
      + intros [H|H]; congruence.
    - assert (Hkeep : ∀ x, <[ix := x]> l1 !! i = Some inst')
        by (intros x; by rewrite list_lookup_insert_ne).
      exists inst'. split_and!; [|done..].
      destruct Hcase as [(_ & [-> | ->] & _)|(_ & -> & _)]; apply Hkeep. }
  assert (Hfold : ∀ ws A st, P A st → P (A ++ ws) (foldl (advertisement nowtime) st ws)).
  { induction ws as [|ad ws IH]; intros A st HP; [by rewrite app_nil_r|].
    cbn [foldl]. replace (A ++ ad :: ws) with ((A ++ [ad]) ++ ws) by by rewrite <- app_assoc.
    apply IH, Hstep, HP. }
  apply (Hfold workers [] ([InspectLinks], instance_list)).
  exists inst. split_and!; [done|by rewrite set_last_seen_same|by left|done].
Qed.

(** The inspection keeps the name and the type of every row, when
    [save_health_data] does. *)
Lemma advertisement_identity nowtime st ad :
  (∀ x, identity (save_health_data x) = identity x) →
  identity <$> (advertisement nowtime st ad).2 = identity <$> st.2.
Proof.
  intros Hid. destruct st as [fx l1].
  assert (Hins : ∀ ix instance x, l1 !! ix = Some instance → identity x = identity instance →
                                  identity <$> <[ix := x]> l1 = identity <$> l1).
  { intros ix instance x Hix Hx. rewrite list_fmap_insert, Hx.
    apply list_insert_id. by rewrite list_lookup_fmap, Hix. }
  destruct (advertisement_cases nowtime fx l1 ad)
    as (more & _ & [[-> _]|(ix & instance & Hix & _ & _ & Hcase)]); [done|].
  destruct Hcase as [(_ & [-> | ->] & _)|(_ & -> & _)]; cbn [snd];
    apply (Hins ix instance); try done. by rewrite Hid.
Qed.

Lemma inspect_identity nowtime workers instance_list :
  (∀ x, identity (save_health_data x) = identity x) →
  identity <$> (inspect nowtime workers instance_list).2 = identity <$> instance_list.
Proof.
  intros Hid. unfold inspect_execution_and_hop_nodes.
  assert (Hfold : ∀ ws st, identity <$> (foldl (advertisement nowtime) st ws).2
                           = identity <$> st.2).
  { induction ws as [|ad ws IH]; intros st; [done|]. cbn [foldl].
    by rewrite IH, advertisement_identity. }
  apply Hfold.
Qed.

(** X12.  The inspection starts a health check only for an advertised node
    that the list has as an execution node, and saves health data only for
    an advertised hop node; [last_seen] is saved for advertised nodes
    only. *)
Theorem health_checks_follow_advertisements (nowtime : Z) (workers : list (string * Z))
    (instance_list : list Instance) (h : string) :
  (∀ x, identity (save_health_data x) = identity x) →
  let fx := (inspect nowtime workers instance_list).1 in
  (HealthCheckAsync h ∈ fx →
   h ∈ workers.*1 ∧ ∃ inst, inst ∈ instance_list ∧ hostname inst = h
                            ∧ node_type inst = execution)
  ∧ (SaveHealthData h ∈ fx →
     h ∈ workers.*1 ∧ ∃ inst, inst ∈ instance_list ∧ hostname inst = h
                              ∧ node_type inst = hop)
  ∧ (SaveLastSeen h ∈ fx → h ∈ workers.*1).
Proof.
  intros Hid fx.
  set (good := λ (A : list (string * Z)) (e : effect),
         match e with
         | HealthCheckAsync h =>
             h ∈ A.*1 ∧ ∃ inst, inst ∈ instance_list ∧ hostname inst = h
                                ∧ node_type inst = execution
         | SaveHealthData h =>
             h ∈ A.*1 ∧ ∃ inst, inst ∈ instance_list ∧ hostname inst = h
                                ∧ node_type inst = hop
         | SaveLastSeen h => h ∈ A.*1
         | _ => True
         end).
  assert (Hmono : ∀ A ad e, good A e → good (A ++ [ad]) e).
  { intros A ad e. unfold good. rewrite fmap_app.
    destruct e; try done.
    - intros ?. apply elem_of_app. by left.
    - intros [? ?]. split; [|done]. apply elem_of_app. by left.
    - intros [? ?]. split; [|done]. apply elem_of_app. by left. }
  assert (Hlast : ∀ A (ad : string * Z), ad.1 ∈ (A ++ [ad]).*1).
  { intros A ad. rewrite fmap_app. apply elem_of_app. right. by apply list_elem_of_singleton. }
  assert (Hfold : ∀ ws A st,
            identity <$> st.2 = identity <$> instance_list →
            Forall (good A) st.1 →
            Forall (good (A ++ ws)) (foldl (advertisement nowtime) st ws).1).
  { induction ws as [|ad ws IH]; intros A [fx1 l1] Hl Hfx; [by rewrite app_nil_r|].
    cbn [foldl]. replace (A ++ ad :: ws) with ((A ++ [ad]) ++ ws) by by rewrite <- app_assoc.
    cbn [fst snd] in *.
    assert (Horig : ∀ ix instance, l1 !! ix = Some instance →
              ∃ inst, inst ∈ instance_list ∧ hostname inst = hostname instance
                      ∧ node_type inst = node_type instance).
    { intros ix instance Hix.
      assert (Hi : (identity <$> instance_list) !! ix = Some (identity instance))
        by (by rewrite <- Hl, list_lookup_fmap, Hix).
      rewrite list_lookup_fmap in Hi. apply fmap_Some in Hi as (inst & Hinst & [= H1 H2]).
      exists inst. split_and!; [by eapply list_elem_of_lookup_2|done|done]. }
    assert (Hlog : ∀ e, is_log e = true → good (A ++ [ad]) e) by (by intros []).
    apply IH.
    - by rewrite advertisement_identity.
    - destruct (advertisement_cases nowtime fx1 l1 ad)
        as (more & -> & [[_ Hmore]|(ix & instance & Hix & Hh & _ & Hcase)]).
      + apply Forall_app. split; [by eapply Forall_impl; [exact Hfx|]; intros; apply Hmono|].
        eapply Forall_impl; [exact Hmore|]. exact Hlog.
      + destruct (Horig ix instance Hix) as (inst & Hin & Hn & Hty).
        apply Forall_app. split; [by eapply Forall_impl; [exact Hfx|]; intros; apply Hmono|].
        destruct Hcase as [(Hhop & _ & Hmore)|(Hexec & _ & Hmore)];
          (eapply Forall_impl; [exact Hmore|]); intros e [He|[-> | ->]];
          try (by apply Hlog); cbn; try apply Hlast.
        * split; [apply Hlast|]. exists inst. split_and!; congruence.
        * split; [apply Hlast|]. exists inst. split_and!; congruence. }
  pose proof (Hfold workers [] ([InspectLinks], instance_list) eq_refl) as Hall.
  cbn [app] in Hall. fold (inspect nowtime workers instance_list) in Hall.
  assert (Hfx : Forall (good workers) fx) by (apply Hall; by repeat constructor).
  rewrite Forall_forall in Hfx.
  split_and!; intros Hin; apply (Hfx _ Hin).
Qed.

(** *** The loop over the lost instances *)

Lemma reap_lost_effects inst e :
  e ∈ reap_lost reap_raises reap_waiting_raises inst →
  is_log e = true ∨ attempt_of e = Reap (hostname inst)
  ∨ attempt_of e = ReapWaiting (hostname inst).
Proof.
  unfold reap_lost. destruct (reap_raises inst); [|destruct (reap_waiting_raises inst)];
    intros H; repeat (apply elem_of_cons in H as [->|H]; [cbn; auto|]); inversion H.
Qed.

Lemma handler_logs inst c :
  Forall (λ e, is_log e = true) (database_error_handler sqlcodes inst c).1.
Proof.
  unfold database_error_handler. destruct c as [| |sqlstate]; cbn; [by repeat constructor..|].
  destruct (psycopg_errors_lookup sqlcodes sqlstate); cbn; [constructor|].
  constructor; [done|]. destruct (py_eq _ _); by repeat constructor.
Qed.

Lemma retire_effects inst e :
  e ∈ (retire inst).1 →
  is_log e = true
  ∨ (attempt_of e = Delete (hostname inst)
     ∧ AWX_AUTO_DEPROVISION_INSTANCES = true ∧ node_type inst = control)
  ∨ (attempt_of e = MarkOffline (hostname inst) ∧ node_state inst = ready
     ∧ ¬ (AWX_AUTO_DEPROVISION_INSTANCES = true ∧ node_type inst = control)).
Proof.
  unfold retire_lost. cbv zeta.
  assert (Hattempt : ∀ write report,
            is_log report = true → attempt_of write = write →
            e ∈ (match write_fault inst with
                 | NoFault => ([write; report], Returned)
                 | DatabaseError c =>
                     let '(fx, o) := database_error_handler sqlcodes inst c in
                     (Failed write :: fx, o)
                 | OtherException => ([Failed write], Raised OtherError)
                 end).1 →
            is_log e = true ∨ attempt_of e = write).
  { intros write report Hrep Hw. destruct (write_fault inst) as [|c|].
    - intros H. apply elem_of_cons in H as [->|H]; [by right|].
      apply list_elem_of_singleton in H as ->. by left.
    - pose proof (handler_logs inst c) as Hlogs.
      destruct (database_error_handler sqlcodes inst c) as [fx o]. cbn [fst] in *.
      intros H. apply elem_of_cons in H as [->|H]; [by right|].
      left. rewrite Forall_forall in Hlogs. by apply Hlogs.
    - intros H. apply list_elem_of_singleton in H as ->. by right. }
  destruct (AWX_AUTO_DEPROVISION_INSTANCES && bool_decide (node_type inst = control)) eqn:Hauto.
  - apply andb_true_iff in Hauto as [Ha Hc]. apply bool_decide_eq_true in Hc.
    intros H. apply Hattempt in H as [?|?]; [by left|right; left|done|done]. done.
  - destruct (bool_decide (node_state inst = ready)) eqn:Hready.
    + apply bool_decide_eq_true in Hready.
      intros H. apply Hattempt in H as [?|?]; [by left|right; right|done|done].
      split_and!; [done|done|]. intros [Ha Hc]. rewrite Ha in Hauto.
      by rewrite bool_decide_eq_true_2 in Hauto.
    + inversion 1.
Qed.

Lemma lost_loop_effects lost e :
  e ∈ (lost_loop lost).1 →
  is_log e = true
  ∨ ∃ inst, inst ∈ lost ∧ allowed_on AWX_AUTO_DEPROVISION_INSTANCES inst (attempt_of e).
Proof.
  induction lost as [|inst rest IH]; cbn [process_lost]; [inversion 1|].
  pose proof (retire_effects inst) as Hret.
  destruct (retire inst) as [fx o]. cbn [fst] in Hret.
  assert (Hhead : e ∈ reap_lost reap_raises reap_waiting_raises inst ++ fx →
                  is_log e = true
                  ∨ ∃ x, x ∈ inst :: rest
                         ∧ allowed_on AWX_AUTO_DEPROVISION_INSTANCES x (attempt_of e)).
  { intros H. apply elem_of_app in H as [H|H].
    - apply reap_lost_effects in H as [?|H]; [by left|right]. exists inst.
      split; [by left|]. unfold allowed_on. tauto.
    - apply Hret in H as [?|H]; [by left|right]. exists inst.
      split; [by left|]. unfold allowed_on. tauto. }
  destruct o as [|err]; [|exact Hhead].
  destruct (lost_loop rest) as [fx' o']. cbn [fst] in *.
  rewrite app_assoc. intros H. apply elem_of_app in H as [H|H]; [by apply Hhead|].
  destruct (IH H) as [?|(x & Hx & Hallowed)]; [by left|right].
  exists x. split; [by right|done].
Qed.

Lemma local_reaper_effects worker_tasks :
  Forall (of_local_reaper worker_tasks) (local_reaper worker_tasks).1.
Proof.
  unfold local_reaper, of_local_reaper. destruct worker_tasks as [[|t ts]|]; cbn [fst].
  - repeat (constructor; [eauto|]). constructor.
  - match goal with |- context [(?n <=? 1)%nat] => destruct (n <=? 1)%nat end;
      cbn [fst]; repeat (constructor; [eauto|]); constructor.
  - constructor.
Qed.

Lemma find_newer_version_raises kept e :
  find_newer_version DEBUG awx_application_version version_newer is_runner_version kept
  = inl e → e = TypeError.
Proof.
  induction kept as [|other_inst rest IH]; cbn [find_newer_version]; [done|].
  destruct (bool_decide _); [done|]. destruct (_ || _); [done|].
  destruct (version_newer _ _) as [newer|]; [|congruence].
  by destruct (newer && negb DEBUG).
Qed.

Lemma rest_of_cycle_cases kept lost worker_tasks :
  rest_of_cycle kept lost worker_tasks = ([], Raised TypeError)
  ∨ (∃ h, rest_of_cycle kept lost worker_tasks
          = ([LogError (NewerVersion h); StopLocalServices], Raised RuntimeError))
  ∨ ∃ fx', (rest_of_cycle kept lost worker_tasks).1 = (lost_loop lost).1 ++ fx'
           ∧ Forall (of_local_reaper worker_tasks) fx'.
Proof.
  unfold after_self.
  destruct (find_newer_version _ _ _ _ kept) as [e|[other_inst|]] eqn:Hfind.
  { left. by apply find_newer_version_raises in Hfind as ->. }
  { right. left. eauto. }
  right. right. destruct (lost_loop lost) as [fx o]. destruct o.
  - pose proof (local_reaper_effects worker_tasks) as Hl.
    destruct (local_reaper worker_tasks) as [fx' o']. by exists fx'.
  - exists []. by rewrite app_nil_r.
Qed.

(** The cycle: what comes before the loops neither reaps nor retires, and
    the loops run on the instances that are lost after the inspection. *)
Lemma heartbeat_shape nowtime all workers worker_tasks :
  let this := fst <$> list_find (λ inst, hostname inst = CLUSTER_HOST_ID) (in_service all) in
  let inspected := (inspect nowtime workers (in_service all)).2 in
  ∃ pre, Forall (λ e, acts e = false ∨ e = Register) pre
    ∧ ((heartbeat nowtime all workers worker_tasks).1 = pre
       ∨ ∃ kept,
           heartbeat nowtime all workers worker_tasks
           = (pre ++ (rest_of_cycle kept (lost_among is_lost nowtime this inspected)
                        worker_tasks).1,
              (rest_of_cycle kept (lost_among is_lost nowtime this inspected)
                 worker_tasks).2)).
Proof.
  intros this inspected. unfold cluster_node_heartbeat. fold (in_service all). fold this.
  pose proof (HeartbeatFacts.inspect_quiet EXECUTION_NODE_REMEDIATION_CHECKS save_health_data
                nowtime workers (in_service all)) as Hquiet.
  subst inspected.
  destruct (inspect nowtime workers (in_service all)) as [fxi li]. cbn [fst snd] in *.
  assert (Hstart : Forall (λ e, acts e = false ∨ e = Register) (LogDebug HeartbeatTask :: fxi)).
  { constructor; [by left|]. eapply Forall_impl; [exact Hquiet|]. by left. }
  destruct this as [ix|].
  - destruct (li !! ix) as [this_inst|]; [|by exists (LogDebug HeartbeatTask :: fxi); auto].
    destruct (is_lost nowtime this_inst && _).
    + eexists. split; [|left; reflexivity]. cbn [fst].
      repeat (apply Forall_app; split); [done|..]; each_effect.
    + set (warned := match last_seen this_inst with
                     | Some seen => _ | None => _ end).
      set (kept := kept_among _ _ _ _).
      destruct (rest_of_cycle kept (lost_among is_lost nowtime (Some ix) li) worker_tasks)
        as [fx o] eqn:Hrest.
      exists (((LogDebug HeartbeatTask :: fxi)
               ++ [LocalHealthCheck (hostname (local_health_check this_inst))]) ++ warned).
      split.
      * repeat (apply Forall_app; split); [done|each_effect|].
        subst warned. destruct (last_seen this_inst); [destruct (_ <? _)%Z|]; each_effect.
      * right. exists kept. rewrite Hrest. cbn [fst snd]. by rewrite <- !app_assoc.
  - destruct register as [changed this_inst].
    set (kept := kept_among _ _ _ _).
    destruct (rest_of_cycle kept (lost_among is_lost nowtime None li) worker_tasks)
      as [fx o] eqn:Hrest.
    destruct AWX_AUTO_DEPROVISION_INSTANCES;
      [|by exists (LogDebug HeartbeatTask :: fxi); auto].
    exists ((LogDebug HeartbeatTask :: fxi) ++ [Register]
            ++ (if changed then [LogWarning (Recreated (hostname this_inst))] else [])
            ++ [LocalHealthCheck (hostname (local_health_check this_inst))]).
    split.
    + apply Forall_app. split; [done|]. constructor; [by right|].
      apply Forall_app. split; [destruct changed|]; each_effect.
    + right. exists kept. rewrite Hrest. cbn [fst snd]. f_equal.
      rewrite <- !app_assoc. done.
Qed.

Lemma allowed_target auto inst e :
  allowed_on auto inst (attempt_of e) → target e = Some (hostname inst).
Proof. unfold allowed_on, target. intros [-> |[-> |[[-> _]|[-> _]]]]; done. Qed.

Lemma elem_of_lost_among nowtime this l inst :
  inst ∈ lost_among is_lost nowtime this l ↔
  ∃ j, l !! j = Some inst ∧ Some j ≠ this ∧ is_lost nowtime inst = true.
Proof.
  unfold lost_among. rewrite list_elem_of_fmap. split.
  - intros ([j x] & -> & Hin). apply elem_of_filter_enumerate in Hin as [Hl Hf].
    apply andb_true_iff in Hf as [Hj Hlost]. apply negb_true_iff, bool_decide_eq_false in Hj.
    by exists j.
  - intros (j & Hl & Hj & Hlost). exists (j, inst). split; [done|].
    apply elem_of_filter_enumerate. split; [done|]. cbn.
    by rewrite bool_decide_eq_false_2, Hlost.
Qed.

Lemma log_retires e : is_log e = true → retires e = false.
Proof. by destruct e. Qed.

(** X13.  Every call of the heartbeat that reaps jobs, deletes a row or marks
    a row offline is of one of two kinds.  Either it is aimed at an instance
    other than the local one that is lost after the inspection of the mesh:
    its jobs are reaped, its row is deleted only when instances are
    deprovisioned automatically and it is a control node, and it is marked
    offline only when it is ready and is not deleted.  Or it is the local
    reaper's, which reaps the jobs of the local instance itself; it runs only
    when [worker_tasks] is given, and spares the tasks that the workers
    hold. *)
Theorem heartbeat_retires_only_lost (nowtime : Z) (all : list Instance)
    (workers : list (string * Z)) (worker_tasks : option (list (list string)))
    (e : effect) :
  (∀ x, identity (save_health_data x) = identity x) →
  NoDup (hostname <$> all) →
  e ∈ (heartbeat nowtime all workers worker_tasks).1 →
  retires e = true →
  (∃ inst, inst ∈ (inspect nowtime workers (in_service all)).2
           ∧ hostname inst ≠ CLUSTER_HOST_ID ∧ is_lost nowtime inst = true
           ∧ allowed_on AWX_AUTO_DEPROVISION_INSTANCES inst (attempt_of e))
  ∨ of_local_reaper worker_tasks e.
Proof.
  intros Hid Hnodup Hin Hretires.
  assert (Hpre : ∀ pre, Forall (λ e, acts e = false ∨ e = Register) pre → e ∉ pre).
  { intros pre Hpre He. rewrite Forall_forall in Hpre.
    destruct (Hpre _ He) as [Hacts| ->]; [|done].
    apply retires_acts in Hretires. congruence. }
  destruct (heartbeat_shape nowtime all workers worker_tasks)
    as (pre & Hquiet & [Heq|(kept & Heq)]).
  { rewrite Heq in Hin. by apply Hpre in Hin. }
  rewrite Heq in Hin. cbn [fst] in Hin.
  apply elem_of_app in Hin as [Hin|Hin]; [by apply Hpre in Hin|].
  set (this := fst <$> list_find (λ inst, hostname inst = CLUSTER_HOST_ID) (in_service all))
    in *.
  destruct (rest_of_cycle_cases kept
              (lost_among is_lost nowtime this (inspect nowtime workers (in_service all)).2)
              worker_tasks) as [Hraise|[[h' Hstop]|(fx' & Hfx & Hlocal)]].
  { rewrite Hraise in Hin. inversion Hin. }
  { rewrite Hstop in Hin. cbn [fst] in Hin.
    apply elem_of_cons in Hin as [->|Hin]; [done|].
    apply list_elem_of_singleton in Hin as ->. done. }
  rewrite Hfx in Hin. apply elem_of_app in Hin as [Hin|Hin].
  2:{ right. rewrite Forall_forall in Hlocal. by apply Hlocal. }
  left. apply lost_loop_effects in Hin as [Hlog|(inst & Hlost & Hallowed)].
  { apply log_retires in Hlog. congruence. }
  apply elem_of_lost_among in Hlost as (j & Hj & Hthis & Hislost).
  exists inst. split_and!; [by eapply list_elem_of_lookup_2| |done|done].
  intros Hname.
  assert (Horig : ∃ inst0, in_service all !! j = Some inst0
                           ∧ hostname inst0 = CLUSTER_HOST_ID).
  { pose proof (inspect_identity nowtime workers (in_service all) Hid) as Hids.
    assert (Hi : (identity <$> in_service all) !! j = Some (identity inst))
      by (by rewrite <- Hids, list_lookup_fmap, Hj).
    rewrite list_lookup_fmap in Hi. apply fmap_Some in Hi as (inst0 & H0 & [= H1 H2]).
    exists inst0. split; [done|congruence]. }
  destruct Horig as (inst0 & H0 & Hname0).
  destruct (list_find (λ inst, hostname inst = CLUSTER_HOST_ID) (in_service all))
    as [[ix found]|] eqn:Hfind.
  + apply list_find_Some in Hfind as (Hix & Hfound & _).
    apply Hthis. subst this. cbn. f_equal.
    apply (NoDup_lookup (hostname <$> in_service all) j ix CLUSTER_HOST_ID).
    * by apply NoDup_fmap_filter.
    * by rewrite list_lookup_fmap, H0, <- Hname0.
    * by rewrite list_lookup_fmap, Hix, <- Hfound.
  + apply list_find_None in Hfind. rewrite Forall_forall in Hfind.
    apply (Hfind inst0); [by eapply list_elem_of_lookup_2|done].
Qed.

Lemma retire_caught inst :
  caught sqlcodes (write_fault inst) →
  (retire inst).2 = Returned
  ∧ (AWX_AUTO_DEPROVISION_INSTANCES = true ∧ node_type inst = control →
     ∃ e, e ∈ (retire inst).1 ∧ attempt_of e = Delete (hostname inst))
  ∧ (¬ (AWX_AUTO_DEPROVISION_INSTANCES = true ∧ node_type inst = control) →
     node_state inst = ready →
     ∃ e, e ∈ (retire inst).1 ∧ attempt_of e = MarkOffline (hostname inst)).
Proof.
  intros Hcaught. unfold retire_lost. cbv zeta.
  assert (Hattempt : ∀ write report,
            attempt_of write = write →
            let r := match write_fault inst with
                     | NoFault => ([write; report], Returned)
                     | DatabaseError c =>
                         let '(fx, o) := database_error_handler sqlcodes inst c in
                         (Failed write :: fx, o)
                     | OtherException => ([Failed write], Raised OtherError)
                     end in
            r.2 = Returned ∧ ∃ e, e ∈ r.1 ∧ attempt_of e = write).
  { intros write report Hw. cbv zeta. destruct (write_fault inst) as [|c|]; cbn in Hcaught.
    - split; [done|]. exists write. split; [by left|done].
    - assert (Hout : (database_error_handler sqlcodes inst c).2 = Returned).
      { unfold database_error_handler. destruct c as [| |sqlstate]; [done|done|].
        unfold psycopg_errors_lookup. destruct sqlstate; try done.
        by destruct Hcaught as [class ->]. }
      destruct (database_error_handler sqlcodes inst c) as [fx o]. cbn [snd] in *.
      split; [done|]. exists (Failed write). split; [by left|done].
    - done. }
  destruct (AWX_AUTO_DEPROVISION_INSTANCES && bool_decide (node_type inst = control)) eqn:Hauto.
  - destruct (Hattempt (Delete (hostname inst)) (LogInfo (Deprovisioned (hostname inst)))
                eq_refl) as [Ho He].
    split_and!; [done|done|]. intros Hno. exfalso. apply Hno.
    apply andb_true_iff in Hauto as [? ?%bool_decide_eq_true]. done.
  - assert (Hno : ¬ (AWX_AUTO_DEPROVISION_INSTANCES = true ∧ node_type inst = control)).
    { intros [Ha Hc]. rewrite Ha in Hauto. by rewrite bool_decide_eq_true_2 in Hauto. }
    destruct (bool_decide (node_state inst = ready)) eqn:Hready.
    + destruct (Hattempt (MarkOffline (hostname inst)) (LogError (MarkedLost (hostname inst)))
                  eq_refl) as [Ho He].
      split_and!; [done|done|done].
    + apply bool_decide_eq_false in Hready. split_and!; [done|done|done].
Qed.

Lemma reap_lost_attempt inst :
  ∃ e, e ∈ reap_lost reap_raises reap_waiting_raises inst
       ∧ attempt_of e = Reap (hostname inst).
Proof.
  unfold reap_lost. destruct (reap_raises inst); [|destruct (reap_waiting_raises inst)];
    eexists; (split; [by left|done]).
Qed.

(** X14.  A failure on one lost instance does not stop the loop: when every
    fault of a write is one that the handlers catch, whatever the reaper
    raises, the loop returns, and for every lost instance the reaping was
    attempted, and so was the deletion of a control node under automatic
    deprovisioning, or else the marking offline of a node that is ready. *)
Theorem lost_loop_visits_every_instance (lost : list Instance) (inst : Instance) :
  (∀ x, x ∈ lost → caught sqlcodes (write_fault x)) →
  inst ∈ lost →
  (lost_loop lost).2 = Returned
  ∧ (∃ e, e ∈ (lost_loop lost).1 ∧ attempt_of e = Reap (hostname inst))
  ∧ (AWX_AUTO_DEPROVISION_INSTANCES = true ∧ node_type inst = control →
     ∃ e, e ∈ (lost_loop lost).1 ∧ attempt_of e = Delete (hostname inst))
  ∧ (¬ (AWX_AUTO_DEPROVISION_INSTANCES = true ∧ node_type inst = control) →
     node_state inst = ready →
     ∃ e, e ∈ (lost_loop lost).1 ∧ attempt_of e = MarkOffline (hostname inst)).
Proof.
  intros Hcaught Hin.
  assert (Hret : ∀ l, (∀ x, x ∈ l → caught sqlcodes (write_fault x)) →
                      (lost_loop l).2 = Returned).
  { clear. induction l as [|x l IH]; intros Hc; [done|]. cbn [process_lost].
    destruct (retire_caught x) as (Ho & _); [apply Hc; by left|].
    destruct (retire x) as [fx o]. cbn [snd] in Ho. subst o.
    rewrite <- IH by (intros y Hy; apply Hc; by right).
    by destruct (lost_loop l). }
  split; [by apply Hret|].
  induction lost as [|x lost IH]; [inversion Hin|].
  cbn [process_lost].
  destruct (retire_caught x) as (Ho & Hdel & Hoff); [apply Hcaught; by left|].
  destruct (retire x) as [fx o]. cbn [fst snd] in *. subst o.
  destruct (lost_loop lost) as [fx' o'] eqn:Hloop. cbn [fst] in *.
  apply elem_of_cons in Hin as [<-|Hin].
  - destruct (reap_lost_attempt inst) as (e & He & Ha). split_and!.
    + exists e. split; [|done]. apply elem_of_app. by left.
    + intros H. destruct (Hdel H) as (d & Hd & Had). exists d. split; [|done].
      apply elem_of_app. right. apply elem_of_app. by left.
    + intros H1 H2. destruct (Hoff H1 H2) as (d & Hd & Had). exists d. split; [|done].
      apply elem_of_app. right. apply elem_of_app. by left.
  - destruct IH as (Hr & Hd & Hm); [intros y Hy; apply Hcaught; by right|done|].
    assert (Hlater : ∀ y, y ∈ fx' → y ∈ reap_lost reap_raises reap_waiting_raises x
                                          ++ fx ++ fx').
    { intros y Hy. apply elem_of_app. right. apply elem_of_app. by right. }
    split_and!.
    + destruct Hr as (e & ? & ?). exists e. auto.
    + intros H. destruct (Hd H) as (e & ? & ?). exists e. auto.
    + intros H1 H2. destruct (Hm H1 H2) as (e & ? & ?). exists e. auto.
Qed.

(** X15.  A newer version on another control-plane node stops the cycle
    before anything is reaped: when the heartbeat stops the local services
    it raises [RuntimeError], and no job was reaped and no row was deleted
    or marked offline in the cycle. *)
Theorem newer_version_stops_before_reaping (nowtime : Z) (all : list Instance)
    (workers : list (string * Z)) (worker_tasks : option (list (list string))) :
  StopLocalServices ∈ (heartbeat nowtime all workers worker_tasks).1 →
  (heartbeat nowtime all workers worker_tasks).2 = Raised RuntimeError
  ∧ Forall (λ e, retires e = false) (heartbeat nowtime all workers worker_tasks).1.
Proof.
  intros Hin.
  assert (Hpre : ∀ pre, Forall (λ e, acts e = false ∨ e = Register) pre →
                        (StopLocalServices ∉ pre) ∧ Forall (λ e, retires e = false) pre).
  { intros pre Hpre. split.
    - intros He. rewrite Forall_forall in Hpre. by destruct (Hpre _ He).
    - eapply Forall_impl; [exact Hpre|]. intros e [Hacts| ->]; [|done].
      destruct (retires e) eqn:Hr; [|done]. apply retires_acts in Hr. congruence. }
  destruct (heartbeat_shape nowtime all workers worker_tasks)
    as (pre & Hquiet & [Heq|(kept & Heq)]).
  { rewrite Heq in Hin. by apply Hpre in Hin. }
  destruct (Hpre pre Hquiet) as [Hnot Hok].
  rewrite Heq in *. cbn [fst snd] in *.
  apply elem_of_app in Hin as [Hin|Hin]; [done|].
  set (lost := lost_among is_lost nowtime _ _) in *.
  destruct (rest_of_cycle_cases kept lost worker_tasks)
    as [Hraise|[[h' Hstop]|(fx' & Hfx & Hlocal)]].
  { rewrite Hraise in Hin. inversion Hin. }
  { rewrite Hstop. cbn [fst snd]. split; [done|]. apply Forall_app. split; [done|].
    by repeat constructor. }
  exfalso. rewrite Hfx in Hin. apply elem_of_app in Hin as [Hin|Hin].
  - apply lost_loop_effects in Hin as [Hlog|(inst & _ & Hallowed)]; [done|].
    apply allowed_target in Hallowed. done.
  - rewrite Forall_forall in Hlocal. destruct (Hlocal _ Hin) as (x & _ & [?|?]); done.
Qed.

End Task.

Lemma inspection_only_moves_last_seen_witness :
  ∃ inst', (inspect_execution_and_hop_nodes 600 (λ i, i) 1000 exec_1_seen_at_990
              [awx_1_alive; exec_1]).2 !! 1%nat = Some inst'
           ∧ inst' = set_last_seen (last_seen inst') exec_1.
Proof.
  destruct (inspection_only_moves_last_seen 600 (λ i, i) 1000 exec_1_seen_at_990
              [awx_1_alive; exec_1] 1 exec_1) as (inst' & H1 & H2 & _).
  - reflexivity.
  - discriminate.
  - by exists inst'.
Defined.

Lemma health_checks_follow_advertisements_witness :
  "exec-1" ∈ exec_1_seen_at_990.*1
  ∧ ∃ inst, inst ∈ [awx_1_alive; exec_1_down] ∧ hostname inst = "exec-1"
            ∧ node_type inst = execution.
Proof.
  refine (proj1 (health_checks_follow_advertisements 600 (λ i, i) 1000 exec_1_seen_at_990
                   [awx_1_alive; exec_1_down] "exec-1" _) _).
  - intros x. reflexivity.
  - apply (list_elem_of_lookup_2 _ 3). vm_compute. reflexivity.
Defined.

Lemma heartbeat_retires_only_lost_witness :
  (∃ inst, inst ∈ (inspect_execution_and_hop_nodes 600 (λ i, i) 1000 []
                     (in_service [awx_1_alive; exec_1])).2
           ∧ hostname inst ≠ "awx-1" ∧ is_lost_after 120 1000 inst = true
           ∧ allowed_on false inst (attempt_of (MarkOffline "exec-1")))
  ∨ of_local_reaper None (MarkOffline "exec-1").
Proof.
  apply (heartbeat_retires_only_lost "awx-1" false 60 600 false "24.6.1"
           (is_lost_after 120) (health_check_at 1000) (λ i, i) (false, awx_1 true)
           (λ v _, Some (bool_decide (v = "25.0.0"))) (λ v, String.prefix "ansible-runner" v)
           known_codes (λ _, false) (λ _, false) (λ _, NoFault)
           1000 [awx_1_alive; exec_1] [] None (MarkOffline "exec-1")).
  - intros x. reflexivity.
  - cbn. apply NoDup_cons. split; [|apply NoDup_singleton].
    intros H. apply list_elem_of_singleton in H. discriminate H.
  - apply (list_elem_of_lookup_2 _ 5). vm_compute. reflexivity.
  - reflexivity.
Defined.

Lemma lost_loop_visits_every_instance_witness :
  (process_lost false known_codes (λ _, true) (λ _, false)
     (λ _, DatabaseError (WithSqlstate (PStr "40001"))) [exec_1]).2 = Returned.
Proof.
  refine (proj1 (lost_loop_visits_every_instance false known_codes (λ _, true) (λ _, false)
                   (λ _, DatabaseError (WithSqlstate (PStr "40001"))) [exec_1] exec_1 _ _)).
  - intros x _. cbn. exists (PClass "psycopg.errors.SerializationFailure"). reflexivity.
  - apply (list_elem_of_lookup_2 _ 0). reflexivity.
Defined.

Lemma newer_version_stops_before_reaping_witness :
  (cycle_of [awx_1_alive; awx_2_upgraded]).2 = Raised RuntimeError.
Proof.
  unfold cycle_of.
  refine (proj1 (newer_version_stops_before_reaping "awx-1" false 60 600 false "24.6.1"
                   (is_lost_after 120) (health_check_at 1000) (λ i, i) (false, awx_1 true)
                   (λ v _, Some (bool_decide (v = "25.0.0"))) (λ v, String.prefix "ansible-runner" v)
                   known_codes (λ _, false) (λ _, false) (λ _, NoFault)
                   1000 [awx_1_alive; awx_2_upgraded] [] None _)).
  apply (list_elem_of_lookup_2 _ 4). vm_compute. reflexivity.
Defined.

End HeartbeatInvariants.

(** ** The membership policies *)

Module MembershipInvariants.
Import Membership MembershipSpec MembershipMoreSpec.

Section Policies.
Variable cp : string.

(** *** The passes, with what the loops test before they add *)

Section Guarded.
Variable Φ : store → Prop.
Hypothesis Φ_add : ∀ st gi gp x,
  (rows st).1 !! gi = Some gp → names st x →
  Instance.node_type (Node.obj x.2) ≠ exclude_type cp gp.1 →
  Instance.id (Node.obj x.2) ∉ group_instances gi st.1 →
  Φ st → Φ (add_to_group gi gp.1 st x).

Lemma guarded_minimum_loop gi gp order st :
  (rows st).1 !! gi = Some gp → Forall (names st) order → Φ st →
  Φ (policy_minimum_loop cp gi gp.1 order st)
  ∧ rows (policy_minimum_loop cp gi gp.1 order st) = rows st.
Proof.
  revert st. induction order as [|[ni i] order IH]; intros st Hg Hn HΦ; [done|].
  apply Forall_cons in Hn as [Hx Hn]. simpl.
  case_bool_decide as Hty; [by apply IH|].
  destruct (_ <=? _)%Z; [done|].
  case_bool_decide as Hmem; [by apply IH|].
  pose proof (MembershipFacts.rows_add_to_group gi gp.1 st (ni, i)) as Hr.
  unfold add_to_group in Hr. simpl in Hr.
  destruct (IH (append_instance gi (Instance.id (Node.obj i)) st.1,
                append_group ni (InstanceGroup.id gp.1) st.2)) as [H1 H2].
  - by rewrite Hr.
  - eapply Forall_impl; [exact Hn|]. intros y Hy. unfold names. by rewrite Hr.
  - by apply (Φ_add st gi gp (ni, i)).
  - split; [done|]. by rewrite H2.
Qed.

Lemma guarded_percentage_loop gi gp pool order st :
  (rows st).1 !! gi = Some gp → Forall (names st) order → Φ st →
  Φ (policy_percentage_loop cp gi gp.1 pool order st)
  ∧ rows (policy_percentage_loop cp gi gp.1 pool order st) = rows st.
Proof.
  revert st. induction order as [|[ni i] order IH]; intros st Hg Hn HΦ; [done|].
  apply Forall_cons in Hn as [Hx Hn]. simpl.
  case_bool_decide as Hty; [by apply IH|].
  case_bool_decide as Hmem; [by apply IH|].
  destruct (_ <=? _)%Z; [done|].
  pose proof (MembershipFacts.rows_add_to_group gi gp.1 st (ni, i)) as Hr.
  unfold add_to_group in Hr. simpl in Hr.
  destruct (IH (append_instance gi (Instance.id (Node.obj i)) st.1,
                append_group ni (InstanceGroup.id gp.1) st.2)) as [H1 H2].
  - by rewrite Hr.
  - eapply Forall_impl; [exact Hn|]. intros y Hy. unfold names. by rewrite Hr.
  - by apply (Φ_add st gi gp (ni, i)).
  - split; [done|]. by rewrite H2.
Qed.

Lemma guarded_minimum_group st x :
  names_group st x → Φ st →
  Φ (policy_minimum_group cp st x) ∧ rows (policy_minimum_group cp st x) = rows st.
Proof.
  intros Hx HΦ. unfold policy_minimum_group.
  apply (guarded_minimum_loop x.1 (Group.obj x.2, Group.prior_instances x.2));
    [done|apply MembershipFacts.names_snapshot|done].
Qed.

Lemma guarded_percentage_group st x :
  names_group st x → Φ st →
  Φ (policy_percentage_group cp st x) ∧ rows (policy_percentage_group cp st x) = rows st.
Proof.
  intros Hx HΦ. unfold policy_percentage_group.
  destruct (_ =? _)%nat; [done|].
  apply (guarded_percentage_loop x.1 (Group.obj x.2, Group.prior_instances x.2));
    [done|apply MembershipFacts.names_snapshot|done].
Qed.

Lemma guarded_groups (step : store → nat * Group.t → store) order st :
  (∀ st x, names_group st x → Φ st → Φ (step st x) ∧ rows (step st x) = rows st) →
  Forall (names_group st) order → Φ st →
  Φ (foldl step st order) ∧ rows (foldl step st order) = rows st.
Proof.
  intros Hstep. revert st. induction order as [|x order IH]; intros st Hn HΦ; [done|].
  apply Forall_cons in Hn as [Hx Hn]. simpl.
  destruct (Hstep st x Hx HΦ) as [H1 H2].
  destruct (IH (step st x)) as [H3 H4]; [|done|].
  - eapply Forall_impl; [exact Hn|]. intros y Hy. unfold names_group. by rewrite H2.
  - split; [done|]. by rewrite H4.
Qed.

Lemma guarded_minimum st :
  Φ st → Φ (policy_minimum cp st) ∧ rows (policy_minimum cp st) = rows st.
Proof.
  intros HΦ. unfold policy_minimum.
  apply guarded_groups;
    [apply guarded_minimum_group|apply MembershipFacts.names_group_snapshot|done].
Qed.

Lemma guarded_percentage st :
  Φ st → Φ (policy_percentage cp st) ∧ rows (policy_percentage cp st) = rows st.
Proof.
  intros HΦ. unfold policy_percentage.
  apply guarded_groups;
    [apply guarded_percentage_group|apply MembershipFacts.names_group_snapshot|done].
Qed.

Lemma guarded_computed db :
  Φ (initial_store db) → Φ (computed cp db).
Proof.
  intros HΦ. unfold computed.
  destruct (guarded_minimum _ HΦ) as [H1 H2].
  by destruct (guarded_percentage _ H1) as [H3 H4].
Qed.

End Guarded.

(** *** What the task writes *)

Lemma written_unchanged g :
  Group.prior_instances g = elements (InstanceGroup.instances (Group.obj g)) →
  differs g = false → written g = Group.obj g.
Proof.
  intros Hp Hd. unfold written. destruct (InstanceGroup.is_container_group _); [done|].
  unfold differs in Hd. apply negb_false_iff, bool_decide_eq_true in Hd.
  rewrite Hd, Hp, list_to_set_elements_L. apply MembershipFacts.set_instances_id.
Qed.

Lemma written_applied g :
  Group.prior_instances g = elements (InstanceGroup.instances (Group.obj g)) →
  apply_group g = written g.
Proof.
  intros Hp. unfold written.
  destruct (InstanceGroup.is_container_group (Group.obj g)) eqn:Hc.
  { unfold apply_group. by rewrite Hc. }
  rewrite <- (MembershipFacts.apply_group_members g Hc Hp).
  unfold apply_group. by rewrite Hc.
Qed.

Lemma computed_objects db : Group.obj <$> (computed cp db).1 = InstanceGroup_objects db.
Proof.
  transitivity (fst <$> ((λ g, (Group.obj g, Group.prior_instances g)) <$> (computed cp db).1)).
  { by rewrite <- list_fmap_compose. }
  rewrite (MembershipFacts.computed_groups cp db), <- list_fmap_compose.
  apply list_fmap_id.
Qed.

Lemma final_groups db :
  InstanceGroup_objects (database (cluster_membership_policies cp db))
  = written <$> (computed cp db).1.
Proof.
  unfold cluster_membership_policies.
  destruct (needs_change (computed cp db).1) eqn:Hch; cbn.
  - apply list_fmap_ext. intros ? g Hg. apply written_applied.
    apply (MembershipFacts.computed_group_elem cp db). by eapply list_elem_of_lookup_2.
  - rewrite <- (computed_objects db). symmetry. apply list_fmap_ext. intros ? g Hg.
    apply list_elem_of_lookup_2 in Hg.
    apply written_unchanged; [by apply (MembershipFacts.computed_group_elem cp db)|].
    destruct (differs g) eqn:E; [|done].
    assert (existsb differs (computed cp db).1 = true); [|unfold needs_change in Hch; congruence].
    apply existsb_exists. exists g. split; [by apply list_elem_of_In|done].
Qed.

(** A row that the task leaves and that is not a container group has the
    columns of the row it was, and as members the computed ones. *)
Lemma final_member db ig' :
  ig' ∈ InstanceGroup_objects (database (cluster_membership_policies cp db)) →
  InstanceGroup.is_container_group ig' = false →
  ∃ g, g ∈ (computed cp db).1 ∧ clear ig' = clear (Group.obj g)
       ∧ InstanceGroup.instances ig' = list_to_set (Group.instances g).
Proof.
  rewrite final_groups. intros Hin Hc.
  apply list_elem_of_fmap in Hin as (g & -> & Hg). exists g. split; [done|].
  unfold written in *. destruct (InstanceGroup.is_container_group (Group.obj g)) eqn:E;
    [congruence|]. done.
Qed.

(** X16.  The task leaves the rows of the instances as they are; a container
    group keeps its row, and any other group keeps its columns and gets as
    members exactly the computed ones; the tuples stand in the order of the
    rows; and a run that detects no change leaves the database as it is. *)
Theorem task_writes_computed_members (db : Database) :
  let after := cluster_membership_policies cp db in
  Instance_objects (database after) = Instance_objects db
  ∧ InstanceGroup_objects (database after) = written <$> (computed cp db).1
  ∧ Group.obj <$> (computed cp db).1 = InstanceGroup_objects db
  ∧ Forall2 (λ ig ig', clear ig' = clear ig
                       ∧ (InstanceGroup.is_container_group ig = true → ig' = ig))
            (InstanceGroup_objects db) (InstanceGroup_objects (database after))
  ∧ (detected_change after = false → database after = db ∧ changes after = []).
Proof.
  cbn zeta. split_and!.
  - unfold cluster_membership_policies. by destruct (needs_change _).
  - apply final_groups.
  - apply computed_objects.
  - rewrite final_groups, <- computed_objects. apply Forall2_fmap, Forall_Forall2_diag.
    apply Forall_forall. intros g _. unfold written.
    destruct (InstanceGroup.is_container_group (Group.obj g)); by split.
  - unfold cluster_membership_policies. by destruct (needs_change _).
Qed.

(** *** Members only grow *)

Lemma grown_refl st : grown st st.
Proof. split; [done|]. intros gj. exists []. by rewrite app_nil_r. Qed.

Lemma grown_trans a b c : grown a b → grown b c → grown a c.
Proof.
  intros [Hr1 H1] [Hr2 H2]. split; [by rewrite Hr2|].
  intros gj. destruct (H1 gj) as [m1 E1]. destruct (H2 gj) as [m2 E2].
  exists (m1 ++ m2). by rewrite E2, E1, app_assoc.
Qed.

Lemma group_instances_add gj gi g st x :
  ∃ more, group_instances gj (add_to_group gi g st x).1 = group_instances gj st.1 ++ more.
Proof.
  unfold add_to_group, group_instances, append_instance. cbn [fst].
  destruct (decide (gi = gj)) as [->|Hne].
  - rewrite list_lookup_alter_eq. destruct (st.1 !! gj); cbn; [eauto|by exists []].
  - rewrite list_lookup_alter_ne by done. exists []. by rewrite app_nil_r.
Qed.

Lemma grown_add st0 st gi g x : grown st0 st → grown st0 (add_to_group gi g st x).
Proof.
  intros H. apply (grown_trans _ st); [done|].
  split; [apply MembershipFacts.rows_add_to_group|]. intros gj. apply group_instances_add.
Qed.

Lemma grown_minimum_group st x :
  names_group st x → grown st (policy_minimum_group cp st x).
Proof.
  intros Hx. apply (MembershipFacts.policy_minimum_group_ind cp (grown st)); [|done|].
  - intros. by apply grown_add.
  - apply grown_refl.
Qed.

Lemma grown_percentage_group st x :
  names_group st x → grown st (policy_percentage_group cp st x).
Proof.
  intros Hx. apply (MembershipFacts.policy_percentage_group_ind cp (grown st)); [|done|].
  - intros. by apply grown_add.
  - apply grown_refl.
Qed.

Lemma grown_computed db : grown (initial_store db) (computed cp db).
Proof.
  apply (MembershipFacts.computed_ind cp (grown (initial_store db))).
  - intros. by apply grown_add.
  - apply grown_refl.
Qed.

Lemma group_instances_lookup gi gs g : gs !! gi = Some g → group_instances gi gs = Group.instances g.
Proof. unfold group_instances. by intros ->. Qed.

(** The tuple of the start at the place of a computed tuple. *)
Lemma computed_initial db gi g :
  (computed cp db).1 !! gi = Some g →
  (initial_store db).1 !! gi
  = Some (Group.mk (Group.obj g) (pinned db (Group.obj g)) (Group.prior_instances g)).
Proof.
  intros Hg. pose proof (MembershipFacts.computed_rows cp db) as Hr.
  apply (f_equal fst) in Hr. unfold rows in Hr. cbn [fst] in Hr.
  apply (f_equal (λ l, l !! gi)) in Hr. cbn beta in Hr.
  rewrite !list_lookup_fmap, Hg in Hr.
  unfold initial_store in *. cbn [fst] in *. rewrite list_lookup_fmap in Hr |- *.
  destruct (all_groups db !! gi) as [ig|]; [|done]. cbn in Hr |- *.
  injection Hr as Ho Hp. unfold group_actual, pinned. by rewrite Ho, Hp.
Qed.

Lemma computed_pinned db g :
  g ∈ (computed cp db).1 → ∃ more, Group.instances g = pinned db (Group.obj g) ++ more.
Proof.
  intros Hg. apply list_elem_of_lookup in Hg as [gi Hg].
  destruct (grown_computed db) as [_ Hgrown]. destruct (Hgrown gi) as [more Hm].
  exists more. rewrite (group_instances_lookup _ _ _ Hg) in Hm.
  by rewrite (group_instances_lookup _ _ _ (computed_initial db gi g Hg)) in Hm.
Qed.

Lemma NoDup_all_instances {B} (f : Instance.t → B) db :
  NoDup (f <$> Instance_objects db) → NoDup (f <$> all_instances db).
Proof.
  intros Hnd. unfold all_instances. rewrite sorted_perm.
  by apply HeartbeatInvariants.NoDup_fmap_filter.
Qed.

Lemma hostnames_map_lookup insts inst :
  NoDup (Instance.hostname <$> insts) → inst ∈ insts →
  instance_hostnames_map insts !! Instance.hostname inst = Some inst.
Proof.
  unfold instance_hostnames_map.
  assert (Hkeep : ∀ l (m0 : gmap string Instance.t) h,
            h ∉ Instance.hostname <$> l →
            foldl (λ m i, <[Instance.hostname i := i]> m) m0 l !! h = m0 !! h).
  { induction l as [|x l IH]; intros m0 h Hh; [done|]. cbn [foldl].
    rewrite fmap_cons in Hh. apply not_elem_of_cons in Hh as [Hx Hl].
    rewrite IH by done. by apply lookup_insert_ne. }
  generalize (∅ : gmap string Instance.t).
  induction insts as [|x l IH]; intros m0 Hnd Hin; [inversion Hin|].
  rewrite fmap_cons in Hnd. apply NoDup_cons in Hnd as [Hx Hnd]. cbn [foldl].
  apply elem_of_cons in Hin as [->|Hin]; [|by apply IH].
  rewrite Hkeep by done. apply lookup_insert_eq.
Qed.

Lemma policy_list_named m hostnames acc h i :
  m !! h = Some i → h ∈ hostnames → Instance.id i ∈ policy_list m hostnames acc.
Proof.
  intros Hm.
  assert (Hacc : ∀ hs acc x, x ∈ acc → x ∈ policy_list m hs acc).
  { induction hs as [|h' hs IH]; intros a x Hx; [done|]. cbn.
    destruct (m !! h'); apply IH; [|done]. apply elem_of_app. by left. }
  revert acc. induction hostnames as [|h' hs IH]; intros acc Hin; [inversion Hin|].
  cbn. apply elem_of_cons in Hin as [<-|Hin].
  - rewrite Hm. apply Hacc. apply elem_of_app. right. by apply list_elem_of_singleton.
  - destruct (m !! h'); by apply IH.
Qed.

(** X17.  An instance that a group names in its policy list is a member
    after the task: where hostnames are unique, for every group that is not
    a container group and every hostname of its [policy_instance_list] that
    is the name of an instance that is not a hop node, the instance is among
    the members the task leaves, whether it is managed by policy or not. *)
Theorem policy_list_instances_are_members (db : Database) (ig' : InstanceGroup.t)
    (inst : Instance.t) :
  NoDup (Instance.hostname <$> Instance_objects db) →
  ig' ∈ InstanceGroup_objects (database (cluster_membership_policies cp db)) →
  InstanceGroup.is_container_group ig' = false →
  inst ∈ Instance_objects db →
  Instance.node_type inst ≠ hop →
  Instance.hostname inst ∈ InstanceGroup.policy_instance_list ig' →
  Instance.id inst ∈ InstanceGroup.instances ig'.
Proof.
  intros Hnd Hig Hc Hin Hty Hh.
  destruct (final_member db ig' Hig Hc) as (g & Hg & Hclear & ->).
  destruct (computed_pinned db g Hg) as [more ->].
  apply elem_of_list_to_set, elem_of_app. left. unfold pinned.
  assert (Hlist : InstanceGroup.policy_instance_list (Group.obj g)
                  = InstanceGroup.policy_instance_list ig')
    by (by apply (f_equal InstanceGroup.policy_instance_list) in Hclear).
  rewrite Hlist. apply (policy_list_named _ _ _ (Instance.hostname inst)); [|done].
  apply hostnames_map_lookup; [by apply NoDup_all_instances|].
  by apply MembershipFacts.elem_of_all_instances.
Qed.

Lemma elem_of_candidates db ig i :
  i ∈ candidates cp db ig ↔
  i ∈ Instance_objects db ∧ Instance.node_type i ≠ hop
  ∧ Instance.managed_by_policy i = true ∧ Instance.node_type i ≠ exclude_type cp ig.
Proof.
  unfold candidates. rewrite list_elem_of_In, !filter_In, <- list_elem_of_In.
  rewrite MembershipFacts.elem_of_all_instances, negb_true_iff, bool_decide_eq_false.
  tauto.
Qed.

Lemma computed_additions db g x :
  g ∈ (computed cp db).1 → x ∈ Group.instances g →
  x ∈ pinned db (Group.obj g) ∨ ∃ i, i ∈ candidates cp db (Group.obj g) ∧ Instance.id i = x.
Proof.
  set (Φ := λ st : store,
         rows st = rows (initial_store db)
         ∧ ∀ gi g, st.1 !! gi = Some g → ∀ x, x ∈ Group.instances g →
             x ∈ pinned db (Group.obj g)
             ∨ ∃ i, i ∈ candidates cp db (Group.obj g) ∧ Instance.id i = x).
  assert (HΦ : Φ (computed cp db)).
  { apply (guarded_computed Φ).
    - intros st gi gp [ni n] Hgp Hn Hty _ [Hrows Hall]. cbn [snd fst] in *.
      split; [by rewrite MembershipFacts.rows_add_to_group|].
      intros gj g' Hg' y Hy. unfold add_to_group, append_instance in Hg'. cbn [fst] in Hg'.
      destruct (decide (gi = gj)) as [->|Hne].
      2:{ rewrite list_lookup_alter_ne in Hg' by done. by apply (Hall gj). }
      rewrite list_lookup_alter_eq in Hg'. apply fmap_Some in Hg' as (g0 & Hg0 & ->).
      cbn [Group.instances Group.obj] in *.
      apply elem_of_app in Hy as [Hy|Hy]; [by apply (Hall gj)|].
      apply list_elem_of_singleton in Hy as ->. right. exists (Node.obj n).
      split; [|done].
      assert (Hobj : gp.1 = Group.obj g0).
      { unfold rows in Hgp. cbn [fst] in Hgp. rewrite list_lookup_fmap, Hg0 in Hgp.
        by injection Hgp as <-. }
      unfold names in Hn. rewrite Hrows in Hn. cbn [fst] in Hn.
      apply list_elem_of_lookup_2 in Hn. unfold rows in Hn. cbn [snd] in Hn.
      rewrite MembershipFacts.initial_nodes in Hn.
      unfold candidates. apply list_elem_of_In, filter_In. split; [by apply list_elem_of_In|].
      apply negb_true_iff, bool_decide_eq_false. by rewrite <- Hobj.
    - split; [done|]. intros gi g0 Hg0 y Hy. left.
      unfold initial_store in Hg0. cbn [fst] in Hg0. rewrite list_lookup_fmap in Hg0.
      apply fmap_Some in Hg0 as (ig & _ & ->). exact Hy. }
  intros Hg Hx. apply list_elem_of_lookup in Hg as [gi Hg].
  by apply (proj2 HΦ gi g Hg).
Qed.

(** X18.  What the two passes add on their own: a member that the task
    leaves in a group that is not a container group is named by the policy
    list of the group, or is an instance managed by policy that is not a hop
    node and not of the type the group excludes (execution nodes for the
    control plane group, control nodes for any other). *)
Theorem members_are_listed_or_eligible (db : Database) (ig' : InstanceGroup.t) (x : Z) :
  ig' ∈ InstanceGroup_objects (database (cluster_membership_policies cp db)) →
  InstanceGroup.is_container_group ig' = false →
  x ∈ InstanceGroup.instances ig' →
  x ∈ pinned db ig'
  ∨ ∃ i, i ∈ Instance_objects db ∧ Instance.id i = x
         ∧ Instance.managed_by_policy i = true
         ∧ Instance.node_type i ≠ hop
         ∧ Instance.node_type i ≠ exclude_type cp ig'.
Proof.
  intros Hig Hc Hx.
  destruct (final_member db ig' Hig Hc) as (g & Hg & Hclear & Hmem).
  rewrite Hmem in Hx. apply elem_of_list_to_set in Hx.
  assert (Hlist : InstanceGroup.policy_instance_list (Group.obj g)
                  = InstanceGroup.policy_instance_list ig')
    by (by apply (f_equal InstanceGroup.policy_instance_list) in Hclear).
  assert (Hname : InstanceGroup.name (Group.obj g) = InstanceGroup.name ig')
    by (by apply (f_equal InstanceGroup.name) in Hclear).
  destruct (computed_additions db g x Hg Hx) as [Hp|(i & Hi & Hid)].
  - left. unfold pinned in *. by rewrite <- Hlist.
  - right. exists i. apply elem_of_candidates in Hi as (H1 & H2 & H3 & H4).
    split_and!; try done. unfold exclude_type in *. by rewrite <- Hname.
Qed.

(** *** The minimum and the percentage *)

Lemma grown_members st st' gj x :
  grown st st' → x ∈ group_instances gj st.1 → x ∈ group_instances gj st'.1.
Proof.
  intros [_ H] Hx. destruct (H gj) as [more ->]. apply elem_of_app. by left.
Qed.

Lemma grown_length st st' gj :
  grown st st' → length (group_instances gj st.1) ≤ length (group_instances gj st'.1).
Proof. intros [_ H]. destruct (H gj) as [more ->]. rewrite length_app. lia. Qed.

Lemma saturated_grown gi g st st' : grown st st' → saturated cp gi g st → saturated cp gi g st'.
Proof.
  intros Hgrown Hsat i Hi Hty. apply (grown_members st); [done|].
  apply Hsat; [|done]. destruct Hgrown as [Hr _]. by rewrite <- Hr.
Qed.

Lemma minimum_met_grown gi g st st' :
  grown st st' → minimum_met cp gi g st → minimum_met cp gi g st'.
Proof.
  intros Hgrown [Hmin|Hsat]; [left|right; by eapply saturated_grown].
  pose proof (grown_length st st' gi Hgrown). lia.
Qed.

Lemma percentage_met_grown gi g st st' :
  grown st st' → percentage_met cp gi g st → percentage_met cp gi g st'.
Proof.
  intros Hgrown [Hpct|Hsat]; [left|right; by eapply saturated_grown].
  pose proof (grown_length st st' gi Hgrown). destruct Hgrown as [-> _]. lia.
Qed.

Lemma grown_minimum_loop gi gp order st :
  (rows st).1 !! gi = Some gp → Forall (names st) order →
  grown st (policy_minimum_loop cp gi gp.1 order st).
Proof.
  intros Hg Hn. apply (MembershipFacts.policy_minimum_loop_ind cp (grown st)); try done.
  - intros. by apply grown_add.
  - apply grown_refl.
Qed.

Lemma grown_percentage_loop gi gp pool order st :
  (rows st).1 !! gi = Some gp → Forall (names st) order →
  grown st (policy_percentage_loop cp gi gp.1 pool order st).
Proof.
  intros Hg Hn. apply (MembershipFacts.policy_percentage_loop_ind cp (grown st)); try done.
  - intros. by apply grown_add.
  - apply grown_refl.
Qed.

(** The store after one addition, as the loops build it. *)
Lemma added_store gi gp st ni (i : Node.t) :
  (rows st).1 !! gi = Some gp → 
  let st1 := (append_instance gi (Instance.id (Node.obj i)) st.1,
              append_group ni (InstanceGroup.id gp.1) st.2) in
  rows st1 = rows st
  ∧ Instance.id (Node.obj i) ∈ group_instances gi st1.1.
Proof.
  intros Hg. cbn zeta. split; [apply (MembershipFacts.rows_add_to_group gi gp.1 st (ni, i))|].
  cbn [fst]. rewrite MembershipFacts.group_instances_append.
  - apply elem_of_app. right. by apply list_elem_of_singleton.
  - unfold rows in Hg. cbn [fst] in Hg. apply lookup_lt_Some in Hg.
    by rewrite length_fmap in Hg.
Qed.

Lemma minimum_loop_met gi gp order st :
  (rows st).1 !! gi = Some gp → Forall (names st) order →
  let st' := policy_minimum_loop cp gi gp.1 order st in
  (InstanceGroup.policy_instance_minimum gp.1
   <= Z.of_nat (length (group_instances gi st'.1)))%Z
  ∨ ∀ x, x ∈ order → Instance.node_type (Node.obj x.2) ≠ exclude_type cp gp.1 →
         Instance.id (Node.obj x.2) ∈ group_instances gi st'.1.
Proof.
  revert st. induction order as [|[ni i] order IH]; intros st Hg Hn.
  { right. intros x Hx. inversion Hx. }
  apply Forall_cons in Hn as [Hx Hn]. cbn zeta. cbn [policy_minimum_loop].
  case_bool_decide as Hty.
  { destruct (IH st Hg Hn) as [?|Hall]; [by left|right].
    intros x Hin. apply elem_of_cons in Hin as [->|Hin]; [done|by apply Hall]. }
  destruct (_ <=? _)%Z eqn:Hlen; [left; by apply Z.leb_le|].
  case_bool_decide as Hmem.
  { destruct (IH st Hg Hn) as [?|Hall]; [by left|right].
    intros x Hin. apply elem_of_cons in Hin as [->|Hin]; [|by apply Hall].
    intros _. by apply (grown_members st); [apply grown_minimum_loop|]. }
  destruct (added_store gi gp st ni i Hg) as [Hr Hadded].
  set (st1 := (append_instance gi (Instance.id (Node.obj i)) st.1,
               append_group ni (InstanceGroup.id gp.1) st.2)) in *.
  assert (Hg1 : (rows st1).1 !! gi = Some gp) by (by rewrite Hr).
  assert (Hn1 : Forall (names st1) order).
  { eapply Forall_impl; [exact Hn|]. intros y Hy. unfold names. by rewrite Hr. }
  destruct (IH st1 Hg1 Hn1) as [?|Hall]; [by left|right].
  intros x Hin. apply elem_of_cons in Hin as [->|Hin]; [|by apply Hall].
  intros _. by apply (grown_members st1); [apply grown_minimum_loop|].
Qed.

Lemma percentage_loop_met gi gp pool order st :
  (rows st).1 !! gi = Some gp → Forall (names st) order →
  let st' := policy_percentage_loop cp gi gp.1 pool order st in
  (InstanceGroup.policy_instance_percentage gp.1 * Z.of_nat pool
   <= 100 * Z.of_nat (length (group_instances gi st'.1)))%Z
  ∨ ∀ x, x ∈ order → Instance.node_type (Node.obj x.2) ≠ exclude_type cp gp.1 →
         Instance.id (Node.obj x.2) ∈ group_instances gi st'.1.
Proof.
  revert st. induction order as [|[ni i] order IH]; intros st Hg Hn.
  { right. intros x Hx. inversion Hx. }
  apply Forall_cons in Hn as [Hx Hn]. cbn zeta. cbn [policy_percentage_loop].
  case_bool_decide as Hty.
  { destruct (IH st Hg Hn) as [?|Hall]; [by left|right].
    intros x Hin. apply elem_of_cons in Hin as [->|Hin]; [done|by apply Hall]. }
  case_bool_decide as Hmem.
  { destruct (IH st Hg Hn) as [?|Hall]; [by left|right].
    intros x Hin. apply elem_of_cons in Hin as [->|Hin]; [|by apply Hall].
    intros _. by apply (grown_members st); [apply grown_percentage_loop|]. }
  destruct (_ <=? _)%Z eqn:Hlen; [left; by apply Z.leb_le|].
  destruct (added_store gi gp st ni i Hg) as [Hr Hadded].
  set (st1 := (append_instance gi (Instance.id (Node.obj i)) st.1,
               append_group ni (InstanceGroup.id gp.1) st.2)) in *.
  assert (Hg1 : (rows st1).1 !! gi = Some gp) by (by rewrite Hr).
  assert (Hn1 : Forall (names st1) order).
  { eapply Forall_impl; [exact Hn|]. intros y Hy. unfold names. by rewrite Hr. }
  destruct (IH st1 Hg1 Hn1) as [?|Hall]; [by left|right].
  intros x Hin. apply elem_of_cons in Hin as [->|Hin]; [|by apply Hall].
  intros _. by apply (grown_members st1); [apply grown_percentage_loop|].
Qed.

(** The sorted snapshot holds every node of the store. *)
Lemma snapshot_covers st (key : nat * Node.t → Z) i :
  i ∈ (rows st).2 → ∃ x, x ∈ sorted key (enumerate st.2) ∧ Node.obj x.2 = i.
Proof.
  unfold rows. cbn [snd]. intros Hi. apply list_elem_of_fmap in Hi as (n & -> & Hn).
  apply list_elem_of_lookup in Hn as [ni Hn]. exists (ni, n). split; [|done].
  by apply elem_of_sorted, elem_of_enumerate.
Qed.

Lemma pool_rows g (ns : list Node.t) :
  candidate_pool_ct cp g ns
  = length (List.filter (λ i, negb (bool_decide (Instance.node_type i = exclude_type cp g)))
                        (Node.obj <$> ns)).
Proof.
  unfold candidate_pool_ct. induction ns as [|n ns IH]; [done|]. cbn.
  destruct (negb _); cbn; by rewrite IH.
Qed.

Lemma minimum_group_met st x :
  names_group st x →
  minimum_met cp x.1 (Group.obj x.2) (policy_minimum_group cp st x).
Proof.
  intros Hx. unfold policy_minimum_group.
  set (gp := (Group.obj x.2, Group.prior_instances x.2)).
  change (Group.obj x.2) with gp.1.
  pose proof (MembershipFacts.names_snapshot st by_len_groups) as Hn.
  destruct (minimum_loop_met x.1 gp _ st Hx Hn) as [?|Hall]; [by left|right].
  intros i Hi Hty.
  destruct (grown_minimum_loop x.1 gp (sorted by_len_groups (enumerate st.2)) st Hx Hn)
    as [Hr _].
  rewrite Hr in Hi. destruct (snapshot_covers st by_len_groups i Hi) as (y & Hy & <-).
  by apply Hall.
Qed.

Lemma percentage_group_met st x :
  names_group st x →
  percentage_met cp x.1 (Group.obj x.2) (policy_percentage_group cp st x).
Proof.
  intros Hx. unfold policy_percentage_group.
  set (gp := (Group.obj x.2, Group.prior_instances x.2)).
  change (Group.obj x.2) with gp.1.
  destruct (candidate_pool_ct cp gp.1 st.2 =? 0) eqn:Hpool.
  { right. intros i Hi Hty. exfalso. apply Nat.eqb_eq in Hpool.
    rewrite pool_rows in Hpool. apply length_zero_iff_nil in Hpool.
    assert (Hin : In i (List.filter (λ i, negb (bool_decide (Instance.node_type i
                                             = exclude_type cp gp.1)))
                                    (Node.obj <$> st.2))).
    { apply filter_In. split; [by apply list_elem_of_In|].
      by apply negb_true_iff, bool_decide_eq_false. }
    by rewrite Hpool in Hin. }
  pose proof (MembershipFacts.names_snapshot st by_len_groups) as Hn.
  destruct (grown_percentage_loop x.1 gp (candidate_pool_ct cp gp.1 st.2)
              (sorted by_len_groups (enumerate st.2)) st Hx Hn) as [Hr _].
  destruct (percentage_loop_met x.1 gp (candidate_pool_ct cp gp.1 st.2) _ st Hx Hn)
    as [Hpct|Hall].
  - left. rewrite Hr. unfold rows at 1. cbn [snd]. by rewrite <- pool_rows.
  - right. intros i Hi Hty. rewrite Hr in Hi.
    destruct (snapshot_covers st by_len_groups i Hi) as (y & Hy & <-). by apply Hall.
Qed.

(** A pass over the groups: every group it visits has what its loop leaves,
    whatever the groups after it take. *)
Lemma groups_met (met : nat → InstanceGroup.t → store → Prop)
    (step : store → nat * Group.t → store) :
  (∀ gi g st st', grown st st' → met gi g st → met gi g st') →
  (∀ st x, names_group st x → grown st (step st x) ∧ met x.1 (Group.obj x.2) (step st x)) →
  ∀ order st, Forall (names_group st) order →
    grown st (foldl step st order)
    ∧ ∀ x, x ∈ order → met x.1 (Group.obj x.2) (foldl step st order).
Proof.
  intros Hmono Hstep. induction order as [|x order IH]; intros st Hn.
  { split; [apply grown_refl|]. intros x Hx. inversion Hx. }
  apply Forall_cons in Hn as [Hx Hn]. cbn [foldl].
  destruct (Hstep st x Hx) as [Hg1 Hm1].
  destruct (IH (step st x)) as [Hg2 Hm2].
  { eapply Forall_impl; [exact Hn|]. intros y Hy. unfold names_group.
    destruct Hg1 as [Hr _]. by rewrite Hr. }
  split; [by apply (grown_trans _ (step st x))|].
  intros y Hy. apply elem_of_cons in Hy as [->|Hy]; [|by apply Hm2].
  by apply (Hmono _ _ (step st x)).
Qed.

Lemma computed_met db gi g :
  (computed cp db).1 !! gi = Some g →
  minimum_met cp gi (Group.obj g) (computed cp db)
  ∧ percentage_met cp gi (Group.obj g) (computed cp db).
Proof.
  intros Hg. unfold computed in *.
  set (st0 := initial_store db) in *. set (st1 := policy_minimum cp st0) in *.
  destruct (groups_met (minimum_met cp) (policy_minimum_group cp) (minimum_met_grown)
              (λ st x Hx, conj (grown_minimum_group st x Hx) (minimum_group_met st x Hx))
              (sorted by_len_instances (enumerate st0.1)) st0
              (MembershipFacts.names_group_snapshot st0 by_len_instances)) as [Hg01 Hmin].
  fold (policy_minimum cp st0) in Hg01, Hmin. fold st1 in Hg01, Hmin.
  destruct (groups_met (percentage_met cp) (policy_percentage_group cp) (percentage_met_grown)
              (λ st x Hx, conj (grown_percentage_group st x Hx) (percentage_group_met st x Hx))
              (sorted by_len_instances (enumerate st1.1)) st1
              (MembershipFacts.names_group_snapshot st1 by_len_instances)) as [Hg12 Hpct].
  fold (policy_percentage cp st1) in Hg12, Hpct.
  assert (Hlook : ∀ (a b : store) gb, rows b = rows a → b.1 !! gi = Some gb →
                    ∃ ga, a.1 !! gi = Some ga ∧ Group.obj ga = Group.obj gb).
  { intros a b gb Hr Hb. apply (f_equal fst) in Hr. unfold rows in Hr. cbn [fst] in Hr.
    apply (f_equal (λ l, l !! gi)) in Hr. cbn beta in Hr.
    rewrite !list_lookup_fmap, Hb in Hr. destruct (a.1 !! gi) as [ga|]; [|done].
    exists ga. split; [done|]. by injection Hr as <- _. }
  destruct (Hlook st1 _ g (proj1 Hg12) Hg) as (g1 & H1 & Ho1).
  destruct (Hlook st0 _ g1 (proj1 Hg01) H1) as (g0 & H0 & Ho0).
  split.
  - apply (minimum_met_grown _ _ st1); [done|]. rewrite <- Ho1, <- Ho0.
    apply (Hmin (gi, g0)). by apply elem_of_sorted, elem_of_enumerate.
  - rewrite <- Ho1. apply (Hpct (gi, g1)). by apply elem_of_sorted, elem_of_enumerate.
Qed.

Lemma computed_NoDup db g :
  g ∈ (computed cp db).1 → NoDup (pinned db (Group.obj g)) → NoDup (Group.instances g).
Proof.
  set (Φ := λ st : store,
         ∀ gi g, st.1 !! gi = Some g → NoDup (pinned db (Group.obj g)) →
                 NoDup (Group.instances g)).
  assert (HΦ : Φ (computed cp db)).
  { apply (guarded_computed Φ).
    - intros st gi gp [ni n] Hgp Hn _ Hfresh Hall gj g' Hg' Hnd. cbn [snd fst] in *.
      unfold add_to_group, append_instance in Hg'. cbn [fst] in Hg'.
      destruct (decide (gi = gj)) as [->|Hne].
      2:{ rewrite list_lookup_alter_ne in Hg' by done. by apply (Hall gj). }
      rewrite list_lookup_alter_eq in Hg'. apply fmap_Some in Hg' as (g0 & Hg0 & ->).
      cbn [Group.instances Group.obj] in *.
      rewrite (group_instances_lookup _ _ _ Hg0) in Hfresh.
      apply NoDup_app. split_and!; [by apply (Hall gj)| |apply NoDup_singleton].
      intros y Hy Hy'. apply list_elem_of_singleton in Hy' as ->. done.
    - intros gi g0 Hg0 Hnd. unfold initial_store in Hg0. cbn [fst] in Hg0.
      rewrite list_lookup_fmap in Hg0. apply fmap_Some in Hg0 as (ig & _ & ->).
      exact Hnd. }
  intros Hg. apply list_elem_of_lookup in Hg as [gi Hg]. by apply (HΦ gi).
Qed.

(** X19.  The policies are met: after the task, a group that is not a
    container group, and whose policy list names no instance twice, holds
    every instance it may take (managed by policy, not a hop node, not of
    the excluded type), or else has at least [policy_instance_minimum]
    members and at least [policy_instance_percentage] percent of the number
    of instances it may take. *)
Theorem policies_are_met (db : Database) (ig' : InstanceGroup.t) :
  ig' ∈ InstanceGroup_objects (database (cluster_membership_policies cp db)) →
  InstanceGroup.is_container_group ig' = false →
  NoDup (pinned db ig') →
  let pool := candidates cp db ig' in
  let members := InstanceGroup.instances ig' in
  (∀ i, i ∈ pool → Instance.id i ∈ members)
  ∨ ((InstanceGroup.policy_instance_minimum ig' <= Z.of_nat (size members))%Z
     ∧ (InstanceGroup.policy_instance_percentage ig' * Z.of_nat (length pool)
        <= 100 * Z.of_nat (size members))%Z).
Proof.
  intros Hig Hc Hnd pool members. subst pool members.
  destruct (final_member db ig' Hig Hc) as (g & Hg & Hclear & Hmem).
  assert (Hlist : InstanceGroup.policy_instance_list (Group.obj g)
                  = InstanceGroup.policy_instance_list ig')
    by (by apply (f_equal InstanceGroup.policy_instance_list) in Hclear).
  assert (Hname : InstanceGroup.name (Group.obj g) = InstanceGroup.name ig')
    by (by apply (f_equal InstanceGroup.name) in Hclear).
  assert (Hmin : InstanceGroup.policy_instance_minimum (Group.obj g)
                 = InstanceGroup.policy_instance_minimum ig')
    by (by apply (f_equal InstanceGroup.policy_instance_minimum) in Hclear).
  assert (Hpct : InstanceGroup.policy_instance_percentage (Group.obj g)
                 = InstanceGroup.policy_instance_percentage ig')
    by (by apply (f_equal InstanceGroup.policy_instance_percentage) in Hclear).
  assert (Hex : exclude_type cp (Group.obj g) = exclude_type cp ig')
    by (unfold exclude_type; by rewrite Hname).
  assert (Hsize : size (InstanceGroup.instances ig') = length (Group.instances g)).
  { rewrite Hmem. apply size_list_to_set, (computed_NoDup db); [done|].
    unfold pinned in *. by rewrite Hlist. }
  pose proof Hg as Hgi. apply list_elem_of_lookup in Hgi as [gi Hgi].
  destruct (computed_met db gi g Hgi) as [Hm Hp].
  assert (Hrows : (rows (computed cp db)).2
                  = List.filter Instance.managed_by_policy (all_instances db)).
  { rewrite (MembershipFacts.computed_rows cp db). unfold rows. cbn [snd].
    apply MembershipFacts.initial_nodes. }
  assert (Hsat : saturated cp gi (Group.obj g) (computed cp db) →
                 ∀ i, i ∈ candidates cp db ig' → Instance.id i ∈ InstanceGroup.instances ig').
  { intros Hs i Hi. rewrite Hmem. apply elem_of_list_to_set.
    rewrite <- (group_instances_lookup _ _ _ Hgi).
    unfold candidates in Hi. apply list_elem_of_In, filter_In in Hi as [Hi Hty].
    apply negb_true_iff, bool_decide_eq_false in Hty.
    apply Hs; [rewrite Hrows; by apply list_elem_of_In|by rewrite Hex]. }
  destruct Hm as [Hm|Hs]; [|left; by apply Hsat].
  destruct Hp as [Hp|Hs]; [|left; by apply Hsat].
  right. rewrite Hsize. rewrite (group_instances_lookup _ _ _ Hgi) in Hm, Hp.
  rewrite Hrows, Hex in Hp. unfold candidates. split; [by rewrite <- Hmin|by rewrite <- Hpct].
Qed.

End Policies.

Lemma policy_list_instances_are_members_witness :
  Instance.id n5 ∈ InstanceGroup.instances pinning_after.
Proof.
  apply (policy_list_instances_are_members "controlplane" cluster_pinning pinning_after n5).
  - apply (bool_decide_unpack _). vm_compute. exact I.
  - apply (list_elem_of_lookup_2 _ 1). vm_compute. reflexivity.
  - reflexivity.
  - apply (list_elem_of_lookup_2 _ 4). reflexivity.
  - discriminate.
  - apply (list_elem_of_lookup_2 _ 0). reflexivity.
Defined.

Lemma members_are_listed_or_eligible_witness :
  1%Z ∈ pinned cluster_pinning pinning_after
  ∨ ∃ i, i ∈ Instance_objects cluster_pinning ∧ Instance.id i = 1%Z
         ∧ Instance.managed_by_policy i = true
         ∧ Instance.node_type i ≠ hop
         ∧ Instance.node_type i ≠ exclude_type "controlplane" pinning_after.
Proof.
  apply (members_are_listed_or_eligible "controlplane" cluster_pinning pinning_after 1).
  - apply (list_elem_of_lookup_2 _ 1). vm_compute. reflexivity.
  - reflexivity.
  - apply (bool_decide_unpack _). vm_compute. exact I.
Defined.

Lemma policies_are_met_witness :
  (∀ i, i ∈ candidates "controlplane" cluster_pinning pinning_after →
        Instance.id i ∈ InstanceGroup.instances pinning_after)
  ∨ ((InstanceGroup.policy_instance_minimum pinning_after
      <= Z.of_nat (size (InstanceGroup.instances pinning_after)))%Z
     ∧ (InstanceGroup.policy_instance_percentage pinning_after
        * Z.of_nat (length (candidates "controlplane" cluster_pinning pinning_after))
        <= 100 * Z.of_nat (size (InstanceGroup.instances pinning_after)))%Z).
Proof.
  apply (policies_are_met "controlplane" cluster_pinning pinning_after).
  - apply (list_elem_of_lookup_2 _ 1). vm_compute. reflexivity.
  - reflexivity.
  - apply (bool_decide_unpack _). vm_compute. exact I.
Defined.

End MembershipInvariants.

(** ** The end of the stream *)

Module FinishedCallback.
Import Callback CallbackSpec CallbackMore CallbackMoreSpec.

Section Stream.
Variable MINIMAL_EVENTS : gset string.
Variable redact : EventData → pyerr + option EventData.

Lemma run_counts (inputs : list (Q * EventData)) (self : RunnerCallback) :
  event_ct (run MINIMAL_EVENTS redact inputs self)
  = event_ct self + length (timeline MINIMAL_EVENTS redact inputs self)
  ∧ length (dispatcher (run MINIMAL_EVENTS redact inputs self))
    = length (dispatcher self) + length (timeline MINIMAL_EVENTS redact inputs self).
Proof.
  revert self. induction inputs as [|[cpu_time ev] rest IH]; intros self.
  { cbn. by rewrite !Nat.add_0_r. }
  cbn [run timeline].
  destruct (IH (after (event_handler MINIMAL_EVENTS redact cpu_time ev self))) as (IH1 & IH2).
  rewrite IH1, IH2.
  destruct (CallbackInvariants.handler_step MINIMAL_EVENTS redact cpu_time ev self)
    as [[_ Ho]|[(_ & e & _ & Ho)
               |(_ & ev1 & ev' & d' & sent & _ & _ & _ & _ & Hs & Hd & Hc & _)]].
  - rewrite Ho. by cbn.
  - rewrite Ho. by cbn.
  - rewrite Hs, Hd, Hc, length_app. cbn [length]. split; lia.
Qed.

(** When every event is accepted, the timeline has one entry for each event
    that is not a keepalive. *)
Lemma timeline_complete (inputs : list (Q * EventData)) (self : RunnerCallback) :
  Forall has_lines inputs →
  Forall (λ x, host_readable x.2) inputs →
  Forall (λ x, unredacted self x.2) inputs →
  length (timeline MINIMAL_EVENTS redact inputs self)
  = length (List.filter (λ x, negb (is_keepalive x)) inputs).
Proof.
  intros Hall. revert self.
  induction Hall as [|[cpu_time ev] rest Hx Hrest IH]; intros self Hread Hplain; [done|].
  apply Forall_cons in Hread as [Hr Hread]. apply Forall_cons in Hplain as [Hu Hplain].
  cbn [snd] in Hr, Hu.
  assert (Hnext : Forall (λ x, unredacted
                                 (after (event_handler MINIMAL_EVENTS redact cpu_time ev self))
                                 x.2) rest).
  { eapply Forall_impl; [exact Hplain|]. intros x.
    apply CallbackInvariants.unredacted_attributes.
    apply CallbackInvariants.handler_attributes. }
  cbn [timeline List.filter].
  replace (is_keepalive (cpu_time, ev)) with (bool_decide (event ev = Some "keepalive"))
    by done.
  destruct (decide (event ev = Some "keepalive")) as [Hk|Hk].
  - rewrite bool_decide_eq_true_2 by done.
    destruct (CallbackInvariants.handler_step MINIMAL_EVENTS redact cpu_time ev self)
      as [[_ Ho]|[(Hk' & _)|(Hk' & _)]]; [|done|done].
    rewrite Ho in *. cbn [negb dispatched_by after] in *. by apply IH.
  - destruct (CallbackInvariants.accepted_step MINIMAL_EVENTS redact cpu_time ev self
                Hx Hr Hu Hk) as (sent & Hs & _).
    rewrite Hs, bool_decide_eq_false_2 by done. cbn. f_equal. by apply IH.
Qed.

(** X20.  [finished_callback] hands one more event to the dispatcher, the
    EOF event, and does not count it.  Its [final_counter] is the number of
    events that [event_handler] dispatched for the job, which on a callback
    that starts fresh is the length of the dispatcher before it; when every
    event of the stream was accepted (its nested payload, if any, is a dict
    with a string for a host, if any; it is not the source-control task of a
    project update; with empty [stdout] it has its line marks) it is the
    number of events of the stream that are not keepalives.  The event has
    the guid and the job of the callback, and the wrap-up mark is set when
    the wrap-up event type is [EOF] and left as it was otherwise. *)
Theorem final_counter_counts_events (inputs : list (Q * EventData))
    (N : nat) (inst : Z) (wrapup g : string)
    (key : string) (project_update : bool) (parent : option Z) (hosts : gmap string Z)
    (created : pyval) :
  let fresh := init N inst wrapup g key project_update parent hosts created in
  let self := run MINIMAL_EVENTS redact inputs fresh in
  ∃ eof,
    dispatcher (finished_callback self) = dispatcher self ++ [eof]
    ∧ event_ct (finished_callback self) = event_ct self
    ∧ event eof = Some "EOF"
    ∧ event_guid eof = Some g
    ∧ job_reference eof = Some inst
    ∧ final_counter eof = Some (length (dispatcher self))
    ∧ final_counter eof = Some (length (timeline MINIMAL_EVENTS redact inputs fresh))
    ∧ (Forall has_lines inputs →
       Forall (λ x, host_readable x.2) inputs →
       Forall (λ x, unredacted fresh x.2) inputs →
       final_counter eof = Some (length (List.filter (λ x, negb (is_keepalive x)) inputs)))
    ∧ (wrapup = "EOF" → wrapup_event_dispatched (finished_callback self) = true)
    ∧ (wrapup ≠ "EOF" →
       wrapup_event_dispatched (finished_callback self) = wrapup_event_dispatched self).
Proof.
  intros fresh self.
  destruct (run_counts inputs fresh) as (Hc & Hd). fold self in Hc, Hd.
  pose proof (CallbackInvariants.run_attributes MINIMAL_EVENTS redact inputs fresh) as Ha.
  fold self in Ha. unfold attributes in Ha. cbn in Ha.
  injection Ha as Hinst Hty _ _ _ _ Hg _. cbn in Hc, Hd.
  unfold finished_callback. cbv zeta.
  eexists. cbn [wrapup_event_type dispatcher_dispatch].
  split_and!.
  - by case_bool_decide.
  - by case_bool_decide.
  - done.
  - cbn. by rewrite Hg.
  - cbn. by rewrite Hinst.
  - cbn. by rewrite Hc, Hd.
  - cbn. by rewrite Hc.
  - intros H1 H2 H3. cbn. by rewrite Hc, (timeline_complete inputs fresh H1 H2 H3).
  - intros Heof. rewrite Hty, bool_decide_eq_true_2 by done. done.
  - intros Hne. rewrite Hty, bool_decide_eq_false_2 by done. done.
Qed.

End Stream.

Lemma final_counter_counts_events_witness :
  ∃ eof,
    last (dispatcher (finished_callback
                        (run stats_only blank_stdout
                           ((0%Q, keepalive) :: (0%Q, on_web1) :: burst) job0)))
    = Some eof
    ∧ final_counter eof = Some 4.
Proof.
  destruct (final_counter_counts_events stats_only blank_stdout
              ((0%Q, keepalive) :: (0%Q, on_web1) :: burst) 2 7%Z
              "playbook_on_stats" "guid-0" "job_id" false None {[ "web1" := 31%Z ]}
              (PStr "2024-05-01 10:00:00"))
    as (eof & Hd & _ & _ & _ & _ & _ & _ & Hn & _).
  exists eof. split.
  - change (init 2 7%Z "playbook_on_stats" "guid-0" "job_id" false None
              {[ "web1" := 31%Z ]} (PStr "2024-05-01 10:00:00")) with job0 in Hd.
    rewrite Hd. apply last_snoc.
  - apply Hn.
    + unfold burst. repeat (constructor; [intros H; discriminate H|]). constructor.
    + unfold burst. repeat (constructor; [exact I|]). constructor.
    + unfold burst. repeat (constructor; [left; reflexivity|]). constructor.
Defined.

End FinishedCallback.

(** ** Smart inventory memberships *)

Module SmartInventoryFacts.
Import SmartInventory.

Lemma elem_of_host_ids inventory_id table h :
  h ∈ host_ids inventory_id table ↔ (inventory_id, h) ∈ table.
Proof.
  unfold host_ids. rewrite elem_of_map. split.
  - intros ([i h'] & -> & Hin). apply elem_of_filter in Hin as [Hi Hin]. cbn in *. by subst.
  - intros Hin. exists (inventory_id, h). split; [done|]. by apply elem_of_filter.
Qed.

Lemma elem_of_update inventory_id hosts table r :
  r ∈ (update_smart_memberships_for_inventory inventory_id hosts table).2 ↔
  if bool_decide (r.1 = inventory_id) then r.2 ∈ hosts else r ∈ table.
Proof.
  unfold update_smart_memberships_for_inventory. cbv zeta.
  set (current := host_ids inventory_id table).
  assert (Hcur : ∀ h, h ∈ current ↔ (inventory_id, h) ∈ table)
    by apply elem_of_host_ids.
  destruct r as [i h]. cbn [fst snd].
  assert (Hdel : (i, h) ∈ delete_rows inventory_id (current ∖ hosts) table ↔
                 (i, h) ∈ table ∧ ¬ (i = inventory_id ∧ h ∈ current ∧ h ∉ hosts)).
  { unfold delete_rows. rewrite elem_of_filter. cbn. rewrite elem_of_difference. tauto. }
  assert (Hadd : ∀ t, (i, h) ∈ bulk_create inventory_id (hosts ∖ current) t ↔
                      (i, h) ∈ t ∨ (i = inventory_id ∧ h ∈ hosts ∧ h ∉ current)).
  { intros t. unfold bulk_create. rewrite elem_of_union, elem_of_map.
    split; (intros [?|H]; [by left|right]).
    - destruct H as (h' & [= -> ->] & Hin). by apply elem_of_difference in Hin as [? ?].
    - destruct H as (-> & ? & ?). exists h. split; [done|]. by apply elem_of_difference. }
  assert (Hempty : ∀ X : gset Z, X = ∅ → ∀ x, x ∉ X) by (intros X -> x; apply not_elem_of_empty).
  destruct (decide (i = inventory_id)) as [->|Hi];
    [rewrite (bool_decide_eq_true_2 (inventory_id = inventory_id)) by done
    |rewrite (bool_decide_eq_false_2 (i = inventory_id)) by done].
  - destruct (decide (hosts ∖ current = ∅)) as [E1|E1];
      destruct (decide (current ∖ hosts = ∅)) as [E2|E2];
      rewrite ?(bool_decide_eq_true_2 _ E1), ?(bool_decide_eq_false_2 _ E1),
        ?(bool_decide_eq_true_2 _ E2), ?(bool_decide_eq_false_2 _ E2);
      cbn [negb orb snd]; rewrite ?Hadd, ?Hdel, <- ?Hcur;
      try (pose proof (Hempty _ E1 h) as N1; rewrite elem_of_difference in N1);
      try (pose proof (Hempty _ E2 h) as N2; rewrite elem_of_difference in N2);
      destruct (decide (h ∈ hosts)); destruct (decide (h ∈ current)); tauto.
  - destruct (decide (hosts ∖ current = ∅)) as [E1|E1];
      destruct (decide (current ∖ hosts = ∅)) as [E2|E2];
      rewrite ?(bool_decide_eq_true_2 _ E1), ?(bool_decide_eq_false_2 _ E1),
        ?(bool_decide_eq_true_2 _ E2), ?(bool_decide_eq_false_2 _ E2);
      cbn [negb orb snd]; rewrite ?Hadd, ?Hdel; tauto.
Qed.

Lemma update_hosts inventory_id hosts table :
  host_ids inventory_id (update_smart_memberships_for_inventory inventory_id hosts table).2
  = hosts.
Proof.
  apply set_eq. intros h. rewrite elem_of_host_ids, elem_of_update. cbn.
  by rewrite bool_decide_eq_true_2.
Qed.

Lemma update_others inventory_id hosts table other :
  other ≠ inventory_id →
  host_ids other (update_smart_memberships_for_inventory inventory_id hosts table).2
  = host_ids other table.
Proof.
  intros Hne. apply set_eq. intros h. rewrite !elem_of_host_ids, elem_of_update. cbn.
  by rewrite bool_decide_eq_false_2.
Qed.

Lemma update_changed inventory_id hosts table :
  (update_smart_memberships_for_inventory inventory_id hosts table).1 = true
  ↔ host_ids inventory_id table ≠ hosts.
Proof.
  unfold update_smart_memberships_for_inventory. cbv zeta.
  set (current := host_ids inventory_id table).
  destruct (negb (bool_decide (hosts ∖ current = ∅))
            || negb (bool_decide (current ∖ hosts = ∅))) eqn:E; cbn [fst].
  - split; [intros _|done]. intros Heq. rewrite Heq in E.
    rewrite !difference_diag_L in E. by rewrite bool_decide_eq_true_2 in E.
  - split; [done|]. intros Hne. exfalso. apply Hne.
    apply orb_false_iff in E as [E1 E2].
    apply negb_false_iff, bool_decide_eq_true in E1, E2.
    apply set_eq. intros h. split; intros Hh.
    + destruct (decide (h ∈ hosts)); [done|].
      assert (h ∈ current ∖ hosts) by (by apply elem_of_difference).
      rewrite E2 in *. by apply not_elem_of_empty in H.
    + destruct (decide (h ∈ current)); [done|].
      assert (h ∈ hosts ∖ current) by (by apply elem_of_difference).
      rewrite E1 in *. by apply not_elem_of_empty in H.
Qed.

Lemma update_unchanged inventory_id hosts table :
  (update_smart_memberships_for_inventory inventory_id hosts table).1 = false →
  update_smart_memberships_for_inventory inventory_id hosts table = (false, table).
Proof.
  unfold update_smart_memberships_for_inventory. cbv zeta.
  by destruct (negb _ || negb _).
Qed.

(** X21.  [update_smart_memberships_for_inventory] synchronises the cached
    memberships of one smart inventory: afterwards the hosts recorded for
    the inventory are exactly the hosts it matches, the rows of every other
    inventory are as before, it reports a change exactly when the recorded
    hosts differed, and a second call changes nothing and reports no
    change. *)
Theorem smart_memberships_synchronised (inventory_id : Z) (hosts : gset Z) (table : Table) :
  let r := update_smart_memberships_for_inventory inventory_id hosts table in
  host_ids inventory_id r.2 = hosts
  ∧ (∀ other, other ≠ inventory_id → host_ids other r.2 = host_ids other table)
  ∧ (r.1 = true ↔ host_ids inventory_id table ≠ hosts)
  ∧ (r.1 = false → r.2 = table)
  ∧ update_smart_memberships_for_inventory inventory_id hosts r.2 = (false, r.2).
Proof.
  cbn zeta. split_and!.
  - apply update_hosts.
  - intros other Hne. by apply update_others.
  - apply update_changed.
  - intros Hf. by rewrite (update_unchanged _ _ _ Hf).
  - apply update_unchanged.
    destruct (update_smart_memberships_for_inventory inventory_id hosts
                (update_smart_memberships_for_inventory inventory_id hosts table).2).1 eqn:E;
      [|done].
    apply update_changed in E. by rewrite update_hosts in E.
Qed.

Section Task.
Variable integrity_error : Inventory → bool.

Lemma update_one_cases inv table :
  let '(table', fx, changed) := update_one integrity_error inv table in
  (∀ other, other ≠ inventory_id inv → host_ids other table' = host_ids other table)
  ∧ ((integrity_error inv = false
      ∧ host_ids (inventory_id inv) table' = hosts inv ∧ fx = []
      ∧ (changed = true ↔ host_ids (inventory_id inv) table ≠ hosts inv))
     ∨ (integrity_error inv = true ∧ table' = table ∧ changed = false
        ∧ (fx = [LogFailed (inventory_id inv)]
           ∧ host_ids (inventory_id inv) table ≠ hosts inv
           ∨ fx = [] ∧ host_ids (inventory_id inv) table = hosts inv))).
Proof.
  unfold update_one.
  pose proof (update_hosts (inventory_id inv) (hosts inv) table) as Hsync.
  pose proof (update_others (inventory_id inv) (hosts inv) table) as Hother.
  pose proof (update_changed (inventory_id inv) (hosts inv) table) as Hflag.
  pose proof (update_unchanged (inventory_id inv) (hosts inv) table) as Hsame.
  destruct (update_smart_memberships_for_inventory (inventory_id inv) (hosts inv) table)
    as [changed table'] eqn:E. cbn [fst snd] in *.
  destruct changed; cbn [andb].
  - destruct (integrity_error inv) eqn:Herr.
    + split; [done|]. right. split_and!; try done. left. split; [done|]. by apply Hflag.
    + split; [done|]. left. by split_and!.
  - split; [done|]. injection (Hsame eq_refl) as ->.
    assert (Heq : host_ids (inventory_id inv) table = hosts inv).
    { destruct (decide (host_ids (inventory_id inv) table = hosts inv)) as [?|Hne]; [done|].
      by apply Hflag in Hne. }
    destruct (integrity_error inv) eqn:Herr.
    + right. split_and!; try done. by right.
    + left. by split_and!.
Qed.

Lemma update_all_spec invs table :
  NoDup (inventory_id <$> invs) →
  let '(table', fx, changed) := update_all integrity_error invs table in
  (∀ other, other ∉ inventory_id <$> invs → host_ids other table' = host_ids other table)
  ∧ (∀ inv, inv ∈ invs →
       (integrity_error inv = false → host_ids (inventory_id inv) table' = hosts inv)
       ∧ (integrity_error inv = true →
          host_ids (inventory_id inv) table' = host_ids (inventory_id inv) table)
       ∧ (inv ∈ changed ↔
          integrity_error inv = false ∧ host_ids (inventory_id inv) table ≠ hosts inv)
       ∧ (LogFailed (inventory_id inv) ∈ fx ↔
          integrity_error inv = true ∧ host_ids (inventory_id inv) table ≠ hosts inv))
  ∧ (∀ inv, inv ∈ changed → inv ∈ invs)
  ∧ (∀ x, x ∈ fx → ∃ inv, inv ∈ invs ∧ x = LogFailed (inventory_id inv)).
Proof.
  revert table. induction invs as [|inv invs IH]; intros table Hnd.
  { cbn. split_and!; [done| | |]; intros ? H; inversion H. }
  rewrite fmap_cons in Hnd. apply NoDup_cons in Hnd as [Hfresh Hnd].
  cbn [update_all]. pose proof (update_one_cases inv table) as H1.
  destruct (update_one integrity_error inv table) as [[table1 fx1] changed1].
  destruct H1 as [Hother1 Hcase]. specialize (IH table1 Hnd).
  destruct (update_all integrity_error invs table1) as [[table2 fx2] changed2].
  destruct IH as (Hother2 & Hin2 & Hsub2 & Hfx2).
  assert (Hrest : ∀ x, x ∈ invs → inventory_id x ≠ inventory_id inv).
  { intros x Hx Heq. apply Hfresh. rewrite <- Heq. by apply list_elem_of_fmap_2. }
  assert (Hfx1 : ∀ e, e ∈ fx1 → e = LogFailed (inventory_id inv)).
  { intros e He. destruct Hcase as [(_ & _ & -> & _)|(_ & _ & _ & [[-> _]|[-> _]])].
    - inversion He.
    - by apply list_elem_of_singleton in He.
    - inversion He. }
  assert (Hnot : (inv ∉ changed2) ∧ (LogFailed (inventory_id inv) ∉ fx2)).
  { split.
    - intros Hc. apply Hsub2 in Hc. by apply (Hrest inv).
    - intros Hl. destruct (Hfx2 _ Hl) as (x & Hx & [= Heq]). by apply (Hrest x). }
  destruct Hnot as [Hnc Hnl].
  split_and!.
  - intros other Ho. rewrite fmap_cons in Ho. apply not_elem_of_cons in Ho as [Hne Ho].
    by rewrite Hother2, Hother1.
  - intros x Hx. apply elem_of_cons in Hx as [->|Hx].
    + rewrite (Hother2 _ Hfresh).
      destruct Hcase as [(Herr & Hsync & -> & Hch)|(Herr & -> & -> & Hfx)].
      * split_and!; [done|by rewrite Herr| |].
        -- destruct changed1.
           ++ split; [intros _; split; [done|by apply Hch]|intros _; by left].
           ++ split; [done|]. intros [_ Hne]. by apply Hch in Hne.
        -- cbn [app]. split; [done|]. rewrite Herr. by intros [? _].
      * split_and!; [by rewrite Herr|done| |].
        -- split; [done|]. rewrite Herr. by intros [? _].
        -- destruct Hfx as [[-> Hne]|[-> Heq]]; cbn [app].
           ++ split; [done|intros _; by left].
           ++ split; [done|]. by intros [_ ?].
    + destruct (Hin2 x Hx) as (Ha & Hb & Hc & Hd).
      rewrite (Hother1 _ (Hrest x Hx)) in *.
      split_and!; [done|done| |].
      * rewrite <- Hc. destruct changed1; [|done]. rewrite elem_of_cons.
        split; [intros [->|?]; [|done]|by right]. by destruct (Hrest inv Hx).
      * rewrite <- Hd, elem_of_app. split; [|by right]. intros [Hl|?]; [|done].
        apply Hfx1 in Hl as [= Heq]. by destruct (Hrest x Hx).
  - intros x Hx. destruct changed1; [apply elem_of_cons in Hx as [->|Hx]; [by left|]|];
      right; by apply Hsub2.
  - intros x Hx. apply elem_of_app in Hx as [Hx|Hx].
    + exists inv. split; [by left|]. by apply Hfx1.
    + destruct (Hfx2 x Hx) as (y & Hy & ->). exists y. split; [by right|done].
Qed.

(** X29.  [update_host_smart_inventory_memberships], over inventories with
    distinct keys: every inventory that is smart, has a host filter and is
    not pending deletion ends with exactly its hosts as cached memberships,
    unless its transaction met an [IntegrityError], which leaves its
    memberships as they were and does not stop the others; memberships of
    any other inventory are untouched; and the computed fields are updated
    exactly for the inventories whose memberships changed. *)
Theorem smart_memberships_all_synchronised (inventories : list Inventory) (table : Table) :
  NoDup (inventory_id <$> inventories) →
  let r := update_host_smart_inventory_memberships integrity_error inventories table in
  (∀ inv, inv ∈ inventories → is_smart inv = true →
     (integrity_error inv = false → host_ids (inventory_id inv) r.1 = hosts inv)
     ∧ (integrity_error inv = true →
        host_ids (inventory_id inv) r.1 = host_ids (inventory_id inv) table)
     ∧ (UpdateComputedFields (inventory_id inv) ∈ r.2 ↔
        integrity_error inv = false ∧ host_ids (inventory_id inv) table ≠ hosts inv))
  ∧ (∀ other, (∀ inv, inv ∈ inventories → is_smart inv = true → inventory_id inv ≠ other) →
       host_ids other r.1 = host_ids other table
       ∧ UpdateComputedFields other ∉ r.2).
Proof.
  intros Hnd. cbn zeta. unfold update_host_smart_inventory_memberships.
  set (smart := List.filter is_smart inventories).
  assert (Hsmart : ∀ inv, inv ∈ smart ↔ inv ∈ inventories ∧ is_smart inv = true).
  { intros inv. unfold smart. by rewrite list_elem_of_In, filter_In, <- list_elem_of_In. }
  assert (Hnd' : NoDup (inventory_id <$> smart))
    by (by apply HeartbeatInvariants.NoDup_fmap_filter).
  pose proof (update_all_spec smart table Hnd') as Hspec.
  destruct (update_all integrity_error smart table) as [[table' fx] changed].
  destruct Hspec as (Hother & Hin & Hsub & Hfx). cbn [fst snd].
  assert (Hupd : ∀ i, UpdateComputedFields i
                       ∈ fx ++ (UpdateComputedFields ∘ inventory_id <$> changed)
                      ↔ ∃ inv, inv ∈ changed ∧ inventory_id inv = i).
  { intros i. rewrite elem_of_app, list_elem_of_fmap. split.
    - intros [Hx|(inv & [= ->] & Hc)]; [|by exists inv].
      by destruct (Hfx _ Hx) as (? & _ & ?).
    - intros (inv & Hc & <-). right. by exists inv. }
  split.
  - intros inv Hi Hs. destruct (Hin inv) as (Ha & Hb & Hc & _); [by apply Hsmart|].
    split_and!; [done|done|]. rewrite Hupd, <- Hc. split; [|by exists inv].
    intros (inv' & Hc' & Heq).
    assert (inv' = inv) as ->; [|done].
    apply (MembershipFacts.NoDup_fmap_eq inventory_id smart); try done.
    + by apply Hsub.
    + by apply Hsmart.
  - intros other Hno. split.
    + apply Hother. intros Hmem. apply list_elem_of_fmap in Hmem as (inv & -> & Hinv).
      apply Hsmart in Hinv as [? ?]. by apply (Hno inv).
    + rewrite Hupd. intros (inv & Hc & Heq). apply Hsub, Hsmart in Hc as [? ?].
      by apply (Hno inv).
Qed.

End Task.

Lemma smart_memberships_all_synchronised_witness :
  let web := {| inventory_id := 4; kind := "smart"; host_filter := Some "name__icontains=web";
                pending_deletion := false; hosts := {[ 10%Z; 11%Z ]} |} in
  host_ids 4 (update_host_smart_inventory_memberships (λ _, false) [web]
                {[ (4%Z, 10%Z); (4%Z, 12%Z); (9%Z, 12%Z) ]}).1 = {[ 10%Z; 11%Z ]}.
Proof.
  intros web.
  refine (proj1 (proj1 (smart_memberships_all_synchronised (λ _, false) [web]
                          {[ (4%Z, 10%Z); (4%Z, 12%Z); (9%Z, 12%Z) ]} _) web _ _) _).
  - apply NoDup_singleton.
  - apply (list_elem_of_lookup_2 _ 0). reflexivity.
  - reflexivity.
  - reflexivity.
Defined.

End SmartInventoryFacts.

(** ** The cache of settings *)

Module SettingCacheFacts.
Import SettingCache.

Lemma elem_of_concat {A} (x : A) (ls : list (list A)) :
  x ∈ concat ls ↔ ∃ l, x ∈ l ∧ l ∈ ls.
Proof.
  induction ls as [|l ls IH]; cbn [concat].
  - split; [inversion 1|]. intros (l & _ & Hl). inversion Hl.
  - rewrite elem_of_app, IH. split.
    + intros [?|(l' & ? & ?)]; [exists l; split; [done|by left]|].
      exists l'. split; [done|by right].
    + intros (l' & Hx & Hl). apply elem_of_cons in Hl as [->|Hl]; [by left|right; eauto].
Qed.

Section Task.
Variable get_dependent_settings : string → list string.

Lemma extend_keys_spec (before keys after : list string) :
  extend_keys get_dependent_settings (seq (length before) (length keys))
              (before ++ keys ++ after)
  = Some (before ++ keys ++ after ++ concat (get_dependent_settings <$> keys)).
Proof.
  revert before after. induction keys as [|k keys IH]; intros before after.
  { cbn. by rewrite app_nil_r. }
  cbn [length seq extend_keys]. change ((k :: keys) ++ after) with (k :: keys ++ after).
  rewrite (list_lookup_middle before (keys ++ after) k (length before) eq_refl).
  replace ((before ++ k :: keys ++ after) ++ get_dependent_settings k)
    with ((before ++ [k]) ++ keys ++ (after ++ get_dependent_settings k))
    by (rewrite <- !app_assoc; cbn [app]; by rewrite <- !app_assoc).
  replace (S (length before)) with (length (before ++ [k]))
    by (rewrite length_app; cbn; lia).
  rewrite IH. f_equal. rewrite fmap_cons. cbn [concat].
  by rewrite <- !app_assoc.
Qed.

(** X22.  [clear_setting_cache] never fails on an index; it leaves in the
    caller's list the given keys followed by the dependent settings of each
    given key, in order; and the keys it deletes from the cache are exactly
    the given keys and their direct dependents: a dependent of a dependent
    is deleted only if it is also one of those. *)
Theorem clear_setting_cache_deletes (setting_keys : list string) :
  ∃ keys deleted,
    clear_setting_cache get_dependent_settings setting_keys = Some (keys, deleted)
    ∧ keys = setting_keys ++ concat (get_dependent_settings <$> setting_keys)
    ∧ ∀ k, k ∈ deleted ↔
           k ∈ setting_keys
           ∨ ∃ given, given ∈ setting_keys ∧ k ∈ get_dependent_settings given.
Proof.
  unfold clear_setting_cache.
  pose proof (extend_keys_spec [] setting_keys []) as H. cbn [length app] in H.
  rewrite app_nil_r in H. rewrite H. eexists _, _. split_and!; [done|done|].
  intros k. rewrite elem_of_list_to_set, elem_of_app. apply or_iff_compat_l.
  rewrite elem_of_concat. split.
  - intros (l & Hk & Hl). apply list_elem_of_fmap in Hl as (given & -> & Hg). eauto.
  - intros (given & Hg & Hk). exists (get_dependent_settings given).
    split; [done|]. by apply list_elem_of_fmap_2.
Qed.

End Task.

End SettingCacheFacts.

(** ** Deleting an inventory *)

Module DeleteInventoryFacts.
Import DeleteInventory DeleteInventorySpec.

Section Task.
Variable outcome_of : nat → attempt.

Ltac by_attempts outcome_of retries IH :=
  induction retries as [|retries IH]; intros call; cbn [delete_inventory_from];
  destruct (outcome_of call) eqn:?E.

Lemma sleeps_bound (call retries : nat) :
  length (List.filter is_sleep (delete_inventory_from outcome_of call retries)) ≤ retries.
Proof.
  revert call. by_attempts outcome_of retries IH; cbn; try lia.
  specialize (IH (S call)). lia.
Qed.

Lemma slept_sleeps (call retries : nat) :
  slept (delete_inventory_from outcome_of call retries)
  = (10 * Z.of_nat (length (List.filter is_sleep
                              (delete_inventory_from outcome_of call retries))))%Z.
Proof.
  revert call. by_attempts outcome_of retries IH; try done.
  cbn [slept foldr List.filter is_sleep length].
  change (foldr _ 0%Z ?l) with (slept l). rewrite IH. lia.
Qed.

Lemma deleted_iff (call retries : nat) :
  DeleteRow ∈ delete_inventory_from outcome_of call retries ↔
  ∃ n, n ≤ retries ∧ outcome_of (call + n) = Deleted
       ∧ ∀ j, j < n → outcome_of (call + j) = DatabaseError.
Proof.
  assert (Hfirst : ∀ call retries, outcome_of call = Deleted →
            ∃ n, n ≤ retries ∧ outcome_of (call + n) = Deleted
                 ∧ ∀ j, j < n → outcome_of (call + j) = DatabaseError).
  { intros c r Hc. exists 0. rewrite Nat.add_0_r. split_and!; [lia|done|]. intros j Hj. lia. }
  assert (Hnot : ∀ call retries, outcome_of call ≠ Deleted →
            (outcome_of call = DatabaseError → retries = 0) →
            ¬ ∃ n, n ≤ retries ∧ outcome_of (call + n) = Deleted
                   ∧ ∀ j, j < n → outcome_of (call + j) = DatabaseError).
  { intros c r Hc Hr (n & Hn & Hd & Hb). destruct n as [|n].
    - rewrite Nat.add_0_r in Hd. done.
    - specialize (Hb 0). rewrite Nat.add_0_r in Hb.
      assert (r = 0) by (apply Hr, Hb; lia). lia. }
  revert call. by_attempts outcome_of retries IH;
    try (split; [intros _; by apply Hfirst|intros _; by left]);
    try (split; [by intros ?%list_elem_of_singleton
                |intros H; exfalso; revert H; apply Hnot; congruence]).
  rewrite !elem_of_cons, IH. split.
    + intros [?|[?|(n & Hn & Hd & Hb)]]; [done|done|].
      exists (S n). split_and!; [lia|by rewrite <- Nat.add_succ_comm|].
      intros j Hj. destruct j as [|j]; [by rewrite Nat.add_0_r|].
      rewrite <- Nat.add_succ_comm. apply Hb. lia.
    + intros (n & Hn & Hd & Hb). right. right. destruct n as [|n].
      { rewrite Nat.add_0_r in Hd. congruence. }
      exists n. split_and!; [lia|by rewrite Nat.add_succ_comm|].
      intros j Hj. rewrite Nat.add_succ_comm. apply Hb. lia.
Qed.

Lemma emit_iff (call retries : nat) :
  EmitDeleted ∈ delete_inventory_from outcome_of call retries
  ↔ DeleteRow ∈ delete_inventory_from outcome_of call retries.
Proof.
  revert call. by_attempts outcome_of retries IH;
    try (split; intros _; [by left|right; by left]);
    try (split; by intros ?%list_elem_of_singleton).
  rewrite !elem_of_cons, IH. split; (intros [?|[?|?]]; [done|done|by right; right]).
Qed.

Lemma delete_once (call retries : nat) :
  length (List.filter is_delete (delete_inventory_from outcome_of call retries)) ≤ 1.
Proof.
  revert call. by_attempts outcome_of retries IH; cbn; try lia. apply IH.
Qed.

Lemma gives_up (call retries : nat) :
  (∀ j, j ≤ retries → outcome_of (call + j) = DatabaseError) →
  length (List.filter is_sleep (delete_inventory_from outcome_of call retries)) = retries.
Proof.
  revert call. by_attempts outcome_of retries IH; intros Hall;
    try (specialize (Hall 0); rewrite Nat.add_0_r in Hall; rewrite Hall in E; [done|lia]);
    try done.
  cbn. f_equal. apply IH. intros j Hj. rewrite Nat.add_succ_comm. apply Hall. lia.
Qed.

Lemma missing_stops (call retries n : nat) :
  n ≤ retries → outcome_of (call + n) = DoesNotExist →
  (∀ j, j < n → outcome_of (call + j) = DatabaseError) →
  length (List.filter is_sleep (delete_inventory_from outcome_of call retries)) = n
  ∧ LogMissing ∈ delete_inventory_from outcome_of call retries.
Proof.
  revert call retries. induction n as [|n IH]; intros call retries Hn Hmiss Hbefore.
  - rewrite Nat.add_0_r in Hmiss. destruct retries; cbn [delete_inventory_from];
      rewrite Hmiss; (split; [done|by left]).
  - destruct retries as [|retries]; [lia|]. cbn [delete_inventory_from].
    replace (outcome_of call) with DatabaseError
      by (symmetry; rewrite <- (Nat.add_0_r call); apply Hbefore; lia).
    destruct (IH (S call) retries) as [Hs Hl]; [lia|by rewrite Nat.add_succ_comm|..].
    { intros j Hj. rewrite Nat.add_succ_comm. apply Hbefore. lia. }
    cbn. split; [by rewrite Hs|]. right. by right.
Qed.

(** X23.  The retries of [delete_inventory]: the task sleeps 10 seconds
    before each retry and retries at most [retries] times, so it waits at
    most [10 * retries] seconds in all; the inventory is deleted, and the
    deletion announced, exactly when one of the first [retries + 1] attempts
    succeeds after database errors only, and at most once; when every
    attempt meets a database error the task gives up after [retries]
    retries; and an attempt that finds the inventory missing ends the task:
    it is logged, nothing is deleted, and there is no sleep or retry after
    it. *)
Theorem delete_inventory_retries (retries : Z) :
  let fx := delete_inventory outcome_of retries in
  let budget := Z.to_nat retries in
  (slept fx <= 10 * Z.of_nat budget)%Z
  ∧ length (List.filter is_sleep fx) ≤ budget
  ∧ (DeleteRow ∈ fx ↔
     ∃ n, n ≤ budget ∧ outcome_of n = Deleted ∧ ∀ j, j < n → outcome_of j = DatabaseError)
  ∧ (EmitDeleted ∈ fx ↔ DeleteRow ∈ fx)
  ∧ length (List.filter is_delete fx) ≤ 1
  ∧ ((∀ j, j ≤ budget → outcome_of j = DatabaseError) →
     length (List.filter is_sleep fx) = budget
     ∧ slept fx = (10 * Z.of_nat budget)%Z)
  ∧ (∀ n, n ≤ budget → outcome_of n = DoesNotExist →
       (∀ j, j < n → outcome_of j = DatabaseError) →
       LogMissing ∈ fx ∧ DeleteRow ∉ fx ∧ length (List.filter is_sleep fx) = n).
Proof.
  cbn zeta. unfold delete_inventory.
  pose proof (sleeps_bound 0 (Z.to_nat retries)) as H1.
  pose proof (slept_sleeps 0 (Z.to_nat retries)) as H2.
  split_and!.
  - rewrite H2. lia.
  - exact H1.
  - apply (deleted_iff 0).
  - apply emit_iff.
  - apply delete_once.
  - intros Hall. rewrite H2, (gives_up 0 (Z.to_nat retries) Hall). done.
  - intros n Hn Hmiss Hbefore.
    destruct (missing_stops 0 (Z.to_nat retries) n Hn Hmiss Hbefore) as [Hs Hl].
    split_and!; [done| |done].
    intros Hdel. apply (deleted_iff 0) in Hdel as (m & _ & Hd & Hb). cbn in Hd, Hb.
    destruct (Nat.lt_trichotomy m n) as [Hlt|[->|Hgt]].
    + rewrite (Hbefore m Hlt) in Hd. done.
    + congruence.
    + rewrite (Hb n Hgt) in Hmiss. done.
Qed.

End Task.

End DeleteInventoryFacts.

(** ** The migration of the JSON columns *)

Module JsonMigrationFacts.
Import JsonMigration JsonMigrationSpec.

Section Task.
Variable cast : string → option string.
Variable columns : list string.

Lemma cast_columns_lookup cols r new :
  NoDup cols →
  (∀ c text, c ∈ cols → old_columns r !! c = Some text → is_Some (cast text)) →
  ∃ new', cast_columns cast cols r new = Some new'
          ∧ (∀ c, c ∈ cols → new' !! c = old_columns r !! c ≫= cast)
          ∧ (∀ c, c ∉ cols → new' !! c = new !! c).
Proof.
  revert new. induction cols as [|c cols IH]; intros new Hnd Hcast.
  { exists new. split_and!; [done| |done]. intros c Hc. inversion Hc. }
  apply NoDup_cons in Hnd as [Hc Hnd]. cbn [cast_columns].
  assert (Hrest : ∀ c' text, c' ∈ cols → old_columns r !! c' = Some text → is_Some (cast text)).
  { intros c' text Hc'. apply Hcast. by right. }
  destruct (old_columns r !! c) as [text|] eqn:Hold.
  - destruct (Hcast c text) as [value Hvalue]; [by left|done|]. rewrite Hvalue.
    destruct (IH (<[c := value]> new) Hnd Hrest) as (new' & -> & Hin & Hout).
    exists new'. split_and!; [done| |].
    + intros c' Hc'. apply elem_of_cons in Hc' as [->|Hc']; [|by apply Hin].
      rewrite (Hout c Hc), lookup_insert_eq, Hold. cbn. by rewrite Hvalue.
    + intros c' Hc'. apply not_elem_of_cons in Hc' as [Hne Hc'].
      rewrite (Hout c' Hc'). by apply lookup_insert_ne.
  - destruct (IH (delete c new) Hnd Hrest) as (new' & -> & Hin & Hout).
    exists new'. split_and!; [done| |].
    + intros c' Hc'. apply elem_of_cons in Hc' as [->|Hc']; [|by apply Hin].
      by rewrite (Hout c Hc), lookup_delete_eq, Hold.
    + intros c' Hc'. apply not_elem_of_cons in Hc' as [Hne Hc'].
      rewrite (Hout c' Hc'). by apply lookup_delete_ne.
Qed.

Lemma where_clause_ext i r r' :
  pk r' = pk r → old_columns r' = old_columns r →
  where_clause columns i r' = where_clause columns i r.
Proof. unfold where_clause, in_batch, is_not_null. by intros -> ->. Qed.

(** A row that a batch leaves alone is selected below the end of the batch
    when it was selected below its start. *)
Lemma selected_below_skip i r :
  (0 <= i)%Z → where_clause columns i r = false →
  selected_below columns (i + batchsize) r = selected_below columns i r.
Proof.
  unfold where_clause, selected_below, in_batch. intros Hi.
  destruct columns as [|first others]; [done|].
  intros H. apply orb_false_iff in H as [Hfirst ->]. rewrite !andb_false_r, !orb_false_r.
  destruct (is_not_null r first); [|by rewrite !andb_false_r].
  rewrite !andb_true_r in *. destruct (Z.leb_spec 0 (pk r)); [|done]. cbn [andb].
  assert (Hb : (0 < batchsize)%Z) by done.
  apply andb_false_iff in Hfirst as [H1|H1].
  - apply Z.leb_gt in H1.
    replace (pk r <? i)%Z with true by (symmetry; apply Z.ltb_lt; lia).
    replace (pk r <? i + batchsize)%Z with true by (symmetry; apply Z.ltb_lt; lia).
    done.
  - apply Z.ltb_ge in H1.
    replace (pk r <? i)%Z with false by (symmetry; apply Z.ltb_ge; lia).
    replace (pk r <? i + batchsize)%Z with false by (symmetry; apply Z.ltb_ge; lia).
    done.
Qed.

(** A row that a batch updates is selected below the end of the batch. *)
Lemma selected_below_hit i r :
  (0 <= i)%Z → where_clause columns i r = true →
  selected_below columns (i + batchsize) r = true.
Proof.
  unfold where_clause, selected_below, in_batch. intros Hi.
  destruct columns as [|first others]; [done|].
  assert (Hb : (0 < batchsize)%Z) by done.
  intros H. apply orb_true_iff in H as [H|H].
  - apply andb_true_iff in H as [H ->]. apply andb_true_iff in H as [Hlo Hhi].
    apply Z.leb_le in Hlo. rewrite Hhi.
    replace (0 <=? pk r)%Z with true by (symmetry; apply Z.leb_le; lia). done.
  - rewrite H. replace (0 <? i + batchsize)%Z with true by (symmetry; apply Z.ltb_lt; lia).
    apply orb_true_r.
Qed.

(** One batch. *)
Lemma update_batch_copied i rows current :
  NoDup columns → (0 <= i)%Z →
  Forall2 (copied cast columns i) rows current →
  (∀ r, r ∈ rows → where_clause columns i r = true → castable cast columns r) →
  ∃ current', update_batch cast columns i current = Some current'
              ∧ Forall2 (copied cast columns (i + batchsize)) rows current'.
Proof.
  intros Hnd Hi Hall. induction Hall as [|r rc rows current Hr Hall IH]; intros Hcast.
  { exists []. by split. }
  destruct IH as (current' & Hup & Hcopied); [intros x Hx; apply Hcast; by right|].
  cbn [update_batch]. rewrite Hup.
  destruct Hr as (Hpk & Hold & Hout & Hin).
  rewrite (where_clause_ext i r rc Hpk Hold).
  destruct (where_clause columns i r) eqn:Hcond.
  - destruct (cast_columns_lookup columns rc (new_columns rc) Hnd)
      as (new' & -> & Hin' & Hout').
    { rewrite Hold. apply Hcast; [by left|done]. }
    cbn. eexists. split; [done|]. constructor; [|done].
    split_and!; [done|done| |].
    + intros c Hc. cbn. by rewrite (Hout' c Hc), Hout.
    + intros c Hc. cbn. by rewrite (Hin' c Hc), Hold, (selected_below_hit i r Hi Hcond).
  - eexists. split; [done|]. constructor; [|done].
    split_and!; [done|done|done|].
    intros c Hc. by rewrite (Hin c Hc), (selected_below_skip i r Hi Hcond).
Qed.

(** A batch that runs selects rows that the run selects. *)
Lemma where_clause_selected i rows r :
  (0 <= i)%Z → (∃ x, x ∈ rows ∧ (i <= pk x)%Z) →
  where_clause columns i r = true → selected columns rows r = true.
Proof.
  unfold where_clause, selected, in_batch. intros Hi (x & Hx & Hle).
  destruct columns as [|first others]; [done|].
  intros H. apply orb_true_iff in H as [H|H].
  - apply andb_true_iff in H as [H ->]. apply andb_true_iff in H as [Hlo _].
    apply Z.leb_le in Hlo.
    replace (0 <=? pk r)%Z with true by (symmetry; apply Z.leb_le; lia). done.
  - rewrite H, andb_true_r.
    replace (existsb (λ x, (0 <=? pk x)%Z) rows) with true; [apply orb_true_r|].
    symmetry. apply existsb_exists. exists x. split; [by apply list_elem_of_In|].
    apply Z.leb_le. lia.
Qed.

Lemma exists_key_from i rows current :
  Forall2 (copied cast columns i) rows current →
  existsb (λ r, (i <=? pk r)%Z) current = true ↔ ∃ x, x ∈ rows ∧ (i <= pk x)%Z.
Proof.
  intros Hall. rewrite existsb_exists. split.
  - intros (rc & Hrc & Hle). apply Z.leb_le in Hle.
    apply list_elem_of_In, list_elem_of_lookup in Hrc as [k Hk].
    destruct (Forall2_lookup_r _ _ _ _ _ Hall Hk) as (r & Hr & Hcop).
    destruct Hcop as (Hpk & _). exists r. split; [by eapply list_elem_of_lookup_2|lia].
  - intros (r & Hr & Hle). apply list_elem_of_lookup in Hr as [k Hk].
    destruct (Forall2_lookup_l _ _ _ _ _ Hall Hk) as (rc & Hrc & Hcop).
    destruct Hcop as (Hpk & _). exists rc.
    split; [by eapply list_elem_of_In, list_elem_of_lookup_2|]. apply Z.leb_le. lia.
Qed.

(** The loop over the batches ends, with every batch applied; it runs a
    batch only when a key is not below its start. *)
Lemma copy_batches_copied fuel i rows current :
  NoDup columns → (0 <= i)%Z →
  Forall2 (copied cast columns i) rows current →
  (∀ r, r ∈ rows → selected columns rows r = true → castable cast columns r) →
  (∀ r, r ∈ rows → (pk r < i + Z.of_nat fuel * batchsize)%Z) →
  ∃ j current', copy_batches cast columns (S fuel) i current = Finished current'
                ∧ Forall2 (copied cast columns j) rows current'
                ∧ (∀ r, r ∈ rows → (pk r < j)%Z)
                ∧ (i <= j)%Z
                ∧ ((i < j)%Z → ∃ x, x ∈ rows ∧ (i <= pk x)%Z).
Proof.
  intros Hnd. revert i current. induction fuel as [|fuel IH];
    intros i current Hi Hall Hcast Hbound.
  - cbn [copy_batches].
    assert (Hnone : existsb (λ r, (i <=? pk r)%Z) current = false).
    { destruct (existsb _ current) eqn:E; [|done].
      apply (exists_key_from i rows current Hall) in E as (r & Hr & Hle).
      specialize (Hbound r Hr). lia. }
    rewrite Hnone. exists i, current. split_and!; [done|done| |lia|lia].
    intros r Hr. specialize (Hbound r Hr). lia.
  - cbn [copy_batches]. fold (copy_batches cast columns (S fuel)).
    destruct (existsb (λ r, (i <=? pk r)%Z) current) eqn:E.
    + pose proof (proj1 (exists_key_from i rows current Hall) E) as Hkey.
      destruct (update_batch_copied i rows current Hnd Hi Hall)
        as (current' & -> & Hall').
      { intros r Hr Hw. apply Hcast; [done|]. by eapply where_clause_selected. }
      destruct (IH (i + batchsize)%Z current') as (j & cur & Hrun & Hcop & Hlt & Hle & _);
        [unfold batchsize; lia|done|done| |].
      { intros r Hr. specialize (Hbound r Hr). lia. }
      exists j, cur. split_and!; [done|done|done| |done].
      unfold batchsize in *. lia.
    + exists i, current. split_and!; [done|done| |lia|lia].
      intros r Hr. destruct (Z.ltb_spec (pk r) i) as [|Hge]; [done|].
      assert (existsb (λ r, (i <=? pk r)%Z) current = true); [|congruence].
      apply (exists_key_from i rows current Hall). by exists r.
Qed.

Lemma dropped_lookup (old : gmap string string) c :
  foldr delete old columns !! c = if bool_decide (c ∈ columns) then None else old !! c.
Proof.
  induction columns as [|c' cols IH]; cbn [foldr].
  { rewrite bool_decide_eq_false_2; [done|]. inversion 1. }
  destruct (decide (c = c')) as [->|Hne].
  - rewrite lookup_delete_eq, bool_decide_eq_true_2; [done|by left].
  - rewrite lookup_delete_ne by done. rewrite IH.
    destruct (decide (c ∈ cols)).
    + rewrite !bool_decide_eq_true_2; [done|by right|done].
    + rewrite !bool_decide_eq_false_2; [done| |done].
      intros H. apply elem_of_cons in H as [?|?]; done.
Qed.

(** Once the loop is over, the rows selected below its end are the rows the
    run selects. *)
Lemma selected_below_end j rows r :
  (0 <= j)%Z → (∀ x, x ∈ rows → (pk x < j)%Z) →
  ((0 < j)%Z → ∃ x, x ∈ rows ∧ (0 <= pk x)%Z) →
  r ∈ rows → selected_below columns j r = selected columns rows r.
Proof.
  intros Hj Hlt Hran Hr. unfold selected_below, selected.
  destruct columns as [|first others]; [done|].
  pose proof (Hlt r Hr) as Hrj. apply Z.ltb_lt in Hrj. rewrite Hrj, andb_true_r.
  f_equal. f_equal. destruct (existsb (λ x, (0 <=? pk x)%Z) rows) eqn:E.
  - apply existsb_exists in E as (x & Hx & Hle). apply Z.leb_le in Hle.
    apply list_elem_of_In in Hx. specialize (Hlt x Hx). apply Z.ltb_lt. lia.
  - apply Z.ltb_ge. destruct (Z.le_gt_cases j 0) as [|Hpos]; [done|].
    destruct (Hran Hpos) as (x & Hx & Hle).
    assert (existsb (λ x, (0 <=? pk x)%Z) rows = true); [|congruence].
    apply existsb_exists. exists x. split; [by apply list_elem_of_In|by apply Z.leb_le].
Qed.

(** X24.  [migrate_jsonfield] ends and tells which rows it copies: when the
    column names are distinct and not none, the texts it casts are valid
    JSON, and the fuel covers the batches up to the largest key, the task
    returns, and every row is left without its old columns, with the casts
    of its old values in the new columns when it is selected and with its
    new columns untouched otherwise; gaps between the keys do not stop the
    loop.  The condition of the [update] reads
    [(key in the batch and first old column not NULL) or another old column
    not NULL]: a row whose key is not negative is selected exactly when one
    of its old values is not NULL, and a row with a negative key exactly
    when a batch runs at all (some key is not negative) and one of its old
    columns other than the first is not NULL; a row with a negative key and
    a value in the first old column only loses it. *)
Theorem migration_copies_selected_rows (fuel : nat) (rows : list Row) :
  columns ≠ [] →
  NoDup columns →
  (∀ r, r ∈ rows → selected columns rows r = true → castable cast columns r) →
  (∀ r, r ∈ rows → (pk r < Z.of_nat fuel * batchsize)%Z) →
  (∃ rows', migrate_jsonfield cast columns (S fuel) true rows = Finished rows'
            ∧ Forall2 (migrated cast columns rows) rows rows')
  ∧ (∀ r, r ∈ rows → (0 <= pk r)%Z → selected columns rows r = has_old_data columns r)
  ∧ (∀ r, r ∈ rows → (pk r < 0)%Z →
       selected columns rows r
       = existsb (λ x, (0 <=? pk x)%Z) rows && existsb (is_not_null r) (tail columns)).
Proof.
  intros Hne Hnd Hcast Hbound. split_and!.
  - unfold migrate_jsonfield. cbn [negb]. rewrite bool_decide_eq_true_2 by done.
    destruct (copy_batches_copied fuel 0 rows rows Hnd)
      as (j & current & -> & Hall & Hj & Hle & Hran);
      [done| |done|intros r Hr; specialize (Hbound r Hr); lia|].
    { apply Forall_Forall2_diag, Forall_forall. intros r _.
      split_and!; [done|done|done|]. intros c Hc.
      replace (selected_below columns 0 r) with false; [done|].
      unfold selected_below. destruct columns as [|first others]; [done|].
      cbn [Z.ltb Z.compare andb orb].
      destruct (0 <=? pk r)%Z eqn:E0; [|done]. apply Z.leb_le in E0.
      replace (pk r <? 0)%Z with false by (symmetry; apply Z.ltb_ge; lia). done. }
    eexists. split; [done|]. apply Forall2_fmap_r.
    apply Forall2_same_length_lookup. split; [by eapply Forall2_length|].
    intros k r rc Hr Hrc.
    destruct (Forall2_lookup_lr _ _ _ _ _ _ Hall Hr Hrc) as (Hpk & Hold & Hout & Hin).
    unfold migrated, drop_old_columns. cbn. split_and!.
    + done.
    + intros c Hc. rewrite dropped_lookup. by rewrite bool_decide_eq_true_2.
    + intros c Hc. rewrite dropped_lookup, bool_decide_eq_false_2 by done.
      by rewrite Hold, Hout.
    + intros c Hc. rewrite (Hin c Hc).
      by rewrite (selected_below_end j rows r Hle Hj Hran (list_elem_of_lookup_2 _ _ _ Hr)).
  - intros r Hr Hpk. unfold selected, has_old_data.
    destruct columns as [|first others]; [done|]. cbn [existsb].
    replace (0 <=? pk r)%Z with true by (symmetry; by apply Z.leb_le).
    replace (existsb (λ x, (0 <=? pk x)%Z) rows) with true; [done|].
    symmetry. apply existsb_exists. exists r.
    split; [by apply list_elem_of_In|by apply Z.leb_le].
  - intros r Hr Hpk. unfold selected.
    destruct columns as [|first others]; [done|]. cbn [tail].
    replace (0 <=? pk r)%Z with false by (symmetry; by apply Z.leb_gt). done.
Qed.

End Task.

Lemma migration_copies_selected_rows_witness :
  (∃ rows', migrate_jsonfield (λ text, Some text) ["extra_vars"; "artifacts"] 4 true
              [job_25000; job_7; job_empty; job_minus_5; job_minus_6] = Finished rows'
            ∧ Forall2 (migrated (λ text, Some text) ["extra_vars"; "artifacts"]
                         [job_25000; job_7; job_empty; job_minus_5; job_minus_6])
                      [job_25000; job_7; job_empty; job_minus_5; job_minus_6] rows')
  ∧ selected ["extra_vars"; "artifacts"]
      [job_25000; job_7; job_empty; job_minus_5; job_minus_6] job_minus_5 = true
  ∧ selected ["extra_vars"; "artifacts"]
      [job_25000; job_7; job_empty; job_minus_5; job_minus_6] job_minus_6 = false.
Proof.
  destruct (migration_copies_selected_rows (λ text, Some text) ["extra_vars"; "artifacts"] 3
              [job_25000; job_7; job_empty; job_minus_5; job_minus_6]) as (H1 & _ & H3).
  - discriminate.
  - apply (bool_decide_unpack _). vm_compute. exact I.
  - intros r _ _ c text _ _. by eexists.
  - intros r Hr. repeat (apply elem_of_cons in Hr as [->|Hr]; [reflexivity|]).
    inversion Hr.
  - split; [exact H1|]. split.
    + rewrite H3; [reflexivity|apply (list_elem_of_lookup_2 _ 3); reflexivity|reflexivity].
    + rewrite H3; [reflexivity|apply (list_elem_of_lookup_2 _ 4); reflexivity|reflexivity].
Defined.

End JsonMigrationFacts.

(** ** The periodic scheduler *)

Module SchedulerFacts.
Import Scheduler.

Section Task.
Variable update_raises : Schedule → bool.
Variable create_unified_job : Schedule → option Z.
Variable signal_start : Z → option bool.
Variable invalid_license : option string.

Abbreviation spawned := (spawn create_unified_job signal_start invalid_license).
Abbreviation due :=
  (start_due update_raises create_unified_job signal_start invalid_license).
Abbreviation scheduler :=
  (periodic_scheduler update_raises create_unified_job signal_start invalid_license).

(** What one schedule can bring about. *)
Lemma spawn_cases schedule :
  spawned schedule = [WarnBlocked (template_id (unified_job_template schedule))]
    ∧ cache_timeout_blocked (unified_job_template schedule) = true
  ∨ spawned schedule = [FailedCreate (schedule_id schedule); LogException]
    ∧ create_unified_job schedule = None
  ∨ ∃ job, cache_timeout_blocked (unified_job_template schedule) = false
           ∧ create_unified_job schedule = Some job
           ∧ ((∃ e, invalid_license = Some e
                    ∧ spawned schedule
                      = [CreateJob (schedule_id schedule) job; SaveFailed job e;
                         EmitFailed job; LogException])
              ∨ (invalid_license = None
                 ∧ ∃ rest, spawned schedule
                           = CreateJob (schedule_id schedule) job :: rest
                   ∧ (rest = [FailedStart job; LogException]
                      ∨ rest = [SignalStart job; EmitSchedulesChanged (schedule_id schedule)]
                      ∨ rest = [SignalStart job; SaveFailed job could_not_start;
                                EmitFailed job;
                                EmitSchedulesChanged (schedule_id schedule)]))).
Proof.
  unfold spawn.
  destruct (cache_timeout_blocked (unified_job_template schedule)); [by left|right].
  destruct (create_unified_job schedule) as [job|]; [right|by left].
  exists job. split_and!; [done|done|].
  destruct invalid_license as [e|]; [left; eauto|right]. split; [done|].
  destruct (signal_start job) as [[|]|]; eexists; (split; [done|]); auto.
Qed.

Lemma refresh_effects old_schedules x :
  x ∈ (refresh update_raises old_schedules).1 →
  ∃ sid, x = UpdateComputedFields sid ∨ x = FailedUpdate sid.
Proof.
  induction old_schedules as [|schedule rest IH]; cbn [refresh]; [inversion 1|].
  destruct (update_raises schedule).
  - intros ->%list_elem_of_singleton. eauto.
  - destruct (refresh update_raises rest) as [fx o]. cbn [fst] in *.
    intros [->|H]%elem_of_cons; eauto.
Qed.

(** The effects of the loop over the due schedules come from the schedules
    it reaches. *)
Lemma due_effects schedules x :
  x ∈ (due schedules).1 →
  (∃ sid, x = UpdateComputedFields sid ∨ x = FailedUpdate sid)
  ∨ ∃ schedule, schedule ∈ schedules ∧ x ∈ spawned schedule.
Proof.
  induction schedules as [|schedule rest IH]; cbn [start_due]; [inversion 1|].
  destruct (update_raises schedule).
  { intros ->%list_elem_of_singleton. left. eauto. }
  destruct (due rest) as [fx o]. cbn [fst] in *.
  intros [->|H]%elem_of_cons; [left; eauto|].
  apply elem_of_app in H as [H|H].
  - right. exists schedule. split; [by left|done].
  - destruct (IH H) as [?|(sch & Hin & Hx)]; [by left|right].
    exists sch. split; [by right|done].
Qed.

Lemma scheduler_effects old_schedules schedules x :
  x ∈ (scheduler old_schedules schedules).1 →
  x = SaveLastRun
  ∨ (∃ sid, x = UpdateComputedFields sid ∨ x = FailedUpdate sid)
  ∨ ∃ schedule, schedule ∈ schedules ∧ x ∈ spawned schedule.
Proof.
  unfold periodic_scheduler.
  pose proof (refresh_effects old_schedules x) as Hold.
  destruct (refresh update_raises old_schedules) as [fx o]. cbn [fst] in Hold.
  destruct o.
  - pose proof (due_effects schedules x) as Hdue.
    destruct (due schedules) as [fx' o']. cbn [fst] in *.
    intros [->|H]%elem_of_cons; [by left|right].
    apply elem_of_app in H as [H|H]; [left; by apply Hold|by apply Hdue].
  - cbn [fst]. intros [->|H]%elem_of_cons; [by left|right; left; by apply Hold].
Qed.

Lemma spawned_in_due schedules schedule x :
  (due schedules).2 = Returned → schedule ∈ schedules → x ∈ spawned schedule →
  x ∈ (due schedules).1 ∧ UpdateComputedFields (schedule_id schedule) ∈ (due schedules).1.
Proof.
  induction schedules as [|s rest IH]; cbn [start_due]; [intros _ H; inversion H|].
  destruct (update_raises s); [done|].
  destruct (due rest) as [fx o]. cbn [fst snd] in *.
  intros Ho [->|Hin]%elem_of_cons Hx.
  - split; [right; apply elem_of_app; by left|by left].
  - destruct (IH Ho Hin Hx) as [H1 H2].
    split; right; apply elem_of_app; by right.
Qed.

(** X25.  Scheduled jobs: a job is created only for a due schedule whose
    template is not blocked by its cache timeout, never for a schedule that
    is only refreshed; a job is started only when the license is valid;
    under an invalid license every job created is saved as failed with the
    text of the license error and announced as failed, and no schedule
    change is announced. *)
Theorem scheduler_starts_only_licensed_jobs (old_schedules schedules : list Schedule)
    (x : effect) :
  x ∈ (scheduler old_schedules schedules).1 →
  match x with
  | CreateJob sid job =>
      (∃ schedule, schedule ∈ schedules ∧ schedule_id schedule = sid
                   ∧ cache_timeout_blocked (unified_job_template schedule) = false
                   ∧ create_unified_job schedule = Some job)
      ∧ ∀ e, invalid_license = Some e →
             (scheduler old_schedules schedules).2 = Returned →
             SaveFailed job e ∈ (scheduler old_schedules schedules).1
             ∧ EmitFailed job ∈ (scheduler old_schedules schedules).1
  | SignalStart job | FailedStart job =>
      invalid_license = None
      ∧ ∃ schedule, schedule ∈ schedules ∧ create_unified_job schedule = Some job
                    ∧ cache_timeout_blocked (unified_job_template schedule) = false
  | EmitSchedulesChanged sid => invalid_license = None
  | SaveFailed job explanation =>
      invalid_license = Some explanation
      ∨ (invalid_license = None ∧ explanation = could_not_start
         ∧ signal_start job = Some false)
  | _ => True
  end.
Proof.
  intros Hx.
  assert (Hcases : ∀ schedule, schedule ∈ schedules → x ∈ spawned schedule →
            match x with
            | CreateJob sid job =>
                schedule_id schedule = sid
                ∧ cache_timeout_blocked (unified_job_template schedule) = false
                ∧ create_unified_job schedule = Some job
                ∧ ∀ e, invalid_license = Some e →
                       SaveFailed job e ∈ spawned schedule
                       ∧ EmitFailed job ∈ spawned schedule
            | SignalStart job | FailedStart job =>
                invalid_license = None ∧ create_unified_job schedule = Some job
                ∧ cache_timeout_blocked (unified_job_template schedule) = false
            | EmitSchedulesChanged sid => invalid_license = None
            | SaveFailed job explanation =>
                invalid_license = Some explanation
                ∨ (invalid_license = None ∧ explanation = could_not_start
                   ∧ signal_start job = Some false)
            | _ => True
            end).
  { intros schedule _ Hin.
    assert (Hstart : ∀ job, create_unified_job schedule = Some job →
              invalid_license = None →
              SaveFailed job could_not_start ∈ spawned schedule →
              signal_start job = Some false).
    { intros job Hc Hl. unfold spawn.
      destruct (cache_timeout_blocked _); [by intros ?%list_elem_of_singleton|].
      rewrite Hc, Hl. destruct (signal_start job) as [[|]|]; [|done|]; cbn;
        intros H; repeat (apply elem_of_cons in H as [H|H]; [discriminate H|]); inversion H. }
    destruct (spawn_cases schedule)
      as [[Heq Hb]|[[Heq Hc]|(job & Hb & Hc & [(e & Hl & Heq)|(Hl & rest & Heq & Hrest)])]].
    - rewrite Heq in Hin. by apply list_elem_of_singleton in Hin as ->.
    - rewrite Heq in Hin.
      repeat (apply elem_of_cons in Hin as [->|Hin]; [done|]). inversion Hin.
    - rewrite Heq. rewrite Heq in Hin.
      apply elem_of_cons in Hin as [->|Hin].
      { split_and!; [done|done|done|]. intros e' He'. rewrite Hl in He'. injection He' as <-.
        split; [right; by left|right; right; by left]. }
      apply elem_of_cons in Hin as [->|Hin]; [by left|].
      repeat (apply elem_of_cons in Hin as [->|Hin]; [done|]). inversion Hin.
    - pose proof (Hstart job Hc Hl) as Hfalse. rewrite Heq in Hin, Hfalse.
      apply elem_of_cons in Hin as [->|Hin].
      { split_and!; [done|done|done|]. intros e' He'. congruence. }
      destruct Hrest as [->|[->| ->]];
        repeat (apply elem_of_cons in Hin as [->|Hin];
                [first [done | by split_and! | right; split_and!; [done|done|];
                                               apply Hfalse; right; right; by left]|]);
        inversion Hin. }
  destruct (scheduler_effects old_schedules schedules x Hx)
    as [->|[(sid & [-> | ->])|(schedule & Hin & Hsp)]]; [done|done|done|].
  specialize (Hcases schedule Hin Hsp).
  destruct x; try done.
  - destruct Hcases as (H1 & H2 & H3 & H4). split; [by exists schedule|].
    intros e He Hret. destruct (H4 e He) as [Hs Hf].
    assert (Hdue : (due schedules).2 = Returned
                   ∧ ∀ y, y ∈ (due schedules).1 → y ∈ (scheduler old_schedules schedules).1).
    { revert Hret. unfold periodic_scheduler.
      destruct (refresh update_raises old_schedules) as [fx o]. destruct o; [|done].
      destruct (due schedules) as [fx' o']. cbn [fst snd]. intros ->. split; [done|].
      intros y Hy. right. apply elem_of_app. by right. }
    destruct Hdue as [Hdue Hsub].
    split; apply Hsub; by apply (spawned_in_due schedules schedule).
  - destruct Hcases as (H1 & H2 & H3). split; [done|]. by exists schedule.
  - destruct Hcases as (H1 & H2 & H3). split; [done|]. by exists schedule.
Qed.

End Task.

Lemma scheduler_starts_only_licensed_jobs_witness :
  (None : option string) = None
  ∧ ∃ schedule, schedule ∈ [TasksSpec.nightly]
                ∧ Some 41%Z = Some 41%Z
                ∧ cache_timeout_blocked (unified_job_template schedule) = false.
Proof.
  apply (scheduler_starts_only_licensed_jobs (λ _, false) (λ _, Some 41%Z) (λ _, Some true) None
           [] [TasksSpec.nightly] (SignalStart 41)).
  apply (list_elem_of_lookup_2 _ 3). reflexivity.
Defined.

End SchedulerFacts.

(** ** Notifications *)

Module NotificationFacts.
Import Notifications.

Section Task.
Variable send : Notification → Z + string.
Variable log_lifecycle_raises : Notification → option string.
Variable save_raises : Notification → bool.

Abbreviation attempted := (attempt send log_lifecycle_raises).
Abbreviation notified := (notify send log_lifecycle_raises save_raises).
Abbreviation task := (send_notifications send log_lifecycle_raises save_raises).

(** What the [try] leaves: a success as sent, or a failure with its text. *)
Lemma attempt_cases for_job n :
  let '(fx, n', fields) := attempted for_job n in
  id n' = id n
  ∧ Forall (λ x, x = Send (id n) ∨ x = LogLifecycle ∨ x = LogSendFailed) fx
  ∧ ((∃ sent, send n = inl sent
              ∧ (for_job = true → log_lifecycle_raises n = None)
              ∧ n' = set_notifications_sent sent (set_status "successful" n)
              ∧ fields = ["status"; "notifications_sent"])
     ∨ (∃ e, (send n = inr e
              ∨ (for_job = true ∧ log_lifecycle_raises n = Some e
                 ∧ ∃ sent, send n = inl sent))
             ∧ status n' = "failed" ∧ error n' = e
             ∧ fields = ["status"; "notifications_sent"; "error"])).
Proof.
  unfold attempt. destruct (send n) as [sent|e] eqn:Hsend.
  - destruct for_job.
    + destruct (log_lifecycle_raises n) as [e|] eqn:Hlog; cbn.
      * split_and!; [done|repeat (constructor; [auto|]); constructor|]. right. exists e.
        split_and!; try done. right. eauto.
      * split_and!; [done|repeat (constructor; [auto|]); constructor|]. left. exists sent.
        by split_and!.
    + cbn. split_and!; [done|repeat (constructor; [auto|]); constructor|]. left. exists sent.
      by split_and!.
  - cbn. split_and!; [done|repeat (constructor; [auto|]); constructor|]. right. exists e.
    split_and!; try done. by left.
Qed.

Lemma notify_effects for_job n x :
  x ∈ notified for_job n →
  x = Send (id n) ∨ x = LogLifecycle ∨ x = LogSendFailed
  ∨ x = FailedSave (id n)
  ∨ ∃ row fields, x = Save row fields ∧ (attempted for_job n) = (
      (attempted for_job n).1.1, row, fields).
Proof.
  unfold notify. pose proof (attempt_cases for_job n) as H.
  destruct (attempted for_job n) as [[fx n'] fields]. destruct H as (Hid & Hfx & _).
  intros [Hx|Hx]%elem_of_app.
  - rewrite Forall_forall in Hfx. destruct (Hfx x Hx) as [?|[?|?]]; auto.
  - apply list_elem_of_singleton in Hx as ->. destruct (save_raises n').
    + rewrite Hid. auto.
    + right. right. right. right. by exists n', fields.
Qed.

Lemma elem_of_selected (ids : list Z) (table : list Notification) n :
  n ∈ List.filter (λ n, bool_decide (id n ∈ ids)) table ↔ n ∈ table ∧ id n ∈ ids.
Proof.
  rewrite list_elem_of_In, filter_In, <- list_elem_of_In. by rewrite bool_decide_eq_true.
Qed.

(** X26.  [send_notifications] isolates failures: given a list (and a job
    that exists, when a job is named), it returns whatever [send] and [save]
    raise; every effect concerns a notification of the list; every
    notification of the list is saved, or its save attempted, after its own
    send; and a row is saved as [successful] with the number sent exactly
    when its send returned (and the job's lifecycle log did not raise), and
    otherwise as [failed] with the text of the exception, [error] being
    among the fields saved. *)
Theorem notifications_are_isolated (ids : list Z) (job_id : option Z) (job_found : bool)
    (table : list Notification) :
  (is_Some job_id → job_found = true) →
  let r := task (Some ids) job_id job_found table in
  let for_job := bool_decide (is_Some job_id) in
  r.2 = Returned
  ∧ (∀ n, n ∈ table → id n ∈ ids →
       FailedSave (id n) ∈ r.1
       ∨ ∃ row fields, Save row fields ∈ r.1 ∧ id row = id n)
  ∧ (∀ i, Send i ∈ r.1 ∨ FailedSave i ∈ r.1 → i ∈ ids ∧ ∃ n, n ∈ table ∧ id n = i)
  ∧ (∀ row fields, Save row fields ∈ r.1 →
       ∃ n, n ∈ table ∧ id n ∈ ids ∧ id row = id n
            ∧ ((status row = "successful"
                ∧ send n = inl (notifications_sent row)
                ∧ (for_job = true → log_lifecycle_raises n = None)
                ∧ error row = error n
                ∧ fields = ["status"; "notifications_sent"])
               ∨ (status row = "failed"
                  ∧ (send n = inr (error row)
                     ∨ (for_job = true ∧ log_lifecycle_raises n = Some (error row)))
                  ∧ fields = ["status"; "notifications_sent"; "error"]))).
Proof.
  intros Hjob. cbn zeta. unfold send_notifications.
  assert (Hguard : bool_decide (is_Some job_id) && negb job_found = false).
  { destruct (bool_decide (is_Some job_id)) eqn:E; [|done].
    apply bool_decide_eq_true in E. by rewrite (Hjob E). }
  rewrite Hguard. cbn [fst snd].
  set (for_job := bool_decide (is_Some job_id)).
  set (selected := List.filter (λ n, bool_decide (id n ∈ ids)) table).
  assert (Hin : ∀ x, x ∈ (if for_job then [AddToJob (id <$> selected)] else [])
                         ++ concat (notified for_job <$> selected) →
                     (∃ l, x = AddToJob l)
                     ∨ ∃ n, n ∈ table ∧ id n ∈ ids ∧ x ∈ notified for_job n).
  { intros x [Hx|Hx]%elem_of_app.
    - left. destruct for_job; [|inversion Hx]. apply list_elem_of_singleton in Hx. eauto.
    - right. apply SettingCacheFacts.elem_of_concat in Hx as (l & Hx & Hl).
      apply list_elem_of_fmap in Hl as (n & -> & Hn). apply elem_of_selected in Hn as [? ?].
      by exists n. }
  assert (Hout : ∀ n x, n ∈ table → id n ∈ ids → x ∈ notified for_job n →
                        x ∈ (if for_job then [AddToJob (id <$> selected)] else [])
                            ++ concat (notified for_job <$> selected)).
  { intros n x Hn Hid Hx. apply elem_of_app. right.
    apply SettingCacheFacts.elem_of_concat. exists (notified for_job n). split; [done|].
    apply list_elem_of_fmap_2. by apply elem_of_selected. }
  split_and!.
  - done.
  - intros n Hn Hid. unfold notify in Hout.
    pose proof (attempt_cases for_job n) as Hc. specialize (Hout n).
    destruct (attempted for_job n) as [[fx n'] fields]. destruct Hc as (Hid' & _ & _).
    destruct (save_raises n') eqn:Hs.
    + left. apply (Hout _ Hn Hid). apply elem_of_app. right. rewrite Hid'. by left.
    + right. exists n', fields. split; [|done]. apply (Hout _ Hn Hid).
      apply elem_of_app. right. by left.
  - intros i Hi.
    assert (Hn : ∃ n, n ∈ table ∧ id n ∈ ids
                      ∧ (Send i ∈ notified for_job n ∨ FailedSave i ∈ notified for_job n)).
    { destruct Hi as [Hi|Hi]; destruct (Hin _ Hi) as [[l Hl]|(n & ? & ? & ?)];
        try discriminate Hl; exists n; auto. }
    destruct Hn as (n & Hn & Hid & Hx).
    assert (i = id n) as ->.
    { destruct Hx as [Hx|Hx]; apply notify_effects in Hx
        as [Hx|[Hx|[Hx|[Hx|(row & fields & Hx & _)]]]]; congruence. }
    split; [done|by exists n].
  - intros row fields Hsave.
    destruct (Hin _ Hsave) as [[l Hl]|(n & Hn & Hid & Hx)]; [discriminate Hl|].
    exists n. split_and!; [done|done| |].
    + apply notify_effects in Hx as [Hx|[Hx|[Hx|[Hx|(row' & fields' & Hx & Heq)]]]];
        try discriminate Hx.
      injection Hx as <- <-. pose proof (attempt_cases for_job n) as Hc.
      rewrite Heq in Hc. by destruct Hc as (? & _).
    + apply notify_effects in Hx as [Hx|[Hx|[Hx|[Hx|(row' & fields' & Hx & Heq)]]]];
        try discriminate Hx.
      injection Hx as <- <-. pose proof (attempt_cases for_job n) as Hc.
      rewrite Heq in Hc. destruct Hc as (_ & _ & [(sent & Hs & Hl & -> & ->)|(e & He & Hst & Her & ->)]).
      * left. by split_and!.
      * right. split_and!; [done| |done]. rewrite Her.
        destruct He as [?|(? & ? & _)]; auto.
Qed.

End Task.

Lemma notifications_are_isolated_witness :
  (send_notifications (λ n, if bool_decide (id n = 1%Z) then inr "timeout" else inl 3%Z)
     (λ _, None) (λ _, false) (Some [1%Z; 2%Z]) None false
     [TasksSpec.pending_1; TasksSpec.pending_2]).2 = Returned.
Proof.
  refine (proj1 (notifications_are_isolated _ _ _ [1%Z; 2%Z] None false
                   [TasksSpec.pending_1; TasksSpec.pending_2] _)).
  intros [j Hj]. discriminate Hj.
Defined.

End NotificationFacts.

(** ** Links of the mesh *)

Module ReceptorLinkFacts.
Import ReceptorLinks.

(** X27.  [inspect_established_receptor_connections] only promotes links
    that are being added: with the connection costs at hand it returns;
    every link keeps its two ends; a link changes state only from [adding]
    to [established], and does so exactly when the mesh knows a connection
    from its source to its target; links that are established or being
    removed are left alone; and a second inspection with the same costs
    changes nothing.  Without a link being added it returns the table as it
    is, even when the costs are missing. *)
Theorem links_only_get_established (costs : gmap string (gmap string Z))
    (links : list InstanceLink) :
  ∃ links',
    inspect_established_receptor_connections (Some costs) links = Ok links'
    ∧ Forall2 (λ l l',
         source l' = source l ∧ target l' = target l
         ∧ link_state l'
           = (if bool_decide (link_state l = adding)
                 && bool_decide (is_Some (default ∅ (costs !! source l) !! target l))
              then established else link_state l)) links links'
    ∧ inspect_established_receptor_connections (Some costs) links' = Ok links'
    ∧ (Forall (λ l, link_state l ≠ adding) links →
       inspect_established_receptor_connections None links = Ok links).
Proof.
  set (f := λ l, if bool_decide (link_state l = adding) then inspect_link costs l else l).
  assert (Hform : ∀ l, f l = if bool_decide (link_state l = adding)
                                && bool_decide (is_Some (default ∅ (costs !! source l)
                                                         !! target l))
                             then set_link_state established l else l).
  { intros l. unfold f, inspect_link.
    destruct (decide (link_state l = adding)) as [Ha|Ha].
    - rewrite (bool_decide_eq_true_2 (link_state l = adding) Ha).
      rewrite (bool_decide_eq_false_2 (link_state l = removing)) by congruence.
      rewrite (bool_decide_eq_false_2 (link_state l = established)) by congruence.
      cbn [negb andb]. by destruct (bool_decide (is_Some _)).
    - by rewrite (bool_decide_eq_false_2 (link_state l = adding) Ha). }
  assert (Hf : ∀ l, source (f l) = source l ∧ target (f l) = target l
                    ∧ link_state (f l)
                      = (if bool_decide (link_state l = adding)
                            && bool_decide (is_Some (default ∅ (costs !! source l)
                                                     !! target l))
                         then established else link_state l)).
  { intros l. rewrite Hform. by destruct (_ && _). }
  assert (Hff : ∀ l, f (f l) = f l).
  { intros l. rewrite (Hform l). destruct (_ && _) eqn:E; [|by rewrite Hform, E].
    rewrite Hform. cbn [link_state set_link_state].
    by rewrite (bool_decide_eq_false_2 (established = adding)). }
  assert (Hrun : ∀ ls, inspect_established_receptor_connections (Some costs) ls
                       = Ok (f <$> ls)).
  { intros ls. unfold inspect_established_receptor_connections.
    destruct (List.filter _ ls) eqn:E; [|done]. f_equal. symmetry.
    transitivity (id <$> ls); [|apply list_fmap_id].
    apply list_fmap_ext. intros ? l Hl. unfold f.
    destruct (decide (link_state l = adding)) as [Ha|Ha].
    - exfalso. assert (Hin : In l (List.filter (λ l, bool_decide (link_state l = adding)) ls)).
      { apply filter_In. split; [by eapply list_elem_of_In, list_elem_of_lookup_2|].
        by apply bool_decide_eq_true. }
      by rewrite E in Hin.
    - by rewrite (bool_decide_eq_false_2 _ Ha). }
  exists (f <$> links). split_and!.
  - apply Hrun.
  - apply Forall2_fmap_r, Forall_Forall2_diag, Forall_forall. intros l _. apply Hf.
  - rewrite Hrun. f_equal. rewrite <- list_fmap_compose. apply list_fmap_ext.
    intros ? l _. apply Hff.
  - intros Hnone. unfold inspect_established_receptor_connections.
    destruct (List.filter _ links) as [|l ls] eqn:E; [done|]. exfalso.
    assert (Hin : In l (List.filter (λ l, bool_decide (link_state l = adding)) links))
      by (rewrite E; by left).
    apply filter_In in Hin as [Hin Ha]. apply bool_decide_eq_true in Ha.
    rewrite Forall_forall in Hnone. by apply (Hnone l); [apply list_elem_of_In|].
Qed.

End ReceptorLinkFacts.

(** ** The reaper of work units *)

Module WorkunitReaperFacts.
Import WorkunitReaper.

Section Task.
Variable RECEPTOR_RELEASE_WORK : bool.
Variable RECEPTOR_KEEP_WORK_ON_ERROR : bool.
Variable ACTIVE_STATES : list string.
Variable ERROR_STATES : list string.

Abbreviation reaper :=
  (awx_receptor_workunit_reaper RECEPTOR_RELEASE_WORK RECEPTOR_KEEP_WORK_ON_ERROR
     ACTIVE_STATES ERROR_STATES).
Abbreviation unreleased :=
  (jobs_with_unreleased_receptor_units RECEPTOR_KEEP_WORK_ON_ERROR ACTIVE_STATES
     ERROR_STATES).

Lemma elem_of_unreleased unit_ids jobs j :
  j ∈ unreleased unit_ids jobs ↔
  j ∈ jobs
  ∧ (∃ u, work_unit_id j = Some u ∧ u ∈ unit_ids)
  ∧ job_status j ∉ ACTIVE_STATES
  ∧ (RECEPTOR_KEEP_WORK_ON_ERROR = true → job_status j ∉ ERROR_STATES).
Proof.
  unfold jobs_with_unreleased_receptor_units.
  assert (Hsel : ∀ j, (match work_unit_id j with
                       | Some u => bool_decide (u ∈ unit_ids)
                       | None => false
                       end && negb (bool_decide (job_status j ∈ ACTIVE_STATES))) = true
                      ↔ (∃ u, work_unit_id j = Some u ∧ u ∈ unit_ids)
                        ∧ job_status j ∉ ACTIVE_STATES).
  { intros x. rewrite andb_true_iff, negb_true_iff, bool_decide_eq_false.
    destruct (work_unit_id x) as [u|].
    - rewrite bool_decide_eq_true. split; [intros [? ?]; eauto|].
      intros [(u' & [= <-] & ?) ?]. done.
    - split; [by intros [? ?]|]. by intros [(u' & ? & ?) ?]. }
  destruct RECEPTOR_KEEP_WORK_ON_ERROR.
  - rewrite list_elem_of_In, !filter_In, <- list_elem_of_In, Hsel, negb_true_iff,
      bool_decide_eq_false. tauto.
  - rewrite list_elem_of_In, !filter_In, <- list_elem_of_In, Hsel.
    split; [intros (? & ? & ?); split_and!; done|tauto].
Qed.

Lemma releases_paired (js : list UnifiedJob) (tail : list effect) :
  TasksSpec.cancel_before_release tail →
  TasksSpec.cancel_before_release (concat (release <$> js) ++ tail).
Proof.
  intros Htail. induction js as [|j js IH]; [done|].
  rewrite fmap_cons. cbn [concat]. unfold release at 1.
  destruct (work_unit_id j); cbn; [by split|exact IH].
Qed.

(** X28.  [awx_receptor_workunit_reaper] releases only work of jobs that are
    not active: when [RECEPTOR_RELEASE_WORK] is off it does nothing; when on,
    a unit is released exactly when it is in the work list of receptor and
    is the unit of a job whose status is not active (and, when work is kept
    on error, not an error status); every release comes right after the
    cancellation of the same unit; and the administrative reaper is called
    last, with the work list. *)
Theorem reaper_releases_inactive_work (receptor_work_list : list string)
    (jobs : list UnifiedJob) :
  let fx := reaper receptor_work_list jobs in
  (RECEPTOR_RELEASE_WORK = false → fx = [])
  ∧ (∀ u, WorkRelease u ∈ fx ↔
          RECEPTOR_RELEASE_WORK = true ∧ u ∈ receptor_work_list
          ∧ ∃ j, j ∈ jobs ∧ work_unit_id j = Some u
                 ∧ job_status j ∉ ACTIVE_STATES
                 ∧ (RECEPTOR_KEEP_WORK_ON_ERROR = true → job_status j ∉ ERROR_STATES))
  ∧ TasksSpec.cancel_before_release fx
  ∧ (RECEPTOR_RELEASE_WORK = true →
     last fx = Some (AdministrativeWorkunitReaper receptor_work_list)).
Proof.
  cbn zeta. unfold awx_receptor_workunit_reaper.
  destruct RECEPTOR_RELEASE_WORK eqn:Hon; cbn [negb].
  2:{ split_and!; [done| |done|done]. intros u. split; [inversion 1|]. by intros [? _]. }
  split_and!; [done| | |].
  - intros u. cbn [app]. rewrite !elem_of_cons, elem_of_app, SettingCacheFacts.elem_of_concat.
    rewrite list_elem_of_singleton. split.
    + intros [?|[?|[(l & Hu & Hl)|?]]]; try done.
      apply list_elem_of_fmap in Hl as (j & -> & Hj).
      apply elem_of_unreleased in Hj as (Hj & (u' & Hunit & Hlist) & Hact & Herr).
      unfold release in Hu. rewrite Hunit in Hu.
      apply elem_of_cons in Hu as [Hu|Hu]; [done|].
      apply list_elem_of_singleton in Hu as [= ->].
      split_and!; [done|done|]. by exists j.
    + intros (_ & Hlist & j & Hj & Hunit & Hact & Herr). right. right. left.
      exists (release j). split.
      * unfold release. rewrite Hunit. right. by left.
      * apply list_elem_of_fmap_2, elem_of_unreleased. split_and!; [done| |done|done].
        by exists u.
  - cbn [app TasksSpec.cancel_before_release]. by apply releases_paired.
  - intros _. rewrite app_assoc. apply last_snoc.
Qed.

End Task.

End WorkunitReaperFacts.
